(** * rosman: reconciliation agent for RouterOS devices (package [mikrotik])

    A shallow embedding of the Go package: the declared-state records, the
    per-device connection cache, the reconciliation steps, the recursive
    backup download, the bounded key import and the scheduling step, run
    against an explicit model of the world the package talks to (the device
    behind the control-plane API, the SFTP file tree, the local file tree,
    the clock), with every external call recorded in a trace. *)

From Stdlib Require Import ZArith List String Ascii Bool Lia Arith.
From Stdlib Require Import DecimalString.
Import ListNotations.
Local Open Scope string_scope.
Local Open Scope Z_scope.

(** ** Go's [int64]: two's complement with wrap-around *)

Module Int64.

Definition min_int : Z := - 2 ^ 63.
Definition max_int : Z := 2 ^ 63 - 1.

Definition in_range (z : Z) : Prop := min_int <= z <= max_int.

(** The value of an arbitrary integer once stored in an [int64]. *)
Definition wrap (z : Z) : Z := (z + 2 ^ 63) mod 2 ^ 64 - 2 ^ 63.

Definition add (a b : Z) : Z := wrap (a + b).
Definition sub (a b : Z) : Z := wrap (a - b).
Definition mul (a b : Z) : Z := wrap (a * b).

(** Go's [/] on integers truncates toward zero and panics on a zero
    divisor; [None] is the run-time panic. *)
Definition quo (a b : Z) : option Z :=
  if b =? 0 then None else Some (wrap (Z.quot a b)).

End Int64.

(** ** Declared state (the JSON-backed records) *)

Definition TListOfStrings := list string.

Record TParam := mkParam {
  param_Name : string;
  param_Value : string;
  param_Note : string
}.
Definition TParams := list TParam.

Record TUser := mkUser {
  user_Login : string;
  user_Pass : string;
  user_Group : string;
  user_Address : string;
  user_Comment : string;
  user_Alias : string;
  user_Key : string
}.
Definition TUsers := list TUser.

Record TSchedule := mkSchedule {
  sched_Name : string;
  sched_Disabled : string;
  sched_StartDate : string;
  sched_StartTime : string;
  sched_Interval : string;
  sched_Policy : string;
  sched_Comment : string;
  sched_Script : string;
  sched_Alias : string;
  sched_OnEvent : string
}.
Definition TSchedules := list TSchedule.

Record TTask := mkTask {
  task_Name : string;
  task_Start : Z;
  task_Delay : Z;
  task_Expired : Z;
  task_Alert : Z;
  task_Note : string
}.
Definition TTasks := list TTask.

Record TGroup := mkGroup {
  group_Name : string;
  group_Skin : string;
  group_Comment : string;
  group_Policy : string
}.
Definition TGroups := list TGroup.

(** [THost] without its [connections] field, which is the only part of a
    host that changes after loading and lives in the run-time state below. *)
Record THost := mkHost {
  host_Name : string;
  host_IP : string;
  host_Login : string;
  host_Pass : string;
  host_PortAPI : Z;
  host_PortSSH : Z;
  host_BackupFolder : string;
  host_TaskName : string;
  host_UsersAliases : TListOfStrings;
  host_SchedulesAliases : TListOfStrings;
  host_UsersAllowed : TListOfStrings;
  host_LastSeen : Z;
  host_Task : TTask;
  host_Users : TUsers;
  host_Groups : TGroups;
  host_Schedules : TSchedules
}.

(** ** The next scheduled instant *)

(** [GetNextTime]; [now] is the value [time.Now().Unix()] read on entry.
    [None] is the integer-division panic. *)
Definition GetNextTime (host : THost) (now : Z) : option Z :=
  let start := task_Start (host_Task host) in
  let delay := task_Delay (host_Task host) in
  match Int64.quo (Int64.sub now start) delay with
  | None => None
  | Some q => Some (Int64.add (Int64.mul (Int64.add q 1) delay) start)
  end.

(** ** Strings, formatting and slash-separated paths *)

(** [%d] of [fmt.Sprintf]. *)
Definition string_of_Z (z : Z) : string := NilZero.string_of_int (Z.to_int z).

Definition starts_with (p s : string) : bool := String.prefix p s.

(** A value between double quotes, the way the log lines print names. *)
Definition quoted (s : string) : string :=
  String (ascii_of_nat 34) s ++ String (ascii_of_nat 34) EmptyString.

Definition drop_chars (n : nat) (s : string) : string :=
  substring n (String.length s - n) s.

(** [strings.Replace(s, old, new, -1)] for a non-empty [old]: the
    non-overlapping occurrences of [old], left to right. [skip] counts the
    characters of a matched occurrence still to be passed over. *)
Fixpoint replace_from (old new : string) (skip : nat) (s : string) : string :=
  match s with
  | EmptyString => EmptyString
  | String c s' =>
      match skip with
      | S k => replace_from old new k s'
      | O =>
          if starts_with old s
          then new ++ replace_from old new (String.length old - 1) s'
          else String c (replace_from old new 0 s')
      end
  end.

Definition Replace (s old new : string) : string := replace_from old new 0 s.

(** [strings.Split(s, "/")]. *)
Fixpoint split_slash (s : string) : list string :=
  match s with
  | EmptyString => [EmptyString]
  | String c s' =>
      if Ascii.eqb c "/"%char then EmptyString :: split_slash s'
      else match split_slash s' with
           | h :: t => String c h :: t
           | [] => [String c EmptyString]
           end
  end.

(** The element-wise part of [filepath.Clean]: empty and [.] elements go,
    [..] takes back the element before it. [out] is reversed. *)
Fixpoint clean_pieces (rooted : bool) (out ps : list string) : list string :=
  match ps with
  | [] => rev out
  | p :: ps' =>
      if (p =? "")%string || (p =? ".")%string then clean_pieces rooted out ps'
      else if (p =? "..")%string then
        match out with
        | q :: out' =>
            if (q =? "..")%string then clean_pieces rooted (p :: out) ps'
            else clean_pieces rooted out' ps'
        | [] =>
            if rooted then clean_pieces rooted [] ps'
            else clean_pieces rooted [p] ps'
        end
      else clean_pieces rooted (p :: out) ps'
  end.

Definition is_rooted (s : string) : bool := starts_with "/" s.

(** [filepath.Clean] on a slash-separated system. *)
Definition Clean (s : string) : string :=
  let body := String.concat "/" (clean_pieces (is_rooted s) [] (split_slash s)) in
  if is_rooted s then "/" ++ body
  else if (body =? "")%string then "." else body.

(** [filepath.Dir]: everything up to and including the last slash, cleaned. *)
Definition Dir (path : string) : string :=
  match rev (split_slash path) with
  | _ :: (_ :: _) as before => Clean (String.concat "/" (rev before) ++ "/")
  | _ => Clean ""
  end.

(** [filepath.Base]: the last element, trailing slashes removed first. *)
Definition Base (path : string) : string :=
  if (path =? "")%string then "."
  else match find (fun p => negb (p =? "")%string) (rev (split_slash path)) with
       | Some p => p
       | None => "/"
       end.

(** [filepath.ToSlash] where the separator already is the slash. *)
Definition ToSlash (path : string) : string := path.

(** ** File trees

    A file tree is an association list from resolved paths (the list of
    path elements below the root) to nodes; the root is a directory that
    needs no entry. Both the device's SFTP tree and the local tree are
    file trees; a path string is resolved from the root. *)

Inductive node :=
| NDir
| NFile (data : string).

Definition fpath := list string.
Definition FS := list (fpath * node).

Definition resolve (p : string) : fpath := clean_pieces true [] (split_slash p).

Definition fpath_eqb (a b : fpath) : bool :=
  if list_eq_dec string_dec a b then true else false.

Fixpoint fs_lookup (fs : FS) (k : fpath) : option node :=
  match fs with
  | [] => None
  | (k', n) :: fs' => if fpath_eqb k' k then Some n else fs_lookup fs' k
  end.

Definition fs_is_dir (fs : FS) (k : fpath) : bool :=
  match k with
  | [] => true
  | _ => match fs_lookup fs k with Some NDir => true | _ => false end
  end.

Definition is_dir_node (n : node) : bool :=
  match n with NDir => true | NFile _ => false end.

(** The entries directly below [k], in the order of the tree. *)
Fixpoint fs_children (fs : FS) (k : fpath) : list (string * bool) :=
  match fs with
  | [] => []
  | (k', n) :: fs' =>
      match rev k' with
      | name :: up =>
          if fpath_eqb (rev up) k then (name, is_dir_node n) :: fs_children fs' k
          else fs_children fs' k
      | [] => fs_children fs' k
      end
  end.

Definition fs_delete (fs : FS) (k : fpath) : FS :=
  filter (fun e => negb (fpath_eqb (fst e) k)) fs.

Definition fs_put (fs : FS) (k : fpath) (n : node) : FS :=
  match fs_lookup fs k with
  | Some _ => map (fun e => if fpath_eqb (fst e) k then (k, n) else e) fs
  | None => (fs ++ [(k, n)])%list
  end.

(** [MkdirAll]: every missing directory on the way down is created; a file
    in the way is an error. [done] is the part of the path already walked. *)
Fixpoint fs_mkdir_all (fs : FS) (done todo : fpath) : option FS :=
  match todo with
  | [] => Some fs
  | d :: todo' =>
      let here := (done ++ [d])%list in
      match fs_lookup fs here with
      | Some (NFile _) => None
      | Some NDir => fs_mkdir_all fs here todo'
      | None => fs_mkdir_all (fs ++ [(here, NDir)])%list here todo'
      end
  end.

(** The files of a tree, with their contents. *)
Definition fs_files (fs : FS) : list (fpath * string) :=
  flat_map (fun e => match snd e with NFile d => [(fst e, d)] | NDir => [] end) fs.

(** ** The world: device, sessions, clock, faults and trace *)

Definition error := string.

(** [tConnections]: the cached session handles of a host, [None] for nil. *)
Record tConnections := mkConnections {
  ssh : option nat;
  sftp : option nat;
  api : option nat
}.

(** What the device holds: its accounts, groups, scheduler entries, the
    imported keys (key file, login) and the file tree served over SFTP. *)
Record Device := mkDevice {
  live_users : list TUser;
  live_groups : list TGroup;
  live_schedules : list TSchedule;
  ssh_keys : list (string * string);
  remote_fs : FS
}.

(** The sessions that are open on the wire, per protocol. *)
Record Wire := mkWire {
  wire_ssh : list nat;
  wire_sftp : list nat;
  wire_api : list nat
}.

(** Every call that leaves the package. *)
Inductive call :=
| CDialAPI (address login pass : string)
| CDialSSH (address user pass : string)
| CNewSFTP (over : nat)
| CApiRun (sentence : list string)
| CApiClose (h : nat)
| CSftpClose (h : nat)
| CSshClose (h : nat)
| CSftpReadDir (p : string)
| CSftpOpen (p : string)
| CSftpCreate (p : string)
| CSftpRemove (p : string)
| CSftpMkdirAll (p : string)
| CSftpFileClose (p : string)
| COsOpen (p : string)
| COsMkdirAll (p : string)
| COsCreate (p : string)
| COsSync (p : string)
| COsClose (p : string)
| CCopyDown (dst src : string)
| CCopyUp (dst src : string)
| CSleep (ns : Z)
| CLog (msg : string).

(** A call with its outcome: [None] for success, the error otherwise. *)
Record event := mkEvent {
  ev_call : call;
  ev_err : option error
}.

(** The run-time state: the host's connection cache and the world around
    it. [faults k] tells whether the call issued when the trace has length
    [k] fails for a reason of the environment (network, device refusal);
    [rand_password] is the random source of [GeneratePassword]; [clock] is
    the time in nanoseconds since the epoch. *)
Record State := mkState {
  connections : tConnections;
  device : Device;
  wire : Wire;
  local_fs : FS;
  clock : Z;
  faults : nat -> bool;
  rand_password : nat -> string;
  trace : list event
}.

Definition with_connections (c : tConnections) (s : State) : State :=
  mkState c (device s) (wire s) (local_fs s) (clock s) (faults s)
          (rand_password s) (trace s).
Definition with_device (d : Device) (s : State) : State :=
  mkState (connections s) d (wire s) (local_fs s) (clock s) (faults s)
          (rand_password s) (trace s).
Definition with_wire (w : Wire) (s : State) : State :=
  mkState (connections s) (device s) w (local_fs s) (clock s) (faults s)
          (rand_password s) (trace s).
Definition with_local_fs (f : FS) (s : State) : State :=
  mkState (connections s) (device s) (wire s) f (clock s) (faults s)
          (rand_password s) (trace s).
Definition with_clock (t : Z) (s : State) : State :=
  mkState (connections s) (device s) (wire s) (local_fs s) t (faults s)
          (rand_password s) (trace s).
Definition with_trace (t : list event) (s : State) : State :=
  mkState (connections s) (device s) (wire s) (local_fs s) (clock s)
          (faults s) (rand_password s) t.

Definition with_remote_fs (f : FS) (d : Device) : Device :=
  mkDevice (live_users d) (live_groups d) (live_schedules d) (ssh_keys d) f.
Definition with_live_users (l : list TUser) (d : Device) : Device :=
  mkDevice l (live_groups d) (live_schedules d) (ssh_keys d) (remote_fs d).
Definition with_live_groups (l : list TGroup) (d : Device) : Device :=
  mkDevice (live_users d) l (live_schedules d) (ssh_keys d) (remote_fs d).
Definition with_live_schedules (l : list TSchedule) (d : Device) : Device :=
  mkDevice (live_users d) (live_groups d) l (ssh_keys d) (remote_fs d).
Definition with_ssh_keys (l : list (string * string)) (d : Device) : Device :=
  mkDevice (live_users d) (live_groups d) (live_schedules d) l (remote_fs d).

Definition record (c : call) (o : option error) (s : State) : State :=
  with_trace (trace s ++ [mkEvent c o])%list s.

(** ** Computations: state, Go errors, and the two ways of not returning *)

Inductive abort :=
| Panic (msg : string)
| OutOfFuel.

Inductive res (A : Type) :=
| Ok (a : A)
| Err (e : error)
| Abort (why : abort).
Arguments Ok {A} a.
Arguments Err {A} e.
Arguments Abort {A} why.

Definition M (A : Type) : Type := State -> State * res A.

Definition ret {A} (a : A) : M A := fun s => (s, Ok a).

Definition bind {A B} (m : M A) (f : A -> M B) : M B :=
  fun s =>
    match m s with
    | (s', Ok a) => f a s'
    | (s', Err e) => (s', Err e)
    | (s', Abort w) => (s', Abort w)
    end.

Definition fail {A} (e : error) : M A := fun s => (s, Err e).

Notation "x <- m ;; k" := (bind m (fun x => k))
  (at level 61, m at next level, right associativity).
Notation "m ;; k" := (bind m (fun _ => k))
  (at level 61, right associativity).

(** [for _, x := range xs { body }] where the body leaves the function only
    by returning an error. *)
Fixpoint for_range {A} (xs : list A) (body : A -> M unit) : M unit :=
  match xs with
  | [] => ret tt
  | x :: xs' => body x ;; for_range xs' body
  end.

Definition injected : error := "i/o timeout".

(** An external call: it fails when the environment says so, otherwise it
    has the effect [sem] on the world; either way it is recorded. *)
Definition extern {A} (c : call) (sem : State -> State * (error + A)) : M A :=
  fun s =>
    if faults s (List.length (trace s)) then (record c (Some injected) s, Err injected)
    else match sem s with
         | (s', inl e) => (record c (Some e) s', Err e)
         | (s', inr a) => (record c None s', Ok a)
         end.

(** A call whose error, if any, the package throws away. *)
Definition extern_ {A} (c : call) (sem : State -> State * A) : M A :=
  fun s => let (s', a) := sem s in (record c None s', Ok a).

Definition log_Println (msg : string) : M unit :=
  extern_ (CLog msg) (fun s => (s, tt)).

(** [time.Sleep d], [d] in nanoseconds: returns at once when [d <= 0]. *)
Definition time_Sleep (d : Z) : M unit :=
  extern_ (CSleep d) (fun s => (with_clock (clock s + Z.max 0 d) s, tt)).

(** [time.Now().Unix()]. *)
Definition time_Now_Unix (s : State) : Z := clock s / 1000000000.

Definition Millisecond : Z := 1000000.
Definition Second : Z := 1000000000.

(** [if err != nil { ... } ...]: what follows a success and what follows
    a Go error. A panic or an exhausted budget is not an error value and
    goes through. *)
Definition handle {A B} (m : M A) (ok : A -> M B) (err : error -> M B) : M B :=
  fun s =>
    match m s with
    | (s', Ok a) => ok a s'
    | (s', Err e) => err e s'
    | (s', Abort w) => (s', Abort w)
    end.

(** ** The device behind the control-plane API *)

(** A reply: the [Re] sentences, each with its [Map]. *)
Definition Sentence := list (string * string).
Definition Reply := list Sentence.

(** [el.Map[key]]: the empty string for a missing key. *)
Fixpoint map_get (m : Sentence) (key : string) : string :=
  match m with
  | [] => ""
  | (k, v) :: m' => if (k =? key)%string then v else map_get m' key
  end.

(** The value of the word [=key=value] of a command sentence. *)
Definition word_arg (key : string) (words : list string) : string :=
  let pre := "=" ++ key ++ "=" in
  match find (starts_with pre) words with
  | Some w => drop_chars (String.length pre) w
  | None => ""
  end.

Definition user_re (u : TUser) : Sentence :=
  [("name", user_Login u); ("group", user_Group u);
   ("address", user_Address u); ("comment", user_Comment u)].

Definition group_re (g : TGroup) : Sentence :=
  [("name", group_Name g); ("skin", group_Skin g);
   ("comment", group_Comment g); ("policy", group_Policy g)].

Definition schedule_re (c : TSchedule) : Sentence :=
  [("name", sched_Name c); ("disabled", sched_Disabled c);
   ("start-date", sched_StartDate c); ("start-time", sched_StartTime c);
   ("interval", sched_Interval c); ("policy", sched_Policy c);
   ("comment", sched_Comment c); ("on-event", sched_OnEvent c)].

Definition has_user (d : Device) (n : string) : bool :=
  existsb (fun u => (user_Login u =? n)%string) (live_users d).
Definition has_group (d : Device) (n : string) : bool :=
  existsb (fun g => (group_Name g =? n)%string) (live_groups d).
Definition has_schedule (d : Device) (n : string) : bool :=
  existsb (fun c => (sched_Name c =? n)%string) (live_schedules d).

Definition no_such_item : error := "no such item".
Definition already_exists : error := "failure: already have such name".

(** What the device writes into an export: one line for each group,
    account and scheduler entry; a backup is the same state in the
    device's own format. *)
Definition export_text (d : Device) : string :=
  String.concat "; "
    (List.app
       (map (fun g => "/user group add name=" ++ group_Name g) (live_groups d))
       (List.app
          (map (fun u => "/user add name=" ++ user_Login u) (live_users d))
          (map (fun c => "/system scheduler add name=" ++ sched_Name c)
               (live_schedules d)))).

Definition backup_data (d : Device) : string := "BACKUP2 " ++ export_text d.

(** The device writes a file of its own tree: into a directory that
    exists, and not over a directory. *)
Definition device_write (p data : string) (d : Device) : Device * (error + Reply) :=
  let k := resolve p in
  if fs_is_dir (remote_fs d) k then (d, inl "failure: is a directory")
  else if fs_is_dir (remote_fs d) (removelast k)
       then (with_remote_fs (fs_put (remote_fs d) k (NFile data)) d, inr [])
       else (d, inl "failure: directory does not exist").

(** The device's answer to one command sentence: [print] lists the live
    entries, [add] appends an entry unless the name is taken, [remove]
    deletes the entries of that name, [import] attaches an uploaded key
    file to an existing account, [export] and [backup save] write the
    file [<name>.rsc] and [<name>.backup]. *)
Definition api_exec (sentence : list string) (d : Device)
  : Device * (error + Reply) :=
  match sentence with
  | [] => (d, inl "empty sentence")
  | cmd :: args =>
    if (cmd =? "/user/print")%string then
      (d, inr (map user_re (live_users d)))
    else if (cmd =? "/user/group/print")%string then
      (d, inr (map group_re (live_groups d)))
    else if (cmd =? "/system/scheduler/print")%string then
      (d, inr (map schedule_re (live_schedules d)))
    else if (cmd =? "/user/add")%string then
      let n := word_arg "name" args in
      if has_user d n then (d, inl already_exists)
      else (with_live_users
              (live_users d ++
               [mkUser n (word_arg "password" args) (word_arg "group" args)
                       (word_arg "address" args) (word_arg "comment" args)
                       "" ""])%list d, inr [])
    else if (cmd =? "/user/group/add")%string then
      let n := word_arg "name" args in
      if has_group d n then (d, inl already_exists)
      else (with_live_groups
              (live_groups d ++
               [mkGroup n (word_arg "skin" args) (word_arg "comment" args)
                        (word_arg "policy" args)])%list d, inr [])
    else if (cmd =? "/system/scheduler/add")%string then
      let n := word_arg "name" args in
      if has_schedule d n then (d, inl already_exists)
      else (with_live_schedules
              (live_schedules d ++
               [mkSchedule n (word_arg "disabled" args)
                           (word_arg "start-date" args)
                           (word_arg "start-time" args)
                           (word_arg "interval" args)
                           (word_arg "policy" args)
                           (word_arg "comment" args) "" ""
                           (word_arg "on-event" args)])%list d, inr [])
    else if (cmd =? "/user/remove")%string then
      let n := word_arg "numbers" args in
      if has_user d n
      then (with_live_users
              (filter (fun u => negb (user_Login u =? n)%string) (live_users d))
              d, inr [])
      else (d, inl no_such_item)
    else if (cmd =? "/user/group/remove")%string then
      let n := word_arg "numbers" args in
      if has_group d n
      then (with_live_groups
              (filter (fun g => negb (group_Name g =? n)%string) (live_groups d))
              d, inr [])
      else (d, inl no_such_item)
    else if (cmd =? "/system/scheduler/remove")%string then
      let n := word_arg "numbers" args in
      if has_schedule d n
      then (with_live_schedules
              (filter (fun c => negb (sched_Name c =? n)%string)
                      (live_schedules d))
              d, inr [])
      else (d, inl no_such_item)
    else if (cmd =? "/user/ssh-keys/import")%string then
      let f := word_arg "public-key-file" args in
      let u := word_arg "user" args in
      match fs_lookup (remote_fs d) (resolve f) with
      | Some (NFile _) =>
          if has_user d u
          then (with_ssh_keys (ssh_keys d ++ [(f, u)])%list d, inr [])
          else (d, inl no_such_item)
      | _ => (d, inl "failure: unable to load key file")
      end
    else if (cmd =? "/export")%string then
      device_write (word_arg "file" args ++ ".rsc") (export_text d) d
    else if (cmd =? "/system/backup/save")%string then
      device_write (word_arg "name" args ++ ".backup") (backup_data d) d
    else (d, inl "no such command")
  end.

Definition file_missing : error := "file does not exist".

(** The file operations, on a tree. *)
Definition tree_ReadDir (fs : FS) (p : string) : error + list (string * bool) :=
  if fs_is_dir fs (resolve p) then inr (fs_children fs (resolve p))
  else inl file_missing.

Definition tree_Open (fs : FS) (p : string) : error + unit :=
  match fs_lookup fs (resolve p) with
  | Some (NFile _) => inr tt
  | _ => inl file_missing
  end.

Definition tree_Create (fs : FS) (p : string) : FS * (error + unit) :=
  let k := resolve p in
  if fs_is_dir fs k then (fs, inl "is a directory")
  else if fs_is_dir fs (removelast k) then (fs_put fs k (NFile ""), inr tt)
  else (fs, inl file_missing).

Definition tree_Remove (fs : FS) (p : string) : FS * (error + unit) :=
  let k := resolve p in
  match fs_lookup fs k with
  | Some (NFile _) => (fs_delete fs k, inr tt)
  | Some NDir =>
      match fs_children fs k with
      | [] => (fs_delete fs k, inr tt)
      | _ => (fs, inl "directory not empty")
      end
  | None => (fs, inl file_missing)
  end.

Definition tree_MkdirAll (fs : FS) (p : string) : FS * (error + unit) :=
  match fs_mkdir_all fs [] (resolve p) with
  | Some fs' => (fs', inr tt)
  | None => (fs, inl "not a directory")
  end.

(** [io.Copy] between two open files of two trees. *)
Definition tree_Copy (from to : FS) (src dst : string) : FS * (error + unit) :=
  match fs_lookup from (resolve src) with
  | Some (NFile data) => (fs_put to (resolve dst) (NFile data), inr tt)
  | _ => (to, inl file_missing)
  end.

(** ** The clients: one external call each *)

Definition fresh (s : State) : nat := List.length (trace s).

Definition wire_add_ssh (h : nat) (w : Wire) : Wire :=
  mkWire (wire_ssh w ++ [h])%list (wire_sftp w) (wire_api w).
Definition wire_add_sftp (h : nat) (w : Wire) : Wire :=
  mkWire (wire_ssh w) (wire_sftp w ++ [h])%list (wire_api w).
Definition wire_add_api (h : nat) (w : Wire) : Wire :=
  mkWire (wire_ssh w) (wire_sftp w) (wire_api w ++ [h])%list.
Definition drop_handle (h : nat) (l : list nat) : list nat :=
  filter (fun x => negb (Nat.eqb x h)) l.
Definition wire_del_ssh (h : nat) (w : Wire) : Wire :=
  mkWire (drop_handle h (wire_ssh w)) (wire_sftp w) (wire_api w).
Definition wire_del_sftp (h : nat) (w : Wire) : Wire :=
  mkWire (wire_ssh w) (drop_handle h (wire_sftp w)) (wire_api w).
Definition wire_del_api (h : nat) (w : Wire) : Wire :=
  mkWire (wire_ssh w) (wire_sftp w) (drop_handle h (wire_api w)).

(** [routeros.Dial]. *)
Definition routeros_Dial (address login pass : string) : M nat :=
  extern (CDialAPI address login pass)
         (fun s => (with_wire (wire_add_api (fresh s) (wire s)) s, inr (fresh s))).

(** [ssh.Dial "tcp"] with password authentication. *)
Definition ssh_Dial (address user pass : string) : M nat :=
  extern (CDialSSH address user pass)
         (fun s => (with_wire (wire_add_ssh (fresh s) (wire s)) s, inr (fresh s))).

(** [sftp.NewClient]. *)
Definition sftp_NewClient (conn : nat) : M nat :=
  extern (CNewSFTP conn)
         (fun s => (with_wire (wire_add_sftp (fresh s) (wire s)) s, inr (fresh s))).

Definition api_Close (h : nat) : M unit :=
  extern_ (CApiClose h) (fun s => (with_wire (wire_del_api h (wire s)) s, tt)).
Definition sftp_Close (h : nat) : M unit :=
  extern_ (CSftpClose h) (fun s => (with_wire (wire_del_sftp h (wire s)) s, tt)).
Definition ssh_Close (h : nat) : M unit :=
  extern_ (CSshClose h) (fun s => (with_wire (wire_del_ssh h (wire s)) s, tt)).

(** [connApi.Run(sentence...)]. *)
Definition api_Run (connApi : nat) (sentence : list string) : M Reply :=
  extern (CApiRun sentence)
         (fun s => let (d, r) := api_exec sentence (device s) in (with_device d s, r)).

Definition on_remote {A} (f : FS -> FS * (error + A)) (s : State)
  : State * (error + A) :=
  let (fs, r) := f (remote_fs (device s)) in
  (with_device (with_remote_fs fs (device s)) s, r).

Definition on_local {A} (f : FS -> FS * (error + A)) (s : State)
  : State * (error + A) :=
  let (fs, r) := f (local_fs s) in (with_local_fs fs s, r).

Definition sftp_ReadDir (connSftp : nat) (p : string) : M (list (string * bool)) :=
  extern (CSftpReadDir p) (on_remote (fun fs => (fs, tree_ReadDir fs p))).
Definition sftp_Open (connSftp : nat) (p : string) : M unit :=
  extern (CSftpOpen p) (on_remote (fun fs => (fs, tree_Open fs p))).
Definition sftp_Create (connSftp : nat) (p : string) : M unit :=
  extern (CSftpCreate p) (on_remote (fun fs => tree_Create fs p)).
Definition sftp_Remove (connSftp : nat) (p : string) : M unit :=
  extern (CSftpRemove p) (on_remote (fun fs => tree_Remove fs p)).
Definition sftp_MkdirAll (connSftp : nat) (p : string) : M unit :=
  extern (CSftpMkdirAll p) (on_remote (fun fs => tree_MkdirAll fs p)).
Definition sftp_FileClose (p : string) : M unit :=
  extern (CSftpFileClose p) (fun s => (s, inr tt)).

Definition os_Open (p : string) : M unit :=
  extern (COsOpen p) (on_local (fun fs => (fs, tree_Open fs p))).
Definition os_MkdirAll (p : string) : M unit :=
  extern (COsMkdirAll p) (on_local (fun fs => tree_MkdirAll fs p)).
Definition os_Create (p : string) : M unit :=
  extern (COsCreate p) (on_local (fun fs => tree_Create fs p)).
Definition os_Sync (p : string) : M unit :=
  extern (COsSync p) (fun s => (s, inr tt)).
Definition os_Close (p : string) : M unit :=
  extern (COsClose p) (fun s => (s, inr tt)).

(** [io.Copy(fileDst, fileSrc)], remote file to local file. *)
Definition io_CopyDown (dst src : string) : M unit :=
  extern (CCopyDown dst src)
         (fun s =>
            let (fs, r) := tree_Copy (remote_fs (device s)) (local_fs s) src dst in
            (with_local_fs fs s, r)).

(** [io.Copy(fileDst, fileSrc)], local file to remote file. *)
Definition io_CopyUp (dst src : string) : M unit :=
  extern (CCopyUp dst src)
         (fun s =>
            let (fs, r) := tree_Copy (local_fs s) (remote_fs (device s)) src dst in
            (with_device (with_remote_fs fs (device s)) s, r)).

(** [user.GeneratePassword(512)]: a string drawn from the random source. *)
Definition GeneratePassword : M string :=
  fun s => (s, Ok (rand_password s (fresh s))).

(** ** The package *)

Definition set_ssh (h : option nat) : M unit :=
  fun s => (with_connections
              (mkConnections h (sftp (connections s)) (api (connections s))) s,
            Ok tt).
Definition set_sftp (h : option nat) : M unit :=
  fun s => (with_connections
              (mkConnections (ssh (connections s)) h (api (connections s))) s,
            Ok tt).
Definition set_api (h : option nat) : M unit :=
  fun s => (with_connections
              (mkConnections (ssh (connections s)) (sftp (connections s)) h) s,
            Ok tt).

Definition tag (host : THost) : string := "[" ++ host_IP host ++ "] ".

Definition endpoint (ip : string) (port : Z) : string :=
  ip ++ ":" ++ string_of_Z port.

Definition GetConnectionSSH (host : THost) : M nat :=
  fun s =>
    match ssh (connections s) with
    | None =>
        (log_Println (tag host ++ "connection via SSH") ;;
         h <- ssh_Dial (endpoint (host_IP host) (host_PortSSH host))
                       (host_Login host) (host_Pass host) ;;
         set_ssh (Some h) ;;
         ret h) s
    | Some h => (s, Ok h)
    end.

Definition GetConnectionSFTP (host : THost) : M nat :=
  fun s =>
    match sftp (connections s) with
    | None =>
        (connSSH <- GetConnectionSSH host ;;
         log_Println (tag host ++ "connection via SFTP") ;;
         h <- sftp_NewClient connSSH ;;
         set_sftp (Some h) ;;
         ret h) s
    | Some h => (s, Ok h)
    end.

Definition GetConnectionAPI (host : THost) : M nat :=
  fun s =>
    match api (connections s) with
    | None =>
        (log_Println (tag host ++ "connection via API") ;;
         h <- routeros_Dial (endpoint (host_IP host) (host_PortAPI host))
                            (host_Login host) (host_Pass host) ;;
         set_api (Some h) ;;
         ret h) s
    | Some h => (s, Ok h)
    end.

Definition Disconnect (host : THost) : M unit :=
  (fun s =>
     match api (connections s) with
     | Some h =>
         (log_Println (tag host ++ "disconnection via API") ;;
          api_Close h ;; set_api None) s
     | None => (s, Ok tt)
     end) ;;
  (fun s =>
     match sftp (connections s) with
     | Some h =>
         (log_Println (tag host ++ "disconnection via SFTP") ;;
          sftp_Close h ;; set_sftp None) s
     | None => (s, Ok tt)
     end) ;;
  (fun s =>
     match ssh (connections s) with
     | Some h =>
         (log_Println (tag host ++ "disconnection via SSH") ;;
          ssh_Close h ;; set_ssh None) s
     | None => (s, Ok tt)
     end).

(** [TParams.GetByName]. *)
Definition Params_GetByName (Params : TParams) (name : string) : M TParam :=
  match find (fun p => (param_Name p =? name)%string) Params with
  | Some p => ret p
  | None => fail "param does not exist"
  end.

(** [TListOfStrings.IsContain], [TGroups.IsContain], [TUsers.IsContain],
    [TSchedules.IsContain]. *)
Definition IsContain (l : TListOfStrings) (x : string) : bool :=
  existsb (fun element => (element =? x)%string) l.
Definition Groups_IsContain (groups : TGroups) (group : string) : bool :=
  existsb (fun element => (group_Name element =? group)%string) groups.
Definition Users_IsContain (users : TUsers) (user : string) : bool :=
  existsb (fun element => (user_Login element =? user)%string) users.
Definition Schedules_IsContain (schedules : TSchedules) (name : string) : bool :=
  existsb (fun schedule => (sched_Name schedule =? name)%string) schedules.

Definition GetUsersAllowed (host : THost) : TListOfStrings :=
  ([host_Login host] ++ host_UsersAllowed host
   ++ map user_Login (host_Users host))%list.

Definition GetUsers (host : THost) : M (list TUser) :=
  connApi <- GetConnectionAPI host ;;
  res <- api_Run connApi ["/user/print"] ;;
  ret (map (fun el => mkUser (map_get el "name") "" (map_get el "group")
                             (map_get el "address") (map_get el "comment")
                             "" "") res).

Definition GetSchedules (host : THost) : M (list TSchedule) :=
  connApi <- GetConnectionAPI host ;;
  res <- api_Run connApi ["/system/scheduler/print"] ;;
  ret (map (fun el => mkSchedule (map_get el "name") ""
                                 (map_get el "start-date")
                                 (map_get el "start-time")
                                 (map_get el "interval") (map_get el "policy")
                                 (map_get el "comment") "" ""
                                 (map_get el "on-event")) res).

Definition GetGroups (host : THost) : M TGroups :=
  connApi <- GetConnectionAPI host ;;
  res <- api_Run connApi ["/user/group/print"] ;;
  ret (map (fun el => mkGroup (map_get el "name") (map_get el "skin")
                              (map_get el "comment") (map_get el "policy")) res).

Definition RemoveUser (host : THost) (user : string) : M unit :=
  connApi <- GetConnectionAPI host ;;
  log_Println (tag host ++ "delete user " ++ quoted user) ;;
  api_Run connApi ["/user/remove"; "=numbers=" ++ user] ;;
  ret tt.

Definition RemoveGroup (host : THost) (group : string) : M unit :=
  connApi <- GetConnectionAPI host ;;
  log_Println (tag host ++ "delete group " ++ quoted group) ;;
  api_Run connApi ["/user/group/remove"; "=numbers=" ++ group] ;;
  ret tt.

Definition RemoveSchedule (host : THost) (schedule : string) : M unit :=
  connApi <- GetConnectionAPI host ;;
  log_Println (tag host ++ "delete schedule " ++ quoted schedule) ;;
  api_Run connApi ["/system/scheduler/remove"; "=numbers=" ++ schedule] ;;
  ret tt.

Definition IsContainUser (host : THost) (user : TUser) : M bool :=
  handle (GetUsers host)
         (fun usersInside =>
            ret (existsb (fun userInside =>
                            (user_Login userInside =? user_Login user)%string)
                         usersInside))
         (fun _ => ret false).

Definition IsContainGroup (host : THost) (group : TGroup) : M bool :=
  handle (GetGroups host)
         (fun groupsInside =>
            ret (existsb (fun groupInside =>
                            (group_Name groupInside =? group_Name group)%string)
                         groupsInside))
         (fun _ => ret false).

Definition IsContainSchedule (host : THost) (schedule : TSchedule) : M bool :=
  handle (GetSchedules host)
         (fun schedulesInside =>
            ret (existsb (fun scheduleInside =>
                            (sched_Name scheduleInside =? sched_Name schedule)%string)
                         schedulesInside))
         (fun _ => ret false).

Definition user_add_sentence (user : TUser) : list string :=
  ["/user/add"; "=name=" ++ user_Login user; "=password=" ++ user_Pass user;
   "=group=" ++ user_Group user; "=address=" ++ user_Address user;
   "=comment=" ++ user_Comment user; "=disabled=no"].

Definition set_Pass (user : TUser) (pass : string) : TUser :=
  mkUser (user_Login user) pass (user_Group user) (user_Address user)
         (user_Comment user) (user_Alias user) (user_Key user).

Definition MakeUser (host : THost) (user : TUser) : M unit :=
  log_Println (tag host ++ "adding user " ++ quoted (user_Login user)) ;;
  user <- (if (user_Pass user =? "")%string
           then pass <- GeneratePassword ;;
                log_Println (tag host ++ "user " ++ quoted (user_Login user)
                             ++ " password is empty and has been generated") ;;
                ret (set_Pass user pass)
           else ret user) ;;
  connApi <- GetConnectionAPI host ;;
  api_Run connApi (user_add_sentence user) ;;
  ret tt.

Definition group_add_sentence (group : TGroup) : list string :=
  ["/user/group/add"; "=name=" ++ group_Name group; "=skin=" ++ group_Skin group;
   "=comment=" ++ group_Comment group; "=policy=" ++ group_Policy group].

Definition MakeGroup (host : THost) (group : TGroup) : M unit :=
  log_Println (tag host ++ "adding group " ++ quoted (group_Name group)) ;;
  connApi <- GetConnectionAPI host ;;
  api_Run connApi (group_add_sentence group) ;;
  ret tt.

Definition schedule_add_sentence (schedule : TSchedule) : list string :=
  ["/system/scheduler/add";
   "=name=" ++ sched_Name schedule;
   "=disabled=" ++ sched_Disabled schedule;
   "=start-date=" ++ sched_StartDate schedule;
   "=start-time=" ++ sched_StartTime schedule;
   "=interval=" ++ sched_Interval schedule;
   "=policy=" ++ sched_Policy schedule;
   "=comment=" ++ sched_Comment schedule;
   "=on-event=" ++ sched_OnEvent schedule].

Definition MakeSchedule (host : THost) (schedule : TSchedule) : M unit :=
  log_Println (tag host ++ "adding schedule " ++ quoted (sched_Name schedule)) ;;
  connApi <- GetConnectionAPI host ;;
  handle (api_Run connApi (schedule_add_sentence schedule))
         (fun _ => ret tt)
         (fun err => log_Println err ;; fail err).

(** [UploadKey]. The two deferred functions only name the [Close] methods
    of the files, they do not call them: nothing is closed. *)
Definition UploadKey (Params : TParams) (host : THost) (key : string) : M unit :=
  log_Println (tag host ++ "uploading key " ++ quoted key) ;;
  connSftp <- GetConnectionSFTP host ;;
  sftp_Create connSftp key ;;
  dirKeys <- Params_GetByName Params "dir_ssh-pub-keys" ;;
  os_Open (param_Value dirKeys ++ key) ;;
  io_CopyUp key (param_Value dirKeys ++ key) ;;
  ret tt.

Definition import_sentence (user : TUser) : list string :=
  ["/user/ssh-keys/import"; "=public-key-file=" ++ user_Key user;
   "=user=" ++ user_Login user].

Definition all_attempts_used : error := "CmdImportSshKeys: all attempts used".

(** The loop of [ImportSshKey], from attempt number [i], with [left]
    attempts to go. *)
Fixpoint ImportSshKey_from (host : THost) (user : TUser) (delay : Z)
         (i : Z) (left : nat) : M unit :=
  match left with
  | O => fail all_attempts_used
  | S left' =>
      connApi <- GetConnectionAPI host ;;
      time_Sleep (Int64.mul delay Millisecond) ;;
      handle (api_Run connApi (import_sentence user))
             (fun _ =>
                log_Println (tag host ++ "key " ++ quoted (user_Key user)
                             ++ " imported for user " ++ quoted (user_Login user)))
             (fun err =>
                log_Println (tag host ++ "[" ++ user_Login user ++ "] error: "
                             ++ quoted err) ;;
                log_Println (tag host ++ string_of_Z i ++ " try and "
                             ++ string_of_Z (Int64.mul i delay)
                             ++ " milisecond later") ;;
                ImportSshKey_from host user delay (Int64.add i 1) left')
  end.

Definition ImportSshKey (host : THost) (user : TUser) (delay : Z) (attempts : Z)
  : M unit :=
  log_Println (tag host ++ "try import key " ++ quoted (user_Key user)
               ++ " for user " ++ quoted (user_Login user)) ;;
  ImportSshKey_from host user delay 1 (Z.to_nat attempts).

Definition CleanUsers (host : THost) : M unit :=
  let usersPass := GetUsersAllowed host in
  users <- GetUsers host ;;
  for_range users (fun user =>
    if negb (IsContain usersPass (user_Login user))
    then RemoveUser host (user_Login user)
    else ret tt).

Definition CleanGroups (host : THost) : M unit :=
  groups <- GetGroups host ;;
  for_range groups (fun group =>
    if negb (Groups_IsContain (host_Groups host) (group_Name group))
    then RemoveGroup host (group_Name group)
    else ret tt).

Definition CleanSchedules (host : THost) : M unit :=
  schedules <- GetSchedules host ;;
  for_range schedules (fun schedule =>
    if negb (Schedules_IsContain (host_Schedules host) (sched_Name schedule))
    then RemoveSchedule host (sched_Name schedule)
    else ret tt).

Definition AddUsers_body (Params : TParams) (host : THost) (user : TUser) : M unit :=
  found <- IsContainUser host user ;;
  if found
  then log_Println (tag host ++ "host already contain user "
                    ++ quoted (user_Login user))
  else handle (MakeUser host user)
              (fun _ =>
                 if negb (user_Key user =? "")%string
                 then UploadKey Params host (user_Key user) ;;
                      ImportSshKey host user 5000 10
                 else ret tt)
              (fun err => log_Println (tag host ++ "error: " ++ quoted err)).

Definition AddUsers (Params : TParams) (host : THost) : M unit :=
  for_range (host_Users host) (AddUsers_body Params host).

Definition AddGroups_body (host : THost) (group : TGroup) : M unit :=
  found <- IsContainGroup host group ;;
  if found
  then log_Println (tag host ++ "host already contain group "
                    ++ quoted (group_Name group))
  else MakeGroup host group.

Definition AddGroups (host : THost) : M unit :=
  for_range (host_Groups host) (AddGroups_body host).

Definition AddSchedules_body (host : THost) (schedule : TSchedule) : M unit :=
  found <- IsContainSchedule host schedule ;;
  if found
  then log_Println (tag host ++ "host already contain schedule "
                    ++ quoted (sched_Name schedule))
  else MakeSchedule host schedule.

Definition AddSchedules (host : THost) : M unit :=
  for_range (host_Schedules host) (AddSchedules_body host).

Definition MakeDir (host : THost) (dir : string) : M unit :=
  connSftp <- GetConnectionSFTP host ;;
  sftp_MkdirAll connSftp dir.

Definition MakeBackupFolder (host : THost) : M unit :=
  if negb (host_BackupFolder host =? "")%string
  then MakeDir host (host_BackupFolder host)
  else ret tt.

Definition DownloadFile (host : THost) (pathSrc dirDst : string) (delete : bool)
  : M unit :=
  let file := Base pathSrc in
  let pathSrc := ToSlash (Dir pathSrc) ++ "/" ++ file in
  let pathDst := dirDst ++ "/" ++ file in
  connSftp <- GetConnectionSFTP host ;;
  sftp_Open connSftp pathSrc ;;
  os_MkdirAll dirDst ;;
  os_Create pathDst ;;
  io_CopyDown pathDst pathSrc ;;
  os_Sync pathDst ;;
  sftp_FileClose pathSrc ;;
  (if delete then sftp_Remove connSftp pathSrc else ret tt) ;;
  os_Close pathDst.

(** [DownloadFolder]; [fuel] bounds the depth of the recursion. An entry
    is a name and whether it is a directory. *)
Fixpoint DownloadFolder (fuel : nat) (host : THost) (dirSrc dirDst : string)
         (delete : bool) : M unit :=
  match fuel with
  | O => fun s => (s, Abort OutOfFuel)
  | S fuel' =>
      connSftp <- GetConnectionSFTP host ;;
      files <- sftp_ReadDir connSftp dirSrc ;;
      for_range files (fun file =>
        if snd file
        then DownloadFolder fuel' host (dirSrc ++ fst file) (dirDst ++ fst file)
                            delete
        else DownloadFile host (dirSrc ++ "/" ++ fst file) dirDst delete)
  end.

Definition StartManager (Params : TParams) (fuel : nat) (host : THost) : M unit :=
  dir <- Params_GetByName Params "dir_backup" ;;
  let dirValue := Replace (param_Value dir) "{host.name}" (host_Name host) in
  let dirValue := Replace dirValue "{host.ip}" (host_IP host) in
  log_Println (tag host ++ "sequence for cleaning users") ;;
  CleanUsers host ;;
  log_Println (tag host ++ "sequence for cleaning groups") ;;
  CleanGroups host ;;
  log_Println (tag host ++ "sequence for cleaning schedules") ;;
  CleanSchedules host ;;
  log_Println (tag host ++ "sequence for adding groups") ;;
  AddGroups host ;;
  log_Println (tag host ++ "sequence for adding users") ;;
  AddUsers Params host ;;
  log_Println (tag host ++ "sequence for adding backup folder") ;;
  MakeBackupFolder host ;;
  log_Println (tag host ++ "sequence for adding schedules") ;;
  AddSchedules host ;;
  log_Println (tag host ++ "sequence for backup directory") ;;
  DownloadFolder fuel host (host_BackupFolder host) dirValue true ;;
  Disconnect host.

Definition divide_by_zero : string := "runtime error: integer divide by zero".

(** One pass through the body of [Run], up to its call of itself. The two
    readings of the clock after a successful cycle, in [GetNextTime] and in
    [Run], are one reading of the state: no call separates them. *)
Definition Run_once (Params : TParams) (fuel : nat) (host : THost) : M unit :=
  handle (StartManager Params fuel host)
         (fun _ s =>
            match GetNextTime host (time_Now_Unix s) with
            | None => (s, Abort (Panic divide_by_zero))
            | Some next =>
                time_Sleep (Int64.mul (Int64.sub next (time_Now_Unix s)) Second) s
            end)
         (fun err =>
            log_Println (tag host ++ "manager error: " ++ quoted err) ;;
            time_Sleep (Int64.mul (task_Expired (host_Task host)) Second)).

(** [Run] calls itself for ever; [cycles] is how many passes are followed. *)
Fixpoint Run (cycles : nat) (Params : TParams) (fuel : nat) (host : THost)
  : M unit :=
  match cycles with
  | O => fun s => (s, Abort OutOfFuel)
  | S cycles' => Run_once Params fuel host ;; Run cycles' Params fuel host
  end.

(** ** Concrete hosts and worlds used in the examples below *)

Definition host_of_task (task : TTask) : THost :=
  mkHost "r1" "10.0.0.1" "admin" "pw" 8728 22 "" (task_Name task)
         [] [] [] 0 task [] [] [].

Definition hourly : TTask := mkTask "hourly" 0 3600 600 0 "".

Definition quiet_world (d : Device) (files : FS) (bad : nat -> bool) : State :=
  mkState (mkConnections None None None) d (mkWire [] [] []) files
          5000000000000 bad (fun _ => "generated") [].

Definition admin : TUser := mkUser "admin" "" "full" "" "" "" "".
Definition alice : TUser := mkUser "alice" "secret" "full" "" "" "staff" "".

Definition main_params : TParams :=
  [mkParam "dir_backup" "/srv/{host.name}/" "";
   mkParam "dir_ssh-pub-keys" "/keys/" ""].

(** A host that declares one user and nothing else, on a device that has
    only the admin account; the thirteenth event of its cycle, the
    user-creation command, is made to fail. *)
Definition host_one_user : THost :=
  mkHost "r1" "10.0.0.1" "admin" "pw" 8728 22 "" "hourly"
         ["staff"] [] [] 0 hourly [alice] [] [].

Definition world_add_fails : State :=
  quiet_world (mkDevice [admin] [] [] [] []) [] (fun k => Nat.eqb k 12).

Definition cycle_add_fails : State * res unit :=
  StartManager main_params 5 host_one_user world_add_fails.

(** ** Reading a trace *)

Definition is_log (c : call) : bool :=
  match c with CLog _ => true | _ => false end.

Definition only_logs (evs : list event) : Prop :=
  Forall (fun ev => is_log (ev_call ev) = true) evs.

(** An event that cannot have ended a computation that absorbs the
    failures of the calls [absorbed]: a success, or a failure of such a
    call. *)
Definition quiet (absorbed : call -> bool) (ev : event) : Prop :=
  ev_err ev = None \/ absorbed (ev_call ev) = true.

(** In the events [evs] of a computation that ended with [r]: a failed
    call that is not one of [absorbed] is followed by log lines only, and
    its error is the result. *)
Definition fatal_last {A} (absorbed : call -> bool) (evs : list event)
           (r : res A) : Prop :=
  forall pre ev post e,
    evs = (pre ++ ev :: post)%list ->
    ev_err ev = Some e -> absorbed (ev_call ev) = false ->
    only_logs post /\ r = Err e.

Definition disciplined {A} (absorbed : call -> bool) (m : M A) : Prop :=
  forall s s' r, m s = (s', r) ->
    exists evs, trace s' = (trace s ++ evs)%list /\ fatal_last absorbed evs r.

Definition lenient {A} (absorbed : call -> bool) (m : M A) : Prop :=
  forall s s' r, m s = (s', r) ->
    exists evs, trace s' = (trace s ++ evs)%list /\ Forall (quiet absorbed) evs.

(** A computation that absorbs no failure: whatever call fails in it, only
    log lines follow and the error of the call is the result. *)
Definition no_call (c : call) : bool := false.

Definition strict {A} (m : M A) : Prop := disciplined no_call m.

(** The key-import command, the one call that [ImportSshKey] tries
    again. *)
Definition is_import (c : call) : bool :=
  match c with
  | CApiRun (cmd :: _) => (cmd =? "/user/ssh-keys/import")%string
  | _ => false
  end.

(** The directory the backups of a host are downloaded to. *)
Definition backup_target (dir : TParam) (host : THost) : string :=
  Replace (Replace (param_Value dir) "{host.name}" (host_Name host))
          "{host.ip}" (host_IP host).

(** The eight steps of a cycle in the order of [StartManager], each with
    the line logged before it, and their run: a step is not started once
    a step before it has returned an error. *)
Definition cycle_steps (Params : TParams) (fuel : nat) (host : THost)
           (dir : string) : list (string * M unit) :=
  [("sequence for cleaning users", CleanUsers host);
   ("sequence for cleaning groups", CleanGroups host);
   ("sequence for cleaning schedules", CleanSchedules host);
   ("sequence for adding groups", AddGroups host);
   ("sequence for adding users", AddUsers Params host);
   ("sequence for adding backup folder", MakeBackupFolder host);
   ("sequence for adding schedules", AddSchedules host);
   ("sequence for backup directory",
    DownloadFolder fuel host (host_BackupFolder host) dir true)].

Fixpoint run_steps (host : THost) (steps : list (string * M unit)) : M unit :=
  match steps with
  | [] => ret tt
  | (msg, step) :: rest =>
      log_Println (tag host ++ msg) ;; step ;; run_steps host rest
  end.

(** A computation that is exactly one external call [c]. *)
Definition one_call {A} (c : call) (m : M A) : Prop :=
  forall s s' r, m s = (s', r) ->
    exists o, trace s' = (trace s ++ [mkEvent c o])%list /\
              match r with
              | Ok _ => o = None
              | Err e => o = Some e
              | Abort _ => False
              end.

(** A device with an account nobody declared, on which the group query of
    the cycle (event 7) fails, after the account has been removed. *)
Definition intruder : TUser := mkUser "intruder" "" "full" "" "" "" "".

Definition world_fails_late : State :=
  quiet_world (mkDevice [admin; intruder] [] [] [] []) [] (fun k => Nat.eqb k 7).

Definition cycle_fails_late : State * res unit :=
  Run_once main_params 5 host_one_user world_fails_late.

(** A world in which nothing fails, and one in which the control-plane
    dial of the cycle (event 2) fails. *)
Definition world_all_well : State :=
  quiet_world (mkDevice [admin] [] [] [] []) [] (fun _ => false).

Definition world_dial_fails : State :=
  quiet_world (mkDevice [admin; intruder] [] [] [] []) [] (fun k => Nat.eqb k 2).

(** The largest number of seconds that fits a [time.Duration]. *)
Definition max_seconds : Z := 9223372036.

(** The command sentences of a run of events, in order. *)
Definition commands (evs : list event) : list (list string) :=
  flat_map (fun ev => match ev_call ev with CApiRun sen => [sen] | _ => [] end) evs.

(** A command that changes the accounts, groups or scheduler entries. *)
Definition is_change (sen : list string) : bool :=
  match sen with
  | cmd :: _ =>
      (cmd =? "/user/add")%string || (cmd =? "/user/group/add")%string
      || (cmd =? "/system/scheduler/add")%string
      || (cmd =? "/user/remove")%string || (cmd =? "/user/group/remove")%string
      || (cmd =? "/system/scheduler/remove")%string
  | [] => false
  end.

(** The changes issued in a run of events: the mutations of live state. *)
Definition changes (evs : list event) : list (list string) :=
  filter is_change (commands evs).

Definition remove_sentence (cmd n : string) : list string :=
  [cmd; "=numbers=" ++ n].

(** The live names of each kind. *)
Definition live_logins (s : State) : list string :=
  map user_Login (live_users (device s)).
Definition live_group_names (s : State) : list string :=
  map group_Name (live_groups (device s)).
Definition live_schedule_names (s : State) : list string :=
  map sched_Name (live_schedules (device s)).

(** A step from [s] to [s'] that issued no change: the live entries and
    the fault schedule are as before. *)
Definition inert_step (s s' : State) : Prop :=
  faults s' = faults s /\
  live_users (device s') = live_users (device s) /\
  live_groups (device s') = live_groups (device s) /\
  live_schedules (device s') = live_schedules (device s) /\
  exists evs, trace s' = (trace s ++ evs)%list /\ changes evs = [].

Definition inert {A} (m : M A) : Prop :=
  forall s s' r, m s = (s', r) -> inert_step s s'.

(** What an effect may touch for the call to be inert. *)
Definition keeps_live (s s1 : State) : Prop :=
  trace s1 = trace s /\ faults s1 = faults s /\
  live_users (device s1) = live_users (device s) /\
  live_groups (device s1) = live_groups (device s) /\
  live_schedules (device s1) = live_schedules (device s).

(** The loop of a clean step: every entry whose name is not kept is
    removed. [doomed] are the names it removes. *)
Definition clean_loop {E} (name : E -> string) (keep : string -> bool)
           (rm : string -> M unit) (xs : list E) : M unit :=
  for_range xs (fun x => if negb (keep (name x)) then rm (name x) else ret tt).

Definition doomed (keep : string -> bool) (names : list string) : list string :=
  filter (fun n => negb (keep n)) names.

(** A world in which no call fails for a reason of the environment. *)
Definition calm (s : State) : Prop := forall k, faults s k = false.

(** The names the creation commands of a run of events were for. *)
Definition created (evs : list event) : list string :=
  map (fun sen => word_arg "name" (tl sen)) (changes evs).

(** A host that declares two groups, two users (one with a key) and a
    schedule. *)
Definition group_full : TGroup := mkGroup "full" "default" "" "read,write".
Definition group_read : TGroup := mkGroup "read" "default" "" "read".
Definition bob : TUser := mkUser "bob" "" "read" "" "" "staff" "bob.pub".
Definition nightly : TSchedule :=
  mkSchedule "backup" "no" "jan/01/2020" "00:00:00" "1d" "read" "" "backup.rsc"
             "all" "/system backup save".

Definition host_full : THost :=
  mkHost "r1" "10.0.0.1" "admin" "pw" 8728 22 "backup" "hourly"
         ["staff"] ["all"] ["ops"] 0 hourly [alice; bob] [group_full; group_read]
         [nightly].

(** A device that already has the group [full], on which the group query
    (event 2) fails. *)
Definition world_print_fails : State :=
  quiet_world (mkDevice [admin] [group_full] [] [] []) [] (fun k => Nat.eqb k 2).

(** The remote tree of the specification's example: [a/file1] and
    [a/b/file2], nothing being wrong with the connection. *)
Definition nested_tree : FS :=
  [(["a"], NDir); (["a"; "file1"], NFile "one");
   (["a"; "b"], NDir); (["a"; "b"; "file2"], NFile "two")].

Definition world_nested : State :=
  quiet_world (mkDevice [admin] [] [] [] nested_tree) [] (fun _ => false).

(** The download of the tree from its root, and of the directory [a]
    named with a trailing separator. *)
Definition download_from_root : State * res unit :=
  DownloadFolder 10 host_full "/" "/srv/" true world_nested.

Definition download_one_level : State * res unit :=
  DownloadFolder 10 host_full "/a/" "/srv/" true world_nested.

(** A device with an undeclared account and nothing failing. *)
Definition world_intruder : State :=
  quiet_world (mkDevice [admin; intruder] [] [] [] []) [] (fun _ => false).

(** The events of a trace that are not log lines. *)
Definition non_log (evs : list event) : list event :=
  filter (fun ev => negb (is_log (ev_call ev))) evs.

(** One attempt of [ImportSshKey] as it shows in the trace: the wait, then
    the import command with its outcome. *)
Definition attempt (user : TUser) (delay : Z) (o : option error) : list event :=
  [mkEvent (CSleep (Int64.mul delay Millisecond)) None;
   mkEvent (CApiRun (import_sentence user)) o].

Definition failed (o : option error) : Prop := o <> None.

(** A host with its control-plane session open, on a device whose every
    call fails. *)
Definition world_import_fails : State :=
  mkState (mkConnections None None (Some 0%nat)) (mkDevice [admin; alice] [] [] [] [])
          (mkWire [] [] [0%nat]) [] 5000000000000 (fun _ => true)
          (fun _ => "generated") [].

(** ** The session invariant *)

Definition opt_list (o : option nat) : list nat :=
  match o with Some h => [h] | None => [] end.

(** The sessions open on the wire are the cached ones. *)
Definition cache_is_wire (s : State) : Prop :=
  wire_ssh (wire s) = opt_list (ssh (connections s)) /\
  wire_sftp (wire s) = opt_list (sftp (connections s)) /\
  wire_api (wire s) = opt_list (api (connections s)).

Definition one_session_each (w : Wire) : Prop :=
  (List.length (wire_ssh w) <= 1)%nat /\
  (List.length (wire_sftp w) <= 1)%nat /\
  (List.length (wire_api w) <= 1)%nat.

Definition file_over_shell (w : Wire) : Prop :=
  wire_sftp w <> [] -> wire_ssh w <> [].

Definition session_invariant (s : State) : Prop :=
  cache_is_wire s /\ one_session_each (wire s) /\ file_over_shell (wire s).

(** The control-plane session, once cached, is still cached after a step. *)
Definition session_kept (s s' : State) : Prop :=
  forall h, api (connections s) = Some h -> api (connections s') = Some h.

Definition keeps_session {A} (m : M A) : Prop :=
  forall s s' r, m s = (s', r) -> session_kept s s'.

(** ** What a computation leaves as it is *)

(** Every run of [m] relates the state before to the state after by [R]. *)
Definition preserves (R : State -> State -> Prop) {A} (m : M A) : Prop :=
  forall s s' r, m s = (s', r) -> R s s'.

Definition same_faults (s s' : State) : Prop := faults s' = faults s.

Definition invariant_kept (s s' : State) : Prop :=
  session_invariant s -> session_invariant s'.

(** A call that touches neither the sessions nor the fault schedule. *)
Definition same_sessions (s s' : State) : Prop :=
  connections s' = connections s /\ wire s' = wire s /\ faults s' = faults s.

(** No handle cached, no session open. *)
Definition no_session (s : State) : Prop :=
  connections s = mkConnections None None None /\ wire s = mkWire [] [] [].

(** A device with an account, a group and a scheduler entry that nobody
    declared, besides a declared group; nothing fails. *)
Definition group_old : TGroup := mkGroup "old" "default" "" "read".
Definition stale_job : TSchedule :=
  mkSchedule "stale" "no" "jan/01/2019" "00:00:00" "1h" "read" "" "" "" "/log info".

Definition world_stale : State :=
  quiet_world (mkDevice [admin; intruder] [group_old; group_read] [stale_job] [] [])
              [] (fun _ => false).

(** A device that is as [host_full] declares it. *)
Definition world_converged : State :=
  quiet_world (mkDevice [admin; alice; bob] [group_full; group_read] [nightly] [] [])
              [] (fun _ => false).

(** A step that leaves the device, the local files and the clock alone. *)
Definition same_world (s s' : State) : Prop :=
  device s' = device s /\ local_fs s' = local_fs s /\ clock s' = clock s /\
  faults s' = faults s.

(** Every run of [m] comes back with a value or an error. *)
Definition returns {A} (m : M A) : Prop :=
  forall s s' w, m s = (s', Abort w) -> False.

(** A local tree with bob's public key in the key directory, on a machine
    whose device has bob's account and the session of the control plane
    open. *)
Definition keys_tree : FS :=
  [(["keys"], NDir); (["keys"; "bob.pub"], NFile "ssh-rsa AAAA bob")].

Definition world_keys : State :=
  mkState (mkConnections None None None) (mkDevice [admin; bob] [] [] [] [])
          (mkWire [] [] []) keys_tree 5000000000000 (fun _ => false)
          (fun _ => "generated") [].

(** ** Loading the declared state *)

(** [TUsers.FilterByAliases] and [TSchedules.FilterByAliases]: the slice
    grows by one entry for every entry whose alias is listed. *)
Definition Users_FilterByAliases (users : TUsers) (aliases : TListOfStrings)
  : TUsers :=
  fold_left (fun slice user =>
               if IsContain aliases (user_Alias user)
               then (slice ++ [user])%list else slice)
            users [].

Definition Schedules_FilterByAliases (schedules : TSchedules)
           (aliases : TListOfStrings) : TSchedules :=
  fold_left (fun slice schedule =>
               if IsContain aliases (sched_Alias schedule)
               then (slice ++ [schedule])%list else slice)
            schedules [].

Definition task_missing : error := "task does not exist".

(** [TTasks.GetByName]: the task and the error; the empty task comes with
    the error. *)
Fixpoint Tasks_GetByName (tasks : TTasks) (name : string) : TTask * option error :=
  match tasks with
  | [] => (mkTask "" 0 0 0 0 "", Some task_missing)
  | task :: rest =>
      if (task_Name task =? name)%string then (task, None)
      else Tasks_GetByName rest name
  end.

(** [ioutil.ReadFile]: the file is opened, read to its end and closed; the
    call is recorded as the opening of the file. *)
Definition ioutil_ReadFile (p : string) : M string :=
  extern (COsOpen p)
         (fun s => (s, match fs_lookup (local_fs s) (resolve p) with
                       | Some (NFile data) => inr data
                       | _ => inl file_missing
                       end)).

Definition set_OnEvent (schedule : TSchedule) (content : string) : TSchedule :=
  mkSchedule (sched_Name schedule) (sched_Disabled schedule)
             (sched_StartDate schedule) (sched_StartTime schedule)
             (sched_Interval schedule) (sched_Policy schedule)
             (sched_Comment schedule) (sched_Script schedule)
             (sched_Alias schedule) content.

(** The loop of [LoadOnEventScripts]: the slice holds pointers, so every
    entry is updated where it is; the entries as they are after the loop
    are the result. *)
Fixpoint LoadOnEventScripts_loop (dir : TParam) (schedules : TSchedules)
  : M TSchedules :=
  match schedules with
  | [] => ret []
  | schedule :: rest =>
      schedule <- handle (ioutil_ReadFile (param_Value dir ++ sched_Script schedule))
                         (fun content => ret (set_OnEvent schedule content))
                         (fun _ =>
                            log_Println ("[WARNING] script "
                                         ++ quoted (sched_Script schedule)
                                         ++ " does not exist") ;;
                            ret (set_OnEvent schedule "")) ;;
      rest <- LoadOnEventScripts_loop dir rest ;;
      ret (schedule :: rest)
  end.

Definition LoadOnEventScripts (Params : TParams) (schedules : TSchedules)
  : M TSchedules :=
  dir <- Params_GetByName Params "dir_scripts" ;;
  LoadOnEventScripts_loop dir schedules.

(** [ioutil.ReadAll] on the file just opened. *)
Definition ioutil_ReadAll (p : string) : M string :=
  fun s => match fs_lookup (local_fs s) (resolve p) with
           | Some (NFile data) => (s, Ok data)
           | _ => (s, Err file_missing)
           end.

(** [LoadJSON]; [Unmarshal] is [json.Unmarshal] into the variable of the
    call, with the value it leaves there. *)
Definition LoadJSON {A} (Unmarshal : string -> error + A) (jsonPath : string)
  : M A :=
  os_Open jsonPath ;;
  jsonByte <- ioutil_ReadAll jsonPath ;;
  variable <- match Unmarshal jsonByte with
              | inr v => ret v
              | inl err => fail err
              end ;;
  log_Println ("[INIT] Config " ++ quoted jsonPath ++ " loaded...") ;;
  os_Close jsonPath ;;
  ret variable.

(** The decoding of each configuration file. *)
Record Json := mkJson {
  json_Params : string -> error + TParams;
  json_Hosts : string -> error + list THost;
  json_Tasks : string -> error + TTasks;
  json_Users : string -> error + TUsers;
  json_Groups : string -> error + TGroups;
  json_Schedules : string -> error + TSchedules
}.

(** The package's global variables. *)
Record Config := mkConfig {
  cfg_Params : TParams;
  cfg_Hosts : list THost;
  cfg_Tasks : TTasks;
  cfg_Users : TUsers;
  cfg_Groups : TGroups;
  cfg_Schedules : TSchedules
}.

Definition cfgMain : string := "configs/main.json".

Definition set_declared (host : THost) (users : TUsers) (schedules : TSchedules)
           (groups : TGroups) (task : TTask) : THost :=
  mkHost (host_Name host) (host_IP host) (host_Login host) (host_Pass host)
         (host_PortAPI host) (host_PortSSH host) (host_BackupFolder host)
         (host_TaskName host) (host_UsersAliases host)
         (host_SchedulesAliases host) (host_UsersAllowed host)
         (host_LastSeen host) task users groups schedules.

(** The last loop of [LoadConfig]: every host gets its users, schedules,
    groups and task; the loop stops at the first host whose task is not
    declared, that host already changed. *)
Fixpoint LoadConfig_hosts (Users : TUsers) (Groups : TGroups)
         (Schedules : TSchedules) (Tasks : TTasks) (Hosts : list THost)
  : list THost * option error :=
  match Hosts with
  | [] => ([], None)
  | host :: rest =>
      let (task, err) := Tasks_GetByName Tasks (host_TaskName host) in
      let host :=
        set_declared host
                     (Users_FilterByAliases Users (host_UsersAliases host))
                     (Schedules_FilterByAliases Schedules
                                                (host_SchedulesAliases host))
                     Groups task in
      match err with
      | Some e => (host :: rest, Some e)
      | None =>
          let (rest, err) := LoadConfig_hosts Users Groups Schedules Tasks rest in
          (host :: rest, err)
      end
  end.

(** [LoadConfig]. The error of the lookup of [dir_mikrotik-config] is
    overwritten by the next assignment: a missing parameter is the empty
    parameter. *)
Definition LoadConfig (json : Json) : M Config :=
  Params <- LoadJSON (json_Params json) cfgMain ;;
  dirCfg <- handle (Params_GetByName Params "dir_mikrotik-config")
                   (fun p => ret p) (fun _ => ret (mkParam "" "" "")) ;;
  Hosts <- LoadJSON (json_Hosts json) (param_Value dirCfg ++ "hosts.json") ;;
  Tasks <- LoadJSON (json_Tasks json) (param_Value dirCfg ++ "tasks.json") ;;
  Users <- LoadJSON (json_Users json) (param_Value dirCfg ++ "users.json") ;;
  Groups <- LoadJSON (json_Groups json) (param_Value dirCfg ++ "groups.json") ;;
  Schedules <- LoadJSON (json_Schedules json)
                        (param_Value dirCfg ++ "schedules.json") ;;
  Schedules <- LoadOnEventScripts Params Schedules ;;
  match LoadConfig_hosts Users Groups Schedules Tasks Hosts with
  | (Hosts, None) => ret (mkConfig Params Hosts Tasks Users Groups Schedules)
  | (_, Some err) => fail err
  end.

(** The content of the script of a schedule, as the local tree has it. *)
Definition script_of (fs : FS) (dir : TParam) (schedule : TSchedule) : string :=
  match fs_lookup fs (resolve (param_Value dir ++ sched_Script schedule)) with
  | Some (NFile data) => data
  | _ => ""
  end.

(** What the file [p] of a tree decodes to. *)
Definition read_json {A} (fs : FS) (Unmarshal : string -> error + A) (p : string)
  : option A :=
  match fs_lookup fs (resolve p) with
  | Some (NFile data) =>
      match Unmarshal data with inr v => Some v | inl _ => None end
  | _ => None
  end.

(** The directory of the configuration files: the value of the parameter
    [dir_mikrotik-config], empty when the parameter is not set. *)
Definition config_dir (Params : TParams) : string :=
  match find (fun p => (param_Name p =? "dir_mikrotik-config")%string) Params with
  | Some p => param_Value p
  | None => ""
  end.

(** A configuration on disk: the main file without the parameter
    [dir_mikrotik-config], the five files beside it, one script; and the
    decoding of each file. *)
Definition decode_as {A} (text : string) (v : A) (jsonByte : string) : error + A :=
  if (jsonByte =? text)%string then inr v else inl "invalid character".

Definition demo_params : TParams :=
  [mkParam "dir_backup" "/srv/{host.name}/" "";
   mkParam "dir_ssh-pub-keys" "/keys/" "";
   mkParam "dir_scripts" "scripts/" ""].

Definition demo_json : Json :=
  mkJson (decode_as "main" demo_params)
         (decode_as "hosts"
                    [set_declared host_full [] [] [] (mkTask "" 0 0 0 0 "")])
         (decode_as "tasks" [hourly])
         (decode_as "users" [alice; intruder; bob])
         (decode_as "groups" [group_full; group_read])
         (decode_as "schedules" [set_OnEvent nightly ""; stale_job]).

Definition demo_files : FS :=
  [(["configs"], NDir); (["configs"; "main.json"], NFile "main");
   (["hosts.json"], NFile "hosts"); (["tasks.json"], NFile "tasks");
   (["users.json"], NFile "users"); (["groups.json"], NFile "groups");
   (["schedules.json"], NFile "schedules");
   (["scripts"], NDir); (["scripts"; "backup.rsc"], NFile "/system backup save")].

Definition world_config : State :=
  quiet_world (mkDevice [] [] [] [] []) demo_files (fun _ => false).

(** ** The password generator *)

Definition lowerCharSet : string := "abcdedfghijklmnopqrst".
Definition upperCharSet : string := "ABCDEFGHIJKLMNOPQRSTUVWXYZ".
Definition specialCharSet : string := "!@#$%&*".
Definition numberSet : string := "0123456789".
Definition allCharSet : string :=
  lowerCharSet ++ upperCharSet ++ specialCharSet ++ numberSet.

(** [rand.Intn(n)] when the source yields the raw value [raw]; the package
    calls it with a positive [n] only. *)
Definition rand_Intn (raw n : nat) : nat := raw mod n.

(** [set[i]], a byte of a string of one-byte characters. *)
Definition byte_at (set : string) (i : nat) : ascii :=
  match String.get i set with
  | Some c => c
  | None => Ascii.zero
  end.

(** [n] times [password.WriteString(string(set[rand.Intn(len(set))]))],
    the draws of the source being numbered from [k]. *)
Fixpoint draw_chars (rnd : nat -> nat) (set : string) (k n : nat) : list ascii :=
  match n with
  | O => []
  | S n' =>
      byte_at set (rand_Intn (rnd k) (String.length set))
      :: draw_chars rnd set (S k) n'
  end.

Fixpoint set_nth {A} (i : nat) (x : A) (l : list A) {struct l} : list A :=
  match l with
  | [] => []
  | h :: t =>
      match i with
      | O => x :: t
      | S i' => h :: set_nth i' x t
      end
  end.

(** [inRune[i], inRune[j] = inRune[j], inRune[i]]. *)
Definition swap (i j : nat) (inRune : list ascii) : list ascii :=
  set_nth i (nth j inRune Ascii.zero) (set_nth j (nth i inRune Ascii.zero) inRune).

(** [rand.Shuffle(n, swap)]: from the last index down to 1, the element
    is exchanged with one at a drawn index not above it. *)
Fixpoint Shuffle_from (rnd : nat -> nat) (k i : nat) (inRune : list ascii)
  : list ascii :=
  match i with
  | O => inRune
  | S i' => Shuffle_from rnd (S k) i' (swap i (rand_Intn (rnd k) (S i)) inRune)
  end.

Definition rand_Shuffle (rnd : nat -> nat) (k : nat) (inRune : list ascii)
  : list ascii :=
  Shuffle_from rnd k (List.length inRune - 1) inRune.

(** [TUser.GeneratePassword], the draws of the random source given by
    [rnd]: the password is set in the user. *)
Definition TUser_GeneratePassword (rnd : nat -> nat) (user : TUser) (length : Z)
  : TUser :=
  let minSpecialChar := 1 in
  let minNum := 1 in
  let minUpperCase := 1 in
  let special := draw_chars rnd specialCharSet 0 (Z.to_nat minSpecialChar) in
  let number := draw_chars rnd numberSet 1 (Z.to_nat minNum) in
  let upper := draw_chars rnd upperCharSet 2 (Z.to_nat minUpperCase) in
  let remainingLength :=
    Int64.sub (Int64.sub (Int64.sub length minSpecialChar) minNum) minUpperCase in
  let remaining := draw_chars rnd allCharSet 3 (Z.to_nat remainingLength) in
  let password := (special ++ number ++ upper ++ remaining)%list in
  let inRune := rand_Shuffle rnd (3 + Z.to_nat remainingLength) password in
  set_Pass user (string_of_list_ascii inRune).

(** Whether a character occurs in a string. *)
Definition has_char (c : ascii) (s : string) : Prop :=
  In c (list_ascii_of_string s).

(** ** Paths that name an entry *)

Definition no_slash (s : string) : bool :=
  negb (existsb (Ascii.eqb "/"%char) (list_ascii_of_string s)).

(** An element that names an entry: not empty, not [.] or [..], without a
    slash. *)
Definition plain_name (f : string) : bool :=
  negb (f =? "")%string && negb (f =? ".")%string && negb (f =? "..")%string
  && no_slash f.

(** A path none of whose elements is [..]. *)
Definition no_dotdot (p : string) : bool :=
  negb (existsb (String.eqb "..") (split_slash p)).

(** The elements that [filepath.Clean] keeps when there is no [..]. *)
Definition proper (p : string) : bool :=
  negb ((p =? "")%string || (p =? ".")%string).

(** A device whose backup directory holds two files and nothing else. *)
Definition backup_tree : FS :=
  [(["backup"], NDir); (["backup"; "r1.backup"], NFile "binary");
   (["backup"; "r1.rsc"], NFile "/export")].

Definition world_backup : State :=
  quiet_world (mkDevice [admin] [] [] [] backup_tree) [] (fun _ => false).

(** [RemoveFile]. *)
Definition RemoveFile (host : THost) (path : string) : M unit :=
  let path := ToSlash (Dir path) ++ "/" ++ Base path in
  connSftp <- GetConnectionSFTP host ;;
  sftp_Remove connSftp path.

(** [MakeExport] and [MakeBackup]: the path of the file the device
    writes. *)
Definition MakeExport (host : THost) (path : string) : M string :=
  let dir := ToSlash (Dir path) in
  let file := Base path in
  let path := dir ++ "/" ++ file in
  MakeDir host dir ;;
  connApi <- GetConnectionAPI host ;;
  api_Run connApi ["/export"; "=terse"; "=file=" ++ path] ;;
  ret (path ++ ".rsc").

Definition MakeBackup (host : THost) (path : string) : M string :=
  let dir := ToSlash (Dir path) in
  let file := Base path in
  let path := dir ++ "/" ++ file in
  MakeDir host dir ;;
  connApi <- GetConnectionAPI host ;;
  api_Run connApi ["/system/backup/save"; "=name=" ++ path] ;;
  ret (path ++ ".backup").

(** A computation that sends no command sentence. *)
Definition no_command {A} (m : M A) : Prop :=
  forall s s' r, m s = (s', r) ->
    exists evs, trace s' = (trace s ++ evs)%list /\ commands evs = [].

(** What a run from [s] to [s'] with result [r] has done when it was to
    have the device write the file [name] of the directory [dir] by the
    command [sen]: the command is sent at most once, and only with [dir] a
    directory of the device; when a name is returned it is [name], the
    command has been sent, the device holds [data] under that name and has
    lost no other entry. *)
Definition writes_file (sen : list string) (dir name data : string)
           (s s' : State) (r : res string) : Prop :=
  (exists evs,
      trace s' = (trace s ++ evs)%list /\
      (commands evs = [] \/
       (commands evs = [sen] /\
        fs_is_dir (remote_fs (device s')) (resolve dir) = true)) /\
      (forall p, r = Ok p -> commands evs = [sen])) /\
  (forall p, r = Ok p ->
     p = name /\
     fs_lookup (remote_fs (device s')) (resolve name) = Some (NFile data) /\
     forall k n, k <> resolve name ->
                 fs_lookup (remote_fs (device s)) k = Some n ->
                 fs_lookup (remote_fs (device s')) k = Some n).

(** * Properties *)

(** ** [int64] arithmetic *)

Lemma wrap_in_range z : Int64.in_range (Int64.wrap z).
Proof.
  unfold Int64.in_range, Int64.wrap, Int64.min_int, Int64.max_int.
  pose proof (Z.mod_pos_bound (z + 2 ^ 63) (2 ^ 64) ltac:(lia)). lia.
Qed.

Lemma wrap_small z : Int64.in_range z -> Int64.wrap z = z.
Proof.
  unfold Int64.in_range, Int64.wrap, Int64.min_int, Int64.max_int. intros H.
  rewrite Z.mod_small; lia.
Qed.

(** [wrap] is the identity modulo [2^64]. *)
Lemma wrap_eqm z : exists k, Int64.wrap z = z + k * 2 ^ 64.
Proof.
  unfold Int64.wrap. exists (- ((z + 2 ^ 63) / 2 ^ 64)).
  pose proof (Z.div_mod (z + 2 ^ 63) (2 ^ 64) ltac:(lia)). lia.
Qed.

(** Two integers of the [int64] range that agree modulo [2^64] are equal. *)
Lemma eqm_in_range a b k :
  Int64.in_range a -> Int64.in_range b -> a = b + k * 2 ^ 64 -> a = b.
Proof.
  unfold Int64.in_range, Int64.min_int, Int64.max_int. intros Ha Hb E.
  assert (k = 0) by lia. subst k. lia.
Qed.

(** The three wrapped operations after the division compute the exact
    value whenever that value fits. *)
Lemma next_exact q delay start :
  Int64.in_range ((q + 1) * delay + start) ->
  Int64.add (Int64.mul (Int64.add q 1) delay) start = (q + 1) * delay + start.
Proof.
  intros Hr. unfold Int64.add, Int64.mul.
  destruct (wrap_eqm (q + 1)) as [k1 E1].
  destruct (wrap_eqm (Int64.wrap (q + 1) * delay)) as [k2 E2].
  destruct (wrap_eqm (Int64.wrap (Int64.wrap (q + 1) * delay) + start)) as [k3 E3].
  apply (eqm_in_range _ _ (k3 + k2 + k1 * delay)); auto using wrap_in_range.
  rewrite E3, E2, E1. ring.
Qed.

(** ** C1, C9: the next scheduled instant *)

(** C1 (as stated, refuted). When [now] lies exactly on an anchor-aligned
    instant, [GetNextTime] returns the following one: with start 0, delay
    3600 and now 3600 the result is 7200, and [result - delay < now] fails. *)
Lemma GetNextTime_on_boundary :
  GetNextTime (host_of_task hourly) 3600 = Some 7200 /\
  ~ (7200 >= 3600 /\ 7200 - task_Delay hourly < 3600).
Proof.
  split; [reflexivity | cbn; lia].
Qed.

(** C1 (amended). For a positive delay and [now] not before the anchor,
    with [now - start] and [now + delay] inside [int64], [GetNextTime]
    returns the unique [start + k * delay] that is strictly after [now] and
    at most one delay after it ([now < result] and [result - delay <= now]);
    the multiplier is [(now - start) / delay + 1]. *)
Theorem GetNextTime_anchor_aligned (host : THost) (now : Z) :
  let start := task_Start (host_Task host) in
  let delay := task_Delay (host_Task host) in
  0 < delay -> start <= now ->
  Int64.in_range now -> now - start <= Int64.max_int ->
  now + delay <= Int64.max_int ->
  exists r,
    GetNextTime host now = Some r /\
    r = start + ((now - start) / delay + 1) * delay /\
    now < r /\ r - delay <= now /\
    (forall k, now < start + k * delay -> start + k * delay - delay <= now ->
               start + k * delay = r).
Proof.
  intros start delay Hd Hs Hn Hsub Hadd.
  assert (Hq : 0 <= (now - start) / delay) by (apply Z.div_pos; lia).
  pose proof (Z.mul_div_le (now - start) delay Hd) as Hlo.
  pose proof (Z.mul_succ_div_gt (now - start) delay Hd) as Hhi.
  assert (Hub : (now - start) / delay <= now - start).
  { apply Z.div_le_upper_bound; nia. }
  exists (start + ((now - start) / delay + 1) * delay).
  split; [| split; [reflexivity | split; [nia | split; [nia |]]]].
  - unfold GetNextTime, Int64.quo, Int64.sub. fold start delay.
    rewrite (wrap_small (now - start))
      by (unfold Int64.in_range, Int64.min_int, Int64.max_int in *; lia).
    destruct (Z.eqb_spec delay 0) as [E | _]; [lia |].
    rewrite Z.quot_div_nonneg by lia.
    rewrite (wrap_small ((now - start) / delay))
      by (unfold Int64.in_range, Int64.min_int, Int64.max_int in *; lia).
    f_equal. rewrite next_exact; [ring |].
    unfold Int64.in_range, Int64.min_int, Int64.max_int in *. nia.
  - intros k Hk1 Hk2.
    assert (k = (now - start) / delay + 1) by nia. subst k. ring.
Qed.

(** The example of the specification: start 0, delay 3600, now 5000. *)
Lemma GetNextTime_anchor_aligned_witness :
  exists r, GetNextTime (host_of_task hourly) 5000 = Some r /\ r = 7200.
Proof.
  destruct (GetNextTime_anchor_aligned (host_of_task hourly) 5000)
    as [r [E [V _]]];
    try (unfold Int64.in_range, Int64.min_int, Int64.max_int; cbn; lia).
  exists r. split; [exact E | rewrite V; reflexivity].
Defined.

(** Before the anchor the quotient is truncated toward zero, and the
    result is the second aligned instant after [now], not the first. *)
Example GetNextTime_before_anchor :
  GetNextTime (host_of_task (mkTask "t" 100 10 0 0 "")) 95 = Some 110.
Proof. reflexivity. Qed.

(** C9. [GetNextTime] has no result (the division panics) exactly when the
    task's delay is zero; for every other delay it returns a value. Nothing
    guards the call: with a zero delay, [Run] panics after a cycle that
    succeeded. *)
Theorem GetNextTime_defined_iff (host : THost) (now : Z) :
  (GetNextTime host now = None <-> task_Delay (host_Task host) = 0) /\
  ((exists r, GetNextTime host now = Some r) <-> task_Delay (host_Task host) <> 0) /\
  (forall Params fuel s s1,
      task_Delay (host_Task host) = 0 ->
      StartManager Params fuel host s = (s1, Ok tt) ->
      Run_once Params fuel host s = (s1, Abort (Panic divide_by_zero))).
Proof.
  split; [| split].
  - unfold GetNextTime, Int64.quo.
    destruct (Z.eqb_spec (task_Delay (host_Task host)) 0) as [E | N]; split;
      intros H; congruence.
  - unfold GetNextTime, Int64.quo.
    destruct (Z.eqb_spec (task_Delay (host_Task host)) 0) as [E | N]; split;
      intros H; try congruence.
    + destruct H; discriminate.
    + eexists; reflexivity.
  - intros Params fuel s s1 D H. unfold Run_once, handle. rewrite H.
    unfold GetNextTime, Int64.quo. rewrite D. reflexivity.
Qed.

(** ** Computations and their events *)

Lemma bind_ok {A B} (m : M A) (f : A -> M B) s s1 a :
  m s = (s1, Ok a) -> bind m f s = f a s1.
Proof. unfold bind. intros ->. reflexivity. Qed.

Lemma bind_err {A B} (m : M A) (f : A -> M B) s s1 e :
  m s = (s1, Err e) -> bind m f s = (s1, Err e).
Proof. unfold bind. intros ->. reflexivity. Qed.

Lemma bind_inv {A B} (m : M A) (f : A -> M B) s s' r :
  bind m f s = (s', r) ->
  (exists s1 a, m s = (s1, Ok a) /\ f a s1 = (s', r)) \/
  (exists e, m s = (s', Err e) /\ r = Err e) \/
  (exists w, m s = (s', Abort w) /\ r = Abort w).
Proof.
  unfold bind. destruct (m s) as [s1 [a | e | w]]; intros H.
  - left. eauto.
  - right. left. inversion H; subst. eauto.
  - right. right. inversion H; subst. eauto.
Qed.

Lemma handle_inv {A B} (m : M A) (ok : A -> M B) (err : error -> M B) s s' r :
  handle m ok err s = (s', r) ->
  (exists s1 a, m s = (s1, Ok a) /\ ok a s1 = (s', r)) \/
  (exists s1 e, m s = (s1, Err e) /\ err e s1 = (s', r)) \/
  (exists w, m s = (s', Abort w) /\ r = Abort w).
Proof.
  unfold handle. destruct (m s) as [s1 [a | e | w]]; intros H.
  - left. eauto.
  - right. left. eauto.
  - right. right. inversion H; subst. eauto.
Qed.

Lemma extern_inv {A} (c : call) (sem : State -> State * (error + A)) s s' r :
  extern c sem s = (s', r) ->
  (faults s (List.length (trace s)) = true /\
   s' = record c (Some injected) s /\ r = Err injected) \/
  (faults s (List.length (trace s)) = false /\
   ((exists s1 e, sem s = (s1, inl e) /\ s' = record c (Some e) s1 /\ r = Err e) \/
    (exists s1 a, sem s = (s1, inr a) /\ s' = record c None s1 /\ r = Ok a))).
Proof.
  unfold extern. destruct (faults s (List.length (trace s))).
  - intros H. inversion H; subst. left. auto.
  - destruct (sem s) as [s1 [e | a]]; intros H; inversion H; subst; right;
      (split; [reflexivity |]); [left | right]; eauto.
Qed.

Lemma trace_record c o s : trace (record c o s) = (trace s ++ [mkEvent c o])%list.
Proof. reflexivity. Qed.

(** An external call whose effect leaves the trace alone is one call. *)
Lemma one_call_extern {A} (c : call) (sem : State -> State * (error + A)) :
  (forall s, trace (fst (sem s)) = trace s) -> one_call c (extern c sem).
Proof.
  intros Hf s s' r H. apply extern_inv in H.
  destruct H as [[_ [-> ->]] | [_ [[s1 [e [E [-> ->]]]] | [s1 [a [E [-> ->]]]]]]].
  - exists (Some injected). split; reflexivity.
  - exists (Some e). rewrite trace_record. specialize (Hf s). rewrite E in Hf.
    cbn in Hf. rewrite Hf. split; reflexivity.
  - exists None. rewrite trace_record. specialize (Hf s). rewrite E in Hf.
    cbn in Hf. rewrite Hf. split; reflexivity.
Qed.

Lemma one_call_extern_ {A} (c : call) (sem : State -> State * A) :
  (forall s, trace (fst (sem s)) = trace s) -> one_call c (extern_ c sem).
Proof.
  intros Hf s s' r H. unfold extern_ in H. specialize (Hf s).
  destruct (sem s) as [s1 a]. cbn in Hf. inversion H; subst.
  exists None. rewrite trace_record, Hf. split; reflexivity.
Qed.

Ltac frame :=
  intros ?s; unfold on_remote, on_local; cbn;
  repeat match goal with
         | |- context [let (_, _) := ?x in _] => destruct x
         | |- context [match ?x with _ => _ end] => destruct x
         end; reflexivity.

Lemma one_call_log msg : one_call (CLog msg) (log_Println msg).
Proof. apply one_call_extern_. frame. Qed.

Lemma one_call_sleep d : one_call (CSleep d) (time_Sleep d).
Proof. apply one_call_extern_. frame. Qed.

Lemma one_call_api_Run h sentence : one_call (CApiRun sentence) (api_Run h sentence).
Proof. apply one_call_extern. frame. Qed.

Lemma one_call_routeros_Dial a l p : one_call (CDialAPI a l p) (routeros_Dial a l p).
Proof. apply one_call_extern. frame. Qed.

Lemma one_call_ssh_Dial a l p : one_call (CDialSSH a l p) (ssh_Dial a l p).
Proof. apply one_call_extern. frame. Qed.

Lemma one_call_sftp_NewClient h : one_call (CNewSFTP h) (sftp_NewClient h).
Proof. apply one_call_extern. frame. Qed.

Lemma one_call_api_Close h : one_call (CApiClose h) (api_Close h).
Proof. apply one_call_extern_. frame. Qed.

Lemma one_call_sftp_Close h : one_call (CSftpClose h) (sftp_Close h).
Proof. apply one_call_extern_. frame. Qed.

Lemma one_call_ssh_Close h : one_call (CSshClose h) (ssh_Close h).
Proof. apply one_call_extern_. frame. Qed.

Lemma one_call_sftp_ReadDir h p : one_call (CSftpReadDir p) (sftp_ReadDir h p).
Proof. apply one_call_extern. frame. Qed.

Lemma one_call_sftp_Open h p : one_call (CSftpOpen p) (sftp_Open h p).
Proof. apply one_call_extern. frame. Qed.

Lemma one_call_sftp_Create h p : one_call (CSftpCreate p) (sftp_Create h p).
Proof. apply one_call_extern. frame. Qed.

Lemma one_call_sftp_Remove h p : one_call (CSftpRemove p) (sftp_Remove h p).
Proof. apply one_call_extern. frame. Qed.

Lemma one_call_sftp_MkdirAll h p : one_call (CSftpMkdirAll p) (sftp_MkdirAll h p).
Proof. apply one_call_extern. frame. Qed.

Lemma one_call_sftp_FileClose p : one_call (CSftpFileClose p) (sftp_FileClose p).
Proof. apply one_call_extern. frame. Qed.

Lemma one_call_os_Open p : one_call (COsOpen p) (os_Open p).
Proof. apply one_call_extern. frame. Qed.

Lemma one_call_os_MkdirAll p : one_call (COsMkdirAll p) (os_MkdirAll p).
Proof. apply one_call_extern. frame. Qed.

Lemma one_call_os_Create p : one_call (COsCreate p) (os_Create p).
Proof. apply one_call_extern. frame. Qed.

Lemma one_call_os_Sync p : one_call (COsSync p) (os_Sync p).
Proof. apply one_call_extern. frame. Qed.

Lemma one_call_os_Close p : one_call (COsClose p) (os_Close p).
Proof. apply one_call_extern. frame. Qed.

Lemma one_call_io_CopyDown d p : one_call (CCopyDown d p) (io_CopyDown d p).
Proof. apply one_call_extern. frame. Qed.

Lemma one_call_io_CopyUp d p : one_call (CCopyUp d p) (io_CopyUp d p).
Proof. apply one_call_extern. frame. Qed.

(** A call made through [extern_] always succeeds. *)
Lemma extern__inv {A} (c : call) (sem : State -> State * A) s s' r :
  extern_ c sem s = (s', r) ->
  s' = record c None (fst (sem s)) /\ r = Ok (snd (sem s)).
Proof.
  unfold extern_. destruct (sem s) as [s1 a]. intros H. inversion H. auto.
Qed.

Lemma log_inv msg s s' r :
  log_Println msg s = (s', r) -> s' = record (CLog msg) None s /\ r = Ok tt.
Proof. intros H. unfold log_Println in H. apply extern__inv in H. exact H. Qed.

Lemma sleep_inv d s s' r :
  time_Sleep d s = (s', r) ->
  s' = record (CSleep d) None (with_clock (clock s + Z.max 0 d) s) /\ r = Ok tt.
Proof. intros H. unfold time_Sleep in H. apply extern__inv in H. exact H. Qed.

(** ** Steps that end at their first fatal failure *)

Lemma snoc_split {A} (pre post l : list A) (ev x : A) :
  (pre ++ ev :: post = l ++ [x])%list ->
  (post = [] /\ pre = l /\ ev = x) \/
  (exists post1, post = (post1 ++ [x])%list /\ l = (pre ++ ev :: post1)%list).
Proof.
  intros H. destruct post as [| p post' _] using rev_ind.
  - left. apply (app_inj_tail pre l ev x) in H. tauto.
  - right. exists post'.
    change (pre ++ ev :: post' ++ [p])%list
      with (pre ++ (ev :: post') ++ [p])%list in H.
    rewrite app_assoc in H. apply app_inj_tail in H. destruct H as [H1 H2].
    subst. auto.
Qed.

Lemma quiet_not_fatal {absorbed} ev e :
  quiet absorbed ev -> ev_err ev = Some e -> absorbed (ev_call ev) = false -> False.
Proof. intros [H | H] H1 H2; congruence. Qed.

Lemma fatal_last_nil {A} {absorbed} (r : res A) : fatal_last absorbed [] r.
Proof. intros pre ev post e H. destruct pre; discriminate. Qed.

Lemma fatal_last_quiet {A} {absorbed} evs (r : res A) :
  Forall (quiet absorbed) evs -> fatal_last absorbed evs r.
Proof.
  intros Hq pre ev post e E He Ht. exfalso. subst evs.
  apply Forall_app in Hq. destruct Hq as [_ Hq]. inversion Hq; subst.
  eapply quiet_not_fatal; eauto.
Qed.

Lemma fatal_last_app {A} {absorbed} evs1 evs2 (r : res A) :
  Forall (quiet absorbed) evs1 -> fatal_last absorbed evs2 r ->
  fatal_last absorbed (evs1 ++ evs2)%list r.
Proof.
  induction evs1 as [| x l IH]; intros Hq H2; [exact H2 |].
  inversion Hq; subst. intros pre ev post e E He Ht.
  destruct pre as [| y pre']; cbn in E; inversion E; subst.
  - exfalso. eapply quiet_not_fatal; eauto.
  - eapply (IH H3 H2); eauto.
Qed.

(** A step that did not end in an error had no fatal failure. *)
Lemma fatal_last_no_error {A} {absorbed} evs (r : res A) :
  fatal_last absorbed evs r -> (forall e, r <> Err e) -> Forall (quiet absorbed) evs.
Proof.
  intros H Hr. apply Forall_forall. intros ev Hin.
  apply in_split in Hin. destruct Hin as [pre [post E]].
  unfold quiet. destruct (ev_err ev) as [e |] eqn:He; [| auto].
  destruct (absorbed (ev_call ev)) eqn:Ht; [auto |].
  exfalso. destruct (H pre ev post e E He Ht) as [_ E']. exact (Hr e E').
Qed.

Lemma fatal_last_log {A B} {absorbed} evs e msg :
  fatal_last absorbed evs (Err e : res A) ->
  fatal_last absorbed (evs ++ [mkEvent (CLog msg) None])%list (Err e : res B).
Proof.
  intros H pre ev post e0 E He Ht. symmetry in E. apply snoc_split in E.
  destruct E as [[_ [_ E]] | [post1 [E1 E2]]].
  - subst ev. discriminate.
  - subst. destruct (H pre ev post1 e0 eq_refl He Ht) as [Hl Hr]. split.
    + apply Forall_app. split; [exact Hl | constructor; [reflexivity | constructor]].
    + inversion Hr. reflexivity.
Qed.

Lemma lenient_disciplined {A} {absorbed} (m : M A) :
  lenient absorbed m -> disciplined absorbed m.
Proof.
  intros H s s' r E. destruct (H s s' r E) as [evs [Ht Hq]].
  exists evs. split; [exact Ht | apply fatal_last_quiet; exact Hq].
Qed.

Lemma disc_one_call {A} {absorbed} c (m : M A) : one_call c m -> disciplined absorbed m.
Proof.
  intros H s s' r E. destruct (H s s' r E) as [o [Ht Ho]].
  exists [mkEvent c o]. split; [exact Ht |].
  intros pre ev post e Ev He Htol.
  destruct pre as [| x pre']; cbn in Ev; inversion Ev; subst.
  - cbn in He. subst o. split; [constructor |].
    destruct r; try congruence; contradiction.
  - destruct pre'; discriminate.
Qed.

Lemma lenient_one_call {A} {absorbed} c (m : M A) :
  one_call c m -> absorbed c = true -> lenient absorbed m.
Proof.
  intros H Htol s s' r E. destruct (H s s' r E) as [o [Ht _]].
  exists [mkEvent c o]. split; [exact Ht |].
  constructor; [right; exact Htol | constructor].
Qed.

Lemma lenient_extern_ {A} {absorbed} c (sem : State -> State * A) :
  (forall s, trace (fst (sem s)) = trace s) -> lenient absorbed (extern_ c sem).
Proof.
  intros Hf s s' r E. apply extern__inv in E. destruct E as [-> _].
  exists [mkEvent c None]. rewrite trace_record, Hf. split; [reflexivity |].
  constructor; [left; reflexivity | constructor].
Qed.

Lemma lenient_ret {A} {absorbed} (a : A) : lenient absorbed (ret a).
Proof.
  intros s s' r E. inversion E; subst. exists []. rewrite app_nil_r. auto.
Qed.

Lemma lenient_fail {A} {absorbed} e : lenient absorbed (fail e : M A).
Proof.
  intros s s' r E. inversion E; subst. exists []. rewrite app_nil_r. auto.
Qed.

Lemma lenient_bind {A B} {absorbed} (m : M A) (f : A -> M B) :
  lenient absorbed m -> (forall a, lenient absorbed (f a)) -> lenient absorbed (bind m f).
Proof.
  intros Hm Hf s s' r E. apply bind_inv in E.
  destruct E as [[s1 [a [E1 E2]]] | [[e [E1 ->]] | [w [E1 ->]]]].
  - destruct (Hm _ _ _ E1) as [evs1 [T1 Q1]].
    destruct (Hf a _ _ _ E2) as [evs2 [T2 Q2]].
    exists (evs1 ++ evs2)%list. rewrite T2, T1, app_assoc. split; [reflexivity |].
    apply Forall_app; auto.
  - exact (Hm _ _ _ E1).
  - exact (Hm _ _ _ E1).
Qed.

Lemma lenient_handle {A B} {absorbed} (m : M A) (ok : A -> M B) (err : error -> M B) :
  lenient absorbed m -> (forall a, lenient absorbed (ok a)) ->
  (forall e, lenient absorbed (err e)) ->
  lenient absorbed (handle m ok err).
Proof.
  intros Hm Hok Herr s s' r E. apply handle_inv in E.
  destruct E as [[s1 [a [E1 E2]]] | [[s1 [e [E1 E2]]] | [w [E1 ->]]]].
  - destruct (Hm _ _ _ E1) as [evs1 [T1 Q1]].
    destruct (Hok a _ _ _ E2) as [evs2 [T2 Q2]].
    exists (evs1 ++ evs2)%list. rewrite T2, T1, app_assoc. split; [reflexivity |].
    apply Forall_app; auto.
  - destruct (Hm _ _ _ E1) as [evs1 [T1 Q1]].
    destruct (Herr e _ _ _ E2) as [evs2 [T2 Q2]].
    exists (evs1 ++ evs2)%list. rewrite T2, T1, app_assoc. split; [reflexivity |].
    apply Forall_app; auto.
  - exact (Hm _ _ _ E1).
Qed.

Lemma lenient_for_range {A} {absorbed} (xs : list A) (body : A -> M unit) :
  (forall x, lenient absorbed (body x)) -> lenient absorbed (for_range xs body).
Proof.
  intros Hb. induction xs as [| x xs IH]; cbn.
  - apply lenient_ret.
  - apply lenient_bind; auto.
Qed.

Lemma disc_bind {A B} {absorbed} (m : M A) (f : A -> M B) :
  disciplined absorbed m -> (forall a, disciplined absorbed (f a)) ->
  disciplined absorbed (bind m f).
Proof.
  intros Hm Hf s s' r E. apply bind_inv in E.
  destruct E as [[s1 [a [E1 E2]]] | [[e [E1 ->]] | [w [E1 ->]]]].
  - destruct (Hm _ _ _ E1) as [evs1 [T1 Q1]].
    destruct (Hf a _ _ _ E2) as [evs2 [T2 Q2]].
    exists (evs1 ++ evs2)%list. rewrite T2, T1, app_assoc. split; [reflexivity |].
    apply fatal_last_app; [| exact Q2].
    apply (fatal_last_no_error _ _ Q1). congruence.
  - destruct (Hm _ _ _ E1) as [evs1 [T1 Q1]]. exists evs1. split; [exact T1 |].
    intros pre ev post e0 Ev He Ht.
    destruct (Q1 pre ev post e0 Ev He Ht) as [Hl Hr]. split; [exact Hl | congruence].
  - destruct (Hm _ _ _ E1) as [evs1 [T1 Q1]]. exists evs1. split; [exact T1 |].
    intros pre ev post e0 Ev He Ht.
    destruct (Q1 pre ev post e0 Ev He Ht) as [Hl Hr]. discriminate.
Qed.

Lemma disc_handle {A B} {absorbed} (m : M A) (ok : A -> M B) (err : error -> M B) :
  lenient absorbed m -> (forall a, disciplined absorbed (ok a)) ->
  (forall e, disciplined absorbed (err e)) ->
  disciplined absorbed (handle m ok err).
Proof.
  intros Hm Hok Herr s s' r E. apply handle_inv in E.
  destruct E as [[s1 [a [E1 E2]]] | [[s1 [e [E1 E2]]] | [w [E1 ->]]]].
  - destruct (Hm _ _ _ E1) as [evs1 [T1 Q1]].
    destruct (Hok a _ _ _ E2) as [evs2 [T2 Q2]].
    exists (evs1 ++ evs2)%list. rewrite T2, T1, app_assoc. split; [reflexivity |].
    apply fatal_last_app; assumption.
  - destruct (Hm _ _ _ E1) as [evs1 [T1 Q1]].
    destruct (Herr e _ _ _ E2) as [evs2 [T2 Q2]].
    exists (evs1 ++ evs2)%list. rewrite T2, T1, app_assoc. split; [reflexivity |].
    apply fatal_last_app; assumption.
  - destruct (Hm _ _ _ E1) as [evs1 [T1 Q1]]. exists evs1. split; [exact T1 |].
    apply fatal_last_quiet. exact Q1.
Qed.

(** [if err != nil { log.Println(...); return err }]. *)
Lemma disc_log_and_return {A} {absorbed} (m : M A) (msg : error -> string) :
  disciplined absorbed m ->
  disciplined absorbed (handle m (fun _ => ret tt)
                      (fun err => log_Println (msg err) ;; fail err)).
Proof.
  intros Hm s s' r E. apply handle_inv in E.
  destruct E as [[s1 [a [E1 E2]]] | [[s1 [e [E1 E2]]] | [w [E1 ->]]]].
  - inversion E2; subst. destruct (Hm _ _ _ E1) as [evs1 [T1 Q1]].
    exists evs1. split; [exact T1 |].
    apply fatal_last_quiet. apply (fatal_last_no_error _ _ Q1). congruence.
  - destruct (Hm _ _ _ E1) as [evs1 [T1 Q1]].
    apply bind_inv in E2.
    destruct E2 as [[s2 [a [L E2]]] | [[e0 [L _]] | [w [L _]]]];
      try (apply log_inv in L; destruct L as [_ L]; discriminate).
    apply log_inv in L. destruct L as [-> _]. inversion E2; subst.
    exists (evs1 ++ [mkEvent (CLog (msg e)) None])%list.
    rewrite trace_record, T1, app_assoc. split; [reflexivity |].
    apply (fatal_last_log (A := A)). exact Q1.
  - destruct (Hm _ _ _ E1) as [evs1 [T1 Q1]]. exists evs1. split; [exact T1 |].
    apply fatal_last_quiet. apply (fatal_last_no_error _ _ Q1). congruence.
Qed.

Lemma disc_for_range {A} {absorbed} (xs : list A) (body : A -> M unit) :
  (forall x, disciplined absorbed (body x)) -> disciplined absorbed (for_range xs body).
Proof.
  intros Hb. induction xs as [| x xs IH]; cbn.
  - apply lenient_disciplined, lenient_ret.
  - apply disc_bind; auto.
Qed.

(** A cached handle: the computation runs only when the cache is empty. *)
Lemma lenient_cached {absorbed} (f : State -> option nat) (m : M nat) :
  lenient absorbed m ->
  lenient absorbed (fun s => match f s with None => m s | Some h => (s, Ok h) end).
Proof.
  intros Hm s s' r E. destruct (f s).
  - inversion E; subst. exists []. rewrite app_nil_r. auto.
  - exact (Hm _ _ _ E).
Qed.

Lemma disc_cached {absorbed} (f : State -> option nat) (m : M nat) :
  disciplined absorbed m ->
  disciplined absorbed (fun s => match f s with None => m s | Some h => (s, Ok h) end).
Proof.
  intros Hm s s' r E. destruct (f s).
  - inversion E; subst. exists []. rewrite app_nil_r.
    split; [reflexivity | apply fatal_last_nil].
  - exact (Hm _ _ _ E).
Qed.

Lemma lenient_if_open {absorbed} (f : State -> option nat) (m : nat -> M unit) :
  (forall h, lenient absorbed (m h)) ->
  lenient absorbed (fun s => match f s with Some h => m h s | None => (s, Ok tt) end).
Proof.
  intros Hm s s' r E. destruct (f s).
  - exact (Hm _ _ _ _ E).
  - inversion E; subst. exists []. rewrite app_nil_r. auto.
Qed.

Create HintDb calls.
#[local] Hint Resolve one_call_log one_call_sleep one_call_api_Run
  one_call_routeros_Dial one_call_ssh_Dial one_call_sftp_NewClient
  one_call_api_Close one_call_sftp_Close one_call_ssh_Close
  one_call_sftp_ReadDir one_call_sftp_Open one_call_sftp_Create
  one_call_sftp_Remove one_call_sftp_MkdirAll one_call_sftp_FileClose
  one_call_os_Open one_call_os_MkdirAll one_call_os_Create one_call_os_Sync
  one_call_os_Close one_call_io_CopyDown one_call_io_CopyUp : calls.

Lemma lenient_log {absorbed} msg : lenient absorbed (log_Println msg).
Proof. apply lenient_extern_. frame. Qed.

Lemma lenient_sleep {absorbed} d : lenient absorbed (time_Sleep d).
Proof. apply lenient_extern_. frame. Qed.

Lemma lenient_set_api {absorbed} h : lenient absorbed (set_api h).
Proof. intros s s' r E. inversion E; subst. exists []. rewrite app_nil_r. auto. Qed.

Lemma lenient_set_sftp {absorbed} h : lenient absorbed (set_sftp h).
Proof. intros s s' r E. inversion E; subst. exists []. rewrite app_nil_r. auto. Qed.

Lemma lenient_set_ssh {absorbed} h : lenient absorbed (set_ssh h).
Proof. intros s s' r E. inversion E; subst. exists []. rewrite app_nil_r. auto. Qed.

Lemma lenient_GeneratePassword {absorbed} : lenient absorbed GeneratePassword.
Proof. intros s s' r E. inversion E; subst. exists []. rewrite app_nil_r. auto. Qed.

Create HintDb steps.
#[local] Hint Resolve lenient_log lenient_sleep lenient_set_api lenient_set_sftp
  lenient_set_ssh lenient_GeneratePassword lenient_ret lenient_fail : steps.

(** [calls] proves a computation lenient, [steps] proves it disciplined,
    both by following its structure. *)
Ltac calls :=
  repeat first
    [ solve [auto with steps]
    | apply lenient_bind; [| intros ?]
    | apply lenient_handle; [| intros ? | intros ?]
    | apply lenient_for_range; intros ?
    | apply lenient_extern_; frame
    | eapply lenient_one_call; [solve [eauto with calls] | reflexivity]
    | match goal with |- lenient _ (if ?b then _ else _) => destruct b end ].

Ltac steps :=
  repeat first
    [ solve [auto with steps]
    | apply lenient_disciplined; solve [calls]
    | apply disc_bind; [| intros ?]
    | apply disc_for_range; intros ?
    | apply disc_log_and_return
    | eapply disc_one_call; solve [eauto with calls]
    | match goal with |- disciplined _ (if ?b then _ else _) => destruct b end ].

Lemma disc_GetConnectionAPI {absorbed} host :
  disciplined absorbed (GetConnectionAPI host).
Proof.
  unfold GetConnectionAPI.
  apply (disc_cached (fun s => api (connections s))). steps.
Qed.
#[local] Hint Resolve disc_GetConnectionAPI : steps.

Lemma disc_GetConnectionSSH {absorbed} host :
  disciplined absorbed (GetConnectionSSH host).
Proof.
  unfold GetConnectionSSH.
  apply (disc_cached (fun s => ssh (connections s))). steps.
Qed.
#[local] Hint Resolve disc_GetConnectionSSH : steps.

Lemma disc_GetConnectionSFTP {absorbed} host :
  disciplined absorbed (GetConnectionSFTP host).
Proof.
  unfold GetConnectionSFTP.
  apply (disc_cached (fun s => sftp (connections s))). steps.
Qed.
#[local] Hint Resolve disc_GetConnectionSFTP : steps.

Lemma disc_GetUsers {absorbed} host : disciplined absorbed (GetUsers host).
Proof. unfold GetUsers. steps. Qed.

Lemma disc_GetGroups {absorbed} host : disciplined absorbed (GetGroups host).
Proof. unfold GetGroups. steps. Qed.

Lemma disc_GetSchedules {absorbed} host : disciplined absorbed (GetSchedules host).
Proof. unfold GetSchedules. steps. Qed.
#[local] Hint Resolve disc_GetUsers disc_GetGroups disc_GetSchedules : steps.

Lemma disc_Params_GetByName {absorbed} Params name :
  disciplined absorbed (Params_GetByName Params name).
Proof.
  unfold Params_GetByName. destruct (find _ Params); steps.
Qed.
#[local] Hint Resolve disc_Params_GetByName : steps.

Lemma disc_RemoveUser {absorbed} host n : disciplined absorbed (RemoveUser host n).
Proof. unfold RemoveUser. steps. Qed.

Lemma disc_RemoveGroup {absorbed} host n : disciplined absorbed (RemoveGroup host n).
Proof. unfold RemoveGroup. steps. Qed.

Lemma disc_RemoveSchedule {absorbed} host n :
  disciplined absorbed (RemoveSchedule host n).
Proof. unfold RemoveSchedule. steps. Qed.
#[local] Hint Resolve disc_RemoveUser disc_RemoveGroup disc_RemoveSchedule : steps.

Lemma disc_CleanUsers {absorbed} host : disciplined absorbed (CleanUsers host).
Proof. unfold CleanUsers. steps. Qed.

Lemma disc_CleanGroups {absorbed} host : disciplined absorbed (CleanGroups host).
Proof. unfold CleanGroups. steps. Qed.

Lemma disc_CleanSchedules {absorbed} host :
  disciplined absorbed (CleanSchedules host).
Proof. unfold CleanSchedules. steps. Qed.

Lemma disc_MakeGroup {absorbed} host g : disciplined absorbed (MakeGroup host g).
Proof. unfold MakeGroup. steps. Qed.

Lemma disc_MakeSchedule {absorbed} host c :
  disciplined absorbed (MakeSchedule host c).
Proof. unfold MakeSchedule. steps. Qed.

Lemma disc_MakeUser {absorbed} host user :
  disciplined absorbed (MakeUser host user).
Proof. unfold MakeUser. steps. Qed.

Lemma disc_UploadKey {absorbed} Params host key :
  disciplined absorbed (UploadKey Params host key).
Proof. unfold UploadKey. steps. Qed.

Lemma disc_MakeBackupFolder {absorbed} host :
  disciplined absorbed (MakeBackupFolder host).
Proof. unfold MakeBackupFolder, MakeDir. steps. Qed.

Lemma disc_DownloadFile {absorbed} host pathSrc dirDst delete :
  disciplined absorbed (DownloadFile host pathSrc dirDst delete).
Proof. unfold DownloadFile. steps. Qed.
#[local] Hint Resolve disc_DownloadFile : steps.

Lemma disc_DownloadFolder {absorbed} fuel host delete :
  forall dirSrc dirDst,
    disciplined absorbed (DownloadFolder fuel host dirSrc dirDst delete).
Proof.
  induction fuel as [| n IH]; intros dirSrc dirDst; cbn.
  - intros s s' r E. inversion E; subst. exists []. rewrite app_nil_r.
    split; [reflexivity | apply fatal_last_nil].
  - steps.
Qed.

(** The retry loop of the key import absorbs the failure of the import
    command and of no other call. *)
Lemma disc_ImportSshKey_from host user delay left :
  forall i, disciplined is_import (ImportSshKey_from host user delay i left).
Proof.
  induction left as [| n IH]; intros i; cbn [ImportSshKey_from].
  - apply lenient_disciplined, lenient_fail.
  - apply disc_bind; [apply disc_GetConnectionAPI | intros h].
    apply disc_bind; [apply lenient_disciplined, lenient_sleep | intros _].
    apply disc_handle.
    + apply (lenient_one_call (CApiRun (import_sentence user)));
        [apply one_call_api_Run | reflexivity].
    + intros _. apply lenient_disciplined, lenient_log.
    + intros err.
      apply disc_bind; [apply lenient_disciplined, lenient_log | intros _].
      apply disc_bind; [apply lenient_disciplined, lenient_log | intros _].
      apply IH.
Qed.

Lemma disc_ImportSshKey host user delay attempts :
  disciplined is_import (ImportSshKey host user delay attempts).
Proof.
  unfold ImportSshKey.
  apply disc_bind; [apply lenient_disciplined, lenient_log | intros _].
  apply disc_ImportSshKey_from.
Qed.

(** ** C3: what a failure does to the cycle *)

(** C3 (as stated, refuted). A cycle in which the user-creation command
    fails: the failure is event 12; the cycle goes on (event 21 is the
    directory listing of the backup step) and [StartManager] returns nil. *)
Lemma user_creation_failure_does_not_abort :
  snd cycle_add_fails = Ok tt /\
  nth_error (trace (fst cycle_add_fails)) 12
    = Some (mkEvent (CApiRun (user_add_sentence alice)) (Some injected)) /\
  nth_error (trace (fst cycle_add_fails)) 21
    = Some (mkEvent (CSftpReadDir "") None).
Proof. vm_compute. repeat split; reflexivity. Qed.

Lemma log_run msg s : log_Println msg s = (record (CLog msg) None s, Ok tt).
Proof. reflexivity. Qed.

(** A loop that has come through the entries [before]. *)
Lemma for_range_split {A} (before after : list A) (x : A) (body : A -> M unit)
      s s1 :
  for_range before body s = (s1, Ok tt) ->
  for_range (before ++ x :: after) body s = (body x ;; for_range after body) s1.
Proof.
  revert s. induction before as [| y before IH]; intros s H;
    cbn [for_range app] in *.
  - unfold ret in H. injection H as <-. reflexivity.
  - unfold bind at 1 in H. unfold bind at 1.
    destruct (body y s) as [t [[] | e | w]]; try discriminate.
    apply IH. exact H.
Qed.

Lemma run_steps_split host before msg step after s s1 :
  run_steps host before s = (s1, Ok tt) ->
  run_steps host (before ++ (msg, step) :: after) s
  = (step ;; run_steps host after) (record (CLog (tag host ++ msg)) None s1).
Proof.
  revert s. induction before as [| [m0 st0] before IH]; intros s H;
    cbn [run_steps app] in *.
  - unfold ret in H. injection H as <-.
    rewrite (bind_ok _ _ _ _ _ (log_run _ _)). reflexivity.
  - rewrite (bind_ok _ _ _ _ _ (log_run _ _)) in H.
    rewrite (bind_ok _ _ _ _ _ (log_run _ _)).
    unfold bind at 1 in H. unfold bind at 1.
    destruct (st0 _) as [t [[] | e | w]]; try discriminate.
    apply IH. exact H.
Qed.

Lemma bind_ext {A B} (m : M A) (f g : A -> M B) s :
  (forall a t, f a t = g a t) -> bind m f s = bind m g s.
Proof. intros H. unfold bind. destruct (m s) as [t [a | e | w]]; auto. Qed.

Lemma run_steps_cons {B} host msg step rest (k : unit -> M B) s :
  bind (run_steps host ((msg, step) :: rest)) k s
  = (log_Println (tag host ++ msg) ;; step ;; bind (run_steps host rest) k) s.
Proof.
  cbn [run_steps]. unfold bind. rewrite log_run.
  destruct (step _) as [t [[] | e | w]]; reflexivity.
Qed.

(** The cycle is its eight steps, each after the line that announces it,
    and the disconnection after the last. *)
Lemma StartManager_steps Params fuel host dir s :
  find (fun p => (param_Name p =? "dir_backup")%string) Params = Some dir ->
  StartManager Params fuel host s
  = (run_steps host (cycle_steps Params fuel host (backup_target dir host)) ;;
     Disconnect host) s.
Proof.
  intros F. unfold StartManager, Params_GetByName. rewrite F.
  unfold bind at 1, ret at 1. cbv zeta. unfold cycle_steps.
  repeat (rewrite run_steps_cons; apply bind_ext; intros _ ?;
          apply bind_ext; intros _ ?).
  reflexivity.
Qed.

(** C3 (amended). The error of a step of the cycle is the error of the
    cycle: the steps that follow are not run, nothing is disconnected,
    and [StartManager] returns it. Inside the clean steps, the backup
    folder step and the download, and inside a creation and a key upload,
    every failed call, of whatever kind (dial, query, mutation, file
    operation), is followed by log lines at most and its error is the
    result. In the add steps a failed creation of a group or of a schedule
    ends the step with its error, and so do a failed key upload and a
    failed key import, in which only the import command is tried again;
    but a failed [MakeUser] does not: [AddUsers] logs the error and goes
    on with the next declared user. (What an existence check does with a
    failed query is C10.) *)
Theorem StartManager_failure_semantics (Params : TParams) (fuel : nat)
        (host : THost) :
  (forall dir before msg step after s s1 s' e,
      find (fun p => (param_Name p =? "dir_backup")%string) Params = Some dir ->
      cycle_steps Params fuel host (backup_target dir host)
      = (before ++ (msg, step) :: after)%list ->
      run_steps host before s = (s1, Ok tt) ->
      step (record (CLog (tag host ++ msg)) None s1) = (s', Err e) ->
      StartManager Params fuel host s = (s', Err e)) /\
  (strict (CleanUsers host) /\ strict (CleanGroups host) /\
   strict (CleanSchedules host) /\ strict (MakeBackupFolder host) /\
   (forall dirSrc dirDst delete,
       strict (DownloadFolder fuel host dirSrc dirDst delete))) /\
  ((forall group, strict (MakeGroup host group)) /\
   (forall before group after s s1 s2 s' e,
       host_Groups host = (before ++ group :: after)%list ->
       for_range before (AddGroups_body host) s = (s1, Ok tt) ->
       IsContainGroup host group s1 = (s2, Ok false) ->
       MakeGroup host group s2 = (s', Err e) ->
       AddGroups host s = (s', Err e))) /\
  ((forall schedule, strict (MakeSchedule host schedule)) /\
   (forall before schedule after s s1 s2 s' e,
       host_Schedules host = (before ++ schedule :: after)%list ->
       for_range before (AddSchedules_body host) s = (s1, Ok tt) ->
       IsContainSchedule host schedule s1 = (s2, Ok false) ->
       MakeSchedule host schedule s2 = (s', Err e) ->
       AddSchedules host s = (s', Err e))) /\
  ((forall user, strict (MakeUser host user)) /\
   (forall key, strict (UploadKey Params host key)) /\
   (forall user delay attempts,
       disciplined is_import (ImportSshKey host user delay attempts)) /\
   (forall before user after s s1 s2,
       host_Users host = (before ++ user :: after)%list ->
       for_range before (AddUsers_body Params host) s = (s1, Ok tt) ->
       IsContainUser host user s1 = (s2, Ok false) ->
       (forall s3 e,
           MakeUser host user s2 = (s3, Err e) ->
           AddUsers Params host s
           = for_range after (AddUsers_body Params host)
               (record (CLog (tag host ++ "error: " ++ quoted e)) None s3)) /\
       (forall s3 s' e,
           MakeUser host user s2 = (s3, Ok tt) -> user_Key user <> "" ->
           UploadKey Params host (user_Key user) s3 = (s', Err e) ->
           AddUsers Params host s = (s', Err e)) /\
       (forall s3 s4 s' e,
           MakeUser host user s2 = (s3, Ok tt) -> user_Key user <> "" ->
           UploadKey Params host (user_Key user) s3 = (s4, Ok tt) ->
           ImportSshKey host user 5000 10 s4 = (s', Err e) ->
           AddUsers Params host s = (s', Err e)))).
Proof.
  split; [| split; [| split; [| split]]].
  - intros dir before msg step after s s1 s' e F C B H.
    rewrite (StartManager_steps _ _ _ _ _ F), C. unfold bind at 1.
    rewrite (run_steps_split _ _ _ _ _ _ _ B). unfold bind at 1.
    rewrite H. reflexivity.
  - repeat split.
    + apply disc_CleanUsers.
    + apply disc_CleanGroups.
    + apply disc_CleanSchedules.
    + apply disc_MakeBackupFolder.
    + intros dirSrc dirDst delete. apply disc_DownloadFolder.
  - split; [intros group; apply disc_MakeGroup |].
    intros before group after s s1 s2 s' e L B I H.
    unfold AddGroups. rewrite L, (for_range_split _ _ _ _ _ _ B).
    unfold bind at 1. unfold AddGroups_body at 1.
    rewrite (bind_ok _ _ _ _ _ I), H. reflexivity.
  - split; [intros schedule; apply disc_MakeSchedule |].
    intros before schedule after s s1 s2 s' e L B I H.
    unfold AddSchedules. rewrite L, (for_range_split _ _ _ _ _ _ B).
    unfold bind at 1. unfold AddSchedules_body at 1.
    rewrite (bind_ok _ _ _ _ _ I), H. reflexivity.
  - split; [intros user; apply disc_MakeUser |].
    split; [intros key; apply disc_UploadKey |].
    split; [intros user delay attempts; apply disc_ImportSshKey |].
    intros before user after s s1 s2 L B I.
    assert (K : AddUsers Params host s
               = match handle (MakeUser host user)
                         (fun _ =>
                            if negb (user_Key user =? "")%string
                            then UploadKey Params host (user_Key user) ;;
                                 ImportSshKey host user 5000 10
                            else ret tt)
                         (fun err => log_Println (tag host ++ "error: "
                                                  ++ quoted err)) s2 with
                 | (t', Ok _) => for_range after (AddUsers_body Params host) t'
                 | (t', Err e) => (t', Err e)
                 | (t', Abort w) => (t', Abort w)
                 end).
    { unfold AddUsers. rewrite L, (for_range_split _ _ _ _ _ _ B).
      unfold bind at 1. unfold AddUsers_body at 1.
      rewrite (bind_ok _ _ _ _ _ I). reflexivity. }
    split; [| split].
    + intros s3 e H. rewrite K. unfold handle. rewrite H, log_run. reflexivity.
    + intros s3 s' e H Hk U. rewrite K. unfold handle. rewrite H.
      apply String.eqb_neq in Hk. rewrite Hk. cbn [negb].
      unfold bind. rewrite U. reflexivity.
    + intros s3 s4 s' e H Hk U Im. rewrite K. unfold handle. rewrite H.
      apply String.eqb_neq in Hk. rewrite Hk. cbn [negb].
      unfold bind. rewrite U, Im. reflexivity.
Qed.

(** The control-plane dial fails in the first step of the cycle, inside
    the query of [CleanUsers]: the cycle ends there with the error of the
    dial. *)
Lemma StartManager_failure_semantics_witness :
  StartManager main_params 5 host_one_user world_dial_fails
  = (fst (CleanUsers host_one_user
            (record (CLog (tag host_one_user ++ "sequence for cleaning users"))
                    None world_dial_fails)),
     Err injected).
Proof.
  apply (proj1 (StartManager_failure_semantics main_params 5 host_one_user)
           (mkParam "dir_backup" "/srv/{host.name}/" "") []
           "sequence for cleaning users" (CleanUsers host_one_user)
           (tl (cycle_steps main_params 5 host_one_user
                            (backup_target (mkParam "dir_backup" "/srv/{host.name}/" "")
                                           host_one_user)))
           world_dial_fails world_dial_fails).
  - reflexivity.
  - reflexivity.
  - reflexivity.
  - vm_compute. reflexivity.
Defined.

(** In [CleanUsers] run on its own in that world the third call is the
    query of the accounts: it fails, it is the last event, and its error
    is the result. *)
Example CleanUsers_ends_at_the_failed_query :
  snd (CleanUsers host_one_user world_dial_fails) = Err injected /\
  last (trace (fst (CleanUsers host_one_user world_dial_fails)))
       (mkEvent (CLog "") None)
  = mkEvent (CApiRun ["/user/print"]) (Some injected).
Proof. vm_compute. split; reflexivity. Qed.

(** ** What one call changes *)

Lemma with_device_same s : with_device (device s) s = s.
Proof. destruct s. reflexivity. Qed.

(** A command changes the device at most, and leaves one event. *)
Lemma api_Run_inv h sentence s s' r :
  api_Run h sentence s = (s', r) ->
  exists d o,
    s' = record (CApiRun sentence) o (with_device d s) /\
    ((faults s (List.length (trace s)) = true /\ d = device s /\
      o = Some injected /\ r = Err injected) \/
     (faults s (List.length (trace s)) = false /\
      ((exists e, api_exec sentence (device s) = (d, inl e) /\
                  o = Some e /\ r = Err e) \/
       (exists a, api_exec sentence (device s) = (d, inr a) /\
                  o = None /\ r = Ok a)))).
Proof.
  intros H. unfold api_Run in H. apply extern_inv in H.
  destruct H as [[F [-> ->]] | [F [[s1 [e [E [-> ->]]]] | [s1 [a [E [-> ->]]]]]]].
  - exists (device s), (Some injected). rewrite with_device_same.
    split; [reflexivity | left; auto].
  - destruct (api_exec sentence (device s)) as [d x] eqn:X. inversion E; subst.
    exists d, (Some e). split; [reflexivity |]. right. split; [exact F |]. left. eauto.
  - destruct (api_exec sentence (device s)) as [d x] eqn:X. inversion E; subst.
    exists d, None. split; [reflexivity |]. right. split; [exact F |]. right. eauto.
Qed.

Lemma GetConnectionAPI_cached host s h :
  api (connections s) = Some h -> GetConnectionAPI host s = (s, Ok h).
Proof. intros H. unfold GetConnectionAPI. rewrite H. reflexivity. Qed.

Lemma sleep_run d s :
  time_Sleep d s = (record (CSleep d) None (with_clock (clock s + Z.max 0 d) s), Ok tt).
Proof. reflexivity. Qed.

(** Normalises the trace of a state built by a run of calls. *)
Ltac trace_norm :=
  cbn [trace record with_trace with_device with_clock with_connections
       with_wire with_local_fs];
  rewrite <- ?app_assoc; cbn [app].

(** ** C6: the bounded key import *)

Lemma ImportSshKey_from_attempts host user delay left :
  forall i s s' r h,
    api (connections s) = Some h ->
    ImportSshKey_from host user delay i left s = (s', r) ->
    exists evs outcomes,
      trace s' = (trace s ++ evs)%list /\
      non_log evs = flat_map (attempt user delay) outcomes /\
      ((r = Err all_attempts_used /\ List.length outcomes = left /\
        Forall failed outcomes) \/
       (r = Ok tt /\ (List.length outcomes <= left)%nat /\
        exists before, outcomes = (before ++ [None])%list /\ Forall failed before)).
Proof.
  induction left as [| n IH]; intros i s s' r h Hapi H.
  - inversion H; subst. exists [], []. rewrite app_nil_r.
    split; [reflexivity | split; [reflexivity |]]. left. auto.
  - cbn [ImportSshKey_from] in H.
    rewrite (bind_ok _ _ _ _ _ (GetConnectionAPI_cached host s h Hapi)) in H.
    rewrite (bind_ok _ _ _ _ _ (sleep_run _ s)) in H.
    apply handle_inv in H.
    destruct H as [[s2 [a [R H]]] | [[s2 [e [R H]]] | [w [R _]]]].
    + apply api_Run_inv in R. destruct R as [d [o [-> R]]].
      assert (o = None) by (destruct R as [[_ [_ [_ R]]] | [_ [[e [_ [_ R]]] | [b [_ [R _]]]]]];
                            congruence). subst o.
      rewrite log_run in H. injection H as <- <-.
      eexists [_; _; _], [None]. split; [trace_norm; reflexivity |].
      split; [reflexivity |]. right. split; [reflexivity | split; [cbn; lia |]].
      exists []. split; [reflexivity | constructor].
    + apply api_Run_inv in R. destruct R as [d [o [-> R]]].
      assert (o = Some e) by (destruct R as [[_ [_ [R1 R2]]] | [_ [[e' [_ [R1 R2]]] | [b [_ [_ R]]]]]];
                              congruence). subst o.
      rewrite (bind_ok _ _ _ _ _ (log_run _ _)) in H.
      rewrite (bind_ok _ _ _ _ _ (log_run _ _)) in H.
      apply IH with (h := h) in H; [| exact Hapi].
      destruct H as [evs [outcomes [T [N C]]]].
      eexists (_ :: _ :: _ :: _ :: evs), (Some e :: outcomes).
      split; [rewrite T; trace_norm; reflexivity |].
      split; [unfold non_log in *; cbn [filter ev_call is_log negb];
              rewrite N; reflexivity |].
      destruct C as [[-> [L F]] | [-> [L [before [-> F]]]]].
      * left. split; [reflexivity | split; [cbn; lia |]].
        constructor; [unfold failed; congruence | exact F].
      * right. split; [reflexivity | split; [cbn in *; lia |]].
        exists (Some e :: before). split; [reflexivity |].
        constructor; [unfold failed; congruence | exact F].
    + exfalso. destruct (one_call_api_Run h (import_sentence user) _ _ _ R) as [o [_ F]].
      exact F.
Qed.

(** C6. With the control-plane session open, [ImportSshKey] makes a run of
    attempts, each one the fixed wait [delay] milliseconds followed by the
    import command. Either every attempt failed, there were exactly
    [attempts] of them and the result is the all-attempts-used error; or the
    last attempt is the only one that succeeded, nothing follows it, and
    the result is success. *)
Theorem ImportSshKey_attempts host user delay attempts s s' r h :
  api (connections s) = Some h ->
  ImportSshKey host user delay attempts s = (s', r) ->
  exists evs outcomes,
    trace s' = (trace s ++ evs)%list /\
    non_log evs = flat_map (attempt user delay) outcomes /\
    ((r = Err all_attempts_used /\ List.length outcomes = Z.to_nat attempts /\
      Forall failed outcomes) \/
     (r = Ok tt /\ (List.length outcomes <= Z.to_nat attempts)%nat /\
      exists before, outcomes = (before ++ [None])%list /\ Forall failed before)).
Proof.
  intros Hapi H. unfold ImportSshKey in H.
  rewrite (bind_ok _ _ _ _ _ (log_run _ _)) in H.
  apply ImportSshKey_from_attempts with (h := h) in H; [| exact Hapi].
  destruct H as [evs [outcomes [T [N C]]]].
  eexists (_ :: evs), outcomes.
  split; [rewrite T; trace_norm; reflexivity |].
  split; [exact N | exact C].
Qed.

(** The specification's example: three attempts, every one failing. *)
Lemma ImportSshKey_attempts_witness :
  exists evs outcomes,
    trace (fst (ImportSshKey host_one_user alice 5000 3 world_import_fails))
    = (trace world_import_fails ++ evs)%list /\
    non_log evs = flat_map (attempt alice 5000) outcomes /\
    ((snd (ImportSshKey host_one_user alice 5000 3 world_import_fails)
      = Err all_attempts_used /\
      List.length outcomes = Z.to_nat 3 /\ Forall failed outcomes) \/
     (snd (ImportSshKey host_one_user alice 5000 3 world_import_fails) = Ok tt /\
      (List.length outcomes <= Z.to_nat 3)%nat /\
      exists before, outcomes = (before ++ [None])%list /\ Forall failed before)).
Proof.
  apply (ImportSshKey_attempts host_one_user alice 5000 3 world_import_fails
                               _ _ 0%nat).
  - reflexivity.
  - apply surjective_pairing.
Defined.

Example ImportSshKey_three_failures :
  snd (ImportSshKey host_one_user alice 5000 3 world_import_fails)
  = Err all_attempts_used /\
  non_log (trace (fst (ImportSshKey host_one_user alice 5000 3 world_import_fails)))
  = flat_map (attempt alice 5000) [Some injected; Some injected; Some injected] /\
  Int64.mul 5000 Millisecond = 5 * Second.
Proof. vm_compute. repeat split; reflexivity. Qed.

(** ** C8: the sessions of a host *)

Lemma invariant_of_cache s :
  cache_is_wire s ->
  (sftp (connections s) <> None -> ssh (connections s) <> None) ->
  session_invariant s.
Proof.
  intros (H1 & H2 & H3) H. split; [repeat split; assumption |].
  unfold one_session_each, file_over_shell. rewrite H1, H2, H3. split.
  - destruct (ssh (connections s)), (sftp (connections s)), (api (connections s));
      cbn; lia.
  - destruct (sftp (connections s)); cbn; [| congruence].
    intros _. destruct (ssh (connections s)); cbn; [discriminate |].
    exfalso. apply H; congruence.
Qed.

Lemma cache_of_invariant s :
  session_invariant s ->
  cache_is_wire s /\ (sftp (connections s) <> None -> ssh (connections s) <> None).
Proof.
  intros ((H1 & H2 & H3) & _ & F). split; [repeat split; assumption |].
  unfold file_over_shell in F. rewrite H1, H2 in F. intros N.
  destruct (sftp (connections s)); [| congruence].
  destruct (ssh (connections s)); [discriminate |].
  exfalso. apply F; cbn; congruence.
Qed.

Lemma drop_handle_same h : drop_handle h [h] = [].
Proof. unfold drop_handle. cbn. rewrite Nat.eqb_refl. reflexivity. Qed.

Ltac run_call :=
  unfold bind, log_Println, routeros_Dial, ssh_Dial, sftp_NewClient, api_Close,
    sftp_Close, ssh_Close, set_api, set_sftp, set_ssh, ret, extern_, extern;
  cbn [fst snd connections wire faults trace record with_trace with_wire
       with_connections ssh sftp api wire_ssh wire_sftp wire_api wire_add_api
       wire_add_ssh wire_add_sftp wire_del_api wire_del_ssh wire_del_sftp
       opt_list].

Lemma GetConnectionSSH_cache host s :
  cache_is_wire s ->
  cache_is_wire (fst (GetConnectionSSH host s)) /\
  sftp (connections (fst (GetConnectionSSH host s))) = sftp (connections s) /\
  api (connections (fst (GetConnectionSSH host s))) = api (connections s) /\
  (ssh (connections s) <> None ->
   ssh (connections (fst (GetConnectionSSH host s))) <> None) /\
  (forall h, snd (GetConnectionSSH host s) = Ok h ->
             ssh (connections (fst (GetConnectionSSH host s))) = Some h).
Proof.
  intros (H1 & H2 & H3). unfold GetConnectionSSH, cache_is_wire.
  destruct (ssh (connections s)) as [h |] eqn:E.
  - cbn [fst snd]. rewrite E. repeat split; auto. intros h' Hh. congruence.
  - run_call. destruct (faults s _); run_call.
    + rewrite E. repeat split; auto; discriminate.
    + rewrite H1. repeat split; auto; try discriminate. intros h Hh. congruence.
Qed.

Lemma GetConnectionAPI_cache host s :
  cache_is_wire s ->
  cache_is_wire (fst (GetConnectionAPI host s)) /\
  ssh (connections (fst (GetConnectionAPI host s))) = ssh (connections s) /\
  sftp (connections (fst (GetConnectionAPI host s))) = sftp (connections s) /\
  wire_ssh (wire (fst (GetConnectionAPI host s))) = wire_ssh (wire s) /\
  wire_sftp (wire (fst (GetConnectionAPI host s))) = wire_sftp (wire s).
Proof.
  intros (H1 & H2 & H3). unfold GetConnectionAPI, cache_is_wire.
  destruct (api (connections s)) as [h |] eqn:E.
  - cbn [fst snd]. rewrite E. repeat split; auto.
  - run_call. destruct (faults s _); run_call.
    + rewrite E. repeat split; auto.
    + rewrite H3. repeat split; auto.
Qed.

Lemma GetConnectionSFTP_cache host s s' r :
  GetConnectionSFTP host s = (s', r) ->
  cache_is_wire s ->
  (sftp (connections s) <> None -> ssh (connections s) <> None) ->
  cache_is_wire s' /\
  (sftp (connections s') <> None -> ssh (connections s') <> None) /\
  api (connections s') = api (connections s) /\
  (forall h, r = Ok h ->
             sftp (connections s') = Some h /\ ssh (connections s') <> None).
Proof.
  intros H C F. unfold GetConnectionSFTP in H.
  destruct (sftp (connections s)) as [h |] eqn:E.
  - injection H as <- <-. rewrite E.
    split; [exact C | split; [exact F | split; [reflexivity |]]].
    intros h' Hh. split; [congruence | apply F; discriminate].
  - pose proof (GetConnectionSSH_cache host s C) as P.
    apply bind_inv in H.
    destruct H as [[s1 [c [H1 H2]]] | [[e [H1 ->]] | [w [H1 ->]]]];
      rewrite H1 in P; cbn [fst snd] in P;
      destruct P as (C1 & S1 & A1 & _ & O1).
    + destruct C1 as (W1 & W2 & W3). specialize (O1 c eq_refl).
      revert H2. run_call. destruct (faults s1 _); intros H2;
        injection H2 as <- <-; unfold cache_is_wire; run_call.
      * split; [repeat split; assumption |].
        split; [congruence | split; [assumption | discriminate]].
      * rewrite W2, S1, E.
        split; [repeat split; assumption || reflexivity |].
        split; [congruence | split; [assumption |]].
        intros h Hh. split; congruence.
    + rewrite S1, E.
      split; [exact C1 | split; [congruence | split; [assumption | discriminate]]].
    + rewrite S1, E.
      split; [exact C1 | split; [congruence | split; [assumption | discriminate]]].
Qed.

Lemma Disconnect_cache host s :
  cache_is_wire s ->
  cache_is_wire (fst (Disconnect host s)) /\
  connections (fst (Disconnect host s)) = mkConnections None None None.
Proof.
  intros (H1 & H2 & H3). unfold Disconnect, cache_is_wire.
  destruct (connections s) as [c1 c2 c3] eqn:E. cbn [ssh sftp api] in *.
  destruct c1, c2, c3; cbn [opt_list] in *;
    run_call; rewrite ?E; run_call; rewrite ?E; run_call; rewrite ?E; run_call;
    rewrite ?E; cbn [ssh sftp api opt_list];
    rewrite ?H1, ?H2, ?H3, ?drop_handle_same; repeat split; reflexivity.
Qed.

(** C8. Each connection operation keeps the session invariant: the open
    sessions are the cached ones, at most one of each kind, and an open
    file-transfer session has its shell session open. [GetConnectionSFTP]
    gets the shell session first and fails when that fails or when the
    file-transfer client cannot be created; on success both sessions are
    cached. The control-plane session is independent: acquiring it leaves
    the other two as they are, and acquiring those leaves it as it is. *)
Theorem connections_keep_session_invariant (host : THost) (s : State) :
  session_invariant s ->
  session_invariant (fst (GetConnectionSSH host s)) /\
  session_invariant (fst (GetConnectionSFTP host s)) /\
  session_invariant (fst (GetConnectionAPI host s)) /\
  session_invariant (fst (Disconnect host s)) /\
  (sftp (connections s) = None ->
   forall s1 e, GetConnectionSSH host s = (s1, Err e) ->
                GetConnectionSFTP host s = (s1, Err e)) /\
  (sftp (connections s) = None ->
   forall s1 conn s2 e,
     GetConnectionSSH host s = (s1, Ok conn) ->
     (log_Println (tag host ++ "connection via SFTP") ;; sftp_NewClient conn) s1
     = (s2, Err e) ->
     GetConnectionSFTP host s = (s2, Err e)) /\
  (forall h, snd (GetConnectionSFTP host s) = Ok h ->
             sftp (connections (fst (GetConnectionSFTP host s))) = Some h /\
             ssh (connections (fst (GetConnectionSFTP host s))) <> None) /\
  (ssh (connections (fst (GetConnectionAPI host s))) = ssh (connections s) /\
   sftp (connections (fst (GetConnectionAPI host s))) = sftp (connections s) /\
   wire_ssh (wire (fst (GetConnectionAPI host s))) = wire_ssh (wire s) /\
   wire_sftp (wire (fst (GetConnectionAPI host s))) = wire_sftp (wire s)) /\
  (api (connections (fst (GetConnectionSSH host s))) = api (connections s) /\
   api (connections (fst (GetConnectionSFTP host s))) = api (connections s)).
Proof.
  intros I. apply cache_of_invariant in I. destruct I as [C F].
  destruct (GetConnectionSSH_cache host s C) as (C1 & S1 & A1 & N1 & O1).
  destruct (GetConnectionSFTP_cache host s _ _ (surjective_pairing _) C F)
    as (C2 & F2 & A2 & O2).
  destruct (GetConnectionAPI_cache host s C) as (C3 & S3 & T3 & W3 & V3).
  destruct (Disconnect_cache host s C) as (C4 & D4).
  repeat match goal with |- _ /\ _ => split end; auto.
  - apply invariant_of_cache; [exact C1 |]. rewrite S1. intros N. apply N1, F, N.
  - apply invariant_of_cache; assumption.
  - apply invariant_of_cache; [exact C3 |]. rewrite S3, T3. exact F.
  - apply invariant_of_cache; [exact C4 |]. rewrite D4. cbn. congruence.
  - intros E s1 e H. unfold GetConnectionSFTP. rewrite E.
    apply bind_err. exact H.
  - intros E s1 conn s2 e H1 H2. unfold GetConnectionSFTP. rewrite E.
    rewrite (bind_ok _ _ _ _ _ H1).
    apply bind_inv in H2.
    destruct H2 as [[s3 [a [L H2]]] | [[e0 [L _]] | [w [L _]]]];
      try (rewrite log_run in L; discriminate).
    rewrite (bind_ok _ _ _ _ _ L). apply bind_err. exact H2.
Qed.

Lemma connections_keep_session_invariant_witness :
  session_invariant (fst (GetConnectionSFTP host_one_user world_all_well)) /\
  session_invariant (fst (Disconnect host_one_user world_all_well)).
Proof.
  assert (I : session_invariant world_all_well).
  { unfold session_invariant, cache_is_wire, one_session_each, file_over_shell.
    cbn. repeat split; auto. }
  pose proof (connections_keep_session_invariant host_one_user world_all_well I)
    as (_ & H2 & _ & H4 & _).
  split; [exact H2 | exact H4].
Defined.

(** *** The session at the call of [ImportSshKey]

    [AddUsers] calls [ImportSshKey] after [MakeUser] and [UploadKey] have
    succeeded; the control-plane session is then open. *)

Lemma keeps_session_ret {A} (a : A) : keeps_session (ret a).
Proof. intros s s' r E. inversion E; subst. intros h H. exact H. Qed.

Lemma keeps_session_bind {A B} (m : M A) (f : A -> M B) :
  keeps_session m -> (forall a, keeps_session (f a)) -> keeps_session (bind m f).
Proof.
  intros Hm Hf s s' r E. apply bind_inv in E.
  destruct E as [[s1 [a [E1 E2]]] | [[e [E1 ->]] | [w [E1 ->]]]].
  - intros h H. exact (Hf _ _ _ _ E2 h (Hm _ _ _ E1 h H)).
  - exact (Hm _ _ _ E1).
  - exact (Hm _ _ _ E1).
Qed.

Lemma keeps_session_extern {A} c (sem : State -> State * (error + A)) :
  (forall s, connections (fst (sem s)) = connections s) ->
  keeps_session (extern c sem).
Proof.
  intros Hs s s' r E h H. apply extern_inv in E.
  destruct E as [[_ [-> _]] | [_ [[s1 [e [E [-> _]]]] | [s1 [a [E [-> _]]]]]]];
    try exact H; specialize (Hs s); rewrite E in Hs; cbn in Hs |- *;
    rewrite Hs; exact H.
Qed.

Lemma keeps_session_log msg : keeps_session (log_Println msg).
Proof. intros s s' r E h H. apply log_inv in E. destruct E as [-> _]. exact H. Qed.

Ltac same_connections :=
  intros ?s; unfold on_remote, on_local; cbn;
  repeat match goal with
         | |- context [let (_, _) := ?x in _] => destruct x
         end; reflexivity.

Lemma keeps_session_GetConnectionAPI host : keeps_session (GetConnectionAPI host).
Proof.
  intros s s' r E h H. unfold GetConnectionAPI in E. rewrite H in E.
  inversion E; subst. exact H.
Qed.

Lemma keeps_session_GetConnectionSSH host : keeps_session (GetConnectionSSH host).
Proof.
  intros s s' r E. unfold GetConnectionSSH in E.
  destruct (ssh (connections s)).
  - inversion E; subst. intros h H. exact H.
  - revert E. apply keeps_session_bind; [apply keeps_session_log | intros _].
    apply keeps_session_bind;
      [apply keeps_session_extern; same_connections | intros h].
    apply keeps_session_bind; [| intros _; apply keeps_session_ret].
    intros s0 s1 r0 X. inversion X; subst. intros h0 H. exact H.
Qed.

Lemma keeps_session_GetConnectionSFTP host : keeps_session (GetConnectionSFTP host).
Proof.
  intros s s' r E. unfold GetConnectionSFTP in E.
  destruct (sftp (connections s)).
  - inversion E; subst. intros h H. exact H.
  - revert E.
    apply keeps_session_bind; [apply keeps_session_GetConnectionSSH | intros c].
    apply keeps_session_bind; [apply keeps_session_log | intros _].
    apply keeps_session_bind;
      [apply keeps_session_extern; same_connections | intros h].
    apply keeps_session_bind; [| intros _; apply keeps_session_ret].
    intros s0 s1 r0 X. inversion X; subst. intros h0 H. exact H.
Qed.

Lemma keeps_session_UploadKey Params host key :
  keeps_session (UploadKey Params host key).
Proof.
  unfold UploadKey.
  apply keeps_session_bind; [apply keeps_session_log | intros _].
  apply keeps_session_bind; [apply keeps_session_GetConnectionSFTP | intros c].
  apply keeps_session_bind;
    [apply keeps_session_extern; same_connections | intros _].
  apply keeps_session_bind; [| intros dir].
  - unfold Params_GetByName. destruct (find _ Params).
    + apply keeps_session_ret.
    + intros s s' r E. inversion E; subst. intros h H. exact H.
  - apply keeps_session_bind;
      [apply keeps_session_extern; same_connections | intros _].
    apply keeps_session_bind;
      [apply keeps_session_extern; same_connections | intros _].
    apply keeps_session_ret.
Qed.

Lemma GetConnectionAPI_opens host s s' h :
  GetConnectionAPI host s = (s', Ok h) -> api (connections s') = Some h.
Proof.
  unfold GetConnectionAPI. destruct (api (connections s)) as [h0 |] eqn:E.
  - intros H. inversion H; subst. exact E.
  - run_call. destruct (faults s _); intros H; inversion H; subst. reflexivity.
Qed.

Lemma MakeUser_opens_session host user s s' :
  MakeUser host user s = (s', Ok tt) -> exists h, api (connections s') = Some h.
Proof.
  intros H. unfold MakeUser in H.
  rewrite (bind_ok _ _ _ _ _ (log_run _ _)) in H.
  apply bind_inv in H.
  destruct H as [[s1 [u [_ H]]] | [[e [_ N]] | [w [_ N]]]]; try discriminate.
  apply bind_inv in H.
  destruct H as [[s2 [h [E2 H]]] | [[e [_ N]] | [w [_ N]]]]; try discriminate.
  apply bind_inv in H.
  destruct H as [[s3 [a [E3 H]]] | [[e [_ N]] | [w [_ N]]]]; try discriminate.
  unfold ret in H. injection H as <-.
  apply api_Run_inv in E3. destruct E3 as [d [o [-> _]]].
  exists h. exact (GetConnectionAPI_opens _ _ _ _ E2).
Qed.

(** The precondition of C6 holds where the package calls [ImportSshKey]. *)
Lemma ImportSshKey_call_site Params host user s s2 s3 :
  MakeUser host user s = (s2, Ok tt) ->
  UploadKey Params host (user_Key user) s2 = (s3, Ok tt) ->
  exists h, api (connections s3) = Some h.
Proof.
  intros H1 H2. destruct (MakeUser_opens_session _ _ _ _ H1) as [h Hh].
  exists h. exact (keeps_session_UploadKey Params host _ _ _ _ H2 h Hh).
Qed.

(** ** C5: the pause after a cycle *)

(** C5 (as stated, refuted). A cycle that fails at its eighth call, the
    group query: by then the undeclared account has been removed (event
    5), so a failed cycle has changed the live state. [Run] then sleeps
    the back-off. *)
Lemma failed_cycle_after_a_removal :
  nth_error (trace (fst cycle_fails_late)) 7
    = Some (mkEvent (CApiRun ["/user/group/print"]) (Some injected)) /\
  nth_error (trace (fst cycle_fails_late)) 5
    = Some (mkEvent (CApiRun ["/user/remove"; "=numbers=intruder"]) None) /\
  live_users (device world_fails_late) = [admin; intruder] /\
  live_users (device (fst cycle_fails_late)) = [admin] /\
  nth_error (trace (fst cycle_fails_late)) 9
    = Some (mkEvent (CSleep (600 * Second)) None).
Proof. vm_compute. repeat split; reflexivity. Qed.

Lemma seconds_exact n :
  0 <= n <= max_seconds -> Int64.mul n Second = n * Second.
Proof.
  intros H. unfold Int64.mul. apply wrap_small.
  unfold Int64.in_range, Int64.min_int, Int64.max_int, Second, max_seconds in *. lia.
Qed.

Lemma unix_after_sleep s n :
  0 <= n -> (clock s + Z.max 0 (n * Second)) / 1000000000 = time_Now_Unix s + n.
Proof.
  intros H. unfold time_Now_Unix, Second.
  rewrite Z.max_r by lia. apply Z.div_add. lia.
Qed.

Lemma StartManager_dial_fails Params fuel host s dir :
  find (fun p => (param_Name p =? "dir_backup")%string) Params = Some dir ->
  api (connections s) = None ->
  faults s (List.length (trace s) + 2) = true ->
  StartManager Params fuel host s
  = (record (CDialAPI (endpoint (host_IP host) (host_PortAPI host))
                      (host_Login host) (host_Pass host)) (Some injected)
       (record (CLog (tag host ++ "connection via API")) None
          (record (CLog (tag host ++ "sequence for cleaning users")) None s)),
     Err injected).
Proof.
  intros Hdir Hapi Hf.
  unfold StartManager, Params_GetByName. rewrite Hdir.
  unfold bind at 1. cbn [ret].
  rewrite (bind_ok _ _ _ _ _ (log_run _ s)).
  apply bind_err. unfold CleanUsers. apply bind_err.
  unfold GetUsers. apply bind_err.
  unfold GetConnectionAPI. cbn [record with_trace connections]. rewrite Hapi.
  rewrite (bind_ok _ _ _ _ _ (log_run _ _)).
  apply bind_err. unfold routeros_Dial, extern.
  cbn [faults trace record with_trace]. rewrite !length_app. cbn [List.length].
  replace (List.length (trace s) + 1 + 1)%nat with (List.length (trace s) + 2)%nat
    by lia.
  rewrite Hf. reflexivity.
Qed.

(** C5 (amended). A cycle that fails is followed by a sleep of the task's
    [Expired] seconds, so the next cycle starts [Expired] seconds after the
    failure, whatever the anchor. When the control-plane dial at the start
    of the cycle fails, the cycle fails with that error having sent nothing
    to the device, whose state is unchanged. A cycle that succeeds is
    followed by a sleep up to the instant [GetNextTime] computed. *)
Theorem Run_once_schedule (Params : TParams) (fuel : nat) (host : THost) (s : State) :
  (forall s1 e,
      StartManager Params fuel host s = (s1, Err e) ->
      exists s',
        Run_once Params fuel host s = (s', Ok tt) /\
        trace s' = (trace s1 ++
                    [mkEvent (CLog (tag host ++ "manager error: " ++ quoted e)) None;
                     mkEvent (CSleep (Int64.mul (task_Expired (host_Task host)) Second))
                             None])%list /\
        device s' = device s1 /\
        (0 <= task_Expired (host_Task host) <= max_seconds ->
         time_Now_Unix s' = time_Now_Unix s1 + task_Expired (host_Task host))) /\
  (forall dir,
      find (fun p => (param_Name p =? "dir_backup")%string) Params = Some dir ->
      api (connections s) = None ->
      faults s (List.length (trace s) + 2) = true ->
      exists s1,
        StartManager Params fuel host s = (s1, Err injected) /\
        device s1 = device s /\
        trace s1 = (trace s ++
                    [mkEvent (CLog (tag host ++ "sequence for cleaning users")) None;
                     mkEvent (CLog (tag host ++ "connection via API")) None;
                     mkEvent (CDialAPI (endpoint (host_IP host) (host_PortAPI host))
                                       (host_Login host) (host_Pass host))
                             (Some injected)])%list) /\
  (forall s1 next,
      StartManager Params fuel host s = (s1, Ok tt) ->
      GetNextTime host (time_Now_Unix s1) = Some next ->
      exists s',
        Run_once Params fuel host s = (s', Ok tt) /\
        trace s' = (trace s1 ++
                    [mkEvent (CSleep (Int64.mul (Int64.sub next (time_Now_Unix s1))
                                                Second)) None])%list /\
        (0 <= next - time_Now_Unix s1 <= max_seconds ->
         time_Now_Unix s' = next)).
Proof.
  split; [| split].
  - intros s1 e H. eexists. unfold Run_once, handle. rewrite H.
    rewrite (bind_ok _ _ _ _ _ (log_run _ _)). rewrite sleep_run.
    split; [reflexivity |]. split; [trace_norm; reflexivity |].
    split; [reflexivity |]. intros R.
    unfold time_Now_Unix at 1. cbn [clock record with_trace with_clock].
    rewrite (seconds_exact _ R). apply unix_after_sleep. lia.
  - intros dir Hdir Hapi Hf. eexists.
    split; [apply (StartManager_dial_fails _ _ _ _ _ Hdir Hapi Hf) |].
    split; [reflexivity | trace_norm; reflexivity].
  - intros s1 next H G. eexists. unfold Run_once, handle. rewrite H, G.
    rewrite sleep_run. split; [reflexivity |]. split; [reflexivity |].
    intros R. unfold time_Now_Unix at 1. cbn [clock record with_trace with_clock].
    unfold Int64.sub. rewrite (wrap_small (next - time_Now_Unix s1)).
    + rewrite (seconds_exact _ R). rewrite unix_after_sleep by lia. lia.
    + unfold Int64.in_range, Int64.min_int, Int64.max_int, max_seconds in *. lia.
Qed.

(** The dial fails at the start of a cycle on a device that has an
    undeclared account: no command is sent, the account stays. *)
Lemma Run_once_schedule_witness :
  exists s1,
    StartManager main_params 5 host_one_user world_dial_fails = (s1, Err injected) /\
    device s1 = device world_dial_fails /\
    trace s1 = (trace world_dial_fails ++
                [mkEvent (CLog (tag host_one_user ++ "sequence for cleaning users")) None;
                 mkEvent (CLog (tag host_one_user ++ "connection via API")) None;
                 mkEvent (CDialAPI (endpoint (host_IP host_one_user)
                                             (host_PortAPI host_one_user))
                                   (host_Login host_one_user)
                                   (host_Pass host_one_user))
                         (Some injected)])%list.
Proof.
  pose proof (Run_once_schedule main_params 5 host_one_user world_dial_fails)
    as (_ & H & _).
  apply (H (mkParam "dir_backup" "/srv/{host.name}/" "")); reflexivity.
Defined.

(** ** Steps that change nothing on the device *)

Lemma changes_app evs1 evs2 :
  changes (evs1 ++ evs2) = (changes evs1 ++ changes evs2)%list.
Proof. unfold changes, commands. rewrite flat_map_app, filter_app. reflexivity. Qed.

Lemma inert_step_refl s : inert_step s s.
Proof.
  repeat split; try reflexivity. exists []. rewrite app_nil_r. auto.
Qed.

Lemma inert_step_trans s1 s2 s3 :
  inert_step s1 s2 -> inert_step s2 s3 -> inert_step s1 s3.
Proof.
  intros (F1 & U1 & G1 & C1 & evs1 & T1 & N1) (F2 & U2 & G2 & C2 & evs2 & T2 & N2).
  repeat split; try congruence.
  exists (evs1 ++ evs2)%list. rewrite T2, T1, app_assoc. split; [reflexivity |].
  rewrite changes_app, N1, N2. reflexivity.
Qed.

Lemma inert_ret {A} (a : A) : inert (ret a).
Proof. intros s s' r E. inversion E; subst. apply inert_step_refl. Qed.

Lemma inert_fail {A} e : inert (fail e : M A).
Proof. intros s s' r E. inversion E; subst. apply inert_step_refl. Qed.

Lemma inert_bind {A B} (m : M A) (f : A -> M B) :
  inert m -> (forall a, inert (f a)) -> inert (bind m f).
Proof.
  intros Hm Hf s s' r E. apply bind_inv in E.
  destruct E as [[s1 [a [E1 E2]]] | [[e [E1 ->]] | [w [E1 ->]]]].
  - eapply inert_step_trans; [exact (Hm _ _ _ E1) | exact (Hf _ _ _ _ E2)].
  - exact (Hm _ _ _ E1).
  - exact (Hm _ _ _ E1).
Qed.

Lemma inert_handle {A B} (m : M A) (ok : A -> M B) (err : error -> M B) :
  inert m -> (forall a, inert (ok a)) -> (forall e, inert (err e)) ->
  inert (handle m ok err).
Proof.
  intros Hm Hok Herr s s' r E. apply handle_inv in E.
  destruct E as [[s1 [a [E1 E2]]] | [[s1 [e [E1 E2]]] | [w [E1 ->]]]].
  - eapply inert_step_trans; [exact (Hm _ _ _ E1) | exact (Hok _ _ _ _ E2)].
  - eapply inert_step_trans; [exact (Hm _ _ _ E1) | exact (Herr _ _ _ _ E2)].
  - exact (Hm _ _ _ E1).
Qed.

Lemma inert_for_range {A} (xs : list A) (body : A -> M unit) :
  (forall x, inert (body x)) -> inert (for_range xs body).
Proof.
  intros Hb. induction xs as [| x xs IH]; cbn.
  - apply inert_ret.
  - apply inert_bind; auto.
Qed.

Lemma inert_cached (f : State -> option nat) (m : M nat) :
  inert m ->
  inert (fun s => match f s with None => m s | Some h => (s, Ok h) end).
Proof.
  intros Hm s s' r E. destruct (f s).
  - inversion E; subst. apply inert_step_refl.
  - exact (Hm _ _ _ E).
Qed.

Lemma inert_step_record c o s s1 :
  keeps_live s s1 -> changes [mkEvent c o] = [] -> inert_step s (record c o s1).
Proof.
  intros (T & F & U & G & C) N. repeat split; try assumption.
  exists [mkEvent c o]. rewrite trace_record, T. auto.
Qed.

Lemma keeps_live_refl s : keeps_live s s.
Proof. repeat split. Qed.

Lemma inert_extern {A} c (sem : State -> State * (error + A)) :
  (forall s, keeps_live s (fst (sem s))) ->
  (forall o, changes [mkEvent c o] = []) ->
  inert (extern c sem).
Proof.
  intros Hs Hc s s' r E. apply extern_inv in E.
  destruct E as [[_ [-> ->]] | [_ [[s1 [e [E [-> ->]]]] | [s1 [a [E [-> ->]]]]]]].
  - apply inert_step_record; [apply keeps_live_refl | apply Hc].
  - specialize (Hs s). rewrite E in Hs. apply inert_step_record; [exact Hs | apply Hc].
  - specialize (Hs s). rewrite E in Hs. apply inert_step_record; [exact Hs | apply Hc].
Qed.

Lemma inert_extern_ {A} c (sem : State -> State * A) :
  (forall s, keeps_live s (fst (sem s))) ->
  (forall o, changes [mkEvent c o] = []) ->
  inert (extern_ c sem).
Proof.
  intros Hs Hc s s' r E. apply extern__inv in E. destruct E as [-> _].
  apply inert_step_record; [apply Hs | apply Hc].
Qed.

Ltac keeps :=
  intros ?s; unfold keeps_live, on_remote, on_local; cbn;
  repeat match goal with
         | |- context [let (_, _) := ?x in _] => destruct x
         | |- context [match ?x with _ => _ end] => destruct x
         end; repeat split; reflexivity.

Create HintDb inert.

Lemma inert_log msg : inert (log_Println msg).
Proof. apply inert_extern_; [keeps | reflexivity]. Qed.

Lemma inert_sleep d : inert (time_Sleep d).
Proof. apply inert_extern_; [keeps | reflexivity]. Qed.

Lemma inert_routeros_Dial a l p : inert (routeros_Dial a l p).
Proof. apply inert_extern; [keeps | reflexivity]. Qed.

Lemma inert_ssh_Dial a l p : inert (ssh_Dial a l p).
Proof. apply inert_extern; [keeps | reflexivity]. Qed.

Lemma inert_sftp_NewClient h : inert (sftp_NewClient h).
Proof. apply inert_extern; [keeps | reflexivity]. Qed.

Lemma inert_sftp_Create h p : inert (sftp_Create h p).
Proof. apply inert_extern; [keeps | reflexivity]. Qed.

Lemma inert_os_Open p : inert (os_Open p).
Proof. apply inert_extern; [keeps | reflexivity]. Qed.

Lemma inert_io_CopyUp d p : inert (io_CopyUp d p).
Proof. apply inert_extern; [keeps | reflexivity]. Qed.

Lemma inert_set_api h : inert (set_api h).
Proof. intros s s' r E. inversion E; subst.
  repeat split. exists []. rewrite app_nil_r. auto. Qed.

Lemma inert_set_ssh h : inert (set_ssh h).
Proof. intros s s' r E. inversion E; subst.
  repeat split. exists []. rewrite app_nil_r. auto. Qed.

Lemma inert_set_sftp h : inert (set_sftp h).
Proof. intros s s' r E. inversion E; subst.
  repeat split. exists []. rewrite app_nil_r. auto. Qed.

Lemma inert_GeneratePassword : inert GeneratePassword.
Proof. intros s s' r E. inversion E; subst. apply inert_step_refl. Qed.

#[local] Hint Resolve inert_ret inert_fail inert_log inert_sleep
  inert_routeros_Dial inert_ssh_Dial inert_sftp_NewClient inert_sftp_Create
  inert_os_Open inert_io_CopyUp inert_set_api inert_set_ssh inert_set_sftp
  inert_GeneratePassword : inert.

Ltac inert_tac :=
  repeat first
    [ solve [auto with inert]
    | apply inert_bind; [| intros ?]
    | apply inert_handle; [| intros ? | intros ?]
    | apply inert_for_range; intros ?
    | match goal with |- inert (if ?b then _ else _) => destruct b end ].

Lemma inert_print h cmd :
  In cmd ["/user/print"; "/user/group/print"; "/system/scheduler/print"] ->
  inert (api_Run h [cmd]).
Proof.
  intros Hc. unfold api_Run. apply inert_extern.
  - intros s. cbn in Hc.
    destruct Hc as [<- | [<- | [<- | []]]]; cbn; repeat split; reflexivity.
  - intros o. cbn in Hc. destruct Hc as [<- | [<- | [<- | []]]]; reflexivity.
Qed.

Lemma inert_import h user : inert (api_Run h (import_sentence user)).
Proof.
  unfold api_Run. apply inert_extern.
  - intros s. unfold import_sentence. cbn.
    destruct (fs_lookup _ _) as [[| data] |]; try (repeat split; reflexivity).
    destruct (has_user _ _); repeat split; reflexivity.
  - intros o. reflexivity.
Qed.

Lemma inert_GetConnectionAPI host : inert (GetConnectionAPI host).
Proof.
  unfold GetConnectionAPI.
  apply (inert_cached (fun s => api (connections s))). inert_tac.
Qed.

Lemma inert_GetConnectionSSH host : inert (GetConnectionSSH host).
Proof.
  unfold GetConnectionSSH.
  apply (inert_cached (fun s => ssh (connections s))). inert_tac.
Qed.
#[local] Hint Resolve inert_GetConnectionAPI inert_GetConnectionSSH inert_import : inert.

Lemma inert_GetConnectionSFTP host : inert (GetConnectionSFTP host).
Proof.
  unfold GetConnectionSFTP.
  apply (inert_cached (fun s => sftp (connections s))). inert_tac.
Qed.
#[local] Hint Resolve inert_GetConnectionSFTP : inert.

Lemma inert_GetUsers host : inert (GetUsers host).
Proof. unfold GetUsers. inert_tac. apply inert_print. cbn. auto. Qed.

Lemma inert_GetGroups host : inert (GetGroups host).
Proof. unfold GetGroups. inert_tac. apply inert_print. cbn. auto. Qed.

Lemma inert_GetSchedules host : inert (GetSchedules host).
Proof. unfold GetSchedules. inert_tac. apply inert_print. cbn. auto. Qed.
#[local] Hint Resolve inert_GetUsers inert_GetGroups inert_GetSchedules : inert.

Lemma inert_IsContainUser host user : inert (IsContainUser host user).
Proof. unfold IsContainUser. inert_tac. Qed.

Lemma inert_IsContainGroup host group : inert (IsContainGroup host group).
Proof. unfold IsContainGroup. inert_tac. Qed.

Lemma inert_IsContainSchedule host c : inert (IsContainSchedule host c).
Proof. unfold IsContainSchedule. inert_tac. Qed.

Lemma inert_Params_GetByName Params name : inert (Params_GetByName Params name).
Proof. unfold Params_GetByName. destruct (find _ Params); inert_tac. Qed.
#[local] Hint Resolve inert_IsContainUser inert_IsContainGroup
  inert_IsContainSchedule inert_Params_GetByName : inert.

Lemma inert_UploadKey Params host key : inert (UploadKey Params host key).
Proof. unfold UploadKey. inert_tac. Qed.

Lemma inert_ImportSshKey_from host user delay left :
  forall i, inert (ImportSshKey_from host user delay i left).
Proof. induction left as [| n IH]; intros i; cbn; inert_tac. Qed.

Lemma inert_ImportSshKey host user delay attempts :
  inert (ImportSshKey host user delay attempts).
Proof. unfold ImportSshKey. inert_tac. apply inert_ImportSshKey_from. Qed.
#[local] Hint Resolve inert_UploadKey inert_ImportSshKey : inert.

(** ** Words of a command sentence *)

Lemma starts_with_app pre v : starts_with pre (pre ++ v) = true.
Proof.
  unfold starts_with. induction pre as [| c pre IH]; cbn.
  - destruct v; reflexivity.
  - destruct (ascii_dec c c) as [_ | N]; [exact IH | contradiction].
Qed.

Lemma string_length_app (a b : string) :
  String.length (a ++ b) = (String.length a + String.length b)%nat.
Proof. induction a as [| c a IH]; cbn; [reflexivity | rewrite IH; reflexivity]. Qed.

Lemma substring_all v : substring 0 (String.length v) v = v.
Proof. induction v as [| c v IH]; cbn; [reflexivity | rewrite IH; reflexivity]. Qed.

Lemma drop_chars_app pre v : drop_chars (String.length pre) (pre ++ v) = v.
Proof.
  unfold drop_chars. rewrite string_length_app.
  replace (String.length pre + String.length v - String.length pre)%nat
    with (String.length v) by lia.
  induction pre as [| c pre IH]; cbn; [apply substring_all | exact IH].
Qed.

(** The first word of the arguments, when it is the word of [key]. *)
Lemma word_arg_first key v rest :
  word_arg key ((("=" ++ key ++ "=") ++ v) :: rest) = v.
Proof.
  unfold word_arg. cbn [find]. rewrite starts_with_app. apply drop_chars_app.
Qed.

Lemma word_arg_numbers n rest : word_arg "numbers" (("=numbers=" ++ n) :: rest) = n.
Proof. exact (word_arg_first "numbers" n rest). Qed.

Lemma word_arg_name n rest : word_arg "name" (("=name=" ++ n) :: rest) = n.
Proof. exact (word_arg_first "name" n rest). Qed.

(** ** C4: the clean steps *)

Lemma filter_twice {A} (p q : A -> bool) (l : list A) :
  filter p (filter q l) = filter (fun x => q x && p x) l.
Proof.
  induction l as [| x l IH]; cbn; [reflexivity |].
  destruct (q x); cbn; [destruct (p x) |]; rewrite IH; reflexivity.
Qed.

Section CleanLoop.

Context {E L : Type}.
Variable name : E -> string.
Variable keep : string -> bool.
Variable rm : string -> M unit.
Variable cmd : string.
Variable lname : L -> string.
Variable live : State -> list L.

Hypothesis rm_changes :
  forall n s s' r, rm n s = (s', r) ->
    exists evs, trace s' = (trace s ++ evs)%list /\
      (changes evs = [remove_sentence cmd n] \/ (changes evs = [] /\ r <> Ok tt)).

Hypothesis rm_effect :
  forall n s s', rm n s = (s', Ok tt) ->
    live s' = filter (fun e => negb (lname e =? n)%string) (live s).

Lemma clean_loop_changes xs :
  forall s s' r, clean_loop name keep rm xs s = (s', r) ->
    exists evs rest,
      trace s' = (trace s ++ evs)%list /\
      map (remove_sentence cmd) (doomed keep (map name xs)) = (changes evs ++ rest)%list /\
      (r = Ok tt -> rest = []).
Proof.
  unfold clean_loop, doomed.
  induction xs as [| x xs IH]; intros s s' r H; cbn in H.
  - inversion H; subst. exists [], []. rewrite app_nil_r. auto.
  - cbn [map filter]. apply bind_inv in H.
    destruct (keep (name x)) eqn:K; cbn [negb] in *.
    + destruct H as [[s1 [a [E1 E2]]] | [[e [E1 _]] | [w [E1 _]]]];
        inversion E1; subst. exact (IH _ _ _ E2).
    + destruct H as [[s1 [a [E1 E2]]] | [[e [E1 ->]] | [w [E1 ->]]]].
      * destruct a. destruct (rm_changes _ _ _ _ E1) as [evs1 [T1 [C1 | [_ N]]]];
          [| congruence].
        destruct (IH _ _ _ E2) as [evs2 [rest [T2 [M2 R2]]]].
        exists (evs1 ++ evs2)%list, rest.
        rewrite map_cons, M2, T2, T1, app_assoc, changes_app, C1. auto.
      * destruct (rm_changes _ _ _ _ E1) as [evs1 [T1 [C1 | [C1 _]]]];
          eexists evs1, _; rewrite C1; (split; [exact T1 |]);
          (split; [reflexivity | discriminate]).
      * destruct (rm_changes _ _ _ _ E1) as [evs1 [T1 [C1 | [C1 _]]]];
          eexists evs1, _; rewrite C1; (split; [exact T1 |]);
          (split; [reflexivity | discriminate]).
Qed.

Lemma clean_loop_effect xs :
  forall s s', clean_loop name keep rm xs s = (s', Ok tt) ->
    live s' = filter (fun e => negb (existsb (String.eqb (lname e))
                                             (doomed keep (map name xs))))
                     (live s).
Proof.
  unfold clean_loop, doomed.
  induction xs as [| x xs IH]; intros s s' H; cbn in H.
  - inversion H; subst. cbn. symmetry. apply forallb_filter_id.
    apply forallb_forall. reflexivity.
  - cbn [map filter]. apply bind_inv in H.
    destruct H as [[s1 [a [E1 E2]]] | [[e [_ N]] | [w [_ N]]]]; try discriminate.
    destruct (keep (name x)) eqn:K; cbn [negb] in *.
    + inversion E1; subst. exact (IH _ _ E2).
    + destruct a. rewrite (IH _ _ E2), (rm_effect _ _ _ E1), filter_twice.
      apply filter_ext. intros e. cbn [existsb]. rewrite negb_orb. reflexivity.
Qed.

(** When the entries walked are the live ones, what is left is what is
    kept. *)
Lemma clean_loop_exact xs s s' :
  map name xs = map lname (live s) ->
  clean_loop name keep rm xs s = (s', Ok tt) ->
  live s' = filter (fun e => keep (lname e)) (live s).
Proof.
  intros Hn H. rewrite (clean_loop_effect _ _ _ H), Hn.
  apply filter_ext_in. intros e He. unfold doomed.
  destruct (keep (lname e)) eqn:K.
  - apply negb_true_iff. apply not_true_is_false. intros X.
    apply existsb_exists in X. destruct X as [n [Hin Heq]].
    apply filter_In in Hin. apply String.eqb_eq in Heq. subst n.
    rewrite K in Hin. destruct Hin; discriminate.
  - apply negb_false_iff. apply existsb_exists. exists (lname e).
    split; [| apply String.eqb_refl].
    apply filter_In. split; [apply in_map; exact He | rewrite K; reflexivity].
Qed.

End CleanLoop.

(** The device's answers, command by command. *)

Lemma api_exec_user_print d :
  api_exec ["/user/print"] d = (d, inr (map user_re (live_users d))).
Proof. reflexivity. Qed.

Lemma api_exec_group_print d :
  api_exec ["/user/group/print"] d = (d, inr (map group_re (live_groups d))).
Proof. reflexivity. Qed.

Lemma api_exec_schedule_print d :
  api_exec ["/system/scheduler/print"] d
  = (d, inr (map schedule_re (live_schedules d))).
Proof. reflexivity. Qed.

Lemma api_exec_user_remove n d :
  api_exec (remove_sentence "/user/remove" n) d
  = if has_user d n
    then (with_live_users
            (filter (fun u => negb (user_Login u =? n)%string) (live_users d)) d,
          inr [])
    else (d, inl no_such_item).
Proof.
  change (api_exec (remove_sentence "/user/remove" n) d)
    with (let m := word_arg "numbers" ["=numbers=" ++ n] in
          if has_user d m
          then (with_live_users
                  (filter (fun u => negb (user_Login u =? m)%string) (live_users d)) d,
                inr [])
          else (d, inl no_such_item) : Device * (error + Reply)).
  cbv zeta. rewrite word_arg_numbers. reflexivity.
Qed.

Lemma api_exec_group_remove n d :
  api_exec (remove_sentence "/user/group/remove" n) d
  = if has_group d n
    then (with_live_groups
            (filter (fun g => negb (group_Name g =? n)%string) (live_groups d)) d,
          inr [])
    else (d, inl no_such_item).
Proof.
  change (api_exec (remove_sentence "/user/group/remove" n) d)
    with (let m := word_arg "numbers" ["=numbers=" ++ n] in
          if has_group d m
          then (with_live_groups
                  (filter (fun g => negb (group_Name g =? m)%string) (live_groups d)) d,
                inr [])
          else (d, inl no_such_item) : Device * (error + Reply)).
  cbv zeta. rewrite word_arg_numbers. reflexivity.
Qed.

Lemma api_exec_schedule_remove n d :
  api_exec (remove_sentence "/system/scheduler/remove" n) d
  = if has_schedule d n
    then (with_live_schedules
            (filter (fun c => negb (sched_Name c =? n)%string) (live_schedules d)) d,
          inr [])
    else (d, inl no_such_item).
Proof.
  change (api_exec (remove_sentence "/system/scheduler/remove" n) d)
    with (let m := word_arg "numbers" ["=numbers=" ++ n] in
          if has_schedule d m
          then (with_live_schedules
                  (filter (fun c => negb (sched_Name c =? m)%string) (live_schedules d)) d,
                inr [])
          else (d, inl no_such_item) : Device * (error + Reply)).
  cbv zeta. rewrite word_arg_numbers. reflexivity.
Qed.

Lemma changes_one sen o :
  is_change sen = true -> changes [mkEvent (CApiRun sen) o] = [sen].
Proof. intros H. unfold changes. cbn. rewrite H. reflexivity. Qed.

(** The three removals have one shape: session, log line, command. *)
Lemma remove_step host msg sen s s' r :
  is_change sen = true ->
  (connApi <- GetConnectionAPI host ;;
   log_Println msg ;; api_Run connApi sen ;; ret tt) s = (s', r) ->
  exists evs,
    trace s' = (trace s ++ evs)%list /\
    ((changes evs = [sen] /\
      exists s1 d o,
        inert_step s s1 /\ s' = record (CApiRun sen) o (with_device d s1) /\
        (r = Ok tt -> exists a, api_exec sen (device s1) = (d, inr a))) \/
     (changes evs = [] /\ r <> Ok tt)).
Proof.
  intros Hc H. apply bind_inv in H.
  destruct H as [[s1 [h [E1 E2]]] | [[e [E1 ->]] | [w [E1 ->]]]].
  - pose proof (inert_GetConnectionAPI host _ _ _ E1) as I1.
    rewrite (bind_ok _ _ _ _ _ (log_run _ _)) in E2.
    pose proof (inert_log msg _ _ _ (log_run msg s1)) as I2.
    pose proof (inert_step_trans _ _ _ I1 I2) as I.
    apply bind_inv in E2.
    destruct E2 as [[s3 [a [R E3]]] | [[e [R ->]] | [w [R ->]]]];
      apply api_Run_inv in R; destruct R as [d [o [-> R]]];
      try (unfold ret in E3; injection E3 as <- <-);
      pose proof I as I';
      destruct I as (F & U & G & C & evs & T & N);
      exists (evs ++ [mkEvent (CApiRun sen) o])%list;
      (split; [rewrite trace_record; cbn [with_device trace];
               rewrite T, <- app_assoc; reflexivity |]);
      left; (split; [rewrite changes_app, N, (changes_one sen o Hc); reflexivity |]);
      exists (record (CLog msg) None s1), d, o; (split; [exact I' |]).
    + split; [reflexivity |]. intros _.
      destruct R as [[_ [_ [_ R]]] | [_ [[e [_ [_ R]]] | [b [R _]]]]];
        try discriminate. exists b. exact R.
    + split; [reflexivity | discriminate].
    + split; [reflexivity | discriminate].
  - destruct (inert_GetConnectionAPI host _ _ _ E1) as (_ & _ & _ & _ & evs & T & N).
    exists evs. split; [exact T |]. right. split; [exact N | discriminate].
  - destruct (inert_GetConnectionAPI host _ _ _ E1) as (_ & _ & _ & _ & evs & T & N).
    exists evs. split; [exact T |]. right. split; [exact N | discriminate].
Qed.

Lemma remove_step_changes host msg cmd n s s' r :
  is_change (remove_sentence cmd n) = true ->
  (connApi <- GetConnectionAPI host ;;
   log_Println msg ;; api_Run connApi (remove_sentence cmd n) ;; ret tt) s = (s', r) ->
  exists evs, trace s' = (trace s ++ evs)%list /\
    (changes evs = [remove_sentence cmd n] \/ (changes evs = [] /\ r <> Ok tt)).
Proof.
  intros Hc H. destruct (remove_step _ _ _ _ _ _ Hc H) as [evs [T [[C _] | C]]];
    exists evs; auto.
Qed.

Lemma RemoveUser_effect host n s s' :
  RemoveUser host n s = (s', Ok tt) ->
  live_users (device s')
  = filter (fun u => negb (user_Login u =? n)%string) (live_users (device s)).
Proof.
  intros H. apply (remove_step host _ (remove_sentence "/user/remove" n)) in H;
    [| reflexivity].
  destruct H as [evs [_ [[_ [s1 [d [o [I [-> R]]]]]] | [_ N]]]]; [| congruence].
  destruct (R eq_refl) as [a X]. rewrite api_exec_user_remove in X.
  destruct I as (_ & U & _). rewrite <- U.
  destruct (has_user (device s1) n); inversion X; subst. reflexivity.
Qed.

Lemma RemoveGroup_effect host n s s' :
  RemoveGroup host n s = (s', Ok tt) ->
  live_groups (device s')
  = filter (fun g => negb (group_Name g =? n)%string) (live_groups (device s)).
Proof.
  intros H. apply (remove_step host _ (remove_sentence "/user/group/remove" n)) in H;
    [| reflexivity].
  destruct H as [evs [_ [[_ [s1 [d [o [I [-> R]]]]]] | [_ N]]]]; [| congruence].
  destruct (R eq_refl) as [a X]. rewrite api_exec_group_remove in X.
  destruct I as (_ & _ & G & _). rewrite <- G.
  destruct (has_group (device s1) n); inversion X; subst. reflexivity.
Qed.

Lemma RemoveSchedule_effect host n s s' :
  RemoveSchedule host n s = (s', Ok tt) ->
  live_schedules (device s')
  = filter (fun c => negb (sched_Name c =? n)%string) (live_schedules (device s)).
Proof.
  intros H.
  apply (remove_step host _ (remove_sentence "/system/scheduler/remove" n)) in H;
    [| reflexivity].
  destruct H as [evs [_ [[_ [s1 [d [o [I [-> R]]]]]] | [_ N]]]]; [| congruence].
  destruct (R eq_refl) as [a X]. rewrite api_exec_schedule_remove in X.
  destruct I as (_ & _ & _ & C & _). rewrite <- C.
  destruct (has_schedule (device s1) n); inversion X; subst. reflexivity.
Qed.

Lemma GetUsers_reads host s s1 users :
  GetUsers host s = (s1, Ok users) ->
  map user_Login users = live_logins s.
Proof.
  intros H. unfold GetUsers in H. apply bind_inv in H.
  destruct H as [[s0 [h [E1 E2]]] | [[e [_ N]] | [w [_ N]]]]; try discriminate.
  destruct (inert_GetConnectionAPI host _ _ _ E1) as (_ & U & _).
  apply bind_inv in E2.
  destruct E2 as [[s2 [res [R E3]]] | [[e [_ N]] | [w [_ N]]]]; try discriminate.
  unfold ret in E3. injection E3 as _ <-.
  apply api_Run_inv in R. destruct R as [d [o [_ R]]].
  destruct R as [[_ [_ [_ R]]] | [_ [[e [_ [_ R]]] | [b [R [_ Rb]]]]]];
    try discriminate.
  injection Rb as <-. rewrite api_exec_user_print in R. injection R as _ <-.
  unfold live_logins. rewrite <- U, !map_map. reflexivity.
Qed.

Lemma GetGroups_reads host s s1 groups :
  GetGroups host s = (s1, Ok groups) ->
  map group_Name groups = live_group_names s.
Proof.
  intros H. unfold GetGroups in H. apply bind_inv in H.
  destruct H as [[s0 [h [E1 E2]]] | [[e [_ N]] | [w [_ N]]]]; try discriminate.
  destruct (inert_GetConnectionAPI host _ _ _ E1) as (_ & _ & G & _).
  apply bind_inv in E2.
  destruct E2 as [[s2 [res [R E3]]] | [[e [_ N]] | [w [_ N]]]]; try discriminate.
  unfold ret in E3. injection E3 as _ <-.
  apply api_Run_inv in R. destruct R as [d [o [_ R]]].
  destruct R as [[_ [_ [_ R]]] | [_ [[e [_ [_ R]]] | [b [R [_ Rb]]]]]];
    try discriminate.
  injection Rb as <-. rewrite api_exec_group_print in R. injection R as _ <-.
  unfold live_group_names. rewrite <- G, !map_map. reflexivity.
Qed.

Lemma GetSchedules_reads host s s1 schedules :
  GetSchedules host s = (s1, Ok schedules) ->
  map sched_Name schedules = live_schedule_names s.
Proof.
  intros H. unfold GetSchedules in H. apply bind_inv in H.
  destruct H as [[s0 [h [E1 E2]]] | [[e [_ N]] | [w [_ N]]]]; try discriminate.
  destruct (inert_GetConnectionAPI host _ _ _ E1) as (_ & _ & _ & C & _).
  apply bind_inv in E2.
  destruct E2 as [[s2 [res [R E3]]] | [[e [_ N]] | [w [_ N]]]]; try discriminate.
  unfold ret in E3. injection E3 as _ <-.
  apply api_Run_inv in R. destruct R as [d [o [_ R]]].
  destruct R as [[_ [_ [_ R]]] | [_ [[e [_ [_ R]]] | [b [R [_ Rb]]]]]];
    try discriminate.
  injection Rb as <-. rewrite api_exec_schedule_print in R. injection R as _ <-.
  unfold live_schedule_names. rewrite <- C, !map_map. reflexivity.
Qed.

(** A clean step as a whole: the query, then the loop. *)
Lemma clean_step {E L : Type} (name : E -> string) (keep : string -> bool)
      (rm : string -> M unit) (cmd : string) (lname : L -> string)
      (live : State -> list L) (get : M (list E)) (s : State) :
  (forall n s s' r, rm n s = (s', r) ->
     exists evs, trace s' = (trace s ++ evs)%list /\
       (changes evs = [remove_sentence cmd n] \/ (changes evs = [] /\ r <> Ok tt))) ->
  (forall n s s', rm n s = (s', Ok tt) ->
     live s' = filter (fun e => negb (lname e =? n)%string) (live s)) ->
  inert get ->
  (forall s s1, inert_step s s1 -> live s1 = live s) ->
  (forall s s1 xs, get s = (s1, Ok xs) -> map name xs = map lname (live s)) ->
  forall s' r,
    (xs <- get ;; clean_loop name keep rm xs) s = (s', r) ->
    exists evs rest,
      trace s' = (trace s ++ evs)%list /\
      map (remove_sentence cmd) (doomed keep (map lname (live s)))
      = (changes evs ++ rest)%list /\
      (r = Ok tt ->
       rest = [] /\ live s' = filter (fun e => keep (lname e)) (live s)).
Proof.
  intros Hc He Hi Hl Hr s' r H. apply bind_inv in H.
  destruct H as [[s1 [xs [E1 E2]]] | [[e [E1 ->]] | [w [E1 ->]]]].
  - pose proof (Hi _ _ _ E1) as I. pose proof (Hl _ _ I) as L1.
    destruct I as (_ & _ & _ & _ & evs0 & T0 & N0).
    pose proof (Hr _ _ _ E1) as Hn.
    destruct (clean_loop_changes name keep rm cmd Hc xs _ _ _ E2)
      as [evs [rest [T [Mp R]]]].
    exists (evs0 ++ evs)%list, rest.
    rewrite T, T0, app_assoc, changes_app, N0, <- Hn. cbn [app].
    split; [reflexivity | split; [exact Mp |]].
    intros ->. split; [auto |].
    rewrite <- L1. apply (clean_loop_exact name keep rm lname live He xs).
    + rewrite L1. exact Hn.
    + exact E2.
  - destruct (Hi _ _ _ E1) as (_ & _ & _ & _ & evs0 & T0 & N0).
    eexists evs0, _. rewrite N0. split; [exact T0 |].
    split; [reflexivity | discriminate].
  - destruct (Hi _ _ _ E1) as (_ & _ & _ & _ & evs0 & T0 & N0).
    eexists evs0, _. rewrite N0. split; [exact T0 |].
    split; [reflexivity | discriminate].
Qed.

Lemma IsContain_In l n : IsContain l n = true <-> In n l.
Proof.
  unfold IsContain. rewrite existsb_exists. split.
  - intros [x [Hin Heq]]. apply String.eqb_eq in Heq. subst. exact Hin.
  - intros Hin. exists n. split; [exact Hin | apply String.eqb_refl].
Qed.

(** ** C7: the add steps *)

Lemma created_app evs1 evs2 :
  created (evs1 ++ evs2) = (created evs1 ++ created evs2)%list.
Proof. unfold created. rewrite changes_app, map_app. reflexivity. Qed.

Lemma created_none evs : changes evs = [] -> created evs = [].
Proof. unfold created. intros ->. reflexivity. Qed.

Lemma changes_of_created evs : created evs = [] -> changes evs = [].
Proof. unfold created. apply map_eq_nil. Qed.

Section AddLoop.

Context {E : Type}.
Variable name : E -> string.
Variable lnames : State -> list string.
Variable body : E -> M unit.
Variable skip_msg : E -> string.
Variable sturdy : bool.

(** What one pass of the loop body does in a calm world: an entry whose
    name is live is skipped with its log line; any other entry gets its
    creation command, which puts the name on the device. *)
Hypothesis body_spec :
  forall x s s' r, calm s -> body x s = (s', r) ->
    calm s' /\
    exists evs, trace s' = (trace s ++ evs)%list /\
      ((In (name x) (lnames s) /\ changes evs = [] /\ lnames s' = lnames s /\
        r = Ok tt /\
        exists evs0, evs = (evs0 ++ [mkEvent (CLog (skip_msg x)) None])%list) \/
       (~ In (name x) (lnames s) /\ created evs = [name x] /\
        lnames s' = (lnames s ++ [name x])%list /\
        (sturdy = true -> r = Ok tt))).

Lemma add_loop_spec xs :
  forall s s' r, calm s -> for_range xs body s = (s', r) ->
    calm s' /\
    exists evs, trace s' = (trace s ++ evs)%list /\
      lnames s' = (lnames s ++ created evs)%list /\
      NoDup (created evs) /\
      (forall n, In n (created evs) -> ~ In n (lnames s) /\ In n (map name xs)) /\
      (r = Ok tt -> forall x, In x xs -> In (name x) (lnames s')) /\
      (created evs = [] -> r = Ok tt) /\
      (sturdy = true -> r = Ok tt).
Proof.
  induction xs as [| x xs IH]; intros s s' r Hc H; cbn in H.
  - inversion H; subst. split; [exact Hc |]. exists []. rewrite !app_nil_r.
    repeat split; auto; try constructor; try contradiction.
  - apply bind_inv in H.
    destruct H as [[s1 [a [E1 E2]]] | [[e [E1 ->]] | [w [E1 ->]]]].
    + destruct (body_spec _ _ _ _ Hc E1) as [Hc1 [evs1 [T1 B]]].
      destruct (IH _ _ _ Hc1 E2) as [Hc2 [evs2 [T2 [L2 [N2 [D2 [A2 [Z2 S2]]]]]]]].
      split; [exact Hc2 |]. exists (evs1 ++ evs2)%list.
      rewrite T2, T1, app_assoc, created_app. split; [reflexivity |].
      destruct B as [[In1 [C1 [L1 _]]] | [Out1 [C1 [L1 _]]]].
      * rewrite (created_none _ C1). cbn [app]. rewrite L2, L1.
        repeat split; auto.
        -- rewrite <- L1. apply (D2 n H).
        -- right. apply (D2 n H).
        -- intros R x0 [<- | Hx]; [| rewrite <- L1, <- L2; exact (A2 R x0 Hx)].
           apply in_or_app. left. exact In1.
      * rewrite C1, L2, L1, <- app_assoc. cbn [app].
        split; [reflexivity |]. split; [| split; [| split; [| split]]].
        -- constructor; [| exact N2]. intros X. apply (D2 _ X).
           rewrite L1. apply in_or_app. right. left. reflexivity.
        -- intros n [<- | Hn]; [split; [exact Out1 | left; reflexivity] |].
           destruct (D2 n Hn) as [D D']. split; [| right; exact D'].
           intros X. apply D. rewrite L1. apply in_or_app. left. exact X.
        -- intros R x0 [<- | Hx].
           ++ apply in_or_app. right. left. reflexivity.
           ++ specialize (A2 R x0 Hx). rewrite L2, L1, <- app_assoc in A2. exact A2.
        -- discriminate.
        -- exact S2.
    + destruct (body_spec _ _ _ _ Hc E1) as [Hc1 [evs1 [T1 B]]].
      split; [exact Hc1 |]. exists evs1. split; [exact T1 |].
      destruct B as [[_ [_ [_ [R _]]]] | [Out1 [C1 [L1 S1]]]]; [discriminate |].
      rewrite C1, L1. split; [reflexivity |]. split; [| split; [| split; [| split]]].
      * constructor; [intros [] | constructor].
      * intros n [<- | []]. split; [exact Out1 | left; reflexivity].
      * discriminate.
      * discriminate.
      * exact S1.
    + destruct (body_spec _ _ _ _ Hc E1) as [Hc1 [evs1 [T1 B]]].
      split; [exact Hc1 |]. exists evs1. split; [exact T1 |].
      destruct B as [[_ [_ [_ [R _]]]] | [Out1 [C1 [L1 S1]]]]; [discriminate |].
      rewrite C1, L1. split; [reflexivity |]. split; [| split; [| split; [| split]]].
      * constructor; [intros [] | constructor].
      * intros n [<- | []]. split; [exact Out1 | left; reflexivity].
      * discriminate.
      * discriminate.
      * exact S1.
Qed.

(** The loop run twice in succession. *)
Lemma add_loop_twice xs s s1 r1 s2 r2 :
  calm s ->
  for_range xs body s = (s1, r1) ->
  for_range xs body s1 = (s2, r2) ->
  exists evs1 evs2,
    trace s1 = (trace s ++ evs1)%list /\
    trace s2 = (trace s1 ++ evs2)%list /\
    NoDup (created (evs1 ++ evs2)) /\
    (forall n, In n (created (evs1 ++ evs2)) -> ~ In n (lnames s)) /\
    (r1 = Ok tt -> changes evs2 = [] /\ r2 = Ok tt) /\
    (sturdy = true -> r1 = Ok tt).
Proof.
  intros Hc H1 H2.
  destruct (add_loop_spec xs _ _ _ Hc H1)
    as [Hc1 [evs1 [T1 [L1 [N1 [D1 [A1 [_ S1]]]]]]]].
  destruct (add_loop_spec xs _ _ _ Hc1 H2)
    as [_ [evs2 [T2 [_ [N2 [D2 [_ [Z2 _]]]]]]]].
  exists evs1, evs2. rewrite created_app.
  split; [exact T1 | split; [exact T2 |]].
  split; [| split; [| split; [| exact S1]]].
  - apply NoDup_app; try assumption. intros n Hn X.
    apply (D2 n X). rewrite L1. apply in_or_app. right. exact Hn.
  - intros n Hn. apply in_app_or in Hn. destruct Hn as [Hn | Hn].
    + apply (D1 n Hn).
    + intros X. apply (D2 n Hn). rewrite L1. apply in_or_app. left. exact X.
  - intros R. assert (Z : created evs2 = []).
    { destruct (created evs2) as [| n l] eqn:Cr; [reflexivity | exfalso].
      destruct (D2 n (or_introl eq_refl)) as [Out Inx].
      apply in_map_iff in Inx. destruct Inx as [x [<- Hx]].
      apply Out. exact (A1 R x Hx). }
    split; [apply changes_of_created; exact Z | exact (Z2 Z)].
Qed.

End AddLoop.

Lemma calm_inert_step s s' : inert_step s s' -> calm s -> calm s'.
Proof. intros (F & _) H k. rewrite F. apply H. Qed.

Lemma calm_record c o s : calm s -> calm (record c o s).
Proof. intros H k. apply H. Qed.

Lemma calm_GetConnectionAPI host s :
  calm s -> exists s1 h, GetConnectionAPI host s = (s1, Ok h).
Proof.
  intros H. unfold GetConnectionAPI. destruct (api (connections s)) as [h |].
  - eauto.
  - run_call. rewrite H. eauto.
Qed.

Lemma calm_api_Run h sen s :
  calm s ->
  api_Run h sen s
  = (record (CApiRun sen)
            (match snd (api_exec sen (device s)) with
             | inl e => Some e
             | inr _ => None
             end)
            (with_device (fst (api_exec sen (device s))) s),
     match snd (api_exec sen (device s)) with
     | inl e => Err e
     | inr a => Ok a
     end).
Proof.
  intros H. unfold api_Run, extern. rewrite H.
  destruct (api_exec sen (device s)) as [d [e | a]]; reflexivity.
Qed.

Lemma existsb_map {A B} (f : B -> bool) (g : A -> B) (l : list A) :
  existsb f (map g l) = existsb (fun x => f (g x)) l.
Proof. induction l as [| x l IH]; cbn; [reflexivity | rewrite IH; reflexivity]. Qed.

Lemma existsb_name_In {A} (name : A -> string) (n : string) (l : list A) :
  existsb (fun x => (name x =? n)%string) l = true <-> In n (map name l).
Proof.
  rewrite existsb_exists, in_map_iff. split.
  - intros [x [Hin Heq]]. apply String.eqb_eq in Heq. eauto.
  - intros [x [Heq Hin]]. exists x. split; [exact Hin | apply String.eqb_eq, Heq].
Qed.

(** In a calm world an existence check answers whether the name is live. *)
Lemma calm_IsContainGroup host group s :
  calm s ->
  exists s1,
    IsContainGroup host group s = (s1, Ok (has_group (device s) (group_Name group))) /\
    inert_step s s1.
Proof.
  intros Hc. destruct (calm_GetConnectionAPI host s Hc) as [s0 [h E0]].
  pose proof (inert_GetConnectionAPI host _ _ _ E0) as I0.
  pose proof (calm_inert_step _ _ I0 Hc) as Hc0.
  assert (X : exists s1, IsContainGroup host group s
                         = (s1, Ok (has_group (device s0) (group_Name group)))).
  { unfold IsContainGroup, handle, GetGroups.
    rewrite (bind_ok _ _ _ _ _ E0).
    unfold bind at 1. rewrite (calm_api_Run _ _ _ Hc0), api_exec_group_print.
    cbn [fst snd ret]. eexists. f_equal. f_equal.
    unfold has_group. rewrite !existsb_map. reflexivity. }
  destruct X as [s1 X]. exists s1.
  pose proof (inert_IsContainGroup host group _ _ _ X) as I.
  split; [| exact I]. rewrite X. unfold has_group.
  destruct I0 as (_ & _ & G & _). rewrite G. reflexivity.
Qed.

Lemma calm_IsContainUser host user s :
  calm s ->
  exists s1,
    IsContainUser host user s = (s1, Ok (has_user (device s) (user_Login user))) /\
    inert_step s s1.
Proof.
  intros Hc. destruct (calm_GetConnectionAPI host s Hc) as [s0 [h E0]].
  pose proof (inert_GetConnectionAPI host _ _ _ E0) as I0.
  pose proof (calm_inert_step _ _ I0 Hc) as Hc0.
  assert (X : exists s1, IsContainUser host user s
                         = (s1, Ok (has_user (device s0) (user_Login user)))).
  { unfold IsContainUser, handle, GetUsers.
    rewrite (bind_ok _ _ _ _ _ E0).
    unfold bind at 1. rewrite (calm_api_Run _ _ _ Hc0), api_exec_user_print.
    cbn [fst snd ret]. eexists. f_equal. f_equal.
    unfold has_user. rewrite !existsb_map. reflexivity. }
  destruct X as [s1 X]. exists s1.
  pose proof (inert_IsContainUser host user _ _ _ X) as I.
  split; [| exact I]. rewrite X. unfold has_user.
  destruct I0 as (_ & U & _). rewrite U. reflexivity.
Qed.

Lemma calm_IsContainSchedule host schedule s :
  calm s ->
  exists s1,
    IsContainSchedule host schedule s
    = (s1, Ok (has_schedule (device s) (sched_Name schedule))) /\
    inert_step s s1.
Proof.
  intros Hc. destruct (calm_GetConnectionAPI host s Hc) as [s0 [h E0]].
  pose proof (inert_GetConnectionAPI host _ _ _ E0) as I0.
  pose proof (calm_inert_step _ _ I0 Hc) as Hc0.
  assert (X : exists s1, IsContainSchedule host schedule s
                         = (s1, Ok (has_schedule (device s0) (sched_Name schedule)))).
  { unfold IsContainSchedule, handle, GetSchedules.
    rewrite (bind_ok _ _ _ _ _ E0).
    unfold bind at 1. rewrite (calm_api_Run _ _ _ Hc0), api_exec_schedule_print.
    cbn [fst snd ret]. eexists. f_equal. f_equal.
    unfold has_schedule. rewrite !existsb_map. reflexivity. }
  destruct X as [s1 X]. exists s1.
  pose proof (inert_IsContainSchedule host schedule _ _ _ X) as I.
  split; [| exact I]. rewrite X. unfold has_schedule.
  destruct I0 as (_ & _ & _ & C & _). rewrite C. reflexivity.
Qed.

(** The creation commands put an entry of the given name on the device,
    unless the name is taken. *)
Lemma api_exec_group_add g :
  exists g', group_Name g' = group_Name g /\
    forall d,
    api_exec (group_add_sentence g) d
    = if has_group d (group_Name g) then (d, inl already_exists)
      else (with_live_groups (live_groups d ++ [g'])%list d, inr []).
Proof.
  eexists (mkGroup (group_Name g) _ _ _). split; [reflexivity |]. intros d.
  transitivity
    ((fun n =>
        if has_group d n then (d, inl already_exists)
        else (with_live_groups
                (live_groups d ++
                 [mkGroup n (word_arg "skin" (tl (group_add_sentence g)))
                          (word_arg "comment" (tl (group_add_sentence g)))
                          (word_arg "policy" (tl (group_add_sentence g)))])%list d,
              inr []) : Device * (error + Reply))
       (word_arg "name" (tl (group_add_sentence g)))); [reflexivity |].
  cbv beta.
  replace (word_arg "name" (tl (group_add_sentence g))) with (group_Name g)
    by (symmetry; apply word_arg_name).
  reflexivity.
Qed.

Lemma api_exec_user_add u :
  exists u', user_Login u' = user_Login u /\
    forall d,
    api_exec (user_add_sentence u) d
    = if has_user d (user_Login u) then (d, inl already_exists)
      else (with_live_users (live_users d ++ [u'])%list d, inr []).
Proof.
  eexists (mkUser (user_Login u) _ _ _ _ _ _). split; [reflexivity |]. intros d.
  transitivity
    ((fun n =>
        if has_user d n then (d, inl already_exists)
        else (with_live_users
                (live_users d ++
                 [mkUser n (word_arg "password" (tl (user_add_sentence u)))
                         (word_arg "group" (tl (user_add_sentence u)))
                         (word_arg "address" (tl (user_add_sentence u)))
                         (word_arg "comment" (tl (user_add_sentence u)))
                         "" ""])%list d,
              inr []) : Device * (error + Reply))
       (word_arg "name" (tl (user_add_sentence u)))); [reflexivity |].
  cbv beta.
  replace (word_arg "name" (tl (user_add_sentence u))) with (user_Login u)
    by (symmetry; apply word_arg_name).
  reflexivity.
Qed.

Lemma api_exec_schedule_add c :
  exists c', sched_Name c' = sched_Name c /\
    forall d,
    api_exec (schedule_add_sentence c) d
    = if has_schedule d (sched_Name c) then (d, inl already_exists)
      else (with_live_schedules (live_schedules d ++ [c'])%list d, inr []).
Proof.
  eexists (mkSchedule (sched_Name c) _ _ _ _ _ _ _ _ _). split; [reflexivity |]. intros d.
  transitivity
    ((fun n =>
        if has_schedule d n then (d, inl already_exists)
        else (with_live_schedules
                (live_schedules d ++
                 [mkSchedule n (word_arg "disabled" (tl (schedule_add_sentence c)))
                             (word_arg "start-date" (tl (schedule_add_sentence c)))
                             (word_arg "start-time" (tl (schedule_add_sentence c)))
                             (word_arg "interval" (tl (schedule_add_sentence c)))
                             (word_arg "policy" (tl (schedule_add_sentence c)))
                             (word_arg "comment" (tl (schedule_add_sentence c)))
                             "" ""
                             (word_arg "on-event" (tl (schedule_add_sentence c)))])%list
                d,
              inr []) : Device * (error + Reply))
       (word_arg "name" (tl (schedule_add_sentence c)))); [reflexivity |].
  cbv beta.
  replace (word_arg "name" (tl (schedule_add_sentence c))) with (sched_Name c)
    by (symmetry; apply word_arg_name).
  reflexivity.
Qed.

Lemma created_one sen o n rest :
  is_change sen = true -> tl sen = ("=name=" ++ n) :: rest ->
  created [mkEvent (CApiRun sen) o] = [n].
Proof.
  intros H T. unfold created. rewrite (changes_one sen o H). cbn [map].
  rewrite T, word_arg_name. reflexivity.
Qed.

(** A creation command sent in a calm world for a name that is not live. *)
Lemma calm_create host sen n rest (has : Device -> bool) (grow : Device -> Device) s :
  calm s ->
  is_change sen = true -> tl sen = ("=name=" ++ n) :: rest ->
  (forall d, api_exec sen d = if has d then (d, inl already_exists)
                              else (grow d, inr [])) ->
  (forall s0, inert_step s s0 -> has (device s0) = false) ->
  exists s0 h,
    GetConnectionAPI host s = (s0, Ok h) /\ inert_step s s0 /\
    api_Run h sen s0
    = (record (CApiRun sen) None (with_device (grow (device s0)) s0), Ok []) /\
    calm s0 /\
    exists evs,
      (trace s0 ++ [mkEvent (CApiRun sen) None] = trace s ++ evs)%list /\
      created evs = [n].
Proof.
  intros Hc Hch Htl Hex Hno.
  destruct (calm_GetConnectionAPI host s Hc) as [s0 [h E0]].
  pose proof (inert_GetConnectionAPI host _ _ _ E0) as I0.
  pose proof (calm_inert_step _ _ I0 Hc) as Hc0.
  exists s0, h. split; [exact E0 | split; [exact I0 |]].
  rewrite (calm_api_Run _ _ _ Hc0), Hex, (Hno _ I0).
  cbn [fst snd]. split; [reflexivity | split; [exact Hc0 |]].
  destruct I0 as (_ & _ & _ & _ & evs & T & N).
  exists (evs ++ [mkEvent (CApiRun sen) None])%list.
  rewrite T, <- app_assoc. split; [reflexivity |].
  rewrite created_app, (created_none _ N), (created_one sen None n rest Hch Htl).
  reflexivity.
Qed.

Lemma has_group_names d n : has_group d n = true <-> In n (map group_Name (live_groups d)).
Proof. apply existsb_name_In. Qed.

Lemma has_user_names d n : has_user d n = true <-> In n (map user_Login (live_users d)).
Proof. apply existsb_name_In. Qed.

Lemma has_schedule_names d n :
  has_schedule d n = true <-> In n (map sched_Name (live_schedules d)).
Proof. apply existsb_name_In. Qed.

Lemma not_true_false b : b <> true -> b = false.
Proof. destruct b; congruence. Qed.


Lemma AddGroups_body_spec host group s s' r :
  calm s -> AddGroups_body host group s = (s', r) ->
  calm s' /\
  exists evs, trace s' = (trace s ++ evs)%list /\
    ((In (group_Name group) (live_group_names s) /\ changes evs = [] /\
      live_group_names s' = live_group_names s /\ r = Ok tt /\
      exists evs0,
        evs = (evs0 ++ [mkEvent (CLog (tag host ++ "host already contain group "
                                       ++ quoted (group_Name group))) None])%list) \/
     (~ In (group_Name group) (live_group_names s) /\
      created evs = [group_Name group] /\
      live_group_names s' = (live_group_names s ++ [group_Name group])%list /\
      (true = true -> r = Ok tt))).
Proof.
  intros Hc H. unfold AddGroups_body in H.
  destruct (calm_IsContainGroup host group s Hc) as [s1 [E1 I1]].
  rewrite (bind_ok _ _ _ _ _ E1) in H.
  pose proof (calm_inert_step _ _ I1 Hc) as Hc1.
  destruct (has_group (device s) (group_Name group)) eqn:Hg.
  - rewrite log_run in H. injection H as <- <-.
    split; [apply calm_record; exact Hc1 |].
    destruct I1 as (F & U & G & C & evs & T & N).
    eexists (evs ++ [_])%list. rewrite trace_record, T, <- app_assoc.
    split; [reflexivity |]. left.
    split; [apply has_group_names; exact Hg |].
    split; [rewrite changes_app, N; reflexivity |].
    split; [unfold live_group_names; cbn [record with_trace device]; rewrite G;
            reflexivity |].
    split; [reflexivity | exists evs; reflexivity].
  - unfold MakeGroup in H. rewrite (bind_ok _ _ _ _ _ (log_run _ _)) in H.
    destruct (api_exec_group_add group) as [g' [Hn Eq]].
    pose proof (inert_step_trans _ _ _ I1 (inert_log _ _ _ _ (log_run
      (tag host ++ "adding group " ++ quoted (group_Name group)) s1))) as I2.
    destruct (calm_create host (group_add_sentence group) (group_Name group)
                          (tl (tl (group_add_sentence group)))
                          (fun d => has_group d (group_Name group))
                          (fun d => with_live_groups (live_groups d ++ [g'])%list d)
                          (record (CLog (tag host ++ "adding group "
                                         ++ quoted (group_Name group))) None s1))
      as [s0 [h [E2 [I0 [E3 [Hc0 [evs2 [T2 Cr2]]]]]]]];
      [apply calm_record; exact Hc1 | reflexivity | reflexivity | exact Eq | |].
    + intros s0 I0. pose proof (inert_step_trans _ _ _ I2 I0) as (_ & _ & G & _).
      unfold has_group in *. rewrite G. exact Hg.
    + rewrite (bind_ok _ _ _ _ _ E2), (bind_ok _ _ _ _ _ E3) in H.
      unfold ret in H. injection H as <- <-.
      split; [apply calm_record; intros k; apply Hc0 |].
      pose proof (inert_step_trans _ _ _ I2 I0) as (_ & _ & G & _).
      destruct I2 as (_ & _ & _ & _ & evs1 & T1 & N1).
      exists (evs1 ++ evs2)%list. rewrite trace_record. cbn [with_device trace].
      rewrite T2, T1, app_assoc. split; [reflexivity |]. right.
      split; [intros X; apply has_group_names in X; congruence |].
      split; [rewrite created_app, (created_none _ N1), Cr2; reflexivity |].
      split; [| reflexivity].
      unfold live_group_names. cbn [record with_trace with_device device
                                           with_live_groups live_groups].
      rewrite map_app, G. cbn [map]. rewrite Hn. reflexivity.
Qed.

Lemma AddSchedules_body_spec host schedule s s' r :
  calm s -> AddSchedules_body host schedule s = (s', r) ->
  calm s' /\
  exists evs, trace s' = (trace s ++ evs)%list /\
    ((In (sched_Name schedule) (live_schedule_names s) /\ changes evs = [] /\
      live_schedule_names s' = live_schedule_names s /\ r = Ok tt /\
      exists evs0,
        evs = (evs0 ++ [mkEvent (CLog (tag host ++ "host already contain schedule "
                                       ++ quoted (sched_Name schedule))) None])%list) \/
     (~ In (sched_Name schedule) (live_schedule_names s) /\
      created evs = [sched_Name schedule] /\
      live_schedule_names s' = (live_schedule_names s ++ [sched_Name schedule])%list /\
      (true = true -> r = Ok tt))).
Proof.
  intros Hc H. unfold AddSchedules_body in H.
  destruct (calm_IsContainSchedule host schedule s Hc) as [s1 [E1 I1]].
  rewrite (bind_ok _ _ _ _ _ E1) in H.
  pose proof (calm_inert_step _ _ I1 Hc) as Hc1.
  destruct (has_schedule (device s) (sched_Name schedule)) eqn:Hg.
  - rewrite log_run in H. injection H as <- <-.
    split; [apply calm_record; exact Hc1 |].
    destruct I1 as (F & U & G & C & evs & T & N).
    eexists (evs ++ [_])%list. rewrite trace_record, T, <- app_assoc.
    split; [reflexivity |]. left.
    split; [apply has_schedule_names; exact Hg |].
    split; [rewrite changes_app, N; reflexivity |].
    split; [unfold live_schedule_names; cbn [record with_trace device]; rewrite C;
            reflexivity |].
    split; [reflexivity | exists evs; reflexivity].
  - unfold MakeSchedule in H. rewrite (bind_ok _ _ _ _ _ (log_run _ _)) in H.
    destruct (api_exec_schedule_add schedule) as [c' [Hn Eq]].
    pose proof (inert_step_trans _ _ _ I1 (inert_log _ _ _ _ (log_run
      (tag host ++ "adding schedule " ++ quoted (sched_Name schedule)) s1))) as I2.
    destruct (calm_create host (schedule_add_sentence schedule) (sched_Name schedule)
                          (tl (tl (schedule_add_sentence schedule)))
                          (fun d => has_schedule d (sched_Name schedule))
                          (fun d => with_live_schedules
                                      (live_schedules d ++ [c'])%list d)
                          (record (CLog (tag host ++ "adding schedule "
                                         ++ quoted (sched_Name schedule))) None s1))
      as [s0 [h [E2 [I0 [E3 [Hc0 [evs2 [T2 Cr2]]]]]]]];
      [apply calm_record; exact Hc1 | reflexivity | reflexivity | exact Eq | |].
    + intros s0 I0. pose proof (inert_step_trans _ _ _ I2 I0) as (_ & _ & _ & C & _).
      unfold has_schedule in *. rewrite C. exact Hg.
    + rewrite (bind_ok _ _ _ _ _ E2) in H. unfold handle in H. rewrite E3 in H.
      unfold ret in H. injection H as <- <-.
      split; [apply calm_record; intros k; apply Hc0 |].
      pose proof (inert_step_trans _ _ _ I2 I0) as (_ & _ & _ & C & _).
      destruct I2 as (_ & _ & _ & _ & evs1 & T1 & N1).
      exists (evs1 ++ evs2)%list. rewrite trace_record. cbn [with_device trace].
      rewrite T2, T1, app_assoc. split; [reflexivity |]. right.
      split; [intros X; apply has_schedule_names in X; congruence |].
      split; [rewrite created_app, (created_none _ N1), Cr2; reflexivity |].
      split; [| reflexivity].
      unfold live_schedule_names.
      cbn [record with_trace with_device device with_live_schedules live_schedules].
      rewrite map_app, C. cbn [map]. rewrite Hn. reflexivity.
Qed.

(** [MakeUser] in a calm world, for a login that is not live. *)
Lemma calm_MakeUser host user s :
  calm s -> has_user (device s) (user_Login user) = false ->
  exists s',
    MakeUser host user s = (s', Ok tt) /\ calm s' /\
    live_logins s' = (live_logins s ++ [user_Login user])%list /\
    exists evs, trace s' = (trace s ++ evs)%list /\ created evs = [user_Login user].
Proof.
  intros Hc Hg. unfold MakeUser. rewrite (bind_ok _ _ _ _ _ (log_run _ _)).
  set (s1 := record (CLog (tag host ++ "adding user " ++ quoted (user_Login user)))
                    None s).
  assert (I1 : inert_step s s1) by (apply (inert_log _ _ _ _ (log_run _ s))).
  assert (P : exists sX u',
             (if (user_Pass user =? "")%string
              then pass <- GeneratePassword ;;
                   log_Println (tag host ++ "user " ++ quoted (user_Login user)
                                ++ " password is empty and has been generated") ;;
                   ret (set_Pass user pass)
              else ret user) s1 = (sX, Ok u') /\
             user_Login u' = user_Login user /\ inert_step s1 sX).
  { destruct (user_Pass user =? "")%string.
    - eexists _, _. split; [reflexivity |]. split; [reflexivity |].
      apply (inert_log _ _ _ _ (log_run _ s1)).
    - eexists _, _. split; [reflexivity |]. split; [reflexivity |].
      apply inert_step_refl. }
  destruct P as [sX [u' [EX [Hl IX]]]].
  rewrite (bind_ok _ _ _ _ _ EX).
  pose proof (inert_step_trans _ _ _ I1 IX) as I2.
  destruct (api_exec_user_add u') as [u'' [Hn Eq]]. rewrite Hl in *.
  destruct (calm_create host (user_add_sentence u') (user_Login user)
                        (tl (tl (user_add_sentence u')))
                        (fun d => has_user d (user_Login user))
                        (fun d => with_live_users (live_users d ++ [u''])%list d) sX)
    as [s0 [h [E2 [I0 [E3 [Hc0 [evs2 [T2 Cr2]]]]]]]].
  - exact (calm_inert_step _ _ I2 Hc).
  - reflexivity.
  - unfold user_add_sentence. cbn [tl]. rewrite Hl. reflexivity.
  - exact Eq.
  - intros s0 I0. pose proof (inert_step_trans _ _ _ I2 I0) as (_ & U & _).
    unfold has_user in *. rewrite U. exact Hg.
  - rewrite (bind_ok _ _ _ _ _ E2), (bind_ok _ _ _ _ _ E3).
    eexists. split; [reflexivity |].
    split; [apply calm_record; intros k; apply Hc0 |].
    pose proof (inert_step_trans _ _ _ I2 I0) as (_ & U & _).
    split.
    + unfold live_logins.
      cbn [record with_trace with_device device with_live_users live_users].
      rewrite map_app, U. cbn [map]. rewrite Hn. reflexivity.
    + destruct I2 as (_ & _ & _ & _ & evs1 & T1 & N1).
      exists (evs1 ++ evs2)%list. rewrite trace_record. cbn [with_device trace].
      rewrite T2, T1, app_assoc. split; [reflexivity |].
      rewrite created_app, (created_none _ N1), Cr2. reflexivity.
Qed.

Lemma AddUsers_body_spec Params host user s s' r :
  calm s -> AddUsers_body Params host user s = (s', r) ->
  calm s' /\
  exists evs, trace s' = (trace s ++ evs)%list /\
    ((In (user_Login user) (live_logins s) /\ changes evs = [] /\
      live_logins s' = live_logins s /\ r = Ok tt /\
      exists evs0,
        evs = (evs0 ++ [mkEvent (CLog (tag host ++ "host already contain user "
                                       ++ quoted (user_Login user))) None])%list) \/
     (~ In (user_Login user) (live_logins s) /\
      created evs = [user_Login user] /\
      live_logins s' = (live_logins s ++ [user_Login user])%list /\
      (false = true -> r = Ok tt))).
Proof.
  intros Hc H. unfold AddUsers_body in H.
  destruct (calm_IsContainUser host user s Hc) as [s1 [E1 I1]].
  rewrite (bind_ok _ _ _ _ _ E1) in H.
  pose proof (calm_inert_step _ _ I1 Hc) as Hc1.
  destruct (has_user (device s) (user_Login user)) eqn:Hg.
  - rewrite log_run in H. injection H as <- <-.
    split; [apply calm_record; exact Hc1 |].
    destruct I1 as (F & U & G & C & evs & T & N).
    eexists (evs ++ [_])%list. rewrite trace_record, T, <- app_assoc.
    split; [reflexivity |]. left.
    split; [apply has_user_names; exact Hg |].
    split; [rewrite changes_app, N; reflexivity |].
    split; [unfold live_logins; cbn [record with_trace device]; rewrite U;
            reflexivity |].
    split; [reflexivity | exists evs; reflexivity].
  - assert (Hg1 : has_user (device s1) (user_Login user) = false).
    { destruct I1 as (_ & U & _). unfold has_user in *. rewrite U. exact Hg. }
    destruct (calm_MakeUser host user s1 Hc1 Hg1)
      as [s2 [E2 [Hc2 [L2 [evs2 [T2 Cr2]]]]]].
    unfold handle in H. rewrite E2 in H.
    assert (IK : inert (if negb (user_Key user =? "")%string
                        then UploadKey Params host (user_Key user) ;;
                             ImportSshKey host user 5000 10
                        else ret tt)) by inert_tac.
    pose proof (IK _ _ _ H) as I3.
    split; [exact (calm_inert_step _ _ I3 Hc2) |].
    destruct I1 as (_ & U1 & _ & _ & evs1 & T1 & N1).
    destruct I3 as (_ & U3 & _ & _ & evs3 & T3 & N3).
    exists (evs1 ++ evs2 ++ evs3)%list.
    rewrite T3, T2, T1, <- !app_assoc. split; [reflexivity |]. right.
    split; [intros X; apply has_user_names in X; congruence |].
    split; [rewrite !created_app, (created_none _ N1), (created_none _ N3), Cr2;
            reflexivity |].
    split; [| discriminate].
    unfold live_logins in *. rewrite U3, L2, U1. reflexivity.
Qed.

(** C7. In a world where the live state can be read (no call fails for a
    reason of the environment), an add step run twice in succession never
    issues two creation commands for one name, and none for a name that was
    live to begin with; when the first run returned nil, the second issues
    no creation command at all and returns nil. For groups and schedules
    the first run always returns nil. An entry whose name is live is
    skipped: its pass ends with the log line, issues no change, and is not
    an error. *)
Theorem Add_twice_no_duplicate (Params : TParams) (host : THost) (s : State) :
  calm s ->
  (forall s1 r1 s2 r2,
      AddGroups host s = (s1, r1) -> AddGroups host s1 = (s2, r2) ->
      exists evs1 evs2,
        trace s1 = (trace s ++ evs1)%list /\ trace s2 = (trace s1 ++ evs2)%list /\
        NoDup (created (evs1 ++ evs2)) /\
        (forall n, In n (created (evs1 ++ evs2)) -> ~ In n (live_group_names s)) /\
        r1 = Ok tt /\ changes evs2 = [] /\ r2 = Ok tt) /\
  (forall s1 r1 s2 r2,
      AddSchedules host s = (s1, r1) -> AddSchedules host s1 = (s2, r2) ->
      exists evs1 evs2,
        trace s1 = (trace s ++ evs1)%list /\ trace s2 = (trace s1 ++ evs2)%list /\
        NoDup (created (evs1 ++ evs2)) /\
        (forall n, In n (created (evs1 ++ evs2)) -> ~ In n (live_schedule_names s)) /\
        r1 = Ok tt /\ changes evs2 = [] /\ r2 = Ok tt) /\
  (forall s1 r1 s2 r2,
      AddUsers Params host s = (s1, r1) -> AddUsers Params host s1 = (s2, r2) ->
      exists evs1 evs2,
        trace s1 = (trace s ++ evs1)%list /\ trace s2 = (trace s1 ++ evs2)%list /\
        NoDup (created (evs1 ++ evs2)) /\
        (forall n, In n (created (evs1 ++ evs2)) -> ~ In n (live_logins s)) /\
        (r1 = Ok tt -> changes evs2 = [] /\ r2 = Ok tt)) /\
  (forall group s' r,
      In (group_Name group) (live_group_names s) ->
      AddGroups_body host group s = (s', r) ->
      r = Ok tt /\ live_group_names s' = live_group_names s /\
      exists evs0,
        trace s' = (trace s ++ evs0 ++
                    [mkEvent (CLog (tag host ++ "host already contain group "
                                    ++ quoted (group_Name group))) None])%list /\
        changes evs0 = []) /\
  (forall user s' r,
      In (user_Login user) (live_logins s) ->
      AddUsers_body Params host user s = (s', r) ->
      r = Ok tt /\ live_logins s' = live_logins s /\
      exists evs0,
        trace s' = (trace s ++ evs0 ++
                    [mkEvent (CLog (tag host ++ "host already contain user "
                                    ++ quoted (user_Login user))) None])%list /\
        changes evs0 = []) /\
  (forall schedule s' r,
      In (sched_Name schedule) (live_schedule_names s) ->
      AddSchedules_body host schedule s = (s', r) ->
      r = Ok tt /\ live_schedule_names s' = live_schedule_names s /\
      exists evs0,
        trace s' = (trace s ++ evs0 ++
                    [mkEvent (CLog (tag host ++ "host already contain schedule "
                                    ++ quoted (sched_Name schedule))) None])%list /\
        changes evs0 = []).
Proof.
  intros Hc. repeat match goal with |- _ /\ _ => split end.
  - intros s1 r1 s2 r2 H1 H2.
    destruct (add_loop_twice group_Name live_group_names (AddGroups_body host) _ true
                             (AddGroups_body_spec host) _ _ _ _ _ _ Hc H1 H2)
      as [evs1 [evs2 [T1 [T2 [N [D [R S]]]]]]].
    exists evs1, evs2. specialize (S eq_refl). destruct (R S). auto 10.
  - intros s1 r1 s2 r2 H1 H2.
    destruct (add_loop_twice sched_Name live_schedule_names (AddSchedules_body host)
                             _ true (AddSchedules_body_spec host)
                             _ _ _ _ _ _ Hc H1 H2)
      as [evs1 [evs2 [T1 [T2 [N [D [R S]]]]]]].
    exists evs1, evs2. specialize (S eq_refl). destruct (R S). auto 10.
  - intros s1 r1 s2 r2 H1 H2.
    destruct (add_loop_twice user_Login live_logins (AddUsers_body Params host)
                             _ false (AddUsers_body_spec Params host)
                             _ _ _ _ _ _ Hc H1 H2)
      as [evs1 [evs2 [T1 [T2 [N [D [R _]]]]]]].
    exists evs1, evs2. auto 10.
  - intros group s' r Hin H.
    destruct (AddGroups_body_spec host group _ _ _ Hc H)
      as [_ [evs [T [[_ [C [L [R [evs0 E]]]]] | [Out _]]]]]; [| contradiction].
    subst evs. rewrite changes_app in C. apply app_eq_nil in C.
    split; [exact R | split; [exact L |]]. exists evs0. split; [exact T | apply C].
  - intros user s' r Hin H.
    destruct (AddUsers_body_spec Params host user _ _ _ Hc H)
      as [_ [evs [T [[_ [C [L [R [evs0 E]]]]] | [Out _]]]]]; [| contradiction].
    subst evs. rewrite changes_app in C. apply app_eq_nil in C.
    split; [exact R | split; [exact L |]]. exists evs0. split; [exact T | apply C].
  - intros schedule s' r Hin H.
    destruct (AddSchedules_body_spec host schedule _ _ _ Hc H)
      as [_ [evs [T [[_ [C [L [R [evs0 E]]]]] | [Out _]]]]]; [| contradiction].
    subst evs. rewrite changes_app in C. apply app_eq_nil in C.
    split; [exact R | split; [exact L |]]. exists evs0. split; [exact T | apply C].
Qed.

(** Two runs of [AddGroups] on a device that has none of the groups. *)
Lemma Add_twice_no_duplicate_witness :
  exists evs1 evs2,
    trace (fst (AddGroups host_full world_all_well))
    = (trace world_all_well ++ evs1)%list /\
    trace (fst (AddGroups host_full (fst (AddGroups host_full world_all_well))))
    = (trace (fst (AddGroups host_full world_all_well)) ++ evs2)%list /\
    NoDup (created (evs1 ++ evs2)) /\
    (forall n, In n (created (evs1 ++ evs2)) ->
               ~ In n (live_group_names world_all_well)) /\
    snd (AddGroups host_full world_all_well) = Ok tt /\
    changes evs2 = [] /\
    snd (AddGroups host_full (fst (AddGroups host_full world_all_well))) = Ok tt.
Proof.
  destruct (Add_twice_no_duplicate main_params host_full world_all_well
                                   (fun k => eq_refl)) as (G & _).
  apply (G (fst (AddGroups host_full world_all_well))
           (snd (AddGroups host_full world_all_well))
           (fst (AddGroups host_full (fst (AddGroups host_full world_all_well))))
           (snd (AddGroups host_full (fst (AddGroups host_full world_all_well)))));
    apply surjective_pairing.
Defined.

Example AddGroups_twice_creates_once :
  created (trace (fst (AddGroups host_full world_all_well))) = ["full"; "read"] /\
  created (trace (fst (AddGroups host_full (fst (AddGroups host_full world_all_well)))))
  = ["full"; "read"].
Proof. vm_compute. split; reflexivity. Qed.

(** ** C10: an existence check whose query fails *)

(** C10. When the live-state query of [IsContainUser], [IsContainGroup] or
    [IsContainSchedule] fails, the check answers false and returns no
    error, so the add step goes on to create the entry: what [AddGroups]
    and [AddSchedules] do next is [MakeGroup] and [MakeSchedule], and
    [AddUsers] runs [MakeUser]. *)
Theorem IsContain_reads_failure_as_absent (Params : TParams) (host : THost) :
  (forall user s s' e,
      GetUsers host s = (s', Err e) -> IsContainUser host user s = (s', Ok false)) /\
  (forall group s s' e,
      GetGroups host s = (s', Err e) -> IsContainGroup host group s = (s', Ok false)) /\
  (forall schedule s s' e,
      GetSchedules host s = (s', Err e) ->
      IsContainSchedule host schedule s = (s', Ok false)) /\
  (forall group s s' e,
      GetGroups host s = (s', Err e) ->
      AddGroups_body host group s = MakeGroup host group s') /\
  (forall schedule s s' e,
      GetSchedules host s = (s', Err e) ->
      AddSchedules_body host schedule s = MakeSchedule host schedule s') /\
  (forall user s s' e,
      GetUsers host s = (s', Err e) ->
      AddUsers_body Params host user s
      = handle (MakeUser host user)
               (fun _ =>
                  if negb (user_Key user =? "")%string
                  then UploadKey Params host (user_Key user) ;;
                       ImportSshKey host user 5000 10
                  else ret tt)
               (fun err => log_Println (tag host ++ "error: " ++ quoted err)) s').
Proof.
  assert (U : forall user s s' e,
             GetUsers host s = (s', Err e) ->
             IsContainUser host user s = (s', Ok false)).
  { intros user s s' e H. unfold IsContainUser, handle. rewrite H. reflexivity. }
  assert (G : forall group s s' e,
             GetGroups host s = (s', Err e) ->
             IsContainGroup host group s = (s', Ok false)).
  { intros group s s' e H. unfold IsContainGroup, handle. rewrite H. reflexivity. }
  assert (C : forall schedule s s' e,
             GetSchedules host s = (s', Err e) ->
             IsContainSchedule host schedule s = (s', Ok false)).
  { intros c s s' e H. unfold IsContainSchedule, handle. rewrite H. reflexivity. }
  repeat match goal with |- _ /\ _ => split end; try assumption.
  - intros group s s' e H. unfold AddGroups_body.
    rewrite (bind_ok _ _ _ _ _ (G group _ _ _ H)). reflexivity.
  - intros c s s' e H. unfold AddSchedules_body.
    rewrite (bind_ok _ _ _ _ _ (C c _ _ _ H)). reflexivity.
  - intros user s s' e H. unfold AddUsers_body.
    rewrite (bind_ok _ _ _ _ _ (U user _ _ _ H)). reflexivity.
Qed.

(** The group [full] is live, its query fails, and [AddGroups] sends the
    creation command all the same; the device refuses it. *)
Example AddGroups_creates_after_failed_query :
  nth_error (trace (fst (AddGroups host_full world_print_fails))) 2
  = Some (mkEvent (CApiRun ["/user/group/print"]) (Some injected)) /\
  nth_error (trace (fst (AddGroups host_full world_print_fails))) 4
  = Some (mkEvent (CApiRun (group_add_sentence group_full)) (Some already_exists)) /\
  snd (AddGroups host_full world_print_fails) = Err already_exists.
Proof. vm_compute. repeat split; reflexivity. Qed.

(** ** C2: the recursive download *)

(** C2 (the code at the failing input). The tree [a/file1], [a/b/file2]
    downloaded from the root with delete-after-copy: [a/file1] is copied
    and removed, then the sub-directory [b] of [a] is looked for under the
    name [/ab], the directory name and the entry name joined with no
    separator between them; the listing fails, the download returns its
    error, and [a/b/file2] is neither copied nor removed. *)
Theorem DownloadFolder_nested_directory :
  snd download_from_root = Err file_missing /\
  last (trace (fst download_from_root)) (mkEvent (CLog "") None)
  = mkEvent (CSftpReadDir "/ab") (Some file_missing) /\
  fs_files (local_fs (fst download_from_root)) = [(["srv"; "a"; "file1"], "one")] /\
  fs_files (remote_fs (device (fst download_from_root)))
  = [(["a"; "b"; "file2"], "two")].
Proof. vm_compute. repeat split; reflexivity. Qed.

(** With one level of sub-directories below a directory named with its
    trailing separator, the joined names are right and the tree is
    mirrored. *)
Example DownloadFolder_one_level :
  snd download_one_level = Ok tt /\
  fs_files (local_fs (fst download_one_level))
  = [(["srv"; "file1"], "one"); (["srv"; "b"; "file2"], "two")] /\
  fs_files (remote_fs (device (fst download_one_level))) = [].
Proof. vm_compute. repeat split; reflexivity. Qed.

(** ** C4: the clean steps, as a whole *)

(** The queries, in a world in which nothing fails. *)
Lemma calm_GetUsers host s :
  calm s -> exists s1 users, GetUsers host s = (s1, Ok users).
Proof.
  intros Hc. destruct (calm_GetConnectionAPI host s Hc) as [s0 [h E0]].
  pose proof (calm_inert_step _ _ (inert_GetConnectionAPI host _ _ _ E0) Hc) as Hc0.
  unfold GetUsers. rewrite (bind_ok _ _ _ _ _ E0). unfold bind at 1.
  rewrite (calm_api_Run _ _ _ Hc0), api_exec_user_print. cbn [fst snd ret].
  eexists _, _. reflexivity.
Qed.

Lemma calm_GetGroups host s :
  calm s -> exists s1 groups, GetGroups host s = (s1, Ok groups).
Proof.
  intros Hc. destruct (calm_GetConnectionAPI host s Hc) as [s0 [h E0]].
  pose proof (calm_inert_step _ _ (inert_GetConnectionAPI host _ _ _ E0) Hc) as Hc0.
  unfold GetGroups. rewrite (bind_ok _ _ _ _ _ E0). unfold bind at 1.
  rewrite (calm_api_Run _ _ _ Hc0), api_exec_group_print. cbn [fst snd ret].
  eexists _, _. reflexivity.
Qed.

Lemma calm_GetSchedules host s :
  calm s -> exists s1 schedules, GetSchedules host s = (s1, Ok schedules).
Proof.
  intros Hc. destruct (calm_GetConnectionAPI host s Hc) as [s0 [h E0]].
  pose proof (calm_inert_step _ _ (inert_GetConnectionAPI host _ _ _ E0) Hc) as Hc0.
  unfold GetSchedules. rewrite (bind_ok _ _ _ _ _ E0). unfold bind at 1.
  rewrite (calm_api_Run _ _ _ Hc0), api_exec_schedule_print. cbn [fst snd ret].
  eexists _, _. reflexivity.
Qed.












(** ** Worked examples of C4 and C10 *)


Example CleanUsers_removes_the_intruder :
  snd (CleanUsers host_one_user world_intruder) = Ok tt /\
  changes (trace (fst (CleanUsers host_one_user world_intruder)))
  = [remove_sentence "/user/remove" "intruder"] /\
  live_users (device (fst (CleanUsers host_one_user world_intruder))) = [admin].
Proof. vm_compute. repeat split; reflexivity. Qed.

(** The failed group query of [world_print_fails], followed by
    [MakeGroup]. *)
Lemma IsContain_reads_failure_as_absent_witness :
  AddGroups_body host_full group_full world_print_fails
  = MakeGroup host_full group_full (fst (GetGroups host_full world_print_fails)).
Proof.
  apply (proj1 (proj2 (proj2 (proj2
           (IsContain_reads_failure_as_absent main_params host_full)))))
    with (e := injected).
  vm_compute. reflexivity.
Defined.

(** ** What every step of the package preserves *)

Section Preserves.

Variable R : State -> State -> Prop.
Hypothesis R_refl : forall s, R s s.
Hypothesis R_trans : forall s1 s2 s3, R s1 s2 -> R s2 s3 -> R s1 s3.

Lemma preserves_ret {A} (a : A) : preserves R (ret a).
Proof. intros s s' r H. injection H as <- _. apply R_refl. Qed.

Lemma preserves_fail {A} e : preserves R (fail e : M A).
Proof. intros s s' r H. injection H as <- _. apply R_refl. Qed.

Lemma preserves_bind {A B} (m : M A) (f : A -> M B) :
  preserves R m -> (forall a, preserves R (f a)) -> preserves R (bind m f).
Proof.
  intros Hm Hf s s' r E. apply bind_inv in E.
  destruct E as [[s1 [a [E1 E2]]] | [[e [E1 ->]] | [w [E1 ->]]]].
  - eapply R_trans; [exact (Hm _ _ _ E1) | exact (Hf _ _ _ _ E2)].
  - exact (Hm _ _ _ E1).
  - exact (Hm _ _ _ E1).
Qed.

Lemma preserves_handle {A B} (m : M A) (ok : A -> M B) (err : error -> M B) :
  preserves R m -> (forall a, preserves R (ok a)) ->
  (forall e, preserves R (err e)) -> preserves R (handle m ok err).
Proof.
  intros Hm Hok Herr s s' r E. apply handle_inv in E.
  destruct E as [[s1 [a [E1 E2]]] | [[s1 [e [E1 E2]]] | [w [E1 ->]]]].
  - eapply R_trans; [exact (Hm _ _ _ E1) | exact (Hok _ _ _ _ E2)].
  - eapply R_trans; [exact (Hm _ _ _ E1) | exact (Herr _ _ _ _ E2)].
  - exact (Hm _ _ _ E1).
Qed.

Lemma preserves_for_range {A} (xs : list A) (body : A -> M unit) :
  (forall x, preserves R (body x)) -> preserves R (for_range xs body).
Proof.
  intros Hb. induction xs as [| x xs IH]; cbn.
  - apply preserves_ret.
  - apply preserves_bind; auto.
Qed.

(** The package beyond its connection functions: every other call leaves
    the sessions and the fault schedule alone. *)
Hypothesis R_data : forall s s1, same_sessions s s1 -> R s s1.
Hypothesis R_api : forall host, preserves R (GetConnectionAPI host).
Hypothesis R_sftp : forall host, preserves R (GetConnectionSFTP host).
Hypothesis R_close : forall host, preserves R (Disconnect host).

Lemma same_sessions_record c o s s1 :
  same_sessions s s1 -> same_sessions s (record c o s1).
Proof. intros H. exact H. Qed.

Lemma preserves_extern {A} c (sem : State -> State * (error + A)) :
  (forall s, same_sessions s (fst (sem s))) -> preserves R (extern c sem).
Proof.
  intros Hs s s' r E. apply R_data. apply extern_inv in E.
  destruct E as [[_ [-> ->]] | [_ [[s1 [e [E [-> ->]]]] | [s1 [a [E [-> ->]]]]]]].
  - repeat split.
  - specialize (Hs s). rewrite E in Hs. exact Hs.
  - specialize (Hs s). rewrite E in Hs. exact Hs.
Qed.

Lemma preserves_extern_ {A} c (sem : State -> State * A) :
  (forall s, same_sessions s (fst (sem s))) -> preserves R (extern_ c sem).
Proof.
  intros Hs s s' r E. apply R_data. apply extern__inv in E. destruct E as [-> _].
  apply Hs.
Qed.

Ltac silent :=
  intros ?s; unfold same_sessions, on_remote, on_local; cbn;
  repeat match goal with
         | |- context [let (_, _) := ?x in _] => destruct x
         end; cbn; repeat split; reflexivity.

Lemma preserves_log msg : preserves R (log_Println msg).
Proof. apply preserves_extern_; silent. Qed.

Lemma preserves_sleep d : preserves R (time_Sleep d).
Proof. apply preserves_extern_; silent. Qed.

Lemma preserves_api_Run h sentence : preserves R (api_Run h sentence).
Proof. apply preserves_extern; silent. Qed.

Lemma preserves_sftp_ReadDir h p : preserves R (sftp_ReadDir h p).
Proof. apply preserves_extern; silent. Qed.

Lemma preserves_sftp_Open h p : preserves R (sftp_Open h p).
Proof. apply preserves_extern; silent. Qed.

Lemma preserves_sftp_Create h p : preserves R (sftp_Create h p).
Proof. apply preserves_extern; silent. Qed.

Lemma preserves_sftp_Remove h p : preserves R (sftp_Remove h p).
Proof. apply preserves_extern; silent. Qed.

Lemma preserves_sftp_MkdirAll h p : preserves R (sftp_MkdirAll h p).
Proof. apply preserves_extern; silent. Qed.

Lemma preserves_sftp_FileClose p : preserves R (sftp_FileClose p).
Proof. apply preserves_extern; silent. Qed.

Lemma preserves_os_Open p : preserves R (os_Open p).
Proof. apply preserves_extern; silent. Qed.

Lemma preserves_os_MkdirAll p : preserves R (os_MkdirAll p).
Proof. apply preserves_extern; silent. Qed.

Lemma preserves_os_Create p : preserves R (os_Create p).
Proof. apply preserves_extern; silent. Qed.

Lemma preserves_os_Sync p : preserves R (os_Sync p).
Proof. apply preserves_extern; silent. Qed.

Lemma preserves_os_Close p : preserves R (os_Close p).
Proof. apply preserves_extern; silent. Qed.

Lemma preserves_io_CopyDown d p : preserves R (io_CopyDown d p).
Proof. apply preserves_extern; silent. Qed.

Lemma preserves_io_CopyUp d p : preserves R (io_CopyUp d p).
Proof. apply preserves_extern; silent. Qed.

Lemma preserves_GeneratePassword : preserves R GeneratePassword.
Proof. intros s s' r E. injection E as <- _. apply R_refl. Qed.

Lemma preserves_Params_GetByName Params name :
  preserves R (Params_GetByName Params name).
Proof.
  unfold Params_GetByName.
  destruct (find _ Params); [apply preserves_ret | apply preserves_fail].
Qed.

Create HintDb preserves.
#[local] Hint Resolve preserves_ret preserves_fail preserves_log preserves_sleep
  preserves_api_Run preserves_sftp_ReadDir preserves_sftp_Open
  preserves_sftp_Create preserves_sftp_Remove preserves_sftp_MkdirAll
  preserves_sftp_FileClose preserves_os_Open preserves_os_MkdirAll
  preserves_os_Create preserves_os_Sync preserves_os_Close preserves_io_CopyDown
  preserves_io_CopyUp preserves_GeneratePassword preserves_Params_GetByName
  R_api R_sftp R_close : preserves.

Ltac walk :=
  repeat first
    [ solve [auto with preserves]
    | apply preserves_bind; [| intros ?]
    | apply preserves_handle; [| intros ? | intros ?]
    | apply preserves_for_range; intros ?
    | match goal with |- preserves _ (if ?b then _ else _) => destruct b end ].

Lemma preserves_GetUsers host : preserves R (GetUsers host).
Proof. unfold GetUsers. walk. Qed.

Lemma preserves_GetGroups host : preserves R (GetGroups host).
Proof. unfold GetGroups. walk. Qed.

Lemma preserves_GetSchedules host : preserves R (GetSchedules host).
Proof. unfold GetSchedules. walk. Qed.

#[local] Hint Resolve preserves_GetUsers preserves_GetGroups
  preserves_GetSchedules : preserves.

Lemma preserves_CleanUsers host : preserves R (CleanUsers host).
Proof. unfold CleanUsers, RemoveUser. walk. Qed.

Lemma preserves_CleanGroups host : preserves R (CleanGroups host).
Proof. unfold CleanGroups, RemoveGroup. walk. Qed.

Lemma preserves_CleanSchedules host : preserves R (CleanSchedules host).
Proof. unfold CleanSchedules, RemoveSchedule. walk. Qed.

Lemma preserves_AddGroups host : preserves R (AddGroups host).
Proof. unfold AddGroups, AddGroups_body, IsContainGroup, MakeGroup. walk. Qed.

Lemma preserves_AddSchedules host : preserves R (AddSchedules host).
Proof.
  unfold AddSchedules, AddSchedules_body, IsContainSchedule, MakeSchedule. walk.
Qed.

Lemma preserves_ImportSshKey host user delay attempts :
  preserves R (ImportSshKey host user delay attempts).
Proof.
  unfold ImportSshKey. apply preserves_bind; [walk | intros _].
  generalize 1. induction (Z.to_nat attempts) as [| n IH]; intros i; cbn; walk.
Qed.

#[local] Hint Resolve preserves_ImportSshKey : preserves.

Lemma preserves_AddUsers Params host : preserves R (AddUsers Params host).
Proof.
  unfold AddUsers, AddUsers_body, IsContainUser, MakeUser, UploadKey. walk.
Qed.

Lemma preserves_MakeBackupFolder host : preserves R (MakeBackupFolder host).
Proof. unfold MakeBackupFolder, MakeDir. walk. Qed.

Lemma preserves_DownloadFile host pathSrc dirDst delete :
  preserves R (DownloadFile host pathSrc dirDst delete).
Proof. unfold DownloadFile. walk. Qed.

#[local] Hint Resolve preserves_DownloadFile : preserves.

Lemma preserves_DownloadFolder fuel host delete :
  forall dirSrc dirDst, preserves R (DownloadFolder fuel host dirSrc dirDst delete).
Proof.
  induction fuel as [| fuel IH]; intros dirSrc dirDst; cbn.
  - intros s s' r E. injection E as <- _. apply R_refl.
  - walk.
Qed.

#[local] Hint Resolve preserves_CleanUsers preserves_CleanGroups
  preserves_CleanSchedules preserves_AddGroups preserves_AddSchedules
  preserves_AddUsers preserves_MakeBackupFolder preserves_DownloadFolder
  : preserves.

Lemma preserves_StartManager Params fuel host :
  preserves R (StartManager Params fuel host).
Proof. unfold StartManager. walk. Qed.

Lemma preserves_Run_once Params fuel host :
  preserves R (Run_once Params fuel host).
Proof.
  unfold Run_once. apply preserves_handle.
  - apply preserves_StartManager.
  - intros _ s s' r E.
    destruct (GetNextTime host (time_Now_Unix s)).
    + exact (preserves_sleep _ _ _ _ E).
    + injection E as <- _. apply R_refl.
  - intros e. walk.
Qed.

Lemma preserves_Run cycles Params fuel host :
  preserves R (Run cycles Params fuel host).
Proof.
  induction cycles as [| n IH]; cbn.
  - intros s s' r E. injection E as <- _. apply R_refl.
  - apply preserves_bind; [apply preserves_Run_once | intros _; exact IH].
Qed.

End Preserves.

(** The fault schedule is never touched. *)

Lemma same_faults_refl s : same_faults s s.
Proof. reflexivity. Qed.

Lemma same_faults_trans s1 s2 s3 :
  same_faults s1 s2 -> same_faults s2 s3 -> same_faults s1 s3.
Proof. unfold same_faults. congruence. Qed.

Lemma same_faults_data s s1 : same_sessions s s1 -> same_faults s s1.
Proof. intros (_ & _ & F). exact F. Qed.

Lemma same_faults_inert {A} (m : M A) : inert m -> preserves same_faults m.
Proof. intros H s s' r E. destruct (H _ _ _ E) as (F & _). exact F. Qed.

Lemma same_faults_Disconnect host : preserves same_faults (Disconnect host).
Proof.
  intros s s' r E. unfold same_faults.
  replace s' with (fst (Disconnect host s)) by (rewrite E; reflexivity).
  unfold Disconnect.
  destruct (connections s) as [c1 c2 c3] eqn:C. cbn [ssh sftp api] in *.
  destruct c1, c2, c3;
    run_call; rewrite ?C; run_call; rewrite ?C; run_call; rewrite ?C; run_call;
    reflexivity.
Qed.

Lemma calm_same_faults s s' : same_faults s s' -> calm s -> calm s'.
Proof. intros F H k. rewrite F. apply H. Qed.

(** The session invariant is kept. *)

Lemma invariant_kept_refl s : invariant_kept s s.
Proof. intros H. exact H. Qed.

Lemma invariant_kept_trans s1 s2 s3 :
  invariant_kept s1 s2 -> invariant_kept s2 s3 -> invariant_kept s1 s3.
Proof. unfold invariant_kept. auto. Qed.

Lemma invariant_kept_data s s1 : same_sessions s s1 -> invariant_kept s s1.
Proof.
  intros (C & W & _).
  unfold invariant_kept, session_invariant, cache_is_wire. rewrite C, W. auto.
Qed.

Lemma invariant_kept_api host : preserves invariant_kept (GetConnectionAPI host).
Proof.
  intros s s' r E I. apply cache_of_invariant in I. destruct I as [C F].
  destruct (GetConnectionAPI_cache host s C) as (C' & S1 & S2 & _).
  rewrite E in *. cbn [fst] in *.
  apply invariant_of_cache; [exact C' | rewrite S1, S2; exact F].
Qed.

Lemma invariant_kept_sftp host : preserves invariant_kept (GetConnectionSFTP host).
Proof.
  intros s s' r E I. apply cache_of_invariant in I. destruct I as [C F].
  destruct (GetConnectionSFTP_cache host s s' r E C F) as (C' & F' & _).
  apply invariant_of_cache; assumption.
Qed.

Lemma Disconnect_no_session host s s' r :
  Disconnect host s = (s', r) -> session_invariant s -> no_session s'.
Proof.
  intros E I. apply cache_of_invariant in I. destruct I as [C _].
  destruct (Disconnect_cache host s C) as ((W1 & W2 & W3) & N).
  rewrite E in *. cbn [fst] in *. split; [exact N |].
  rewrite N in *. cbn [ssh sftp api opt_list] in *.
  destruct (wire s') as [w1 w2 w3]. cbn in *. congruence.
Qed.

Lemma no_session_invariant s : no_session s -> session_invariant s.
Proof.
  intros [C W]. apply invariant_of_cache.
  - unfold cache_is_wire. rewrite C, W. repeat split.
  - rewrite C. cbn. congruence.
Qed.

Lemma invariant_kept_close host : preserves invariant_kept (Disconnect host).
Proof.
  intros s s' r E I. apply no_session_invariant.
  exact (Disconnect_no_session host s s' r E I).
Qed.

(** What holds after a computation that returned nil, given what held
    before every step of it. *)
Lemma lands_bind {A B} (P Q : State -> Prop) (m : M A) (f : A -> M B) :
  preserves (fun s s' => P s -> P s') m ->
  (forall a s s' b, f a s = (s', Ok b) -> P s -> Q s') ->
  forall s s' b, bind m f s = (s', Ok b) -> P s -> Q s'.
Proof.
  intros Hm Hf s s' b E HP. apply bind_inv in E.
  destruct E as [[s1 [a [E1 E2]]] | [[e [_ N]] | [w [_ N]]]]; try discriminate.
  exact (Hf _ _ _ _ E2 (Hm _ _ _ E1 HP)).
Qed.

Ltac kept :=
  first [ apply preserves_log | apply preserves_Params_GetByName
        | apply preserves_CleanUsers | apply preserves_CleanGroups
        | apply preserves_CleanSchedules | apply preserves_AddGroups
        | apply preserves_AddUsers | apply preserves_MakeBackupFolder
        | apply preserves_AddSchedules | apply preserves_DownloadFolder
        | apply preserves_StartManager | apply preserves_Run_once
        | apply preserves_Run ];
  first [ exact invariant_kept_refl | exact invariant_kept_trans
        | exact invariant_kept_data | exact invariant_kept_api
        | exact invariant_kept_sftp | exact invariant_kept_close
        | exact same_faults_refl | exact same_faults_trans
        | exact same_faults_data | exact same_faults_Disconnect
        | exact (fun host => same_faults_inert _ (inert_GetConnectionAPI host))
        | exact (fun host => same_faults_inert _ (inert_GetConnectionSFTP host)) ].

(** X1. Whatever happens during a reconciliation cycle, the host comes
    out of it with the session invariant intact: the sessions open on the
    wire are the cached ones, at most one of each kind. A cycle that
    returns nil has closed them all: no handle is cached and no session is
    open. *)
Theorem StartManager_sessions (Params : TParams) (fuel : nat) (host : THost)
        (s s' : State) (r : res unit) :
  session_invariant s ->
  StartManager Params fuel host s = (s', r) ->
  session_invariant s' /\ (r = Ok tt -> no_session s').
Proof.
  intros I E. split.
  - assert (K : preserves invariant_kept (StartManager Params fuel host)) by kept.
    exact (K _ _ _ E I).
  - intros ->. revert I. revert E. generalize tt. revert s s'.
    unfold StartManager.
    repeat (apply (lands_bind session_invariant no_session); [kept | intros ?]).
    intros s s' b E I. exact (Disconnect_no_session host s s' _ E I).
Qed.

(** A cycle on a device with one declared user and nothing failing. *)
Lemma StartManager_sessions_witness :
  session_invariant (fst (StartManager main_params 5 host_one_user world_all_well)) /\
  no_session (fst (StartManager main_params 5 host_one_user world_all_well)).
Proof.
  assert (I0 : session_invariant world_all_well)
    by (apply no_session_invariant; split; reflexivity).
  destruct (StartManager_sessions main_params 5 host_one_user world_all_well _ _
              I0 (surjective_pairing _)) as [I N].
  split; [exact I | apply N; vm_compute; reflexivity].
Defined.

Lemma Run_once_never_fails Params fuel host s s' r :
  Run_once Params fuel host s = (s', r) -> r = Ok tt \/ exists w, r = Abort w.
Proof.
  intros E. unfold Run_once in E. apply handle_inv in E.
  destruct E as [[s1 [a [_ E]]] | [[s1 [e [_ E]]] | [w [_ ->]]]].
  - destruct (GetNextTime host (time_Now_Unix s1)).
    + apply sleep_inv in E. left. apply E.
    + injection E as _ <-. right. eauto.
  - apply bind_inv in E.
    destruct E as [[s2 [a [_ E]]] | [[e' [E _]] | [w [E _]]]].
    + apply sleep_inv in E. left. apply E.
    + apply log_inv in E. destruct E; discriminate.
    + apply log_inv in E. destruct E; discriminate.
  - right. eauto.
Qed.

(** X2. [Run] has no way out but a panic: however many passes are
    followed, it has returned neither nil nor an error, so no failure of a
    cycle ever stops the loop of a host; and after any number of cycles,
    failed or not, the session invariant still holds: the sessions a
    failed cycle left open are the cached ones, never duplicates. *)
Theorem Run_never_returns (cycles : nat) (Params : TParams) (fuel : nat)
        (host : THost) (s : State) :
  (exists w, snd (Run cycles Params fuel host s) = Abort w) /\
  (session_invariant s ->
   session_invariant (fst (Run cycles Params fuel host s))).
Proof.
  split.
  - revert s. induction cycles as [| n IH]; intros s; cbn.
    + eauto.
    + unfold bind. destruct (Run_once Params fuel host s) as [s1 r] eqn:E.
      destruct (Run_once_never_fails _ _ _ _ _ _ E) as [-> | [w ->]].
      * apply IH.
      * cbn. eauto.
  - intros I.
    assert (K : preserves invariant_kept (Run cycles Params fuel host)) by kept.
    exact (K _ _ _ (surjective_pairing _) I).
Qed.

(** ** A clean step followed by its add step *)

Lemma map_filter_name {A} (name : A -> string) (p : string -> bool) (l : list A) :
  map name (filter (fun x => p (name x)) l) = filter p (map name l).
Proof.
  induction l as [| x l IH]; cbn; [reflexivity |].
  destruct (p (name x)); cbn; rewrite IH; reflexivity.
Qed.

Lemma CleanUsers_nil host s s1 :
  CleanUsers host s = (s1, Ok tt) ->
  live_logins s1 = filter (IsContain (GetUsersAllowed host)) (live_logins s).
Proof.
  intros H.
  destruct (clean_step user_Login (IsContain (GetUsersAllowed host))
                       (RemoveUser host) "/user/remove" user_Login
                       (fun s => live_users (device s)) (GetUsers host) s)
    with (s' := s1) (r := Ok tt) as [evs [rest [_ [_ L]]]]; try exact H.
  - intros n s0 s2 r0 X.
    exact (remove_step_changes host _ "/user/remove" n s0 s2 r0 eq_refl X).
  - apply RemoveUser_effect.
  - apply inert_GetUsers.
  - intros s0 s2 (_ & U & _). exact U.
  - intros s0 s2 xs X. exact (GetUsers_reads host s0 s2 xs X).
  - destruct (L eq_refl) as [_ E]. unfold live_logins. rewrite E.
    apply map_filter_name.
Qed.

Lemma CleanGroups_nil host s s1 :
  CleanGroups host s = (s1, Ok tt) ->
  live_group_names s1
  = filter (Groups_IsContain (host_Groups host)) (live_group_names s).
Proof.
  intros H.
  destruct (clean_step group_Name (Groups_IsContain (host_Groups host))
                       (RemoveGroup host) "/user/group/remove" group_Name
                       (fun s => live_groups (device s)) (GetGroups host) s)
    with (s' := s1) (r := Ok tt) as [evs [rest [_ [_ L]]]]; try exact H.
  - intros n s0 s2 r0 X.
    exact (remove_step_changes host _ "/user/group/remove" n s0 s2 r0 eq_refl X).
  - apply RemoveGroup_effect.
  - apply inert_GetGroups.
  - intros s0 s2 (_ & _ & G & _). exact G.
  - intros s0 s2 xs X. exact (GetGroups_reads host s0 s2 xs X).
  - destruct (L eq_refl) as [_ E]. unfold live_group_names. rewrite E.
    apply map_filter_name.
Qed.

Lemma CleanSchedules_nil host s s1 :
  CleanSchedules host s = (s1, Ok tt) ->
  live_schedule_names s1
  = filter (Schedules_IsContain (host_Schedules host)) (live_schedule_names s).
Proof.
  intros H.
  destruct (clean_step sched_Name (Schedules_IsContain (host_Schedules host))
                       (RemoveSchedule host) "/system/scheduler/remove" sched_Name
                       (fun s => live_schedules (device s)) (GetSchedules host) s)
    with (s' := s1) (r := Ok tt) as [evs [rest [_ [_ L]]]]; try exact H.
  - intros n s0 s2 r0 X.
    exact (remove_step_changes host _ "/system/scheduler/remove" n s0 s2 r0
                               eq_refl X).
  - apply RemoveSchedule_effect.
  - apply inert_GetSchedules.
  - intros s0 s2 (_ & _ & _ & C & _). exact C.
  - intros s0 s2 xs X. exact (GetSchedules_reads host s0 s2 xs X).
  - destruct (L eq_refl) as [_ E]. unfold live_schedule_names. rewrite E.
    apply map_filter_name.
Qed.

Lemma calm_CleanUsers host s s1 r :
  CleanUsers host s = (s1, r) -> calm s -> calm s1.
Proof.
  intros E. apply calm_same_faults.
  assert (K : preserves same_faults (CleanUsers host)) by kept.
  exact (K _ _ _ E).
Qed.

Lemma calm_CleanGroups host s s1 r :
  CleanGroups host s = (s1, r) -> calm s -> calm s1.
Proof.
  intros E. apply calm_same_faults.
  assert (K : preserves same_faults (CleanGroups host)) by kept.
  exact (K _ _ _ E).
Qed.

Lemma calm_CleanSchedules host s s1 r :
  CleanSchedules host s = (s1, r) -> calm s -> calm s1.
Proof.
  intros E. apply calm_same_faults.
  assert (K : preserves same_faults (CleanSchedules host)) by kept.
  exact (K _ _ _ E).
Qed.

(** The names on the device after a clean step that returned nil and the
    add step that follows it. *)
Lemma converges {E : Type} (name : E -> string) (declared : list E)
      (live live1 live2 news : list string) :
  live1 = filter (fun n => existsb (fun x => (name x =? n)%string) declared) live ->
  live2 = (live1 ++ news)%list ->
  (forall n, In n news -> In n (map name declared)) ->
  (forall x, In x declared -> In (name x) live2) ->
  forall n, In n live2 <-> In n (map name declared).
Proof.
  intros -> -> Hn Hd n. split.
  - intros H. apply in_app_or in H. destruct H as [H | H]; [| exact (Hn n H)].
    apply filter_In in H. apply existsb_name_In. apply H.
  - intros H. apply in_map_iff in H. destruct H as [x [<- Hx]]. exact (Hd x Hx).
Qed.

(** X3. Reconciliation converges. In a world where no call fails for a
    reason of the environment, after a clean step that returned nil and the
    add step that follows it, the groups on the device are the declared
    groups, name for name: the live names that were declared, in their old
    order, followed by the names just created; the same holds of the
    scheduler entries. For users, every account left is an allowed one,
    and when [AddUsers] returned nil every declared login is on the
    device. *)
Theorem clean_then_add_converges (Params : TParams) (host : THost) (s : State) :
  calm s ->
  (forall s1 s2 r,
      CleanGroups host s = (s1, Ok tt) -> AddGroups host s1 = (s2, r) ->
      r = Ok tt /\
      (forall n, In n (live_group_names s2)
                 <-> In n (map group_Name (host_Groups host))) /\
      exists news,
        live_group_names s2
        = (filter (Groups_IsContain (host_Groups host)) (live_group_names s)
           ++ news)%list /\ NoDup news) /\
  (forall s1 s2 r,
      CleanSchedules host s = (s1, Ok tt) -> AddSchedules host s1 = (s2, r) ->
      r = Ok tt /\
      (forall n, In n (live_schedule_names s2)
                 <-> In n (map sched_Name (host_Schedules host))) /\
      exists news,
        live_schedule_names s2
        = (filter (Schedules_IsContain (host_Schedules host))
                  (live_schedule_names s) ++ news)%list /\ NoDup news) /\
  (forall s1 s2 r,
      CleanUsers host s = (s1, Ok tt) -> AddUsers Params host s1 = (s2, r) ->
      (forall n, In n (live_logins s2) ->
                 IsContain (GetUsersAllowed host) n = true) /\
      (r = Ok tt ->
       forall user, In user (host_Users host) ->
                    In (user_Login user) (live_logins s2))).
Proof.
  intros Hc. split; [| split].
  - intros s1 s2 r H1 H2.
    pose proof (CleanGroups_nil _ _ _ H1) as L1.
    pose proof (calm_CleanGroups _ _ _ _ H1 Hc) as Hc1.
    destruct (add_loop_spec group_Name live_group_names (AddGroups_body host) _ true
                            (AddGroups_body_spec host) _ _ _ _ Hc1 H2)
      as [_ [evs [_ [L2 [N2 [D2 [A2 [_ S2]]]]]]]].
    specialize (S2 eq_refl). split; [exact S2 |]. split.
    + apply (converges group_Name (host_Groups host) (live_group_names s)
                       (live_group_names s1) _ (created evs));
        [exact L1 | exact L2 | intros n Hn; apply (D2 n Hn) | exact (A2 S2)].
    + exists (created evs). rewrite L2, L1. auto.
  - intros s1 s2 r H1 H2.
    pose proof (CleanSchedules_nil _ _ _ H1) as L1.
    pose proof (calm_CleanSchedules _ _ _ _ H1 Hc) as Hc1.
    destruct (add_loop_spec sched_Name live_schedule_names (AddSchedules_body host)
                            _ true (AddSchedules_body_spec host) _ _ _ _ Hc1 H2)
      as [_ [evs [_ [L2 [N2 [D2 [A2 [_ S2]]]]]]]].
    specialize (S2 eq_refl). split; [exact S2 |]. split.
    + apply (converges sched_Name (host_Schedules host) (live_schedule_names s)
                       (live_schedule_names s1) _ (created evs));
        [exact L1 | exact L2 | intros n Hn; apply (D2 n Hn) | exact (A2 S2)].
    + exists (created evs). rewrite L2, L1. auto.
  - intros s1 s2 r H1 H2.
    pose proof (CleanUsers_nil _ _ _ H1) as L1.
    pose proof (calm_CleanUsers _ _ _ _ H1 Hc) as Hc1.
    destruct (add_loop_spec user_Login live_logins (AddUsers_body Params host)
                            _ false (AddUsers_body_spec Params host) _ _ _ _ Hc1 H2)
      as [_ [evs [_ [L2 [N2 [D2 [A2 _]]]]]]].
    split; [| exact A2].
    intros n Hn. rewrite L2, L1 in Hn. apply in_app_or in Hn.
    destruct Hn as [Hn | Hn].
    + apply filter_In in Hn. apply Hn.
    + destruct (D2 n Hn) as [_ X]. apply IsContain_In. unfold GetUsersAllowed.
      apply in_or_app. right. apply in_or_app. right. exact X.
Qed.

(** A device that is not as declared. *)
Lemma clean_then_add_converges_witness :
  snd (AddGroups host_full (fst (CleanGroups host_full world_stale))) = Ok tt /\
  (forall n,
      In n (live_group_names
              (fst (AddGroups host_full (fst (CleanGroups host_full world_stale)))))
      <-> In n (map group_Name (host_Groups host_full))) /\
  live_group_names (fst (AddGroups host_full (fst (CleanGroups host_full world_stale))))
  = ["read"; "full"].
Proof.
  assert (Hc : calm world_stale) by (intros k; reflexivity).
  destruct (clean_then_add_converges main_params host_full world_stale Hc)
    as [G _].
  destruct (G (fst (CleanGroups host_full world_stale))
              (fst (AddGroups host_full (fst (CleanGroups host_full world_stale))))
              (snd (AddGroups host_full (fst (CleanGroups host_full world_stale)))))
    as [R [S _]].
  - vm_compute. reflexivity.
  - apply surjective_pairing.
  - split; [exact R | split; [exact S | vm_compute; reflexivity]].
Defined.

(** ** A device that is already as declared *)

Lemma clean_loop_idle {E} (name : E -> string) (keep : string -> bool)
      (rm : string -> M unit) (xs : list E) s :
  (forall x, In x xs -> keep (name x) = true) ->
  clean_loop name keep rm xs s = (s, Ok tt).
Proof.
  unfold clean_loop. induction xs as [| x xs IH]; intros H; cbn; [reflexivity |].
  unfold bind. rewrite (H x (or_introl eq_refl)). cbn [negb ret].
  apply IH. intros y Hy. apply H. right. exact Hy.
Qed.

Lemma names_kept {E} (name : E -> string) (keep : string -> bool) (xs : list E)
      (live : list string) :
  map name xs = live -> (forall n, In n live -> keep n = true) ->
  forall x, In x xs -> keep (name x) = true.
Proof. intros <- H x Hx. apply H. apply in_map. exact Hx. Qed.

(** A clean step whose query succeeds and finds nothing to remove. *)
Lemma clean_idle {E} (name : E -> string) (keep : string -> bool)
      (rm : string -> M unit) (get : M (list E)) (live : State -> list string)
      s s' r :
  inert get ->
  (exists s1 xs, get s = (s1, Ok xs)) ->
  (forall s s1 xs, get s = (s1, Ok xs) -> map name xs = live s) ->
  (forall n, In n (live s) -> keep n = true) ->
  (xs <- get ;; clean_loop name keep rm xs) s = (s', r) ->
  r = Ok tt /\ inert_step s s'.
Proof.
  intros Hi [s1 [xs G]] Hr Hk H.
  rewrite (bind_ok _ _ _ _ _ G) in H.
  rewrite (clean_loop_idle name keep rm xs s1) in H.
  - injection H as <- <-. split; [reflexivity | exact (Hi _ _ _ G)].
  - exact (names_kept name keep xs (live s) (Hr _ _ _ G) Hk).
Qed.

(** An add step on a device that has every declared name. *)
Lemma add_idle {E} (name : E -> string) (lnames : State -> list string)
      (body : E -> M unit) (skip_msg : E -> string) (sturdy : bool) xs s s' r :
  (forall x s s' r, calm s -> body x s = (s', r) ->
     calm s' /\
     exists evs, trace s' = (trace s ++ evs)%list /\
       ((In (name x) (lnames s) /\ changes evs = [] /\ lnames s' = lnames s /\
         r = Ok tt /\
         exists evs0, evs = (evs0 ++ [mkEvent (CLog (skip_msg x)) None])%list) \/
        (~ In (name x) (lnames s) /\ created evs = [name x] /\
         lnames s' = (lnames s ++ [name x])%list /\
         (sturdy = true -> r = Ok tt)))) ->
  calm s ->
  (forall x, In x xs -> In (name x) (lnames s)) ->
  for_range xs body s = (s', r) ->
  r = Ok tt /\ lnames s' = lnames s /\
  exists evs, trace s' = (trace s ++ evs)%list /\ changes evs = [].
Proof.
  intros Hb Hc Hall H.
  destruct (add_loop_spec name lnames body skip_msg sturdy Hb xs _ _ _ Hc H)
    as [_ [evs [T [L [_ [D [_ [Z _]]]]]]]].
  assert (C : created evs = []).
  { destruct (created evs) as [| n l]; [reflexivity | exfalso].
    destruct (D n (or_introl eq_refl)) as [Out Inx].
    apply in_map_iff in Inx. destruct Inx as [x [<- Hx]]. exact (Out (Hall x Hx)). }
  split; [exact (Z C) |]. split; [rewrite L, C; apply app_nil_r |].
  exists evs. split; [exact T | apply changes_of_created; exact C].
Qed.

Lemma idle_pass (names : State -> list string) s s1 s2 r1 r2 :
  (r1 = Ok tt /\ inert_step s s1) ->
  (forall s s1, inert_step s s1 -> names s1 = names s) ->
  (r2 = Ok tt /\ names s2 = names s1 /\
   exists evs, trace s2 = (trace s1 ++ evs)%list /\ changes evs = []) ->
  r1 = Ok tt /\ r2 = Ok tt /\ names s2 = names s /\
  exists evs, trace s2 = (trace s ++ evs)%list /\ changes evs = [].
Proof.
  intros [R1 I] Hn [R2 [L [evs [T C]]]].
  split; [exact R1 | split; [exact R2 |]].
  split; [rewrite L; exact (Hn _ _ I) |].
  destruct I as (_ & _ & _ & _ & evs0 & T0 & C0).
  exists (evs0 ++ evs)%list. rewrite T, T0, app_assoc. split; [reflexivity |].
  rewrite changes_app, C0, C. reflexivity.
Qed.

(** X4. A device that is already as declared is left alone. In a world
    where no call fails for a reason of the environment, when the live
    names of a kind are the declared ones, the clean step and the add step
    both return nil and issue no change at all: no removal and no creation
    command is sent, and the names on the device are as before. For users
    it is enough that every live login is allowed and every declared login
    is live. *)
Theorem converged_device_is_left_alone (Params : TParams) (host : THost)
        (s : State) :
  calm s ->
  (forall s1 r1 s2 r2,
      (forall n, In n (live_group_names s)
                 <-> In n (map group_Name (host_Groups host))) ->
      CleanGroups host s = (s1, r1) -> AddGroups host s1 = (s2, r2) ->
      r1 = Ok tt /\ r2 = Ok tt /\ live_group_names s2 = live_group_names s /\
      exists evs, trace s2 = (trace s ++ evs)%list /\ changes evs = []) /\
  (forall s1 r1 s2 r2,
      (forall n, In n (live_schedule_names s)
                 <-> In n (map sched_Name (host_Schedules host))) ->
      CleanSchedules host s = (s1, r1) -> AddSchedules host s1 = (s2, r2) ->
      r1 = Ok tt /\ r2 = Ok tt /\ live_schedule_names s2 = live_schedule_names s /\
      exists evs, trace s2 = (trace s ++ evs)%list /\ changes evs = []) /\
  (forall s1 r1 s2 r2,
      (forall n, In n (live_logins s) -> IsContain (GetUsersAllowed host) n = true) ->
      (forall user, In user (host_Users host) ->
                    In (user_Login user) (live_logins s)) ->
      CleanUsers host s = (s1, r1) -> AddUsers Params host s1 = (s2, r2) ->
      r1 = Ok tt /\ r2 = Ok tt /\ live_logins s2 = live_logins s /\
      exists evs, trace s2 = (trace s ++ evs)%list /\ changes evs = []).
Proof.
  intros Hc. split; [| split].
  - intros s1 r1 s2 r2 Hs H1 H2.
    assert (I1 : r1 = Ok tt /\ inert_step s s1).
    { apply (clean_idle group_Name (Groups_IsContain (host_Groups host))
                        (RemoveGroup host) (GetGroups host) live_group_names
                        s s1 r1); try exact H1.
      - apply inert_GetGroups.
      - apply calm_GetGroups. exact Hc.
      - intros s0 s3 xs X. exact (GetGroups_reads host s0 s3 xs X).
      - intros n Hn. apply existsb_name_In. apply Hs. exact Hn. }
    apply (idle_pass live_group_names s s1 s2 r1 r2 I1).
    + intros s0 s3 (_ & _ & G & _). unfold live_group_names. rewrite G. reflexivity.
    + destruct I1 as [_ I1].
      apply (add_idle group_Name live_group_names (AddGroups_body host) _ true
                      (host_Groups host) s1 s2 r2 (AddGroups_body_spec host)).
      * exact (calm_inert_step _ _ I1 Hc).
      * intros x Hx. destruct I1 as (_ & _ & G & _). unfold live_group_names.
        rewrite G. apply Hs. apply in_map. exact Hx.
      * exact H2.
  - intros s1 r1 s2 r2 Hs H1 H2.
    assert (I1 : r1 = Ok tt /\ inert_step s s1).
    { apply (clean_idle sched_Name (Schedules_IsContain (host_Schedules host))
                        (RemoveSchedule host) (GetSchedules host)
                        live_schedule_names s s1 r1); try exact H1.
      - apply inert_GetSchedules.
      - apply calm_GetSchedules. exact Hc.
      - intros s0 s3 xs X. exact (GetSchedules_reads host s0 s3 xs X).
      - intros n Hn. apply existsb_name_In. apply Hs. exact Hn. }
    apply (idle_pass live_schedule_names s s1 s2 r1 r2 I1).
    + intros s0 s3 (_ & _ & _ & C & _). unfold live_schedule_names. rewrite C.
      reflexivity.
    + destruct I1 as [_ I1].
      apply (add_idle sched_Name live_schedule_names (AddSchedules_body host) _ true
                      (host_Schedules host) s1 s2 r2 (AddSchedules_body_spec host)).
      * exact (calm_inert_step _ _ I1 Hc).
      * intros x Hx. destruct I1 as (_ & _ & _ & C & _). unfold live_schedule_names.
        rewrite C. apply Hs. apply in_map. exact Hx.
      * exact H2.
  - intros s1 r1 s2 r2 Ha Hd H1 H2.
    assert (I1 : r1 = Ok tt /\ inert_step s s1).
    { apply (clean_idle user_Login (IsContain (GetUsersAllowed host))
                        (RemoveUser host) (GetUsers host) live_logins
                        s s1 r1); try exact H1.
      - apply inert_GetUsers.
      - apply calm_GetUsers. exact Hc.
      - intros s0 s3 xs X. exact (GetUsers_reads host s0 s3 xs X).
      - exact Ha. }
    apply (idle_pass live_logins s s1 s2 r1 r2 I1).
    + intros s0 s3 (_ & U & _). unfold live_logins. rewrite U. reflexivity.
    + destruct I1 as [_ I1].
      apply (add_idle user_Login live_logins (AddUsers_body Params host) _ false
                      (host_Users host) s1 s2 r2 (AddUsers_body_spec Params host)).
      * exact (calm_inert_step _ _ I1 Hc).
      * intros x Hx. destruct I1 as (_ & U & _). unfold live_logins.
        rewrite U. apply Hd. exact Hx.
      * exact H2.
Qed.

(** The groups of a device that has the two declared ones. *)
Lemma converged_device_is_left_alone_witness :
  snd (CleanGroups host_full world_converged) = Ok tt /\
  snd (AddGroups host_full (fst (CleanGroups host_full world_converged))) = Ok tt /\
  live_group_names (fst (AddGroups host_full (fst (CleanGroups host_full world_converged))))
  = live_group_names world_converged /\
  exists evs,
    trace (fst (AddGroups host_full (fst (CleanGroups host_full world_converged))))
    = (trace world_converged ++ evs)%list /\ changes evs = [].
Proof.
  assert (Hc : calm world_converged) by (intros k; reflexivity).
  destruct (converged_device_is_left_alone main_params host_full world_converged Hc)
    as [G _].
  apply (G (fst (CleanGroups host_full world_converged))
           (snd (CleanGroups host_full world_converged))
           (fst (AddGroups host_full (fst (CleanGroups host_full world_converged))))
           (snd (AddGroups host_full (fst (CleanGroups host_full world_converged))))).
  - intros n. cbn. tauto.
  - apply surjective_pairing.
  - apply surjective_pairing.
Defined.

(** ** The time a key import takes *)

Lemma ImportSshKey_from_clock host user delay left :
  forall i s s' r h,
    api (connections s) = Some h ->
    ImportSshKey_from host user delay i left s = (s', r) ->
    exists k,
      (k <= left)%nat /\
      clock s' = clock s + Z.of_nat k * Z.max 0 (Int64.mul delay Millisecond) /\
      ((r = Err all_attempts_used /\ k = left) \/ (r = Ok tt /\ (1 <= k)%nat)).
Proof.
  induction left as [| n IH]; intros i s s' r h Hapi H.
  - inversion H; subst. exists 0%nat. split; [lia | split; [cbn; lia | left; auto]].
  - cbn [ImportSshKey_from] in H.
    rewrite (bind_ok _ _ _ _ _ (GetConnectionAPI_cached host s h Hapi)) in H.
    rewrite (bind_ok _ _ _ _ _ (sleep_run _ s)) in H.
    apply handle_inv in H.
    destruct H as [[s2 [a [R H]]] | [[s2 [e [R H]]] | [w [R _]]]].
    + apply api_Run_inv in R. destruct R as [d [o [-> _]]].
      rewrite log_run in H. injection H as <- <-.
      exists 1%nat. split; [lia |]. split; [cbn [clock record with_trace with_device
                                                  with_clock]; lia |].
      right. split; [reflexivity | lia].
    + apply api_Run_inv in R. destruct R as [d [o [-> _]]].
      rewrite (bind_ok _ _ _ _ _ (log_run _ _)) in H.
      rewrite (bind_ok _ _ _ _ _ (log_run _ _)) in H.
      apply IH with (h := h) in H; [| exact Hapi].
      destruct H as [k [Hk [C D]]]. exists (S k). split; [lia |].
      split; [rewrite C; cbn [clock record with_trace with_device with_clock]; lia |].
      destruct D as [[-> ->] | [-> Hk1]]; [left; auto | right; split; [auto | lia]].
    + exfalso.
      destruct (one_call_api_Run h (import_sentence user) _ _ _ R) as [o [_ F]].
      exact F.
Qed.

(** X5. What a key import costs. With the control-plane session open,
    [ImportSshKey] waits the fixed delay before every attempt, the first
    included, and at no other time: the clock advances by the number of
    attempts made times the delay. A successful import has waited at least
    once; an exhausted one has waited [attempts] times; with no attempt
    allowed ([attempts <= 0]) it fails at once without waiting. *)
Theorem ImportSshKey_elapsed (host : THost) (user : TUser) (delay attempts : Z)
        (s s' : State) (r : res unit) (h : nat) :
  api (connections s) = Some h ->
  ImportSshKey host user delay attempts s = (s', r) ->
  exists k,
    (k <= Z.to_nat attempts)%nat /\
    clock s' = clock s + Z.of_nat k * Z.max 0 (Int64.mul delay Millisecond) /\
    ((r = Err all_attempts_used /\ k = Z.to_nat attempts) \/
     (r = Ok tt /\ (1 <= k)%nat)) /\
    (attempts <= 0 -> r = Err all_attempts_used /\ clock s' = clock s).
Proof.
  intros Hapi H. unfold ImportSshKey in H.
  rewrite (bind_ok _ _ _ _ _ (log_run _ _)) in H.
  apply ImportSshKey_from_clock with (h := h) in H; [| exact Hapi].
  destruct H as [k [Hk [C D]]]. exists k.
  split; [exact Hk | split; [exact C | split; [exact D |]]].
  intros Hz. assert (k = 0%nat) by lia. subst k.
  split; [destruct D as [[D _] | [_ D]]; [exact D | lia] | rewrite C; cbn; lia].
Qed.

(** The ten attempts, five seconds apart, of [AddUsers], every one failing:
    fifty seconds. *)
Lemma ImportSshKey_elapsed_witness :
  exists k,
    (k <= Z.to_nat 10)%nat /\
    clock (fst (ImportSshKey host_one_user alice 5000 10 world_import_fails))
    = clock world_import_fails + Z.of_nat k * Z.max 0 (Int64.mul 5000 Millisecond) /\
    ((snd (ImportSshKey host_one_user alice 5000 10 world_import_fails)
      = Err all_attempts_used /\ k = Z.to_nat 10) \/
     (snd (ImportSshKey host_one_user alice 5000 10 world_import_fails) = Ok tt /\
      (1 <= k)%nat)) /\
    (10 <= 0 ->
     snd (ImportSshKey host_one_user alice 5000 10 world_import_fails)
     = Err all_attempts_used /\
     clock (fst (ImportSshKey host_one_user alice 5000 10 world_import_fails))
     = clock world_import_fails).
Proof.
  apply (ImportSshKey_elapsed host_one_user alice 5000 10 world_import_fails
                              _ _ 0%nat).
  - reflexivity.
  - apply surjective_pairing.
Defined.

Example AddUsers_import_blocks_fifty_seconds :
  clock (fst (ImportSshKey host_one_user alice 5000 10 world_import_fails))
  - clock world_import_fails = 50 * Second.
Proof. vm_compute. reflexivity. Qed.

(** ** File trees *)

Lemma fpath_eqb_refl k : fpath_eqb k k = true.
Proof. unfold fpath_eqb. destruct (list_eq_dec string_dec k k); congruence. Qed.

Lemma fpath_eqb_eq a b : fpath_eqb a b = true <-> a = b.
Proof. unfold fpath_eqb. destruct (list_eq_dec string_dec a b); split; congruence. Qed.

Lemma fpath_eqb_neq a b : a <> b -> fpath_eqb a b = false.
Proof. unfold fpath_eqb. destruct (list_eq_dec string_dec a b); congruence. Qed.

Lemma fs_lookup_app fs1 fs2 k :
  fs_lookup (fs1 ++ fs2)%list k
  = match fs_lookup fs1 k with Some n => Some n | None => fs_lookup fs2 k end.
Proof.
  induction fs1 as [| [k' n] fs1 IH]; cbn; [reflexivity |].
  destruct (fpath_eqb k' k); [reflexivity | exact IH].
Qed.

Lemma fs_lookup_put_same fs k n : fs_lookup (fs_put fs k n) k = Some n.
Proof.
  unfold fs_put. destruct (fs_lookup fs k) eqn:E.
  - induction fs as [| [k' n'] fs IH]; cbn in *; [discriminate |].
    destruct (fpath_eqb k' k) eqn:Q; cbn.
    + rewrite fpath_eqb_refl. reflexivity.
    + rewrite Q. apply IH. exact E.
  - rewrite fs_lookup_app, E. cbn. rewrite fpath_eqb_refl. reflexivity.
Qed.

Lemma fs_lookup_put_other fs k n k' :
  k' <> k -> fs_lookup (fs_put fs k n) k' = fs_lookup fs k'.
Proof.
  intros N. unfold fs_put. destruct (fs_lookup fs k) eqn:E.
  - clear E. induction fs as [| [k0 m0] fs IH]; cbn; [reflexivity |].
    destruct (fpath_eqb k0 k) eqn:Q; cbn.
    + apply fpath_eqb_eq in Q. subst k0.
      rewrite (fpath_eqb_neq k k') by congruence. exact IH.
    + destruct (fpath_eqb k0 k'); [reflexivity | exact IH].
  - rewrite fs_lookup_app. destruct (fs_lookup fs k'); [reflexivity |].
    cbn. rewrite (fpath_eqb_neq k k') by congruence. reflexivity.
Qed.

Lemma fs_lookup_delete_same fs k : fs_lookup (fs_delete fs k) k = None.
Proof.
  unfold fs_delete. induction fs as [| [k' n] fs IH]; cbn; [reflexivity |].
  destruct (fpath_eqb k' k) eqn:Q; cbn; [exact IH | rewrite Q; exact IH].
Qed.

Lemma fs_lookup_delete_other fs k k' :
  k' <> k -> fs_lookup (fs_delete fs k) k' = fs_lookup fs k'.
Proof.
  intros N. unfold fs_delete. induction fs as [| [k0 n] fs IH]; cbn; [reflexivity |].
  destruct (fpath_eqb k0 k) eqn:Q; cbn.
  - apply fpath_eqb_eq in Q. subst k0.
    rewrite (fpath_eqb_neq k k') by congruence. exact IH.
  - destruct (fpath_eqb k0 k'); [reflexivity | exact IH].
Qed.

(** [MkdirAll] adds directories and touches nothing that exists. *)
Lemma fs_mkdir_all_keeps todo :
  forall fs done fs' k n,
    fs_mkdir_all fs done todo = Some fs' ->
    fs_lookup fs k = Some n -> fs_lookup fs' k = Some n.
Proof.
  induction todo as [| d todo IH]; intros fs done fs' k n H L; cbn in H.
  - injection H as <-. exact L.
  - destruct (fs_lookup fs (done ++ [d])%list) as [[| data] |] eqn:E;
      try discriminate.
    + exact (IH _ _ _ _ _ H L).
    + apply (IH _ _ _ _ _ H). rewrite fs_lookup_app, L. reflexivity.
Qed.

Lemma fs_mkdir_all_dir todo :
  forall fs done fs',
    fs_is_dir fs done = true ->
    fs_mkdir_all fs done todo = Some fs' ->
    fs_is_dir fs' (done ++ todo)%list = true.
Proof.
  induction todo as [| d todo IH]; intros fs done fs' D H; cbn in H.
  - injection H as <-. rewrite app_nil_r. exact D.
  - replace (done ++ d :: todo)%list with ((done ++ [d]) ++ todo)%list
      by (rewrite <- app_assoc; reflexivity).
    destruct (fs_lookup fs (done ++ [d])%list) as [[| data] |] eqn:E;
      try discriminate.
    + refine (IH _ _ fs' _ H).
      unfold fs_is_dir. rewrite E. destruct (done ++ [d])%list; reflexivity.
    + refine (IH _ _ fs' _ H).
      unfold fs_is_dir. rewrite fs_lookup_app, E. cbn. rewrite fpath_eqb_refl.
      destruct (done ++ [d])%list; reflexivity.
Qed.

(** ** What the file calls change *)

Lemma same_world_refl s : same_world s s.
Proof. repeat split. Qed.

Lemma same_world_trans s1 s2 s3 :
  same_world s1 s2 -> same_world s2 s3 -> same_world s1 s3.
Proof. unfold same_world. intuition congruence. Qed.

Lemma same_world_cached (f : State -> option nat) (m : M nat) :
  preserves same_world m ->
  preserves same_world (fun s => match f s with None => m s | Some h => (s, Ok h) end).
Proof.
  intros Hm s s' r E. destruct (f s).
  - injection E as <- _. apply same_world_refl.
  - exact (Hm _ _ _ E).
Qed.

Lemma same_world_extern {A} c (sem : State -> State * (error + A)) :
  (forall s, same_world s (fst (sem s))) -> preserves same_world (extern c sem).
Proof.
  intros Hs s s' r E. apply extern_inv in E.
  destruct E as [[_ [-> ->]] | [_ [[s1 [e [E [-> ->]]]] | [s1 [a [E [-> ->]]]]]]].
  - repeat split.
  - specialize (Hs s). rewrite E in Hs. exact Hs.
  - specialize (Hs s). rewrite E in Hs. exact Hs.
Qed.

Lemma same_world_log msg : preserves same_world (log_Println msg).
Proof. intros s s' r E. apply log_inv in E. destruct E as [-> _]. repeat split. Qed.

Lemma same_world_set_ssh h : preserves same_world (set_ssh h).
Proof. intros s s' r E. injection E as <- _. repeat split. Qed.

Lemma same_world_set_sftp h : preserves same_world (set_sftp h).
Proof. intros s s' r E. injection E as <- _. repeat split. Qed.

Lemma same_world_set_api h : preserves same_world (set_api h).
Proof. intros s s' r E. injection E as <- _. repeat split. Qed.

Ltac world_walk :=
  repeat first
    [ apply same_world_log | apply same_world_set_ssh | apply same_world_set_sftp
    | apply same_world_set_api
    | apply (preserves_ret same_world same_world_refl)
    | apply same_world_extern; intros ?s; repeat split
    | apply (preserves_bind same_world same_world_trans); [| intros ?] ].

Lemma same_world_GetConnectionSSH host : preserves same_world (GetConnectionSSH host).
Proof.
  unfold GetConnectionSSH. apply (same_world_cached (fun s => ssh (connections s))).
  unfold ssh_Dial. world_walk.
Qed.

Lemma same_world_GetConnectionSFTP host :
  preserves same_world (GetConnectionSFTP host).
Proof.
  unfold GetConnectionSFTP. apply (same_world_cached (fun s => sftp (connections s))).
  apply (preserves_bind same_world same_world_trans);
    [apply same_world_GetConnectionSSH | intros ?].
  unfold sftp_NewClient. world_walk.
Qed.

Lemma same_world_GetConnectionAPI host : preserves same_world (GetConnectionAPI host).
Proof.
  unfold GetConnectionAPI. apply (same_world_cached (fun s => api (connections s))).
  unfold routeros_Dial. world_walk.
Qed.

(** In a calm world the file-transfer session is there for the asking. *)
Lemma calm_GetConnectionSSH host s :
  calm s -> exists s1 h, GetConnectionSSH host s = (s1, Ok h).
Proof.
  intros H. unfold GetConnectionSSH. destruct (ssh (connections s)) as [h |].
  - eauto.
  - run_call. rewrite H. eauto.
Qed.

Lemma calm_GetConnectionSFTP host s :
  calm s -> exists s1 h, GetConnectionSFTP host s = (s1, Ok h).
Proof.
  intros H. unfold GetConnectionSFTP. destruct (sftp (connections s)) as [h |].
  - eauto.
  - destruct (calm_GetConnectionSSH host s H) as [s1 [c E]].
    rewrite (bind_ok _ _ _ _ _ E).
    assert (H1 : calm s1).
    { apply (calm_same_faults s). 
      - apply (same_world_GetConnectionSSH host _ _ _ E).
      - exact H. }
    run_call. rewrite H1. eauto.
Qed.

(** A call never panics. *)
Lemma extern_abort {A} c (sem : State -> State * (error + A)) s s' w :
  extern c sem s = (s', Abort w) -> False.
Proof.
  intros E. apply extern_inv in E.
  destruct E as [[_ [_ N]] | [_ [[s1 [e [_ [_ N]]]] | [s1 [a [_ [_ N]]]]]]];
    discriminate.
Qed.

(** A call that failed left the world as its effect leaves it on failure. *)
Lemma extern_err {A} c (sem : State -> State * (error + A)) s s' e :
  extern c sem s = (s', Err e) ->
  s' = record c (Some e) s \/
  exists s1, sem s = (s1, inl e) /\ s' = record c (Some e) s1.
Proof.
  intros E. apply extern_inv in E.
  destruct E as [[_ [-> N]] | [_ [[s1 [e' [E [-> N]]]] | [s1 [a [_ [_ N]]]]]]];
    try discriminate; injection N as <-; eauto.
Qed.

Lemma extern_ok {A} c (sem : State -> State * (error + A)) s s' a :
  extern c sem s = (s', Ok a) ->
  exists s1, sem s = (s1, inr a) /\ s' = record c None s1.
Proof.
  intros E. apply extern_inv in E.
  destruct E as [[_ [_ N]] | [_ [[s1 [e' [_ [_ N]]]] | [s1 [b [E [-> N]]]]]]];
    try discriminate; injection N as <-; eauto.
Qed.

Lemma calm_extern {A} c (sem : State -> State * (error + A)) s :
  calm s ->
  extern c sem s
  = match sem s with
    | (s', inl e) => (record c (Some e) s', Err e)
    | (s', inr a) => (record c None s', Ok a)
    end.
Proof. intros H. unfold extern. rewrite H. reflexivity. Qed.

Ltac file_call H :=
  first [ apply extern_ok in H; destruct H as [?s1 [H ->]]
        | apply extern_err in H; destruct H as [-> | [?s1 [H ->]]] ];
  unfold on_remote, on_local in *;
  cbn [device local_fs remote_fs record with_trace with_device with_local_fs
       with_remote_fs clock faults] in *.

Lemma sftp_Open_ok h p s s' :
  sftp_Open h p s = (s', Ok tt) ->
  same_world s s' /\
  exists data, fs_lookup (remote_fs (device s)) (resolve p) = Some (NFile data).
Proof.
  intros H. unfold sftp_Open in H. file_call H. unfold tree_Open in H.
  destruct (fs_lookup _ _) as [[| data] |] eqn:E; try discriminate.
  injection H as <-. split; [| eauto].
  destruct s as [c d w l t f rp tr]; destruct d; repeat split.
Qed.

Lemma sftp_Open_err h p s s' e :
  sftp_Open h p s = (s', Err e) -> same_world s s'.
Proof.
  intros H. unfold sftp_Open in H. file_call H; [repeat split |].
  injection H as <- _. destruct s as [c d w l t f rp tr]; destruct d; repeat split.
Qed.

Lemma sftp_Open_missing h p s s' r :
  sftp_Open h p s = (s', r) ->
  (forall data, fs_lookup (remote_fs (device s)) (resolve p) <> Some (NFile data)) ->
  exists e, r = Err e.
Proof.
  intros H N. destruct r as [[] | e | w]; [| eauto |].
  - apply sftp_Open_ok in H. destruct H as [_ [data D]]. destruct (N _ D).
  - destruct (extern_abort _ _ _ _ _ H).
Qed.

Lemma os_MkdirAll_ok p s s' :
  os_MkdirAll p s = (s', Ok tt) ->
  device s' = device s /\
  fs_mkdir_all (local_fs s) [] (resolve p) = Some (local_fs s').
Proof.
  intros H. unfold os_MkdirAll in H. file_call H. unfold tree_MkdirAll in H.
  destruct (fs_mkdir_all _ _ _) as [fs' |]; injection H as <-; try discriminate.
  split; reflexivity.
Qed.

Lemma os_MkdirAll_err p s s' e :
  os_MkdirAll p s = (s', Err e) -> same_world s s'.
Proof.
  intros H. unfold os_MkdirAll in H. file_call H; [repeat split |].
  unfold tree_MkdirAll in H.
  destruct (fs_mkdir_all _ _ _) as [fs' |]; injection H as <-; try discriminate.
  repeat split.
Qed.

Lemma os_Create_ok p s s' :
  os_Create p s = (s', Ok tt) ->
  device s' = device s /\
  local_fs s' = fs_put (local_fs s) (resolve p) (NFile "").
Proof.
  intros H. unfold os_Create in H. file_call H. unfold tree_Create in H.
  destruct (fs_is_dir _ (resolve p)); [injection H as <-; discriminate |].
  destruct (fs_is_dir _ _); injection H as <-; try discriminate.
  split; reflexivity.
Qed.

Lemma os_Create_err p s s' e :
  os_Create p s = (s', Err e) -> same_world s s'.
Proof.
  intros H. unfold os_Create in H. file_call H; [repeat split |].
  unfold tree_Create in H.
  destruct (fs_is_dir _ (resolve p)); [injection H as <-; repeat split |].
  destruct (fs_is_dir _ _); injection H as <-; try discriminate.
  repeat split.
Qed.

Lemma io_CopyDown_ok dst src s s' :
  io_CopyDown dst src s = (s', Ok tt) ->
  device s' = device s /\
  exists data,
    fs_lookup (remote_fs (device s)) (resolve src) = Some (NFile data) /\
    local_fs s' = fs_put (local_fs s) (resolve dst) (NFile data).
Proof.
  intros H. unfold io_CopyDown in H. file_call H. unfold tree_Copy in H.
  destruct (fs_lookup _ _) as [[| data] |] eqn:E; injection H as <-;
    try discriminate.
  split; [reflexivity | eauto].
Qed.

Lemma io_CopyDown_err dst src s s' e :
  io_CopyDown dst src s = (s', Err e) -> same_world s s'.
Proof.
  intros H. unfold io_CopyDown in H. file_call H; [repeat split |].
  unfold tree_Copy in H.
  destruct (fs_lookup _ _) as [[| data] |] eqn:E; injection H as <-;
    try discriminate; repeat split.
Qed.

Lemma quiet_call c s s' (r : res unit) :
  extern c (fun s => (s, inr tt)) s = (s', r) -> same_world s s'.
Proof.
  intros H. destruct r as [[] | e | w].
  - file_call H. injection H as <-. repeat split.
  - file_call H; [repeat split | discriminate].
  - destruct (extern_abort _ _ _ _ _ H).
Qed.

Lemma sftp_Remove_ok h p s s' data :
  fs_lookup (remote_fs (device s)) (resolve p) = Some (NFile data) ->
  sftp_Remove h p s = (s', Ok tt) ->
  local_fs s' = local_fs s /\
  remote_fs (device s') = fs_delete (remote_fs (device s)) (resolve p).
Proof.
  intros L H. unfold sftp_Remove in H. file_call H. unfold tree_Remove in H.
  rewrite L in H. injection H as <-. split; reflexivity.
Qed.

Lemma sftp_Remove_err h p s s' e :
  sftp_Remove h p s = (s', Err e) ->
  local_fs s' = local_fs s /\ remote_fs (device s') = remote_fs (device s).
Proof.
  intros H. unfold sftp_Remove in H. file_call H; [repeat split |].
  unfold tree_Remove in H.
  destruct (fs_lookup _ _) as [[| data] |] eqn:E; try (injection H as <-);
    try discriminate; try (split; reflexivity).
  destruct (fs_children _ _); injection H as <-; try discriminate.
  split; reflexivity.
Qed.

(** ** X6, X7: the download of one file *)

Ltac next H E sn :=
  apply bind_inv in H;
  destruct H as [[sn [?a [E H]]] | [[?e [E ?N]] | [?w [E ?N]]]].

Ltac units := repeat match goal with a : unit |- _ => destruct a end.

Ltac nextv H E sn an :=
  apply bind_inv in H;
  destruct H as [[sn [an [E H]]] | [[?e [E ?N]] | [?w [E ?N]]]].

Lemma DownloadFile_ok (host : THost) (pathSrc dirDst : string)
        (delete : bool) (s s' : State) :
  DownloadFile host pathSrc dirDst delete s = (s', Ok tt) ->
  exists data,
    fs_lookup (remote_fs (device s))
              (resolve (ToSlash (Dir pathSrc) ++ "/" ++ Base pathSrc))
    = Some (NFile data) /\
    fs_lookup (local_fs s') (resolve (dirDst ++ "/" ++ Base pathSrc))
    = Some (NFile data) /\
    remote_fs (device s')
    = (if delete
       then fs_delete (remote_fs (device s))
                      (resolve (ToSlash (Dir pathSrc) ++ "/" ++ Base pathSrc))
       else remote_fs (device s)) /\
    forall k n, k <> resolve (dirDst ++ "/" ++ Base pathSrc) ->
                fs_lookup (local_fs s) k = Some n ->
                fs_lookup (local_fs s') k = Some n.
Proof.
  intros H. unfold DownloadFile in H.
  next H E0 t0; try discriminate. next H E1 t1; try discriminate.
  next H E2 t2; try discriminate. next H E3 t3; try discriminate.
  next H E4 t4; try discriminate. next H E5 t5; try discriminate.
  next H E6 t6; try discriminate. next H E7 t7; try discriminate. units.
  destruct (same_world_GetConnectionSFTP host _ _ _ E0) as (D0 & L0 & _).
  apply sftp_Open_ok in E1. destruct E1 as [(D1 & L1 & _) [data X1]].
  apply os_MkdirAll_ok in E2. destruct E2 as [D2 L2].
  apply os_Create_ok in E3. destruct E3 as [D3 L3].
  apply io_CopyDown_ok in E4. destruct E4 as [D4 [data' [X4 L4]]].
  destruct (quiet_call _ _ _ _ E5) as (D5 & L5 & _).
  destruct (quiet_call _ _ _ _ E6) as (D6 & L6 & _).
  destruct (quiet_call _ _ _ _ H) as (D8 & L8 & _).
  assert (data' = data) by congruence. subst data'.
  rewrite D0 in X1. exists data. split; [exact X1 |].
  assert (LL : forall k, fs_lookup (local_fs s') k
                         = fs_lookup (fs_put (local_fs t3)
                                             (resolve (dirDst ++ "/" ++ Base pathSrc))
                                             (NFile data)) k).
  { intros k. rewrite L8. destruct delete.
    -
      destruct (sftp_Remove_ok _ _ _ _ data
                  ltac:(rewrite D6, D5, D4, D3, D2, D1, D0; exact X1) E7) as [L7 _].
      rewrite L7, L6, L5, L4. reflexivity.
    - unfold ret in E7. injection E7 as <-. rewrite L6, L5, L4. reflexivity. }
  split; [rewrite LL; apply fs_lookup_put_same |]. split.
  - rewrite D8. destruct delete.
    + destruct (sftp_Remove_ok _ _ _ _ data
                  ltac:(rewrite D6, D5, D4, D3, D2, D1, D0; exact X1) E7) as [_ R7].
      rewrite R7, D6, D5, D4, D3, D2, D1, D0. reflexivity.
    + unfold ret in E7. injection E7 as <-.
      rewrite D6, D5, D4, D3, D2, D1, D0. reflexivity.
  - intros k n Hk Lk. rewrite LL, fs_lookup_put_other, L3, fs_lookup_put_other by exact Hk.
    apply (fs_mkdir_all_keeps _ _ _ _ _ _ L2). rewrite L1, L0. exact Lk.
Qed.

(** X6. A download that returned nil has copied the file: the local file
    [dirDst/Base(pathSrc)] holds what the remote file held, the remote file
    is gone when [delete] is set (and only that file), the remote tree is
    as before when it is not, and every other local entry is still there. *)
Theorem DownloadFile_copies (host : THost) (pathSrc dirDst : string)
        (delete : bool) (s s' : State) :
  DownloadFile host pathSrc dirDst delete s = (s', Ok tt) ->
  exists data,
    fs_lookup (remote_fs (device s))
              (resolve (ToSlash (Dir pathSrc) ++ "/" ++ Base pathSrc))
    = Some (NFile data) /\
    fs_lookup (local_fs s') (resolve (dirDst ++ "/" ++ Base pathSrc))
    = Some (NFile data) /\
    remote_fs (device s')
    = (if delete
       then fs_delete (remote_fs (device s))
                      (resolve (ToSlash (Dir pathSrc) ++ "/" ++ Base pathSrc))
       else remote_fs (device s)) /\
    forall k n, k <> resolve (dirDst ++ "/" ++ Base pathSrc) ->
                fs_lookup (local_fs s) k = Some n ->
                fs_lookup (local_fs s') k = Some n.
Proof. apply DownloadFile_ok. Qed.


(** On [/a/file1] of the nested tree, with removal. *)
Lemma DownloadFile_copies_witness :
  exists data,
    fs_lookup (remote_fs (device world_nested))
              (resolve (ToSlash (Dir "/a/file1") ++ "/" ++ Base "/a/file1"))
    = Some (NFile data) /\
    fs_lookup (local_fs (fst (DownloadFile host_full "/a/file1" "/srv" true
                                           world_nested)))
              (resolve ("/srv" ++ "/" ++ Base "/a/file1"))
    = Some (NFile data) /\
    remote_fs (device (fst (DownloadFile host_full "/a/file1" "/srv" true
                                         world_nested)))
    = (if true
       then fs_delete (remote_fs (device world_nested))
                      (resolve (ToSlash (Dir "/a/file1") ++ "/" ++ Base "/a/file1"))
       else remote_fs (device world_nested)) /\
    forall k n, k <> resolve ("/srv" ++ "/" ++ Base "/a/file1") ->
                fs_lookup (local_fs world_nested) k = Some n ->
                fs_lookup (local_fs (fst (DownloadFile host_full "/a/file1" "/srv"
                                                       true world_nested))) k
                = Some n.
Proof.
  apply (DownloadFile_copies host_full "/a/file1" "/srv" true world_nested).
  vm_compute. reflexivity.
Defined.

Lemma returns_ret {A} (a : A) : returns (ret a).
Proof. intros s s' w H. discriminate. Qed.

Lemma returns_bind {A B} (m : M A) (f : A -> M B) :
  returns m -> (forall a, returns (f a)) -> returns (bind m f).
Proof.
  intros Hm Hf s s' w H. apply bind_inv in H.
  destruct H as [[s1 [a [_ H]]] | [[e [_ N]] | [w' [H _]]]]; try discriminate.
  - exact (Hf _ _ _ _ H).
  - exact (Hm _ _ _ H).
Qed.

Lemma returns_extern {A} c (sem : State -> State * (error + A)) :
  returns (extern c sem).
Proof. intros s s' w H. exact (extern_abort _ _ _ _ _ H). Qed.

Lemma returns_extern_ {A} c (sem : State -> State * A) : returns (extern_ c sem).
Proof. intros s s' w H. apply extern__inv in H. destruct H; discriminate. Qed.

Lemma returns_cached (f : State -> option nat) (m : M nat) :
  returns m ->
  returns (fun s => match f s with None => m s | Some h => (s, Ok h) end).
Proof.
  intros Hm s s' w H. destruct (f s); [discriminate | exact (Hm _ _ _ H)].
Qed.

Ltac back :=
  repeat first
    [ apply returns_ret | apply returns_extern | apply returns_extern_
    | apply returns_bind; [| intros ?]
    | intros ? ? ? ?X; discriminate X ].

Lemma returns_GetConnectionSSH host : returns (GetConnectionSSH host).
Proof.
  unfold GetConnectionSSH. apply (returns_cached (fun s => ssh (connections s))).
  unfold log_Println, ssh_Dial, set_ssh. back.
Qed.

Lemma returns_GetConnectionSFTP host : returns (GetConnectionSFTP host).
Proof.
  unfold GetConnectionSFTP. apply (returns_cached (fun s => sftp (connections s))).
  apply returns_bind; [apply returns_GetConnectionSSH | intros ?].
  unfold log_Println, sftp_NewClient, set_sftp. back.
Qed.

Lemma returns_GetConnectionAPI host : returns (GetConnectionAPI host).
Proof.
  unfold GetConnectionAPI. apply (returns_cached (fun s => api (connections s))).
  unfold log_Println, routeros_Dial, set_api. back.
Qed.

(** X7. The order of a download: copy, then delete. Whatever the outcome,
    the remote tree is as it was, or the one file has been removed from it
    and the local copy holds its content: nothing is removed before it has
    been written locally. When the remote file is not there to be opened,
    the download fails with an error and neither tree changes: not even
    the local directory is created. *)
Theorem DownloadFile_never_loses (host : THost) (pathSrc dirDst : string)
        (delete : bool) (s s' : State) (r : res unit) :
  DownloadFile host pathSrc dirDst delete s = (s', r) ->
  (remote_fs (device s') = remote_fs (device s) \/
   (delete = true /\
    exists data,
      fs_lookup (remote_fs (device s))
                (resolve (ToSlash (Dir pathSrc) ++ "/" ++ Base pathSrc))
      = Some (NFile data) /\
      fs_lookup (local_fs s') (resolve (dirDst ++ "/" ++ Base pathSrc))
      = Some (NFile data) /\
      remote_fs (device s')
      = fs_delete (remote_fs (device s))
                  (resolve (ToSlash (Dir pathSrc) ++ "/" ++ Base pathSrc)))) /\
  ((forall data,
       fs_lookup (remote_fs (device s))
                 (resolve (ToSlash (Dir pathSrc) ++ "/" ++ Base pathSrc))
       <> Some (NFile data)) ->
   (exists e, r = Err e) /\ local_fs s' = local_fs s /\
   remote_fs (device s') = remote_fs (device s)).
Proof.
  intros H. unfold DownloadFile in H.
  next H E0 t0.
  2: { destruct (same_world_GetConnectionSFTP host _ _ _ E0) as (D0 & L0 & _).
       rewrite D0. split; [left; reflexivity | intros _; eauto]. }
  2: { destruct (returns_GetConnectionSFTP host _ _ _ E0). }
  destruct (same_world_GetConnectionSFTP host _ _ _ E0) as (D0 & L0 & _).
  next H E1 t1.
  2: { apply sftp_Open_err in E1. destruct E1 as (D1 & L1 & _).
       rewrite D1, D0, L1, L0. split; [left; reflexivity | intros _; eauto]. }
  2: { destruct (extern_abort _ _ _ _ _ E1). }
  units. apply sftp_Open_ok in E1. destruct E1 as [(D1 & L1 & _) [data X1]].
  rewrite D0 in X1.
  split; [| intros Hm; destruct (Hm _ X1)].
  next H E2 t2.
  2: { apply os_MkdirAll_err in E2. destruct E2 as (D2 & _).
       left. rewrite D2, D1, D0. reflexivity. }
  2: { destruct (extern_abort _ _ _ _ _ E2). }
  units. apply os_MkdirAll_ok in E2. destruct E2 as [D2 L2].
  next H E3 t3.
  2: { apply os_Create_err in E3. destruct E3 as (D3 & _).
       left. rewrite D3, D2, D1, D0. reflexivity. }
  2: { destruct (extern_abort _ _ _ _ _ E3). }
  units. apply os_Create_ok in E3. destruct E3 as [D3 L3].
  next H E4 t4.
  2: { apply io_CopyDown_err in E4. destruct E4 as (D4 & _).
       left. rewrite D4, D3, D2, D1, D0. reflexivity. }
  2: { destruct (extern_abort _ _ _ _ _ E4). }
  units. apply io_CopyDown_ok in E4. destruct E4 as [D4 [data' [X4 L4]]].
  assert (data' = data) by congruence. subst data'.
  next H E5 t5.
  2: { destruct (quiet_call _ _ _ _ E5) as (D5 & _).
       left. rewrite D5, D4, D3, D2, D1, D0. reflexivity. }
  2: { destruct (extern_abort _ _ _ _ _ E5). }
  destruct (quiet_call _ _ _ _ E5) as (D5 & L5 & _).
  next H E6 t6.
  2: { destruct (quiet_call _ _ _ _ E6) as (D6 & _).
       left. rewrite D6, D5, D4, D3, D2, D1, D0. reflexivity. }
  2: { destruct (extern_abort _ _ _ _ _ E6). }
  destruct (quiet_call _ _ _ _ E6) as (D6 & L6 & _).
  assert (X6 : fs_lookup (remote_fs (device t6))
                         (resolve (ToSlash (Dir pathSrc) ++ "/" ++ Base pathSrc))
               = Some (NFile data))
    by (rewrite D6, D5, D4, D3, D2, D1, D0; exact X1).
  destruct delete.
  - next H E7 t7.
    2: { apply sftp_Remove_err in E7. destruct E7 as [_ R7].
         left. rewrite R7, D6, D5, D4, D3, D2, D1, D0. reflexivity. }
    2: { destruct (extern_abort _ _ _ _ _ E7). }
    units. destruct (sftp_Remove_ok _ _ _ _ data X6 E7) as [L7 R7].
    destruct (quiet_call _ _ _ _ H) as (D8 & L8 & _).
    right. split; [reflexivity |]. exists data. split; [exact X1 |]. split.
    + rewrite L8, L7, L6, L5, L4. apply fs_lookup_put_same.
    + rewrite D8, R7, D6, D5, D4, D3, D2, D1, D0. reflexivity.
  - next H E7 t7; try discriminate. unfold ret in E7. injection E7 as <-.
    destruct (quiet_call _ _ _ _ H) as (D8 & _).
    left. rewrite D8, D6, D5, D4, D3, D2, D1, D0. reflexivity.
Qed.

(** A download of a file that is not on the device. *)
Lemma DownloadFile_never_loses_witness :
  (remote_fs (device (fst (DownloadFile host_full "/a/none" "/srv" true world_nested)))
   = remote_fs (device world_nested) \/
   (true = true /\
    exists data,
      fs_lookup (remote_fs (device world_nested))
                (resolve (ToSlash (Dir "/a/none") ++ "/" ++ Base "/a/none"))
      = Some (NFile data) /\
      fs_lookup (local_fs (fst (DownloadFile host_full "/a/none" "/srv" true
                                             world_nested)))
                (resolve ("/srv" ++ "/" ++ Base "/a/none"))
      = Some (NFile data) /\
      remote_fs (device (fst (DownloadFile host_full "/a/none" "/srv" true
                                           world_nested)))
      = fs_delete (remote_fs (device world_nested))
                  (resolve (ToSlash (Dir "/a/none") ++ "/" ++ Base "/a/none")))) /\
  ((forall data,
       fs_lookup (remote_fs (device world_nested))
                 (resolve (ToSlash (Dir "/a/none") ++ "/" ++ Base "/a/none"))
       <> Some (NFile data)) ->
   (exists e, snd (DownloadFile host_full "/a/none" "/srv" true world_nested) = Err e) /\
   local_fs (fst (DownloadFile host_full "/a/none" "/srv" true world_nested))
   = local_fs world_nested /\
   remote_fs (device (fst (DownloadFile host_full "/a/none" "/srv" true world_nested)))
   = remote_fs (device world_nested)).
Proof.
  apply (DownloadFile_never_loses host_full "/a/none" "/srv" true world_nested).
  apply surjective_pairing.
Defined.

(** ** X8, X9: the upload of a key *)

Lemma with_remote_fs_same d : with_remote_fs (remote_fs d) d = d.
Proof. destruct d. reflexivity. Qed.

Lemma sftp_Create_ok h p s s' :
  sftp_Create h p s = (s', Ok tt) ->
  device s' = with_remote_fs (fs_put (remote_fs (device s)) (resolve p) (NFile ""))
                             (device s) /\
  local_fs s' = local_fs s /\ clock s' = clock s /\ faults s' = faults s.
Proof.
  intros H. unfold sftp_Create in H. file_call H. unfold tree_Create in H.
  destruct (fs_is_dir _ (resolve p)); [injection H as <-; discriminate |].
  destruct (fs_is_dir _ _); injection H as <-; try discriminate.
  repeat split.
Qed.

Lemma sftp_Create_err h p s s' e :
  sftp_Create h p s = (s', Err e) -> same_world s s'.
Proof.
  intros H. unfold sftp_Create in H. file_call H; [repeat split |].
  unfold tree_Create in H.
  destruct (fs_is_dir _ (resolve p));
    [injection H as <-; rewrite with_remote_fs_same; repeat split |].
  destruct (fs_is_dir _ _); injection H as <-; try discriminate.
  rewrite with_remote_fs_same. repeat split.
Qed.

Lemma calm_sftp_Create h p s :
  calm s ->
  fs_is_dir (remote_fs (device s)) (resolve p) = false ->
  fs_is_dir (remote_fs (device s)) (removelast (resolve p)) = true ->
  exists s', sftp_Create h p s = (s', Ok tt).
Proof.
  intros Hc H1 H2. unfold sftp_Create. rewrite (calm_extern _ _ _ Hc).
  unfold on_remote, tree_Create. rewrite H1, H2. eauto.
Qed.

Lemma os_Open_ok p s s' :
  os_Open p s = (s', Ok tt) ->
  same_world s s' /\
  exists data, fs_lookup (local_fs s) (resolve p) = Some (NFile data).
Proof.
  intros H. unfold os_Open in H. file_call H. unfold tree_Open in H.
  destruct (fs_lookup _ _) as [[| data] |] eqn:E; try discriminate.
  injection H as <-. split; [repeat split | eauto].
Qed.

Lemma os_Open_err p s s' e : os_Open p s = (s', Err e) -> same_world s s'.
Proof.
  intros H. unfold os_Open in H. file_call H; [repeat split |].
  injection H as <- _. repeat split.
Qed.

Lemma io_CopyUp_ok dst src s s' :
  io_CopyUp dst src s = (s', Ok tt) ->
  local_fs s' = local_fs s /\ clock s' = clock s /\ faults s' = faults s /\
  exists data,
    fs_lookup (local_fs s) (resolve src) = Some (NFile data) /\
    device s' = with_remote_fs (fs_put (remote_fs (device s)) (resolve dst)
                                       (NFile data)) (device s).
Proof.
  intros H. unfold io_CopyUp in H. file_call H. unfold tree_Copy in H.
  destruct (fs_lookup _ _) as [[| data] |] eqn:E; injection H as <-;
    try discriminate.
  repeat split. eauto.
Qed.

Lemma io_CopyUp_err dst src s s' e :
  io_CopyUp dst src s = (s', Err e) -> same_world s s'.
Proof.
  intros H. unfold io_CopyUp in H. file_call H; [repeat split |].
  unfold tree_Copy in H.
  destruct (fs_lookup _ _) as [[| data] |] eqn:E; injection H as <-;
    try discriminate; rewrite with_remote_fs_same; repeat split.
Qed.

Lemma Params_GetByName_inv Params name s s' r :
  Params_GetByName Params name s = (s', r) ->
  s' = s /\
  match find (fun p => (param_Name p =? name)%string) Params with
  | Some p => r = Ok p
  | None => r = Err "param does not exist"
  end.
Proof.
  unfold Params_GetByName. destruct (find _ Params); intros H; injection H as <- <-;
    auto.
Qed.

Lemma fs_put_put fs k n m : fs_put (fs_put fs k n) k m = fs_put fs k m.
Proof.
  unfold fs_put at 1. rewrite fs_lookup_put_same.
  unfold fs_put. destruct (fs_lookup fs k) eqn:E.
  - rewrite map_map. apply map_ext. intros [k' n']. cbn.
    destruct (fpath_eqb k' k) eqn:Q; cbn; [rewrite fpath_eqb_refl | rewrite Q];
      reflexivity.
  - rewrite map_app. cbn. rewrite fpath_eqb_refl. f_equal.
    rewrite <- (map_id fs) at 2. apply map_ext_in. intros [k' n'] Hin. cbn.
    destruct (fpath_eqb k' k) eqn:Q; [| reflexivity].
    apply fpath_eqb_eq in Q. subst k'. exfalso.
    clear - E Hin. induction fs as [| [k0 n0] fs IH]; [destruct Hin |].
    cbn in E. destruct (fpath_eqb k0 k) eqn:Q; [discriminate |].
    destruct Hin as [X | X]; [| exact (IH E X)].
    injection X as -> _. rewrite fpath_eqb_refl in Q. discriminate.
Qed.

(** What an upload that returned nil has done. *)
Lemma UploadKey_ok Params host key s s' :
  UploadKey Params host key s = (s', Ok tt) ->
  exists dir data,
    find (fun p => (param_Name p =? "dir_ssh-pub-keys")%string) Params = Some dir /\
    fs_lookup (local_fs s) (resolve (param_Value dir ++ key)) = Some (NFile data) /\
    device s' = with_remote_fs (fs_put (remote_fs (device s)) (resolve key)
                                       (NFile data)) (device s) /\
    local_fs s' = local_fs s /\ clock s' = clock s /\ faults s' = faults s.
Proof.
  intros H. unfold UploadKey in H.
  rewrite (bind_ok _ _ _ _ _ (log_run _ _)) in H.
  next H E0 t0; try discriminate. next H E1 t1; try discriminate.
  next H E2 t2; try discriminate. next H E3 t3; try discriminate.
  next H E4 t4; try discriminate. units. unfold ret in H. injection H as <-.
  destruct (same_world_GetConnectionSFTP host _ _ _ E0) as (D0 & L0 & C0 & F0).
  cbn [device local_fs clock faults record with_trace] in *.
  apply sftp_Create_ok in E1. destruct E1 as (D1 & L1 & C1 & F1).
  apply Params_GetByName_inv in E2. destruct E2 as [-> E2].
  destruct (find _ Params) as [dir |] eqn:Fd; [| discriminate].
  injection E2 as ->.
  apply os_Open_ok in E3. destruct E3 as [(D3 & L3 & C3 & F3) _].
  apply io_CopyUp_ok in E4. destruct E4 as (L4 & C4 & F4 & data & X4 & D4).
  exists dir, data. split; [reflexivity |].
  split; [rewrite <- L0, <- L1, <- L3; exact X4 |].
  split.
  - rewrite D4, D3, D1, D0. cbn [remote_fs with_remote_fs].
    rewrite fs_put_put. reflexivity.
  - rewrite L4, L3, L1, L0, C4, C3, C1, C0, F4, F3, F1, F0. auto.
Qed.

(** X8. An upload that returned nil has put the content of the local key
    file [dir_ssh-pub-keys + key] into the remote file [key], and has
    touched no other remote entry and nothing local. *)
Theorem UploadKey_uploads (Params : TParams) (host : THost) (key : string)
        (s s' : State) :
  UploadKey Params host key s = (s', Ok tt) ->
  exists dir data,
    find (fun p => (param_Name p =? "dir_ssh-pub-keys")%string) Params = Some dir /\
    fs_lookup (local_fs s) (resolve (param_Value dir ++ key)) = Some (NFile data) /\
    fs_lookup (remote_fs (device s')) (resolve key) = Some (NFile data) /\
    (forall k, k <> resolve key ->
               fs_lookup (remote_fs (device s')) k
               = fs_lookup (remote_fs (device s)) k) /\
    local_fs s' = local_fs s.
Proof.
  intros H. apply UploadKey_ok in H.
  destruct H as [dir [data [Fd [X [D [L _]]]]]].
  exists dir, data. rewrite D. cbn [remote_fs with_remote_fs].
  split; [exact Fd | split; [exact X |]].
  split; [apply fs_lookup_put_same |].
  split; [intros k Hk; apply fs_lookup_put_other; exact Hk | exact L].
Qed.

Lemma UploadKey_uploads_witness :
  exists dir data,
    find (fun p => (param_Name p =? "dir_ssh-pub-keys")%string) main_params
    = Some dir /\
    fs_lookup (local_fs world_keys) (resolve (param_Value dir ++ "bob.pub"))
    = Some (NFile data) /\
    fs_lookup (remote_fs (device (fst (UploadKey main_params host_full "bob.pub"
                                                 world_keys))))
              (resolve "bob.pub")
    = Some (NFile data) /\
    (forall k, k <> resolve "bob.pub" ->
               fs_lookup (remote_fs (device (fst (UploadKey main_params host_full
                                                            "bob.pub" world_keys)))) k
               = fs_lookup (remote_fs (device world_keys)) k) /\
    local_fs (fst (UploadKey main_params host_full "bob.pub" world_keys))
    = local_fs world_keys.
Proof.
  apply (UploadKey_uploads main_params host_full "bob.pub" world_keys).
  vm_compute. reflexivity.
Defined.

(** X9. An upload without its local key file. The remote file is created
    before the parameter and the local file are looked at, so when the
    parameter [dir_ssh-pub-keys] is not set or the local key file does not
    exist, the upload fails and the device is left with an empty file
    [key], whatever it held under that name; without an environment fault
    that is the outcome whenever the remote file can be created. Nothing
    local changes, whatever the outcome. *)
Theorem UploadKey_without_local_key (Params : TParams) (host : THost)
        (key : string) (s s' : State) (r : res unit) :
  UploadKey Params host key s = (s', r) ->
  (forall dir data,
      find (fun p => (param_Name p =? "dir_ssh-pub-keys")%string) Params = Some dir ->
      fs_lookup (local_fs s) (resolve (param_Value dir ++ key)) <> Some (NFile data)) ->
  (exists e, r = Err e) /\
  local_fs s' = local_fs s /\
  (remote_fs (device s') = remote_fs (device s) \/
   remote_fs (device s') = fs_put (remote_fs (device s)) (resolve key) (NFile "")) /\
  (calm s ->
   fs_is_dir (remote_fs (device s)) (resolve key) = false ->
   fs_is_dir (remote_fs (device s)) (removelast (resolve key)) = true ->
   fs_lookup (remote_fs (device s')) (resolve key) = Some (NFile "")).
Proof.
  intros H Hm. unfold UploadKey in H.
  rewrite (bind_ok _ _ _ _ _ (log_run _ _)) in H.
  next H E0 t0.
  2: { destruct (same_world_GetConnectionSFTP host _ _ _ E0) as (D0 & L0 & _).
       cbn [device local_fs record with_trace] in *. subst r. rewrite D0, L0.
       split; [eauto | split; [reflexivity | split; [left; reflexivity |]]].
       intros Hc _ _.
       destruct (calm_GetConnectionSFTP
                   host (record (CLog (tag host ++ "uploading key " ++ quoted key))
                                None s)) as [x [h X]];
         [intros k; apply Hc | congruence]. }
  2: { destruct (returns_GetConnectionSFTP host _ _ _ E0). }
  destruct (same_world_GetConnectionSFTP host _ _ _ E0) as (D0 & L0 & _ & F0).
  cbn [device local_fs faults record with_trace] in *.
  next H E1 t1.
  2: { pose proof E1 as E1'. apply sftp_Create_err in E1.
       destruct E1 as (D1 & L1 & _). subst r. rewrite D1, L1, D0, L0.
       split; [eauto | split; [reflexivity | split; [left; reflexivity |]]].
       intros Hc C1 C2.
       destruct (calm_sftp_Create a key t0) as [x X];
         [intros k; rewrite F0; apply Hc | rewrite D0; exact C1
          | rewrite D0; exact C2 | congruence]. }
  2: { destruct (extern_abort _ _ _ _ _ E1). }
  units. apply sftp_Create_ok in E1. destruct E1 as (D1 & L1 & _).
  assert (R1 : remote_fs (device t1)
               = fs_put (remote_fs (device s)) (resolve key) (NFile ""))
    by (rewrite D1, D0; reflexivity).
  assert (Done : forall s', remote_fs (device s') = remote_fs (device t1) ->
            (remote_fs (device s') = remote_fs (device s) \/
             remote_fs (device s')
             = fs_put (remote_fs (device s)) (resolve key) (NFile "")) /\
            (calm s ->
             fs_is_dir (remote_fs (device s)) (resolve key) = false ->
             fs_is_dir (remote_fs (device s)) (removelast (resolve key)) = true ->
             fs_lookup (remote_fs (device s')) (resolve key) = Some (NFile ""))).
  { intros x ->. rewrite R1. split; [right; reflexivity |].
    intros _ _ _. apply fs_lookup_put_same. }
  next H E2 t2.
  2: { apply Params_GetByName_inv in E2. destruct E2 as [-> _]. subst r.
       split; [eauto | split; [rewrite L1, L0; reflexivity | apply Done; reflexivity]]. }
  2: { apply Params_GetByName_inv in E2. destruct E2 as [_ E2].
       destruct (find _ Params); discriminate. }
  apply Params_GetByName_inv in E2. destruct E2 as [-> E2].
  destruct (find _ Params) as [dir |] eqn:Fd; [| discriminate].
  injection E2 as ->.
  next H E3 t3.
  2: { apply os_Open_err in E3. destruct E3 as (D3 & L3 & _). subst r.
       split; [eauto | split; [rewrite L3, L1, L0; reflexivity |]].
       apply Done. rewrite D3. reflexivity. }
  2: { destruct (extern_abort _ _ _ _ _ E3). }
  units. apply os_Open_ok in E3. destruct E3 as [_ [data X]].
  rewrite L1, L0 in X. destruct (Hm dir data eq_refl X).
Qed.

(** A user with a key that was never put in the key directory. *)
Lemma UploadKey_without_local_key_witness :
  (exists e, snd (UploadKey main_params host_full "bob.pub" world_all_well) = Err e) /\
  local_fs (fst (UploadKey main_params host_full "bob.pub" world_all_well))
  = local_fs world_all_well /\
  (remote_fs (device (fst (UploadKey main_params host_full "bob.pub" world_all_well)))
   = remote_fs (device world_all_well) \/
   remote_fs (device (fst (UploadKey main_params host_full "bob.pub" world_all_well)))
   = fs_put (remote_fs (device world_all_well)) (resolve "bob.pub") (NFile "")) /\
  (calm world_all_well ->
   fs_is_dir (remote_fs (device world_all_well)) (resolve "bob.pub") = false ->
   fs_is_dir (remote_fs (device world_all_well)) (removelast (resolve "bob.pub"))
   = true ->
   fs_lookup (remote_fs (device (fst (UploadKey main_params host_full "bob.pub"
                                                world_all_well))))
             (resolve "bob.pub")
   = Some (NFile "")).
Proof.
  apply (UploadKey_without_local_key main_params host_full "bob.pub" world_all_well).
  - apply surjective_pairing.
  - intros dir data _. cbn. discriminate.
Defined.

Example UploadKey_leaves_an_empty_key_file :
  snd (UploadKey main_params host_full "bob.pub" world_all_well) = Err file_missing /\
  remote_fs (device (fst (UploadKey main_params host_full "bob.pub" world_all_well)))
  = [(["bob.pub"], NFile "")].
Proof. vm_compute. split; reflexivity. Qed.

(** ** X10: a key that was uploaded is imported at the first attempt *)

Lemma api_exec_import user d :
  api_exec (import_sentence user) d
  = match fs_lookup (remote_fs d) (resolve (user_Key user)) with
    | Some (NFile _) =>
        if has_user d (user_Login user)
        then (with_ssh_keys (ssh_keys d ++ [(user_Key user, user_Login user)])%list d,
              inr [])
        else (d, inl no_such_item)
    | _ => (d, inl "failure: unable to load key file")
    end.
Proof.
  transitivity
    ((fun f u =>
        match fs_lookup (remote_fs d) (resolve f) with
        | Some (NFile _) =>
            if has_user d u
            then (with_ssh_keys (ssh_keys d ++ [(f, u)])%list d, inr [])
            else (d, inl no_such_item)
        | _ => (d, inl "failure: unable to load key file")
        end : Device * (error + Reply))
       (word_arg "public-key-file" (tl (import_sentence user)))
       (word_arg "user" (tl (import_sentence user)))); [reflexivity |].
  cbv beta.
  replace (word_arg "public-key-file" (tl (import_sentence user)))
    with (user_Key user)
    by (symmetry; exact (word_arg_first "public-key-file" (user_Key user) _)).
  replace (word_arg "user" (tl (import_sentence user))) with (user_Login user);
    [reflexivity |].
  symmetry. unfold import_sentence, word_arg. cbn [tl find].
  replace (starts_with ("=" ++ "user" ++ "=") ("=public-key-file=" ++ user_Key user))
    with false by reflexivity.
  change ("=" ++ "user" ++ "=") with "=user=".
  rewrite starts_with_app. apply drop_chars_app.
Qed.

(** X10. The upload and the import fit together. In a world where no
    call fails for a reason of the environment, once [UploadKey] has
    returned nil for the key of an account that is on the device, the
    import that follows succeeds at its first attempt: it waits the delay
    once, attaches the key file to the account, and leaves the accounts as
    they are. *)
Theorem uploaded_key_is_imported_at_once (Params : TParams) (host : THost)
        (user : TUser) (delay attempts : Z) (s s1 : State) :
  calm s ->
  1 <= attempts ->
  has_user (device s) (user_Login user) = true ->
  UploadKey Params host (user_Key user) s = (s1, Ok tt) ->
  exists s2,
    ImportSshKey host user delay attempts s1 = (s2, Ok tt) /\
    ssh_keys (device s2)
    = (ssh_keys (device s) ++ [(user_Key user, user_Login user)])%list /\
    live_users (device s2) = live_users (device s) /\
    clock s2 = clock s + Z.max 0 (Int64.mul delay Millisecond).
Proof.
  intros Hc Ha Hu H. apply UploadKey_ok in H.
  destruct H as [dir [data [_ [_ [D1 [_ [C1 F1]]]]]]].
  assert (Hc1 : calm s1) by (intros k; rewrite F1; apply Hc).
  unfold ImportSshKey. rewrite (bind_ok _ _ _ _ _ (log_run _ _)).
  destruct (Z.to_nat attempts) as [| n] eqn:En; [lia |].
  cbn [ImportSshKey_from].
  set (s1' := record _ None s1).
  assert (Hc1' : calm s1') by (intros k; apply Hc1).
  destruct (calm_GetConnectionAPI host s1' Hc1') as [s2 [h E2]].
  destruct (same_world_GetConnectionAPI host _ _ _ E2) as (D2 & _ & C2 & F2).
  rewrite (bind_ok _ _ _ _ _ E2), (bind_ok _ _ _ _ _ (sleep_run _ _)).
  unfold handle. rewrite calm_api_Run by (intros k; cbn; rewrite F2; apply Hc1').
  rewrite api_exec_import.
  cbn [device record with_trace with_clock]. rewrite D2. subst s1'.
  cbn [device record with_trace]. rewrite D1.
  cbn [remote_fs with_remote_fs]. rewrite fs_lookup_put_same.
  replace (has_user (with_remote_fs _ (device s)) (user_Login user)) with true
    by (symmetry; exact Hu).
  cbn [fst snd]. rewrite log_run. eexists. split; [reflexivity |].
  cbn [device clock record with_trace with_device with_clock ssh_keys live_users
       with_ssh_keys with_remote_fs].
  rewrite C2. cbn [clock record with_trace]. rewrite C1. auto.
Qed.

(** Bob's key, on a device that has his account. *)
Lemma uploaded_key_is_imported_at_once_witness :
  exists s2,
    ImportSshKey host_full bob 5000 10
                 (fst (UploadKey main_params host_full (user_Key bob) world_keys))
    = (s2, Ok tt) /\
    ssh_keys (device s2)
    = (ssh_keys (device world_keys) ++ [(user_Key bob, user_Login bob)])%list /\
    live_users (device s2) = live_users (device world_keys) /\
    clock s2 = clock world_keys + Z.max 0 (Int64.mul 5000 Millisecond).
Proof.
  apply (uploaded_key_is_imported_at_once main_params host_full bob 5000 10
                                          world_keys).
  - intros k. reflexivity.
  - lia.
  - reflexivity.
  - vm_compute. reflexivity.
Defined.

(** ** Loading the declared state *)

Lemma fold_left_filter {A} (p : A -> bool) (l : list A) :
  forall acc,
    fold_left (fun slice x => if p x then (slice ++ [x])%list else slice) l acc
    = (acc ++ filter p l)%list.
Proof.
  induction l as [| x l IH]; intros acc; cbn.
  - rewrite app_nil_r. reflexivity.
  - rewrite IH. destruct (p x); [rewrite <- app_assoc |]; reflexivity.
Qed.

Lemma Users_FilterByAliases_filter users aliases :
  Users_FilterByAliases users aliases
  = filter (fun user => IsContain aliases (user_Alias user)) users.
Proof. unfold Users_FilterByAliases. rewrite fold_left_filter. reflexivity. Qed.

Lemma Schedules_FilterByAliases_filter schedules aliases :
  Schedules_FilterByAliases schedules aliases
  = filter (fun schedule => IsContain aliases (sched_Alias schedule)) schedules.
Proof. unfold Schedules_FilterByAliases. rewrite fold_left_filter. reflexivity. Qed.

(** X11. [FilterByAliases] selects by alias: the result is the declared
    entries whose alias is one of the listed aliases, in the order of the
    declaration and as often as declared; an entry is in the result exactly
    when it is declared and its alias is listed; with no alias listed the
    result is empty, so a host without aliases declares no user and no
    schedule. *)
Theorem FilterByAliases_selects (aliases : TListOfStrings) :
  (forall users,
      Users_FilterByAliases users aliases
      = filter (fun user => IsContain aliases (user_Alias user)) users /\
      (forall user, In user (Users_FilterByAliases users aliases)
                    <-> In user users /\ In (user_Alias user) aliases) /\
      Users_FilterByAliases users [] = []) /\
  (forall schedules,
      Schedules_FilterByAliases schedules aliases
      = filter (fun schedule => IsContain aliases (sched_Alias schedule)) schedules /\
      (forall schedule, In schedule (Schedules_FilterByAliases schedules aliases)
                        <-> In schedule schedules /\ In (sched_Alias schedule) aliases) /\
      Schedules_FilterByAliases schedules [] = []).
Proof.
  split.
  - intros users. split; [apply Users_FilterByAliases_filter |]. split.
    + intros user. rewrite Users_FilterByAliases_filter, filter_In, IsContain_In.
      reflexivity.
    + rewrite Users_FilterByAliases_filter.
      induction users as [| u users IH]; [reflexivity | exact IH].
  - intros schedules. split; [apply Schedules_FilterByAliases_filter |]. split.
    + intros schedule.
      rewrite Schedules_FilterByAliases_filter, filter_In, IsContain_In.
      reflexivity.
    + rewrite Schedules_FilterByAliases_filter.
      induction schedules as [| c schedules IH]; [reflexivity | exact IH].
Qed.

Lemma Tasks_GetByName_spec tasks name :
  match Tasks_GetByName tasks name with
  | (task, None) =>
      exists before after,
        tasks = (before ++ task :: after)%list /\ task_Name task = name /\
        Forall (fun t => task_Name t <> name) before
  | (task, Some err) =>
      err = task_missing /\ task = mkTask "" 0 0 0 0 "" /\
      Forall (fun t => task_Name t <> name) tasks
  end.
Proof.
  induction tasks as [| t tasks IH]; cbn.
  - repeat split. constructor.
  - destruct (task_Name t =? name)%string eqn:E.
    + apply String.eqb_eq in E. exists [], tasks. repeat split; auto.
    + apply String.eqb_neq in E.
      destruct (Tasks_GetByName tasks name) as [task [err |]].
      * destruct IH as (-> & -> & F). repeat split. constructor; assumption.
      * destruct IH as [before [after [-> [N F]]]].
        exists (t :: before), after. repeat split; auto.
Qed.

Lemma find_first {A} (p : A -> bool) (l : list A) :
  match find p l with
  | Some x => exists before after,
                l = (before ++ x :: after)%list /\ p x = true /\
                Forall (fun y => p y = false) before
  | None => Forall (fun y => p y = false) l
  end.
Proof.
  induction l as [| y l IH]; cbn; [constructor |].
  destruct (p y) eqn:E.
  - exists [], l. repeat split; auto.
  - destruct (find p l) as [x |].
    + destruct IH as [before [after [-> [Px F]]]].
      exists (y :: before), after. repeat split; auto.
    + constructor; assumption.
Qed.

(** X12. The lookups by name return the first declared entry of that
    name and fail exactly when there is none: [TTasks.GetByName] then
    returns the empty task with the error, [TParams.GetByName] the error
    [param does not exist]; neither touches anything. *)
Theorem GetByName_first_match (name : string) :
  (forall tasks,
      match Tasks_GetByName tasks name with
      | (task, None) =>
          exists before after,
            tasks = (before ++ task :: after)%list /\ task_Name task = name /\
            Forall (fun t => task_Name t <> name) before
      | (task, Some err) =>
          err = task_missing /\ task = mkTask "" 0 0 0 0 "" /\
          Forall (fun t => task_Name t <> name) tasks
      end) /\
  (forall Params s,
      (exists before param after,
          Params = (before ++ param :: after)%list /\ param_Name param = name /\
          Forall (fun p => param_Name p <> name) before /\
          Params_GetByName Params name s = (s, Ok param)) \/
      (Forall (fun p => param_Name p <> name) Params /\
       Params_GetByName Params name s = (s, Err "param does not exist"))).
Proof.
  split; [intros tasks; apply Tasks_GetByName_spec |].
  intros Params s. unfold Params_GetByName.
  pose proof (find_first (fun p => (param_Name p =? name)%string) Params) as F.
  destruct (find _ Params) as [param |].
  - left. destruct F as [before [after [-> [Px F]]]].
    exists before, param, after. apply String.eqb_eq in Px.
    repeat split; auto.
    eapply Forall_impl; [| exact F]. intros p Hp. apply String.eqb_neq. exact Hp.
  - right. split; [| reflexivity].
    eapply Forall_impl; [| exact F]. intros p Hp. apply String.eqb_neq. exact Hp.
Qed.

(** X13. The hosts as [LoadConfig] leaves them. When the loop over the
    hosts ends without error, every host has, in the order of the hosts
    file: as users and schedules the declared ones whose alias it lists,
    as groups all declared groups, and as task the first declared task of
    its task name; every other field is as decoded. The loop fails exactly
    when some host names a task that is not declared, with the error
    [task does not exist]. *)
Theorem LoadConfig_hosts_spec (Users : TUsers) (Groups : TGroups)
        (Schedules : TSchedules) (Tasks : TTasks) (Hosts : list THost) :
  match LoadConfig_hosts Users Groups Schedules Tasks Hosts with
  | (hosts, None) =>
      Forall2 (fun host loaded =>
                 exists task,
                   In task Tasks /\ task_Name task = host_TaskName host /\
                   fst (Tasks_GetByName Tasks (host_TaskName host)) = task /\
                   loaded
                   = set_declared
                       host
                       (filter (fun user =>
                                  IsContain (host_UsersAliases host) (user_Alias user))
                               Users)
                       (filter (fun schedule =>
                                  IsContain (host_SchedulesAliases host)
                                            (sched_Alias schedule))
                               Schedules)
                       Groups task)
              Hosts hosts
  | (hosts, Some err) =>
      err = task_missing /\
      exists host, In host Hosts /\
                   Forall (fun t => task_Name t <> host_TaskName host) Tasks
  end.
Proof.
  induction Hosts as [| host Hosts IH]; cbn; [constructor |].
  pose proof (Tasks_GetByName_spec Tasks (host_TaskName host)) as T.
  destruct (Tasks_GetByName Tasks (host_TaskName host)) as [task [err |]] eqn:G.
  - destruct T as (-> & _ & F). split; [reflexivity |].
    exists host. split; [left; reflexivity | exact F].
  - destruct (LoadConfig_hosts Users Groups Schedules Tasks Hosts)
      as [rest [err |]].
    + destruct IH as [-> [h [Hin F]]]. split; [reflexivity |].
      exists h. split; [right; exact Hin | exact F].
    + constructor; [| exact IH].
      destruct T as [before [after [ET [N _]]]]. exists task.
      split; [rewrite ET; apply in_or_app; right; left; reflexivity |].
      split; [exact N |]. split; [rewrite G; reflexivity |].
      rewrite Users_FilterByAliases_filter, Schedules_FilterByAliases_filter.
      reflexivity.
Qed.

Lemma ioutil_ReadFile_ok p s s' data :
  ioutil_ReadFile p s = (s', Ok data) ->
  same_world s s' /\ fs_lookup (local_fs s) (resolve p) = Some (NFile data).
Proof.
  intros H. unfold ioutil_ReadFile in H. file_call H.
  destruct (fs_lookup _ _) as [[| d] |]; try discriminate.
  injection H as <- <-. split; [repeat split | reflexivity].
Qed.

Lemma ioutil_ReadFile_err p s s' e :
  ioutil_ReadFile p s = (s', Err e) -> same_world s s'.
Proof.
  intros H. unfold ioutil_ReadFile in H. file_call H; [repeat split |].
  injection H as <- _. repeat split.
Qed.

Lemma calm_ioutil_ReadFile p s s' r :
  calm s -> ioutil_ReadFile p s = (s', r) ->
  match fs_lookup (local_fs s) (resolve p) with
  | Some (NFile data) => r = Ok data
  | _ => r = Err file_missing
  end.
Proof.
  intros Hc H. unfold ioutil_ReadFile in H. rewrite (calm_extern _ _ _ Hc) in H.
  destruct (fs_lookup _ _) as [[| d] |]; injection H as _ <-; reflexivity.
Qed.

Lemma LoadOnEventScripts_loop_spec dir schedules :
  forall s s' r,
    LoadOnEventScripts_loop dir schedules s = (s', r) ->
    same_world s s' /\
    exists loaded,
      r = Ok loaded /\
      Forall2 (fun old new =>
                 new = set_OnEvent old (script_of (local_fs s) dir old) \/
                 new = set_OnEvent old "")
              schedules loaded /\
      (calm s ->
       Forall2 (fun old new => new = set_OnEvent old (script_of (local_fs s) dir old))
               schedules loaded).
Proof.
  induction schedules as [| c schedules IH]; intros s s' r H; cbn in H.
  - unfold ret in H. injection H as <- <-. split; [apply same_world_refl |].
    exists []. split; [reflexivity | split; [constructor | intros _; constructor]].
  - assert (Step : forall t (r0 : res TSchedule),
               handle (ioutil_ReadFile (param_Value dir ++ sched_Script c))
                      (fun content => ret (set_OnEvent c content))
                      (fun _ =>
                         log_Println ("[WARNING] script " ++ quoted (sched_Script c)
                                      ++ " does not exist") ;;
                         ret (set_OnEvent c "")) s = (t, r0) ->
               same_world s t /\
               exists c', r0 = Ok c' /\
                 (c' = set_OnEvent c (script_of (local_fs s) dir c) \/
                  c' = set_OnEvent c "") /\
                 (calm s -> c' = set_OnEvent c (script_of (local_fs s) dir c))).
    { intros t r0 X. apply handle_inv in X.
      destruct X as [[t1 [content [R X]]] | [[t1 [e [R X]]] | [w [R _]]]].
      - unfold ret in X. injection X as <- <-.
        apply ioutil_ReadFile_ok in R. destruct R as [W L].
        split; [exact W |]. eexists. split; [reflexivity |].
        unfold script_of. rewrite L. auto.
      - rewrite (bind_ok _ _ _ _ _ (log_run _ _)) in X. unfold ret in X.
        injection X as <- <-. pose proof R as R'.
        apply ioutil_ReadFile_err in R. destruct R as (D & L & C & F).
        split; [repeat split; assumption |]. eexists. split; [reflexivity |].
        split; [right; reflexivity |]. intros Hc.
        pose proof (calm_ioutil_ReadFile _ _ _ _ Hc R') as Q. unfold script_of.
        destruct (fs_lookup _ _) as [[| d] |]; try reflexivity. discriminate.
      - destruct (extern_abort _ _ _ _ _ R). }
    next H E1 t1.
    + destruct (Step _ _ E1) as [W1 [c' [Ec [G1 X1]]]]. injection Ec as ->.
      next H E2 t2.
      * unfold ret in H. injection H as <- <-.
        destruct (IH _ _ _ E2) as [W2 [loaded [El [G2 X2]]]]. injection El as ->.
        destruct W1 as (D1 & L1 & C1 & F1).
        split; [exact (same_world_trans _ _ _ (conj D1 (conj L1 (conj C1 F1))) W2) |].
        exists (c' :: loaded). split; [reflexivity |]. rewrite L1 in *. split.
        -- constructor; assumption.
        -- intros Hc. constructor; [exact (X1 Hc) |].
           apply X2. intros k. rewrite F1. apply Hc.
      * destruct (IH _ _ _ E2) as [_ [loaded [El _]]]. discriminate.
      * destruct (IH _ _ _ E2) as [_ [loaded [El _]]]. discriminate.
    + destruct (Step _ _ E1) as [_ [c' [Ec _]]]. discriminate.
    + destruct (Step _ _ E1) as [_ [c' [Ec _]]]. discriminate.
Qed.

(** X14. [LoadOnEventScripts] fails only for want of the parameter
    [dir_scripts], before any file is read. With the parameter, it returns
    nil whatever the files are: every schedule keeps its fields and gets
    as [OnEvent] the content of its script file, or the empty string when
    the file cannot be read; the order and number of the schedules are as
    declared. When no call fails for a reason of the environment the
    empty string stands only for a script that is not there as a file.
    Nothing is written. *)
Theorem LoadOnEventScripts_spec (Params : TParams) (schedules : TSchedules)
        (s s' : State) (r : res TSchedules) :
  LoadOnEventScripts Params schedules s = (s', r) ->
  same_world s s' /\
  match find (fun p => (param_Name p =? "dir_scripts")%string) Params with
  | None => r = Err "param does not exist" /\ s' = s
  | Some dir =>
      exists loaded,
        r = Ok loaded /\
        Forall2 (fun old new =>
                   new = set_OnEvent old (script_of (local_fs s) dir old) \/
                   new = set_OnEvent old "")
                schedules loaded /\
        (calm s ->
         Forall2 (fun old new =>
                    new = set_OnEvent old (script_of (local_fs s) dir old))
                 schedules loaded)
  end.
Proof.
  intros H. unfold LoadOnEventScripts in H. next H E t.
  - apply Params_GetByName_inv in E. destruct E as [-> E].
    destruct (find _ Params) as [dir |]; [| discriminate]. injection E as ->.
    exact (LoadOnEventScripts_loop_spec dir schedules _ _ _ H).
  - apply Params_GetByName_inv in E. destruct E as [-> E].
    destruct (find _ Params) as [dir |]; [discriminate |]. subst r.
    injection E as ->. split; [apply same_world_refl | auto].
  - apply Params_GetByName_inv in E. destruct E as [_ E].
    destruct (find _ Params); discriminate.
Qed.

Lemma LoadJSON_spec {A} (Unmarshal : string -> error + A) p s s' r :
  LoadJSON Unmarshal p s = (s', r) ->
  same_world s s' /\
  (forall v, r = Ok v -> read_json (local_fs s) Unmarshal p = Some v).
Proof.
  intros H. unfold LoadJSON in H.
  next H E0 t0.
  2: { apply os_Open_err in E0. split; [exact E0 | subst r; discriminate]. }
  2: { destruct (extern_abort _ _ _ _ _ E0). }
  units. apply os_Open_ok in E0. destruct E0 as [W0 _].
  destruct W0 as (D0 & L0 & C0 & F0).
  assert (W0 : same_world s t0) by (repeat split; assumption).
  unfold read_json. rewrite <- L0.
  next H E1 t1.
  2: { unfold ioutil_ReadAll in E1.
       destruct (fs_lookup _ _) as [[| d] |]; try discriminate;
         injection E1 as <- _; (split; [exact W0 | subst r; discriminate]). }
  2: { unfold ioutil_ReadAll in E1.
       destruct (fs_lookup _ _) as [[| d] |]; discriminate. }
  unfold ioutil_ReadAll in E1.
  destruct (fs_lookup (local_fs t0) (resolve p)) as [[| data] |] eqn:Lk;
    try discriminate.
  injection E1 as <- <-.
  next H E2 t2.
  2: { destruct (Unmarshal data) as [err | v]; try discriminate.
       unfold fail in E2. injection E2 as <- _.
       split; [exact W0 | subst r; discriminate]. }
  2: { destruct (Unmarshal data) as [err | v]; discriminate. }
  destruct (Unmarshal data) as [err | v]; try discriminate.
  unfold ret in E2. injection E2 as <- <-.
  rewrite (bind_ok _ _ _ _ _ (log_run _ _)) in H.
  next H E3 t3.
  - unfold ret in H. injection H as <- <-.
    destruct (quiet_call _ _ _ _ E3) as (D3 & L3 & C3 & F3).
    split; [repeat split; cbn in *; congruence |].
    intros v' X. injection X as <-. reflexivity.
  - destruct (quiet_call _ _ _ _ E3) as (D3 & L3 & C3 & F3).
    split; [repeat split; cbn in *; congruence | subst r; discriminate].
  - destruct (extern_abort _ _ _ _ _ E3).
Qed.

(** X15. What [LoadConfig] returns. The load writes nothing. When it
    returns nil, the parameters are what [configs/main.json] decodes to;
    the tasks, users and groups are what the files of those names decode
    to in the directory named by the parameter [dir_mikrotik-config], which
    is the empty prefix when the parameter is not set: its absence is not
    an error; the parameter [dir_scripts] is set; the schedules are the
    decoded ones with their scripts loaded, and the hosts are the decoded
    ones with users, schedules, groups and task assigned from these. *)
Theorem LoadConfig_spec (json : Json) (s s' : State) (r : res Config) :
  LoadConfig json s = (s', r) ->
  same_world s s' /\
  forall cfg, r = Ok cfg ->
    let dir := config_dir (cfg_Params cfg) in
    read_json (local_fs s) (json_Params json) cfgMain = Some (cfg_Params cfg) /\
    read_json (local_fs s) (json_Tasks json) (dir ++ "tasks.json")
    = Some (cfg_Tasks cfg) /\
    read_json (local_fs s) (json_Users json) (dir ++ "users.json")
    = Some (cfg_Users cfg) /\
    read_json (local_fs s) (json_Groups json) (dir ++ "groups.json")
    = Some (cfg_Groups cfg) /\
    exists dirScripts hosts schedules,
      find (fun p => (param_Name p =? "dir_scripts")%string) (cfg_Params cfg)
      = Some dirScripts /\
      read_json (local_fs s) (json_Hosts json) (dir ++ "hosts.json") = Some hosts /\
      read_json (local_fs s) (json_Schedules json) (dir ++ "schedules.json")
      = Some schedules /\
      Forall2 (fun old new =>
                 new = set_OnEvent old (script_of (local_fs s) dirScripts old) \/
                 new = set_OnEvent old "")
              schedules (cfg_Schedules cfg) /\
      LoadConfig_hosts (cfg_Users cfg) (cfg_Groups cfg) (cfg_Schedules cfg)
                       (cfg_Tasks cfg) hosts
      = (cfg_Hosts cfg, None).
Proof.
  intros H. unfold LoadConfig in H.
  nextv H E0 t0 vParams.
  2: { destruct (LoadJSON_spec _ _ _ _ _ E0) as [W _]. subst r.
       split; [exact W | discriminate]. }
  2: { destruct (LoadJSON_spec _ _ _ _ _ E0) as [W _]. subst r.
       split; [exact W | discriminate]. }
  destruct (LoadJSON_spec _ _ _ _ _ E0) as [W0 J0]. specialize (J0 _ eq_refl).
  assert (Ed : exists p, handle (Params_GetByName vParams "dir_mikrotik-config")
                                (fun p => ret p) (fun _ => ret (mkParam "" "" "")) t0
                         = (t0, Ok p) /\ param_Value p = config_dir vParams).
  { unfold handle, Params_GetByName, config_dir.
    destruct (find _ vParams) as [p |]; eexists; split; reflexivity. }
  destruct Ed as [dirCfg [Ed Vd]]. rewrite (bind_ok _ _ _ _ _ Ed) in H.
  rewrite Vd in H. clear Ed Vd dirCfg.
  nextv H E1 t1 vHosts.
  2: { destruct (LoadJSON_spec _ _ _ _ _ E1) as [W _]. subst r.
       split; [exact (same_world_trans _ _ _ W0 W) | discriminate]. }
  2: { destruct (LoadJSON_spec _ _ _ _ _ E1) as [W _]. subst r.
       split; [exact (same_world_trans _ _ _ W0 W) | discriminate]. }
  destruct (LoadJSON_spec _ _ _ _ _ E1) as [W1 J1]. specialize (J1 _ eq_refl).
  pose proof (same_world_trans _ _ _ W0 W1) as V1.
  nextv H E2 t2 vTasks.
  2: { destruct (LoadJSON_spec _ _ _ _ _ E2) as [W _]. subst r.
       split; [exact (same_world_trans _ _ _ V1 W) | discriminate]. }
  2: { destruct (LoadJSON_spec _ _ _ _ _ E2) as [W _]. subst r.
       split; [exact (same_world_trans _ _ _ V1 W) | discriminate]. }
  destruct (LoadJSON_spec _ _ _ _ _ E2) as [W2 J2]. specialize (J2 _ eq_refl).
  pose proof (same_world_trans _ _ _ V1 W2) as V2.
  nextv H E3 t3 vUsers.
  2: { destruct (LoadJSON_spec _ _ _ _ _ E3) as [W _]. subst r.
       split; [exact (same_world_trans _ _ _ V2 W) | discriminate]. }
  2: { destruct (LoadJSON_spec _ _ _ _ _ E3) as [W _]. subst r.
       split; [exact (same_world_trans _ _ _ V2 W) | discriminate]. }
  destruct (LoadJSON_spec _ _ _ _ _ E3) as [W3 J3]. specialize (J3 _ eq_refl).
  pose proof (same_world_trans _ _ _ V2 W3) as V3.
  nextv H E4 t4 vGroups.
  2: { destruct (LoadJSON_spec _ _ _ _ _ E4) as [W _]. subst r.
       split; [exact (same_world_trans _ _ _ V3 W) | discriminate]. }
  2: { destruct (LoadJSON_spec _ _ _ _ _ E4) as [W _]. subst r.
       split; [exact (same_world_trans _ _ _ V3 W) | discriminate]. }
  destruct (LoadJSON_spec _ _ _ _ _ E4) as [W4 J4]. specialize (J4 _ eq_refl).
  pose proof (same_world_trans _ _ _ V3 W4) as V4.
  nextv H E5 t5 vSchedules.
  2: { destruct (LoadJSON_spec _ _ _ _ _ E5) as [W _]. subst r.
       split; [exact (same_world_trans _ _ _ V4 W) | discriminate]. }
  2: { destruct (LoadJSON_spec _ _ _ _ _ E5) as [W _]. subst r.
       split; [exact (same_world_trans _ _ _ V4 W) | discriminate]. }
  destruct (LoadJSON_spec _ _ _ _ _ E5) as [W5 J5]. specialize (J5 _ eq_refl).
  pose proof (same_world_trans _ _ _ V4 W5) as V5.
  nextv H E6 t6 vLoaded.
  2: { pose proof E6 as E6'. unfold LoadOnEventScripts in E6'.
       assert (W : same_world t5 s').
       { apply bind_inv in E6'.
         destruct E6' as [[x [p [P Q]]] | [[x [P _]] | [x [P _]]]];
           apply Params_GetByName_inv in P; destruct P as [-> _];
           [exact (proj1 (LoadOnEventScripts_loop_spec _ _ _ _ _ Q))
           | apply same_world_refl | apply same_world_refl]. }
       subst r. split; [exact (same_world_trans _ _ _ V5 W) | discriminate]. }
  2: { exfalso. unfold LoadOnEventScripts in E6. apply bind_inv in E6.
       destruct E6 as [[x [p [P Q]]] | [[x [_ Z1]] | [x [P _]]]]; try discriminate.
       - destruct (LoadOnEventScripts_loop_spec _ _ _ _ _ Q) as [_ [l [Z1 _]]].
         discriminate.
       - apply Params_GetByName_inv in P. destruct P as [_ P].
         destruct (find _ vParams); discriminate. }
  unfold LoadOnEventScripts in E6. apply bind_inv in E6.
  destruct E6 as [[x [p [P Q]]] | [[x [_ N]] | [x [_ N]]]]; try discriminate.
  apply Params_GetByName_inv in P. destruct P as [-> P].
  destruct (find _ vParams) as [dirScripts |] eqn:Fs; [| discriminate]. injection P as ->.
  destruct (LoadOnEventScripts_loop_spec _ _ _ _ _ Q) as [W6 [l [El [G6 _]]]].
  injection El as <-.
  pose proof (same_world_trans _ _ _ V5 W6) as V6.
  destruct V1 as (_ & L1 & _), V2 as (_ & L2 & _), V3 as (_ & L3 & _),
           V4 as (_ & L4 & _), V5 as (_ & L5 & _).
  destruct W0 as (D0 & L0 & C0 & F0).
  rewrite L0 in J1. rewrite L1 in J2. rewrite L2 in J3. rewrite L3 in J4.
  rewrite L4 in J5. rewrite L5 in G6.
  destruct (LoadConfig_hosts vUsers vGroups vLoaded vTasks vHosts)
    as [hosts [err |]] eqn:Eh.
  - unfold fail in H. injection H as <- <-. split; [exact V6 | discriminate].
  - unfold ret in H. injection H as <- <-. split; [exact V6 |].
    intros cfg X. injection X as <-. cbn [cfg_Params cfg_Tasks cfg_Users cfg_Groups
                                          cfg_Schedules cfg_Hosts].
    split; [exact J0 |]. split; [exact J2 |]. split; [exact J3 |].
    split; [exact J4 |]. exists dirScripts, vHosts, vSchedules.
    split; [exact Fs |]. split; [exact J1 |]. split; [exact J5 |].
    split; [exact G6 | exact Eh].
Qed.

(** The configuration of the example. *)
Lemma LoadOnEventScripts_spec_witness :
  same_world world_config
             (fst (LoadOnEventScripts demo_params [set_OnEvent nightly ""; stale_job]
                                      world_config)) /\
  snd (LoadOnEventScripts demo_params [set_OnEvent nightly ""; stale_job] world_config)
  = Ok [nightly; set_OnEvent stale_job ""].
Proof.
  destruct (LoadOnEventScripts_spec demo_params [set_OnEvent nightly ""; stale_job]
                                    world_config _ _ (surjective_pairing _))
    as [W _].
  split; [exact W | vm_compute; reflexivity].
Defined.

Lemma LoadConfig_spec_witness :
  same_world world_config (fst (LoadConfig demo_json world_config)) /\
  snd (LoadConfig demo_json world_config)
  = Ok (mkConfig demo_params [host_full] [hourly] [alice; intruder; bob]
                 [group_full; group_read] [nightly; set_OnEvent stale_job ""]).
Proof.
  destruct (LoadConfig_spec demo_json world_config _ _ (surjective_pairing _))
    as [W _].
  split; [exact W | vm_compute; reflexivity].
Defined.

(** ** The password generator *)

Lemma set_nth_length {A} (x : A) l : forall i, List.length (set_nth i x l) = List.length l.
Proof.
  induction l as [| h t IH]; intros i; [reflexivity |].
  destruct i; cbn; [reflexivity | rewrite IH; reflexivity].
Qed.

Lemma nth_set_nth {A} (x d : A) l :
  forall i k, (k < List.length l)%nat ->
    nth k (set_nth i x l) d = if Nat.eqb k i then x else nth k l d.
Proof.
  induction l as [| h t IH]; intros i k Hk; cbn in Hk; [lia |].
  destruct i, k; cbn; try reflexivity.
  apply IH. lia.
Qed.

Lemma swap_length i j l : List.length (swap i j l) = List.length l.
Proof. unfold swap. rewrite !set_nth_length. reflexivity. Qed.

Lemma nth_swap i j l k :
  (k < List.length l)%nat ->
  nth k (swap i j l) Ascii.zero
  = if Nat.eqb k i then nth j l Ascii.zero
    else if Nat.eqb k j then nth i l Ascii.zero
         else nth k l Ascii.zero.
Proof.
  intros Hk. unfold swap.
  rewrite nth_set_nth by (rewrite set_nth_length; exact Hk).
  destruct (Nat.eqb k i); [reflexivity |].
  rewrite nth_set_nth by exact Hk. reflexivity.
Qed.

(** An exchange of two places moves characters, it neither adds nor
    drops one. *)
Lemma swap_In i j l c :
  (i < List.length l)%nat -> (j < List.length l)%nat ->
  (In c (swap i j l) <-> In c l).
Proof.
  intros Hi Hj. split; intros H.
  - apply (In_nth _ _ Ascii.zero) in H. destruct H as [k [Hk <-]].
    rewrite swap_length in Hk. rewrite nth_swap by exact Hk.
    destruct (Nat.eqb k i); [apply nth_In; exact Hj |].
    destruct (Nat.eqb k j); apply nth_In; assumption.
  - apply (In_nth _ _ Ascii.zero) in H. destruct H as [k [Hk <-]].
    destruct (Nat.eq_dec k i) as [-> | Ni].
    + replace (nth i l Ascii.zero) with (nth j (swap i j l) Ascii.zero).
      * apply nth_In. rewrite swap_length. exact Hj.
      * rewrite nth_swap by exact Hj. destruct (Nat.eqb j i) eqn:E.
        -- apply Nat.eqb_eq in E. subst j. reflexivity.
        -- rewrite Nat.eqb_refl. reflexivity.
    + destruct (Nat.eq_dec k j) as [-> | Nj].
      * replace (nth j l Ascii.zero) with (nth i (swap i j l) Ascii.zero).
        -- apply nth_In. rewrite swap_length. exact Hi.
        -- rewrite nth_swap by exact Hi. rewrite Nat.eqb_refl. reflexivity.
      * replace (nth k l Ascii.zero) with (nth k (swap i j l) Ascii.zero).
        -- apply nth_In. rewrite swap_length. exact Hk.
        -- rewrite nth_swap by exact Hk.
           rewrite (proj2 (Nat.eqb_neq k i) Ni), (proj2 (Nat.eqb_neq k j) Nj).
           reflexivity.
Qed.

Lemma Shuffle_from_spec rnd i :
  forall k l, (i < List.length l)%nat ->
    List.length (Shuffle_from rnd k i l) = List.length l /\
    forall c, In c (Shuffle_from rnd k i l) <-> In c l.
Proof.
  induction i as [| i IH]; intros k l Hi; cbn [Shuffle_from].
  - split; [reflexivity | intros c; reflexivity].
  - assert (Hj : (rand_Intn (rnd k) (S (S i)) < List.length l)%nat).
    { unfold rand_Intn. pose proof (Nat.mod_upper_bound (rnd k) (S (S i))). lia. }
    destruct (IH (S k) (swap (S i) (rand_Intn (rnd k) (S (S i))) l)) as [L I].
    + rewrite swap_length. lia.
    + rewrite L, swap_length. split; [reflexivity |].
      intros c. rewrite I. apply swap_In; [exact Hi | exact Hj].
Qed.

Lemma rand_Shuffle_spec rnd k l :
  List.length (rand_Shuffle rnd k l) = List.length l /\
  forall c, In c (rand_Shuffle rnd k l) <-> In c l.
Proof.
  unfold rand_Shuffle. destruct l as [| a l].
  - cbn. split; [reflexivity | intros c; reflexivity].
  - apply Shuffle_from_spec. cbn. lia.
Qed.

Lemma get_In i s c : String.get i s = Some c -> In c (list_ascii_of_string s).
Proof.
  revert i. induction s as [| a s IH]; intros i H; cbn in *; [discriminate |].
  destruct i; [injection H as ->; left; reflexivity | right; exact (IH _ H)].
Qed.

Lemma get_below i s : (i < String.length s)%nat -> String.get i s <> None.
Proof.
  revert i. induction s as [| a s IH]; intros i H; cbn in *; [lia |].
  destruct i; [discriminate | apply IH; lia].
Qed.

Lemma byte_at_In set raw :
  (0 < String.length set)%nat ->
  In (byte_at set (rand_Intn raw (String.length set))) (list_ascii_of_string set).
Proof.
  intros H. unfold byte_at, rand_Intn.
  destruct (String.get _ set) as [c |] eqn:E; [exact (get_In _ _ _ E) |].
  exfalso.
  assert (B : (raw mod String.length set < String.length set)%nat)
    by (apply Nat.mod_upper_bound; lia).
  exact (get_below _ _ B E).
Qed.

Lemma draw_chars_spec rnd set n :
  (0 < String.length set)%nat ->
  forall k, List.length (draw_chars rnd set k n) = n /\
            Forall (fun c => In c (list_ascii_of_string set)) (draw_chars rnd set k n).
Proof.
  intros H. induction n as [| n IH]; intros k; cbn.
  - split; [reflexivity | constructor].
  - destruct (IH (S k)) as [L F]. rewrite L. split; [reflexivity |].
    constructor; [apply byte_at_In; exact H | exact F].
Qed.

Lemma length_string_of_list_ascii l :
  String.length (string_of_list_ascii l) = List.length l.
Proof. induction l as [| a l IH]; cbn; [reflexivity | rewrite IH; reflexivity]. Qed.

Lemma list_ascii_app a b :
  list_ascii_of_string (a ++ b)
  = (list_ascii_of_string a ++ list_ascii_of_string b)%list.
Proof. induction a as [| c a IH]; cbn; [reflexivity | rewrite IH; reflexivity]. Qed.

(** X16. The password policy of [GeneratePassword]. Whatever the random
    source yields, the password holds at least one special character, one
    digit and one upper-case letter, and only characters of the four
    sets; its length is the requested one, and 3 when fewer than 3
    characters are requested (the three smallest integers apart, where
    [length - 3] wraps around). The lower-case set is written
    [abcdedfghijklmnopqrst], so none of the letters u to z ever occurs. The
    other fields of the user are as before. *)
Theorem GeneratePassword_policy (rnd : nat -> nat) (user : TUser) (length : Z) :
  Int64.min_int + 3 <= length <= Int64.max_int ->
  let pass := user_Pass (TUser_GeneratePassword rnd user length) in
  String.length pass = Z.to_nat (Z.max 3 length) /\
  (exists c, has_char c pass /\ has_char c specialCharSet) /\
  (exists c, has_char c pass /\ has_char c numberSet) /\
  (exists c, has_char c pass /\ has_char c upperCharSet) /\
  (forall c, has_char c pass -> has_char c allCharSet) /\
  (forall c, has_char c pass -> ~ has_char c "uvwxyz") /\
  set_Pass (TUser_GeneratePassword rnd user length) (user_Pass user) = user.
Proof.
  intros Hr pass.
  assert (Er : Int64.sub (Int64.sub (Int64.sub length 1) 1) 1 = length - 3).
  { unfold Int64.sub, Int64.min_int, Int64.max_int in *.
    rewrite (wrap_small (length - 1)) by (unfold Int64.in_range, Int64.min_int,
                                          Int64.max_int; lia).
    rewrite (wrap_small (length - 1 - 1)) by (unfold Int64.in_range, Int64.min_int,
                                              Int64.max_int; lia).
    rewrite wrap_small by (unfold Int64.in_range, Int64.min_int, Int64.max_int; lia).
    lia. }
  subst pass. unfold TUser_GeneratePassword. rewrite Er.
  set (n := Z.to_nat (length - 3)).
  set (password := (draw_chars rnd specialCharSet 0 (Z.to_nat 1)
                    ++ draw_chars rnd numberSet 1 (Z.to_nat 1)
                    ++ draw_chars rnd upperCharSet 2 (Z.to_nat 1)
                    ++ draw_chars rnd allCharSet 3 n)%list).
  destruct (rand_Shuffle_spec rnd (3 + n) password) as [L I].
  destruct (draw_chars_spec rnd specialCharSet (Z.to_nat 1) ltac:(cbn; lia) 0%nat)
    as [L1 F1].
  destruct (draw_chars_spec rnd numberSet (Z.to_nat 1) ltac:(cbn; lia) 1%nat)
    as [L2 F2].
  destruct (draw_chars_spec rnd upperCharSet (Z.to_nat 1) ltac:(cbn; lia) 2%nat)
    as [L3 F3].
  destruct (draw_chars_spec rnd allCharSet n ltac:(cbn; lia) 3%nat) as [L4 F4].
  cbn [user_Pass set_Pass]. unfold has_char.
  rewrite length_string_of_list_ascii, list_ascii_of_string_of_list_ascii.
  assert (Sub : forall set, (set = specialCharSet \/ set = numberSet
                             \/ set = upperCharSet \/ set = allCharSet) ->
                forall c, In c (list_ascii_of_string set) ->
                          In c (list_ascii_of_string allCharSet)).
  { intros set Hs c Hc. unfold allCharSet. rewrite !list_ascii_app, !in_app_iff.
    destruct Hs as [-> | [-> | [-> | ->]]]; auto.
    unfold allCharSet in Hc. rewrite !list_ascii_app, !in_app_iff in Hc. exact Hc. }
  assert (All : forall c, In c password -> In c (list_ascii_of_string allCharSet)).
  { intros c Hc. unfold password in Hc. rewrite !in_app_iff in Hc.
    rewrite Forall_forall in F1, F2, F3, F4.
    destruct Hc as [Hc | [Hc | [Hc | Hc]]].
    - apply (Sub specialCharSet); auto.
    - apply (Sub numberSet); auto.
    - apply (Sub upperCharSet); auto.
    - auto. }
  split; [| split; [| split; [| split; [| split; [| split]]]]].
  - rewrite L. unfold password. rewrite !length_app, L1, L2, L3, L4.
    unfold n. lia.
  - exists (byte_at specialCharSet
                    (rand_Intn (rnd 0%nat) (String.length specialCharSet))).
    split; [| apply byte_at_In; cbn; lia].
    apply I. unfold password. change (Z.to_nat 1) with 1%nat.
    cbn [draw_chars]. rewrite in_app_iff. left. left. reflexivity.
  - exists (byte_at numberSet (rand_Intn (rnd 1%nat) (String.length numberSet))).
    split; [| apply byte_at_In; cbn; lia].
    apply I. unfold password. change (Z.to_nat 1) with 1%nat.
    cbn [draw_chars]. rewrite !in_app_iff. right. left. left. reflexivity.
  - exists (byte_at upperCharSet (rand_Intn (rnd 2%nat) (String.length upperCharSet))).
    split; [| apply byte_at_In; cbn; lia].
    apply I. unfold password. change (Z.to_nat 1) with 1%nat.
    cbn [draw_chars]. rewrite !in_app_iff. right. right. left. left. reflexivity.
  - intros c Hc. apply All. apply I. exact Hc.
  - intros c Hc Hu. apply I in Hc. apply All in Hc.
    cbn in Hu. cbn in Hc.
    repeat (destruct Hu as [<- | Hu];
            [repeat (destruct Hc as [Hc | Hc]; [discriminate Hc |]); exact Hc |]).
    exact Hu.
  - destruct user. reflexivity.
Qed.

(** A password of 512 characters, as [MakeUser] asks for. *)
Lemma GeneratePassword_policy_witness :
  let pass := user_Pass (TUser_GeneratePassword (fun k => 7 * k + 3)%nat bob 512) in
  String.length pass = Z.to_nat (Z.max 3 512) /\
  (exists c, has_char c pass /\ has_char c specialCharSet) /\
  (exists c, has_char c pass /\ has_char c numberSet) /\
  (exists c, has_char c pass /\ has_char c upperCharSet) /\
  (forall c, has_char c pass -> has_char c allCharSet) /\
  (forall c, has_char c pass -> ~ has_char c "uvwxyz") /\
  set_Pass (TUser_GeneratePassword (fun k => 7 * k + 3)%nat bob 512) (user_Pass bob)
  = bob.
Proof.
  apply (GeneratePassword_policy (fun k => 7 * k + 3)%nat bob 512).
  unfold Int64.min_int, Int64.max_int. lia.
Defined.

(** Six characters from the source 3, 10, 17, ...; and a request for two
    characters, which gives three. *)
Example GeneratePassword_six :
  user_Pass (TUser_GeneratePassword (fun k => 7 * k + 3)%nat bob 6) = "K0$RRD" /\
  String.length (user_Pass (TUser_GeneratePassword (fun k => 7 * k + 3)%nat bob 2))
  = 3%nat.
Proof. vm_compute. split; reflexivity. Qed.

(** ** Paths *)

Lemma split_slash_cons s : exists h t, split_slash s = h :: t.
Proof.
  induction s as [| c s IH]; cbn; [eauto |].
  destruct (Ascii.eqb c "/"); [eauto |].
  destruct IH as [h [t ->]]. eauto.
Qed.

Lemma split_slash_app a b :
  split_slash (a ++ "/" ++ b) = (split_slash a ++ split_slash b)%list.
Proof.
  induction a as [| c a IH]; [reflexivity |].
  cbn [append split_slash]. change (a ++ String "/" b) with (a ++ "/" ++ b).
  rewrite IH. destruct (Ascii.eqb c "/"); [reflexivity |].
  destruct (split_slash_cons a) as [h [t ->]]. reflexivity.
Qed.

Lemma split_slash_name f : no_slash f = true -> split_slash f = [f].
Proof.
  unfold no_slash. induction f as [| c f IH]; intros H; [reflexivity |].
  cbn [list_ascii_of_string existsb split_slash] in *. rewrite Ascii.eqb_sym.
  destruct (Ascii.eqb "/" c); [discriminate |].
  rewrite IH by exact H. reflexivity.
Qed.

Lemma split_slash_no_slash s : Forall (fun p => no_slash p = true) (split_slash s).
Proof.
  induction s as [| c s IH]; cbn; [repeat constructor |].
  destruct (Ascii.eqb c "/") eqn:E; [constructor; [reflexivity | exact IH] |].
  destruct (split_slash_cons s) as [h [t Es]]. rewrite Es in *.
  inversion IH as [| x l Hh Ht]; subst. constructor; [| exact Ht].
  unfold no_slash in *. cbn [list_ascii_of_string existsb].
  rewrite Ascii.eqb_sym, E. exact Hh.
Qed.

Lemma concat_cons x y l :
  String.concat "/" (x :: y :: l) = x ++ "/" ++ String.concat "/" (y :: l).
Proof. reflexivity. Qed.

Lemma concat_split_slash s : String.concat "/" (split_slash s) = s.
Proof.
  induction s as [| c s IH]; [reflexivity |].
  cbn [split_slash]. destruct (Ascii.eqb c "/") eqn:E.
  - apply Ascii.eqb_eq in E. subst c.
    destruct (split_slash_cons s) as [h [t Es]]. rewrite Es in *.
    rewrite concat_cons, IH. reflexivity.
  - destruct (split_slash_cons s) as [h [t Es]]. rewrite Es in *.
    destruct t as [| t1 t2].
    + cbn in IH. subst h. reflexivity.
    + rewrite concat_cons in *. rewrite <- IH. reflexivity.
Qed.

Lemma split_slash_concat l :
  l <> [] -> Forall (fun p => no_slash p = true) l ->
  split_slash (String.concat "/" l) = l.
Proof.
  induction l as [| x l IH]; intros N F; [congruence |].
  inversion F as [| y l' Hx Hl]; subst.
  destruct l as [| y l].
  - apply split_slash_name. exact Hx.
  - rewrite concat_cons, split_slash_app, (split_slash_name x Hx),
      IH by (congruence || exact Hl).
    reflexivity.
Qed.

Lemma clean_pieces_plain rooted ps :
  existsb (String.eqb "..") ps = false ->
  forall out, clean_pieces rooted out ps = (rev out ++ filter proper ps)%list.
Proof.
  induction ps as [| p ps IH]; intros H out; cbn [clean_pieces filter].
  - rewrite app_nil_r. reflexivity.
  - cbn [existsb] in H. apply orb_false_iff in H. destruct H as [Hp H].
    unfold proper at 1. destruct ((p =? "")%string || (p =? ".")%string); cbn [negb].
    + apply IH. exact H.
    + rewrite String.eqb_sym in Hp. rewrite Hp. rewrite IH by exact H.
      cbn [rev]. rewrite <- app_assoc. reflexivity.
Qed.

Lemma resolve_plain p :
  no_dotdot p = true -> resolve p = filter proper (split_slash p).
Proof.
  unfold no_dotdot, resolve. intros H. apply negb_true_iff in H.
  rewrite (clean_pieces_plain true _ H). reflexivity.
Qed.

Lemma existsb_app_false {A} (f : A -> bool) l1 l2 :
  existsb f l1 = false -> existsb f l2 = false -> existsb f (l1 ++ l2) = false.
Proof. intros H1 H2. rewrite existsb_app, H1, H2. reflexivity. Qed.

Lemma existsb_filter_false {A} (f p : A -> bool) l :
  existsb f l = false -> existsb f (filter p l) = false.
Proof.
  induction l as [| x l IH]; cbn; [auto |]. intros H.
  apply orb_false_iff in H. destruct H as [Hx H].
  destruct (p x); cbn; [rewrite Hx |]; auto.
Qed.

Lemma filter_proper_twice l : filter proper (filter proper l) = filter proper l.
Proof.
  induction l as [| x l IH]; cbn; [reflexivity |].
  destruct (proper x) eqn:E; cbn; [rewrite E, IH |]; auto.
Qed.

Lemma forall_filter {A} (P : A -> Prop) (p : A -> bool) l :
  Forall P l -> Forall P (filter p l).
Proof.
  induction 1 as [| x l Hx Hl IH]; cbn; [constructor |].
  destruct (p x); [constructor |]; assumption.
Qed.

(** Without [..], the elements of a cleaned path are the proper elements
    of the path. *)
Lemma split_slash_Clean x :
  no_dotdot x = true ->
  filter proper (split_slash (Clean x)) = filter proper (split_slash x) /\
  no_dotdot (Clean x) = true.
Proof.
  intros H. unfold no_dotdot in *. apply negb_true_iff in H.
  unfold Clean. rewrite (clean_pieces_plain _ _ H). cbn [rev app].
  remember (filter proper (split_slash x)) as l eqn:El.
  assert (Fl : Forall (fun p => no_slash p = true) l)
    by (subst l; apply forall_filter, split_slash_no_slash).
  assert (Dl : existsb (String.eqb "..") l = false)
    by (subst l; apply existsb_filter_false; exact H).
  assert (Pl : filter proper l = l) by (subst l; apply filter_proper_twice).
  clear El. destruct l as [| a l].
  - destruct (is_rooted x); cbn; auto.
  - assert (Sl : split_slash (String.concat "/" (a :: l)) = a :: l)
      by (apply split_slash_concat; [discriminate | exact Fl]).
    destruct (is_rooted x).
    + change ("/" ++ String.concat "/" (a :: l))
        with ("" ++ "/" ++ String.concat "/" (a :: l)).
      rewrite split_slash_app, Sl.
      change (split_slash "") with [""]. cbn [app].
      change (filter proper ("" :: a :: l)) with (filter proper (a :: l)).
      rewrite Pl. split; [reflexivity |].
      change (existsb (String.eqb "..") ("" :: a :: l))
        with (existsb (String.eqb "..") (a :: l)).
      apply negb_true_iff. exact Dl.
    + destruct (String.concat "/" (a :: l) =? "")%string eqn:Eb.
      * apply String.eqb_eq in Eb. rewrite Eb in Sl. cbn in Sl.
        injection Sl as <- <-. cbn in Pl. discriminate.
      * rewrite Sl, Pl. split; [reflexivity |]. apply negb_true_iff. exact Dl.
Qed.

Lemma plain_name_parts f :
  plain_name f = true ->
  f <> "" /\ proper f = true /\ (".." =? f)%string = false /\ no_slash f = true.
Proof.
  unfold plain_name, proper. intros H.
  apply andb_true_iff in H. destruct H as [H H4].
  apply andb_true_iff in H. destruct H as [H H3].
  apply andb_true_iff in H. destruct H as [H1 H2].
  apply negb_true_iff in H1, H2, H3.
  split; [intros ->; discriminate |].
  split; [rewrite H1, H2; reflexivity |].
  split; [rewrite String.eqb_sym; exact H3 | exact H4].
Qed.

Lemma no_dotdot_join d f :
  no_dotdot d = true -> plain_name f = true -> no_dotdot (d ++ "/" ++ f) = true.
Proof.
  intros Hd Hf. destruct (plain_name_parts f Hf) as (_ & _ & D & S).
  unfold no_dotdot in *. rewrite split_slash_app, (split_slash_name f S).
  apply negb_true_iff. apply negb_true_iff in Hd.
  apply existsb_app_false; [exact Hd |]. cbn [existsb]. rewrite D. reflexivity.
Qed.

Lemma resolve_join d f :
  no_dotdot d = true -> plain_name f = true ->
  resolve (d ++ "/" ++ f) = (resolve d ++ [f])%list.
Proof.
  intros Hd Hf. rewrite (resolve_plain _ (no_dotdot_join d f Hd Hf)),
                        (resolve_plain d Hd).
  destruct (plain_name_parts f Hf) as (_ & P & _ & S).
  rewrite split_slash_app, (split_slash_name f S), filter_app. cbn [filter].
  rewrite P. reflexivity.
Qed.

Lemma Base_join d f : plain_name f = true -> Base (d ++ "/" ++ f) = f.
Proof.
  intros Hf. destruct (plain_name_parts f Hf) as (N & _ & _ & S).
  unfold Base.
  destruct (d ++ "/" ++ f =? "")%string eqn:E.
  - apply String.eqb_eq in E. destruct d; discriminate.
  - rewrite split_slash_app, (split_slash_name f S), rev_app_distr. cbn [rev app find].
    destruct (f =? "")%string eqn:Ef; [apply String.eqb_eq in Ef; contradiction |].
    reflexivity.
Qed.

Lemma Dir_join d f : no_slash f = true -> Dir (d ++ "/" ++ f) = Clean (d ++ "/").
Proof.
  intros S. unfold Dir.
  rewrite split_slash_app, (split_slash_name f S), rev_app_distr. cbn [rev app].
  destruct (split_slash_cons d) as [h [t Ed]].
  destruct (rev (split_slash d)) as [| x before] eqn:Er.
  - apply (f_equal (@rev string)) in Er. rewrite rev_involutive, Ed in Er.
    discriminate.
  - rewrite <- Er, rev_involutive, concat_split_slash. reflexivity.
Qed.

Lemma append_assoc (a b c : string) : (a ++ b) ++ c = a ++ b ++ c.
Proof. induction a as [| x a IH]; cbn; [reflexivity | rewrite IH; reflexivity]. Qed.

Lemma no_dotdot_slash d : no_dotdot d = true -> no_dotdot (d ++ "/") = true.
Proof.
  intros Hd. unfold no_dotdot in *. change (d ++ "/") with (d ++ "/" ++ "").
  rewrite split_slash_app. apply negb_true_iff. apply negb_true_iff in Hd.
  apply existsb_app_false; [exact Hd | reflexivity].
Qed.

Lemma resolve_Clean_slash d :
  no_dotdot d = true ->
  resolve (Clean (d ++ "/")) = resolve d /\ no_dotdot (Clean (d ++ "/")) = true.
Proof.
  intros Hd. destruct (split_slash_Clean _ (no_dotdot_slash d Hd)) as [E N].
  split; [| exact N].
  rewrite (resolve_plain _ N), (resolve_plain d Hd), E.
  change (d ++ "/") with (d ++ "/" ++ "").
  rewrite split_slash_app, filter_app. cbn [split_slash filter].
  change (proper "") with false. cbn. apply app_nil_r.
Qed.

(** The path that the file functions open, for a file [f] in [d]. *)
Lemma normalised_join d f :
  no_dotdot d = true -> plain_name f = true ->
  resolve (ToSlash (Dir (d ++ "/" ++ f)) ++ "/" ++ Base (d ++ "/" ++ f))
  = (resolve d ++ [f])%list.
Proof.
  intros Hd Hf. destruct (plain_name_parts f Hf) as (_ & _ & _ & S).
  rewrite (Base_join d f Hf), (Dir_join d f S). unfold ToSlash.
  destruct (resolve_Clean_slash d Hd) as [E N].
  rewrite (resolve_join _ f N Hf), E. reflexivity.
Qed.

Lemma Dir_Base_name f :
  plain_name f = true -> Dir f = "." /\ Base f = f.
Proof.
  intros Hf. destruct (plain_name_parts f Hf) as (N & _ & _ & S).
  unfold Dir, Base. rewrite (split_slash_name f S). cbn [rev app find].
  destruct (f =? "")%string eqn:E; [apply String.eqb_eq in E; contradiction |].
  split; reflexivity.
Qed.

Lemma Dir_Base_trailing d f :
  plain_name f = true ->
  Dir (d ++ "/" ++ f ++ "/") = Clean ((d ++ "/" ++ f) ++ "/") /\
  Base (d ++ "/" ++ f ++ "/") = f.
Proof.
  intros Hf. destruct (plain_name_parts f Hf) as (N & _ & _ & S).
  assert (Es : split_slash (d ++ "/" ++ f ++ "/") = (split_slash d ++ [f; ""])%list).
  { rewrite split_slash_app. change (f ++ "/") with (f ++ "/" ++ "").
    rewrite split_slash_app, (split_slash_name f S). reflexivity. }
  unfold Dir, Base. rewrite Es, rev_app_distr. cbn [rev app find].
  split.
  - destruct (split_slash_cons d) as [h [t Ed]].
    destruct (rev (split_slash d)) as [| x before] eqn:Er.
    + apply (f_equal (@rev string)) in Er. rewrite rev_involutive, Ed in Er.
      discriminate.
    + rewrite <- Er.
      change (rev (f :: rev (split_slash d)))
        with (rev (rev (split_slash d)) ++ [f])%list.
      rewrite rev_involutive, <- (split_slash_name f S), <- split_slash_app,
        concat_split_slash. reflexivity.
  - destruct (d ++ "/" ++ f ++ "/" =? "")%string eqn:E.
    + apply String.eqb_eq in E. destruct d; discriminate.
    + cbn [String.eqb negb].
      destruct (f =? "")%string eqn:Ef; [apply String.eqb_eq in Ef; contradiction |].
      reflexivity.
Qed.

(** X17. The path the file functions work on. [DownloadFile],
    [RemoveFile], [MakeExport] and [MakeBackup] replace the path they are
    given by [Dir(path) + "/" + Base(path)]. For a file [f] of a directory
    [d] (no element [..]) this names the same entry as [d/f], and for a bare
    name [f] the entry [f]; but a path with a trailing slash is turned into
    another one: [d/f/] becomes [d/f/f]. *)
Theorem path_normalisation (d f : string) :
  no_dotdot d = true -> plain_name f = true ->
  resolve (ToSlash (Dir (d ++ "/" ++ f)) ++ "/" ++ Base (d ++ "/" ++ f))
  = resolve (d ++ "/" ++ f) /\
  resolve (d ++ "/" ++ f) = (resolve d ++ [f])%list /\
  resolve (ToSlash (Dir f) ++ "/" ++ Base f) = resolve f /\
  resolve f = [f] /\
  resolve (ToSlash (Dir (d ++ "/" ++ f ++ "/")) ++ "/" ++ Base (d ++ "/" ++ f ++ "/"))
  = (resolve d ++ [f; f])%list /\
  resolve (d ++ "/" ++ f ++ "/") = (resolve d ++ [f])%list.
Proof.
  intros Hd Hf. pose proof (plain_name_parts f Hf) as (N & P & D & S).
  assert (Rf : resolve f = [f]).
  { unfold resolve. rewrite (split_slash_name f S).
    rewrite clean_pieces_plain by (cbn [existsb]; rewrite D; reflexivity).
    cbn [rev app filter]. rewrite P. reflexivity. }
  split; [rewrite normalised_join, resolve_join; auto |].
  split; [apply resolve_join; assumption |].
  split; [| split; [exact Rf | split]].
  - destruct (Dir_Base_name f Hf) as [-> ->]. unfold ToSlash.
    rewrite (resolve_join "." f eq_refl Hf), Rf. reflexivity.
  - destruct (Dir_Base_trailing d f Hf) as [-> ->]. unfold ToSlash.
    destruct (resolve_Clean_slash _ (no_dotdot_join d f Hd Hf)) as [E Nc].
    rewrite (resolve_join _ f Nc Hf), E, (resolve_join d f Hd Hf), <- app_assoc.
    reflexivity.
  - replace (d ++ "/" ++ f ++ "/") with ((d ++ "/" ++ f) ++ "/" ++ "")
      by (rewrite !append_assoc; reflexivity).
    rewrite (resolve_plain ((d ++ "/" ++ f) ++ "/" ++ "")).
    + rewrite split_slash_app, filter_app. cbn [split_slash filter].
      change (proper "") with false. cbn [app]. rewrite app_nil_r.
      rewrite <- (resolve_plain _ (no_dotdot_join d f Hd Hf)).
      apply resolve_join; assumption.
    + exact (no_dotdot_slash _ (no_dotdot_join d f Hd Hf)).
Qed.

Lemma path_normalisation_witness :
  resolve (ToSlash (Dir ("/backup" ++ "/" ++ "r1.rsc")) ++ "/"
           ++ Base ("/backup" ++ "/" ++ "r1.rsc"))
  = resolve ("/backup" ++ "/" ++ "r1.rsc") /\
  resolve ("/backup" ++ "/" ++ "r1.rsc") = (resolve "/backup" ++ ["r1.rsc"])%list /\
  resolve (ToSlash (Dir "r1.rsc") ++ "/" ++ Base "r1.rsc") = resolve "r1.rsc" /\
  resolve "r1.rsc" = ["r1.rsc"] /\
  resolve (ToSlash (Dir ("/backup" ++ "/" ++ "r1.rsc" ++ "/")) ++ "/"
           ++ Base ("/backup" ++ "/" ++ "r1.rsc" ++ "/"))
  = (resolve "/backup" ++ ["r1.rsc"; "r1.rsc"])%list /\
  resolve ("/backup" ++ "/" ++ "r1.rsc" ++ "/") = (resolve "/backup" ++ ["r1.rsc"])%list.
Proof.
  apply (path_normalisation "/backup" "r1.rsc"); reflexivity.
Defined.

(** ** The download of a directory of files *)

Lemma sftp_ReadDir_ok h p s s' files :
  sftp_ReadDir h p s = (s', Ok files) ->
  same_world s s' /\ files = fs_children (remote_fs (device s)) (resolve p).
Proof.
  intros H. unfold sftp_ReadDir in H. file_call H. unfold tree_ReadDir in H.
  destruct (fs_is_dir _ _); [| discriminate]. injection H as <- <-.
  rewrite with_remote_fs_same. repeat split.
Qed.

Lemma returns_DownloadFile host pathSrc dirDst delete :
  returns (DownloadFile host pathSrc dirDst delete).
Proof.
  unfold DownloadFile.
  apply returns_bind; [apply returns_GetConnectionSFTP | intros ?].
  unfold sftp_Open, os_MkdirAll, os_Create, io_CopyDown, os_Sync, sftp_FileClose,
    sftp_Remove, os_Close.
  destruct delete; back.
Qed.

(** The loop of [DownloadFolder] over a listing without directories, the
    files being removed once copied. *)
Lemma download_files host dirSrc dirDst fuel files :
  no_dotdot dirSrc = true -> no_dotdot dirDst = true ->
  Forall (fun e => snd e = false /\ plain_name (fst e) = true) files ->
  forall s s' r,
    for_range files (fun file =>
      if snd file
      then DownloadFolder fuel host (dirSrc ++ fst file) (dirDst ++ fst file) true
      else DownloadFile host (dirSrc ++ "/" ++ fst file) dirDst true) s = (s', r) ->
    (forall w, r <> Abort w) /\
    (r = Ok tt ->
     (forall name, In name (map fst files) ->
        exists data,
          fs_lookup (remote_fs (device s)) (resolve dirSrc ++ [name])%list
          = Some (NFile data) /\
          fs_lookup (local_fs s') (resolve dirDst ++ [name])%list
          = Some (NFile data) /\
          fs_lookup (remote_fs (device s')) (resolve dirSrc ++ [name])%list = None) /\
     (forall k, (forall name, In name (map fst files) ->
                              k <> (resolve dirSrc ++ [name])%list) ->
                fs_lookup (remote_fs (device s')) k
                = fs_lookup (remote_fs (device s)) k) /\
     (forall k n, (forall name, In name (map fst files) ->
                                k <> (resolve dirDst ++ [name])%list) ->
                  fs_lookup (local_fs s) k = Some n ->
                  fs_lookup (local_fs s') k = Some n)).
Proof.
  intros Hs Hd F. induction F as [| [name isdir] files [Hf Hp] F IH];
    intros s s' r H; cbn [for_range] in H.
  - unfold ret in H. injection H as <- <-. split; [discriminate |]. intros _.
    split; [intros name [] |]. split; auto.
  - cbn [fst snd] in *. subst isdir. apply bind_inv in H.
    destruct H as [[s1 [a [E1 H]]] | [[e [E1 ->]] | [w [E1 ->]]]].
    2: { split; [discriminate | discriminate]. }
    2: { destruct (returns_DownloadFile _ _ _ _ _ _ _ E1). }
    destruct a. destruct (IH _ _ _ H) as [NA Rest]. split; [exact NA |].
    intros ->. destruct (Rest eq_refl) as (Each & Other & Local).
    apply DownloadFile_ok in E1.
    rewrite (normalised_join dirSrc name Hs Hp), (Base_join dirSrc name Hp),
      (resolve_join dirDst name Hd Hp) in E1.
    destruct E1 as [data [X1 [Y1 [R1 K1]]]].
    assert (Gone : fs_lookup (remote_fs (device s1)) (resolve dirSrc ++ [name])%list
                   = None) by (rewrite R1; apply fs_lookup_delete_same).
    assert (Fresh : ~ In name (map fst files)).
    { intros Hin. destruct (Each name Hin) as [d' [X _]]. congruence. }
    split; [| split].
    + intros n [<- | Hin].
      * exists data. split; [exact X1 |]. split.
        -- apply Local; [| exact Y1]. intros n Hn E.
           apply app_inj_tail in E. destruct E as [_ <-]. exact (Fresh Hn).
        -- rewrite Other; [exact Gone |]. intros n Hn E.
           apply app_inj_tail in E. destruct E as [_ <-]. exact (Fresh Hn).
      * destruct (Each n Hin) as [d' [X [Y Z]]]. exists d'.
        split; [| split; assumption].
        rewrite R1 in X. rewrite fs_lookup_delete_other in X; [exact X |].
        intros E. apply app_inj_tail in E. destruct E as [_ ->]. exact (Fresh Hin).
    + intros k Hk. rewrite Other by (intros n Hn; apply Hk; right; exact Hn).
      rewrite R1. apply fs_lookup_delete_other. apply Hk. left. reflexivity.
    + intros k n Hk L. apply Local; [intros m Hm; apply Hk; right; exact Hm |].
      apply K1; [apply Hk; left; reflexivity | exact L].
Qed.

(** X18. The download of a directory that holds files only, removing them,
    as the cycle calls it on the backup directory. It needs no recursion,
    whatever the bound on it. When it returns nil, every file listed in the
    directory is now local, under its own name in [dirDst] and with its
    content, and is gone from the device; no other remote entry and no
    other local entry has changed. *)
Theorem DownloadFolder_files_only (fuel : nat) (host : THost)
        (dirSrc dirDst : string) (s s' : State) (r : res unit) :
  no_dotdot dirSrc = true -> no_dotdot dirDst = true ->
  Forall (fun e => snd e = false /\ plain_name (fst e) = true)
         (fs_children (remote_fs (device s)) (resolve dirSrc)) ->
  DownloadFolder (S fuel) host dirSrc dirDst true s = (s', r) ->
  (forall w, r <> Abort w) /\
  (r = Ok tt ->
   (forall name,
       In name (map fst (fs_children (remote_fs (device s)) (resolve dirSrc))) ->
       exists data,
         fs_lookup (remote_fs (device s)) (resolve dirSrc ++ [name])%list
         = Some (NFile data) /\
         fs_lookup (local_fs s') (resolve dirDst ++ [name])%list
         = Some (NFile data) /\
         fs_lookup (remote_fs (device s')) (resolve dirSrc ++ [name])%list = None) /\
   (forall k,
       (forall name,
           In name (map fst (fs_children (remote_fs (device s)) (resolve dirSrc))) ->
           k <> (resolve dirSrc ++ [name])%list) ->
       fs_lookup (remote_fs (device s')) k = fs_lookup (remote_fs (device s)) k) /\
   (forall k n,
       (forall name,
           In name (map fst (fs_children (remote_fs (device s)) (resolve dirSrc))) ->
           k <> (resolve dirDst ++ [name])%list) ->
       fs_lookup (local_fs s) k = Some n -> fs_lookup (local_fs s') k = Some n)).
Proof.
  intros Hs Hd F H. cbn [DownloadFolder] in H.
  apply bind_inv in H.
  destruct H as [[s0 [h [E0 H]]] | [[e [E0 ->]] | [w [E0 ->]]]].
  2: { split; discriminate. }
  2: { destruct (returns_GetConnectionSFTP _ _ _ _ E0). }
  destruct (same_world_GetConnectionSFTP host _ _ _ E0) as (D0 & L0 & _).
  apply bind_inv in H.
  destruct H as [[s1 [files [E1 H]]] | [[e [E1 ->]] | [w [E1 ->]]]].
  2: { split; discriminate. }
  2: { destruct (extern_abort _ _ _ _ _ E1). }
  apply sftp_ReadDir_ok in E1. destruct E1 as [(D1 & L1 & _) ->].
  assert (Ds : device s1 = device s) by congruence.
  assert (Ls : local_fs s1 = local_fs s) by congruence.
  rewrite D0 in H. rewrite <- Ds in *. rewrite <- Ls.
  exact (download_files host dirSrc dirDst fuel _ Hs Hd F _ _ _ H).
Qed.

Lemma DownloadFolder_files_only_witness :
  (forall w, snd (DownloadFolder 1 host_full "/backup" "/srv/r1/" true world_backup)
             <> Abort w) /\
  (snd (DownloadFolder 1 host_full "/backup" "/srv/r1/" true world_backup) = Ok tt ->
   (forall name,
       In name (map fst (fs_children (remote_fs (device world_backup))
                                     (resolve "/backup"))) ->
       exists data,
         fs_lookup (remote_fs (device world_backup)) (resolve "/backup" ++ [name])%list
         = Some (NFile data) /\
         fs_lookup (local_fs (fst (DownloadFolder 1 host_full "/backup" "/srv/r1/"
                                                  true world_backup)))
                   (resolve "/srv/r1/" ++ [name])%list
         = Some (NFile data) /\
         fs_lookup (remote_fs (device (fst (DownloadFolder 1 host_full "/backup"
                                                           "/srv/r1/" true
                                                           world_backup))))
                   (resolve "/backup" ++ [name])%list = None) /\
   (forall k,
       (forall name,
           In name (map fst (fs_children (remote_fs (device world_backup))
                                         (resolve "/backup"))) ->
           k <> (resolve "/backup" ++ [name])%list) ->
       fs_lookup (remote_fs (device (fst (DownloadFolder 1 host_full "/backup"
                                                         "/srv/r1/" true
                                                         world_backup)))) k
       = fs_lookup (remote_fs (device world_backup)) k) /\
   (forall k n,
       (forall name,
           In name (map fst (fs_children (remote_fs (device world_backup))
                                         (resolve "/backup"))) ->
           k <> (resolve "/srv/r1/" ++ [name])%list) ->
       fs_lookup (local_fs world_backup) k = Some n ->
       fs_lookup (local_fs (fst (DownloadFolder 1 host_full "/backup" "/srv/r1/"
                                                true world_backup))) k
       = Some n)).
Proof.
  apply (DownloadFolder_files_only 0 host_full "/backup" "/srv/r1/" world_backup).
  - reflexivity.
  - reflexivity.
  - repeat constructor.
  - apply surjective_pairing.
Defined.

(** The backup directory of the example: both files arrive, the directory
    is left empty. *)
Example DownloadFolder_backup_directory :
  snd (DownloadFolder 1 host_full "/backup" "/srv/r1/" true world_backup) = Ok tt /\
  fs_files (local_fs (fst (DownloadFolder 1 host_full "/backup" "/srv/r1/" true
                                          world_backup)))
  = [(["srv"; "r1"; "r1.backup"], "binary"); (["srv"; "r1"; "r1.rsc"], "/export")] /\
  remote_fs (device (fst (DownloadFolder 1 host_full "/backup" "/srv/r1/" true
                                         world_backup)))
  = [(["backup"], NDir)].
Proof. vm_compute. repeat split; reflexivity. Qed.

(** ** The backup directory and the removal of a file *)

Lemma sftp_MkdirAll_ok h p s s' :
  sftp_MkdirAll h p s = (s', Ok tt) ->
  local_fs s' = local_fs s /\
  fs_mkdir_all (remote_fs (device s)) [] (resolve p) = Some (remote_fs (device s')).
Proof.
  intros H. unfold sftp_MkdirAll in H. file_call H. unfold tree_MkdirAll in H.
  destruct (fs_mkdir_all _ _ _) as [fs' |]; injection H as <-; try discriminate.
  split; reflexivity.
Qed.

Lemma sftp_MkdirAll_err h p s s' e :
  sftp_MkdirAll h p s = (s', Err e) -> same_world s s'.
Proof.
  intros H. unfold sftp_MkdirAll in H. file_call H; [repeat split |].
  unfold tree_MkdirAll in H.
  destruct (fs_mkdir_all _ _ _) as [fs' |]; injection H as <-; try discriminate.
  rewrite with_remote_fs_same. repeat split.
Qed.

(** X19. [MakeBackupFolder] makes the backup directory of the host and
    nothing else. When it returns nil the directory exists on the device
    (so the listing at the start of the download finds it), whatever
    existed before is still there, unchanged, and nothing local has
    changed; when it fails the remote tree is as before. A host without a
    backup folder makes no call at all. *)
Theorem MakeBackupFolder_makes (host : THost) (s s' : State) (r : res unit) :
  MakeBackupFolder host s = (s', r) ->
  local_fs s' = local_fs s /\
  (forall k n, fs_lookup (remote_fs (device s)) k = Some n ->
               fs_lookup (remote_fs (device s')) k = Some n) /\
  (r = Ok tt ->
   fs_is_dir (remote_fs (device s')) (resolve (host_BackupFolder host)) = true /\
   tree_ReadDir (remote_fs (device s')) (host_BackupFolder host)
   = inr (fs_children (remote_fs (device s')) (resolve (host_BackupFolder host)))) /\
  (r <> Ok tt -> remote_fs (device s') = remote_fs (device s)) /\
  (host_BackupFolder host = "" -> s' = s /\ r = Ok tt).
Proof.
  intros H. unfold MakeBackupFolder in H.
  destruct (host_BackupFolder host =? "")%string eqn:E; cbn [negb] in H.
  - apply String.eqb_eq in E. unfold ret in H. injection H as <- <-.
    rewrite E. repeat split; auto; try congruence.
  - assert (N : host_BackupFolder host <> "") by (apply String.eqb_neq; exact E).
    unfold MakeDir in H. next H E0 t0.
    2: { destruct (same_world_GetConnectionSFTP host _ _ _ E0) as (D0 & L0 & _).
         rewrite D0, L0. subst r.
         repeat split; auto; try discriminate; try congruence. }
    2: { destruct (returns_GetConnectionSFTP _ _ _ _ E0). }
    destruct (same_world_GetConnectionSFTP host _ _ _ E0) as (D0 & L0 & _).
    destruct r as [[] | e | w].
    + apply sftp_MkdirAll_ok in H. destruct H as [L1 M]. rewrite D0 in M.
      assert (Dir : fs_is_dir (remote_fs (device s')) (resolve (host_BackupFolder host))
                    = true)
        by exact (fs_mkdir_all_dir _ _ [] _ eq_refl M).
      split; [congruence |].
      split; [intros k n; apply (fs_mkdir_all_keeps _ _ _ _ _ _ M) |].
      split; [intros _; split; [exact Dir | unfold tree_ReadDir; rewrite Dir;
                                            reflexivity] |].
      split; [congruence | intros X; contradiction].
    + apply sftp_MkdirAll_err in H. destruct H as (D1 & L1 & _).
      rewrite D1, D0, L1, L0.
      repeat split; auto; try discriminate; try congruence.
    + destruct (extern_abort _ _ _ _ _ H).
Qed.

Lemma MakeBackupFolder_makes_witness :
  local_fs (fst (MakeBackupFolder host_full world_all_well)) = local_fs world_all_well /\
  (forall k n, fs_lookup (remote_fs (device world_all_well)) k = Some n ->
               fs_lookup (remote_fs (device (fst (MakeBackupFolder host_full
                                                                   world_all_well)))) k
               = Some n) /\
  (snd (MakeBackupFolder host_full world_all_well) = Ok tt ->
   fs_is_dir (remote_fs (device (fst (MakeBackupFolder host_full world_all_well))))
             (resolve (host_BackupFolder host_full)) = true /\
   tree_ReadDir (remote_fs (device (fst (MakeBackupFolder host_full world_all_well))))
                (host_BackupFolder host_full)
   = inr (fs_children (remote_fs (device (fst (MakeBackupFolder host_full
                                                                world_all_well))))
                      (resolve (host_BackupFolder host_full)))) /\
  (snd (MakeBackupFolder host_full world_all_well) <> Ok tt ->
   remote_fs (device (fst (MakeBackupFolder host_full world_all_well)))
   = remote_fs (device world_all_well)) /\
  (host_BackupFolder host_full = "" ->
   fst (MakeBackupFolder host_full world_all_well) = world_all_well /\
   snd (MakeBackupFolder host_full world_all_well) = Ok tt).
Proof.
  apply (MakeBackupFolder_makes host_full world_all_well).
  apply surjective_pairing.
Defined.

Lemma sftp_Remove_any h p s s' r :
  sftp_Remove h p s = (s', r) ->
  local_fs s' = local_fs s /\
  (r = Ok tt ->
   remote_fs (device s') = fs_delete (remote_fs (device s)) (resolve p) /\
   (exists data, fs_lookup (remote_fs (device s)) (resolve p) = Some (NFile data)) \/
   (fs_lookup (remote_fs (device s)) (resolve p) = Some NDir /\
    fs_children (remote_fs (device s)) (resolve p) = [] /\
    remote_fs (device s') = fs_delete (remote_fs (device s)) (resolve p))) /\
  (r <> Ok tt -> remote_fs (device s') = remote_fs (device s)) /\
  (fs_lookup (remote_fs (device s)) (resolve p) = None -> exists e, r = Err e).
Proof.
  intros H. destruct r as [[] | e | w].
  - unfold sftp_Remove in H. file_call H. unfold tree_Remove in H.
    destruct (fs_lookup _ _) as [[| data] |] eqn:L.
    + destruct (fs_children _ _) eqn:C; injection H as <-; try discriminate.
      split; [reflexivity |]. split; [intros _; right; auto |].
      split; [congruence | discriminate].
    + injection H as <-. split; [reflexivity |].
      split; [intros _; left; split; [reflexivity | eauto] |].
      split; [congruence | discriminate].
    + injection H as <-. discriminate.
  - apply sftp_Remove_err in H. destruct H as [L R].
    split; [exact L |]. split; [discriminate |]. split; [auto | eauto].
  - destruct (extern_abort _ _ _ _ _ H).
Qed.

(** X20. [RemoveFile] on a file [f] of a directory [d] (no element [..])
    removes the entry [d/f] and no other: when it returns nil the entry is
    gone, it was a file or a directory without entries, and every other
    entry is as before; when it fails the remote tree is as before, and it
    does fail when there is no such entry. Nothing local changes. *)
Theorem RemoveFile_removes (host : THost) (d f : string) (s s' : State)
        (r : res unit) :
  no_dotdot d = true -> plain_name f = true ->
  RemoveFile host (d ++ "/" ++ f) s = (s', r) ->
  local_fs s' = local_fs s /\
  (r = Ok tt ->
   fs_lookup (remote_fs (device s')) (resolve d ++ [f])%list = None /\
   (forall k, k <> (resolve d ++ [f])%list ->
              fs_lookup (remote_fs (device s')) k
              = fs_lookup (remote_fs (device s)) k) /\
   ((exists data, fs_lookup (remote_fs (device s)) (resolve d ++ [f])%list
                  = Some (NFile data)) \/
    (fs_lookup (remote_fs (device s)) (resolve d ++ [f])%list = Some NDir /\
     fs_children (remote_fs (device s)) (resolve d ++ [f])%list = []))) /\
  (r <> Ok tt -> remote_fs (device s') = remote_fs (device s)) /\
  (fs_lookup (remote_fs (device s)) (resolve d ++ [f])%list = None ->
   exists e, r = Err e).
Proof.
  intros Hd Hf H. unfold RemoveFile in H. next H E0 t0.
  2: { destruct (same_world_GetConnectionSFTP host _ _ _ E0) as (D0 & L0 & _).
       rewrite D0, L0. subst r.
       repeat split; auto; try discriminate; eauto. }
  2: { destruct (returns_GetConnectionSFTP _ _ _ _ E0). }
  destruct (same_world_GetConnectionSFTP host _ _ _ E0) as (D0 & L0 & _).
  apply sftp_Remove_any in H. rewrite (normalised_join d f Hd Hf), D0 in H.
  destruct H as (L & Ok1 & Er & Miss).
  split; [congruence |]. split; [| split; [exact Er | exact Miss]].
  intros R. destruct (Ok1 R) as [[Del X] | [X [C Del]]]; rewrite Del.
  - split; [apply fs_lookup_delete_same |].
    split; [intros k Hk; apply fs_lookup_delete_other; exact Hk | left; exact X].
  - split; [apply fs_lookup_delete_same |].
    split; [intros k Hk; apply fs_lookup_delete_other; exact Hk | right; auto].
Qed.

Lemma RemoveFile_removes_witness :
  local_fs (fst (RemoveFile host_full ("/backup" ++ "/" ++ "r1.rsc") world_backup))
  = local_fs world_backup /\
  (snd (RemoveFile host_full ("/backup" ++ "/" ++ "r1.rsc") world_backup) = Ok tt ->
   fs_lookup (remote_fs (device (fst (RemoveFile host_full
                                                 ("/backup" ++ "/" ++ "r1.rsc")
                                                 world_backup))))
             (resolve "/backup" ++ ["r1.rsc"])%list = None /\
   (forall k, k <> (resolve "/backup" ++ ["r1.rsc"])%list ->
              fs_lookup (remote_fs (device (fst (RemoveFile host_full
                                                            ("/backup" ++ "/" ++ "r1.rsc")
                                                            world_backup)))) k
              = fs_lookup (remote_fs (device world_backup)) k) /\
   ((exists data, fs_lookup (remote_fs (device world_backup))
                            (resolve "/backup" ++ ["r1.rsc"])%list
                  = Some (NFile data)) \/
    (fs_lookup (remote_fs (device world_backup)) (resolve "/backup" ++ ["r1.rsc"])%list
     = Some NDir /\
     fs_children (remote_fs (device world_backup)) (resolve "/backup" ++ ["r1.rsc"])%list
     = []))) /\
  (snd (RemoveFile host_full ("/backup" ++ "/" ++ "r1.rsc") world_backup) <> Ok tt ->
   remote_fs (device (fst (RemoveFile host_full ("/backup" ++ "/" ++ "r1.rsc")
                                      world_backup)))
   = remote_fs (device world_backup)) /\
  (fs_lookup (remote_fs (device world_backup)) (resolve "/backup" ++ ["r1.rsc"])%list
   = None ->
   exists e, snd (RemoveFile host_full ("/backup" ++ "/" ++ "r1.rsc") world_backup)
             = Err e).
Proof.
  apply (RemoveFile_removes host_full "/backup" "r1.rsc" world_backup).
  - reflexivity.
  - reflexivity.
  - apply surjective_pairing.
Defined.

Example RemoveFile_with_trailing_slash :
  snd (RemoveFile host_full "/backup/r1.rsc" world_backup) = Ok tt /\
  snd (RemoveFile host_full "/backup/r1.rsc/" world_backup) = Err file_missing.
Proof. vm_compute. split; reflexivity. Qed.

(** ** A cycle without its backup parameter *)

(** X21. The parameter [dir_backup] is looked up before anything else.
    When it is not set, the cycle fails at once with [param does not
    exist]: no line is logged, no session is opened, no command is sent,
    although only the last step of the cycle uses the parameter; [Run]
    then logs the error and sleeps for the back-off of the task, and that
    is all the pass does: the device is not contacted. *)
Theorem StartManager_needs_dir_backup (Params : TParams) (fuel : nat)
        (host : THost) (s : State) :
  find (fun p => (param_Name p =? "dir_backup")%string) Params = None ->
  StartManager Params fuel host s = (s, Err "param does not exist") /\
  Run_once Params fuel host s
  = (record (CSleep (Int64.mul (task_Expired (host_Task host)) Second)) None
            (with_clock (clock s + Z.max 0 (Int64.mul (task_Expired (host_Task host))
                                                      Second))
                        (record (CLog (tag host ++ "manager error: "
                                       ++ quoted "param does not exist")) None s)),
     Ok tt).
Proof.
  intros H.
  assert (E : StartManager Params fuel host s = (s, Err "param does not exist")).
  { unfold StartManager, Params_GetByName. rewrite H. reflexivity. }
  split; [exact E |]. unfold Run_once, handle. rewrite E. reflexivity.
Qed.

Lemma StartManager_needs_dir_backup_witness :
  StartManager [] 5 host_full world_stale = (world_stale, Err "param does not exist") /\
  Run_once [] 5 host_full world_stale
  = (record (CSleep (Int64.mul (task_Expired (host_Task host_full)) Second)) None
            (with_clock (clock world_stale
                         + Z.max 0 (Int64.mul (task_Expired (host_Task host_full))
                                              Second))
                        (record (CLog (tag host_full ++ "manager error: "
                                       ++ quoted "param does not exist")) None
                                world_stale)),
     Ok tt).
Proof.
  apply (StartManager_needs_dir_backup [] 5 host_full world_stale). reflexivity.
Defined.

(** ** What is sent and what is listed back *)

Lemma word_arg_skip key w rest :
  starts_with ("=" ++ key ++ "=") w = false ->
  word_arg key (w :: rest) = word_arg key rest.
Proof. intros H. unfold word_arg. cbn [find]. rewrite H. reflexivity. Qed.

Ltac words :=
  repeat first
    [ rewrite word_arg_skip by reflexivity
    | match goal with
      | |- context [word_arg ?key ((?pre ++ ?v) :: ?rest)] =>
          change (word_arg key ((pre ++ v) :: rest))
            with (word_arg key ((("=" ++ key ++ "=") ++ v) :: rest));
          rewrite (word_arg_first key v rest)
      end ].

Lemma api_exec_group_add_exact g d :
  api_exec (group_add_sentence g) d
  = if has_group d (group_Name g) then (d, inl already_exists)
    else (with_live_groups (live_groups d ++ [g])%list d, inr []).
Proof.
  transitivity
    ((fun n k c p =>
        if has_group d n then (d, inl already_exists)
        else (with_live_groups (live_groups d ++ [mkGroup n k c p])%list d, inr [])
        : Device * (error + Reply))
       (word_arg "name" (tl (group_add_sentence g)))
       (word_arg "skin" (tl (group_add_sentence g)))
       (word_arg "comment" (tl (group_add_sentence g)))
       (word_arg "policy" (tl (group_add_sentence g)))); [reflexivity |].
  unfold group_add_sentence. cbn [tl]. words. destruct g. reflexivity.
Qed.

Lemma api_exec_user_add_exact u d :
  api_exec (user_add_sentence u) d
  = if has_user d (user_Login u) then (d, inl already_exists)
    else (with_live_users
            (live_users d ++ [mkUser (user_Login u) (user_Pass u) (user_Group u)
                                     (user_Address u) (user_Comment u) "" ""])%list d,
          inr []).
Proof.
  transitivity
    ((fun n p g a c =>
        if has_user d n then (d, inl already_exists)
        else (with_live_users (live_users d ++ [mkUser n p g a c "" ""])%list d,
              inr [])
        : Device * (error + Reply))
       (word_arg "name" (tl (user_add_sentence u)))
       (word_arg "password" (tl (user_add_sentence u)))
       (word_arg "group" (tl (user_add_sentence u)))
       (word_arg "address" (tl (user_add_sentence u)))
       (word_arg "comment" (tl (user_add_sentence u)))); [reflexivity |].
  unfold user_add_sentence. cbn [tl]. words. reflexivity.
Qed.

Lemma api_exec_schedule_add_exact c d :
  api_exec (schedule_add_sentence c) d
  = if has_schedule d (sched_Name c) then (d, inl already_exists)
    else (with_live_schedules
            (live_schedules d
             ++ [mkSchedule (sched_Name c) (sched_Disabled c) (sched_StartDate c)
                            (sched_StartTime c) (sched_Interval c) (sched_Policy c)
                            (sched_Comment c) "" "" (sched_OnEvent c)])%list d,
          inr []).
Proof.
  transitivity
    ((fun n x1 x2 x3 x4 x5 x6 x7 =>
        if has_schedule d n then (d, inl already_exists)
        else (with_live_schedules
                (live_schedules d ++ [mkSchedule n x1 x2 x3 x4 x5 x6 "" "" x7])%list d,
              inr [])
        : Device * (error + Reply))
       (word_arg "name" (tl (schedule_add_sentence c)))
       (word_arg "disabled" (tl (schedule_add_sentence c)))
       (word_arg "start-date" (tl (schedule_add_sentence c)))
       (word_arg "start-time" (tl (schedule_add_sentence c)))
       (word_arg "interval" (tl (schedule_add_sentence c)))
       (word_arg "policy" (tl (schedule_add_sentence c)))
       (word_arg "comment" (tl (schedule_add_sentence c)))
       (word_arg "on-event" (tl (schedule_add_sentence c)))); [reflexivity |].
  unfold schedule_add_sentence. cbn [tl]. words. reflexivity.
Qed.

(** A command sent in a calm world: the session is there, and the answer
    is the device's. *)
Lemma calm_command host sen s s' (r : res Reply) :
  calm s ->
  (connApi <- GetConnectionAPI host ;; api_Run connApi sen) s = (s', r) ->
  device s' = fst (api_exec sen (device s)) /\
  faults s' = faults s /\
  r = match snd (api_exec sen (device s)) with
      | inl e => Err e
      | inr a => Ok a
      end.
Proof.
  intros Hc H. destruct (calm_GetConnectionAPI host s Hc) as [s0 [h E0]].
  destruct (same_world_GetConnectionAPI host _ _ _ E0) as (D0 & _ & _ & F0).
  rewrite (bind_ok _ _ _ _ _ E0) in H.
  rewrite calm_api_Run in H by (intros k; rewrite F0; apply Hc).
  injection H as <- <-. rewrite D0.
  cbn [device faults record with_trace with_device]. auto.
Qed.

Lemma listed_groups host s s' r :
  calm s -> GetGroups host s = (s', r) ->
  r = Ok (live_groups (device s)).
Proof.
  intros Hc H. unfold GetGroups in H.
  destruct (calm_GetConnectionAPI host s Hc) as [s0 [h E0]].
  destruct (same_world_GetConnectionAPI host _ _ _ E0) as (D0 & _ & _ & F0).
  rewrite (bind_ok _ _ _ _ _ E0) in H. unfold bind in H.
  rewrite calm_api_Run in H by (intros k; rewrite F0; apply Hc).
  rewrite api_exec_group_print in H. cbn [fst snd] in H. unfold ret in H.
  injection H as _ <-. rewrite D0, map_map. f_equal.
  rewrite <- (map_id (live_groups (device s))) at 2. apply map_ext.
  intros [n k c p]. reflexivity.
Qed.

(** The accounts are listed without password, alias and key. *)
Lemma listed_users host s s' r :
  calm s -> GetUsers host s = (s', r) ->
  r = Ok (map (fun u => mkUser (user_Login u) "" (user_Group u) (user_Address u)
                               (user_Comment u) "" "")
              (live_users (device s))).
Proof.
  intros Hc H. unfold GetUsers in H.
  destruct (calm_GetConnectionAPI host s Hc) as [s0 [h E0]].
  destruct (same_world_GetConnectionAPI host _ _ _ E0) as (D0 & _ & _ & F0).
  rewrite (bind_ok _ _ _ _ _ E0) in H. unfold bind in H.
  rewrite calm_api_Run in H by (intros k; rewrite F0; apply Hc).
  rewrite api_exec_user_print in H. cbn [fst snd] in H. unfold ret in H.
  injection H as _ <-. rewrite D0, map_map. reflexivity.
Qed.

(** The scheduler entries are listed without their [disabled] flag. *)
Lemma listed_schedules host s s' r :
  calm s -> GetSchedules host s = (s', r) ->
  r = Ok (map (fun c => mkSchedule (sched_Name c) "" (sched_StartDate c)
                                   (sched_StartTime c) (sched_Interval c)
                                   (sched_Policy c) (sched_Comment c) "" ""
                                   (sched_OnEvent c))
              (live_schedules (device s))).
Proof.
  intros Hc H. unfold GetSchedules in H.
  destruct (calm_GetConnectionAPI host s Hc) as [s0 [h E0]].
  destruct (same_world_GetConnectionAPI host _ _ _ E0) as (D0 & _ & _ & F0).
  rewrite (bind_ok _ _ _ _ _ E0) in H. unfold bind in H.
  rewrite calm_api_Run in H by (intros k; rewrite F0; apply Hc).
  rewrite api_exec_schedule_print in H. cbn [fst snd] in H. unfold ret in H.
  injection H as _ <-. rewrite D0, map_map. reflexivity.
Qed.

(** What a creation that returned nil has put on the device. *)
Lemma MakeGroup_ok host group s s' :
  calm s -> MakeGroup host group s = (s', Ok tt) ->
  has_group (device s) (group_Name group) = false /\ calm s' /\
  device s' = with_live_groups (live_groups (device s) ++ [group])%list (device s).
Proof.
  intros Hc H. unfold MakeGroup in H.
  rewrite (bind_ok _ _ _ _ _ (log_run _ _)) in H.
  destruct (calm_GetConnectionAPI host (record (CLog (tag host ++ "adding group "
                                                      ++ quoted (group_Name group)))
                                               None s))
    as [s0 [h E0]]; [intros k; apply Hc |].
  destruct (same_world_GetConnectionAPI host _ _ _ E0) as (D0 & _ & _ & F0).
  cbn [device faults record with_trace] in D0, F0.
  rewrite (bind_ok _ _ _ _ _ E0) in H. unfold bind in H.
  rewrite calm_api_Run in H by (intros k; rewrite F0; apply Hc).
  rewrite api_exec_group_add_exact, D0 in H.
  destruct (has_group (device s) (group_Name group)); cbn [fst snd] in H;
    [discriminate |].
  unfold ret in H. injection H as <-. split; [reflexivity |].
  split; [intros k; cbn; rewrite F0; apply Hc | reflexivity].
Qed.

Lemma MakeSchedule_ok host schedule s s' :
  calm s -> MakeSchedule host schedule s = (s', Ok tt) ->
  has_schedule (device s) (sched_Name schedule) = false /\ calm s' /\
  device s'
  = with_live_schedules
      (live_schedules (device s)
       ++ [mkSchedule (sched_Name schedule) (sched_Disabled schedule)
                      (sched_StartDate schedule) (sched_StartTime schedule)
                      (sched_Interval schedule) (sched_Policy schedule)
                      (sched_Comment schedule) "" "" (sched_OnEvent schedule)])%list
      (device s).
Proof.
  intros Hc H. unfold MakeSchedule in H.
  rewrite (bind_ok _ _ _ _ _ (log_run _ _)) in H.
  destruct (calm_GetConnectionAPI host (record (CLog (tag host ++ "adding schedule "
                                                      ++ quoted (sched_Name schedule)))
                                               None s))
    as [s0 [h E0]]; [intros k; apply Hc |].
  destruct (same_world_GetConnectionAPI host _ _ _ E0) as (D0 & _ & _ & F0).
  cbn [device faults record with_trace] in D0, F0.
  rewrite (bind_ok _ _ _ _ _ E0) in H. unfold handle in H.
  rewrite calm_api_Run in H by (intros k; rewrite F0; apply Hc).
  rewrite api_exec_schedule_add_exact, D0 in H.
  destruct (has_schedule (device s) (sched_Name schedule)); cbn [fst snd] in H.
  - rewrite (bind_ok _ _ _ _ _ (log_run _ _)) in H. discriminate.
  - unfold ret in H. injection H as <-. split; [reflexivity |].
    split; [intros k; cbn; rewrite F0; apply Hc | reflexivity].
Qed.

Lemma MakeUser_ok host user s s' :
  calm s -> MakeUser host user s = (s', Ok tt) ->
  has_user (device s) (user_Login user) = false /\ calm s' /\
  exists pass,
    (user_Pass user <> "" -> pass = user_Pass user) /\
    device s'
    = with_live_users
        (live_users (device s)
         ++ [mkUser (user_Login user) pass (user_Group user) (user_Address user)
                    (user_Comment user) "" ""])%list
        (device s).
Proof.
  intros Hc H. unfold MakeUser in H.
  rewrite (bind_ok _ _ _ _ _ (log_run _ _)) in H.
  set (s0 := record _ None s) in H.
  assert (Hc0 : calm s0) by (intros k; apply Hc).
  assert (St : exists t u,
             (if (user_Pass user =? "")%string
              then pass <- GeneratePassword ;;
                   log_Println (tag host ++ "user " ++ quoted (user_Login user)
                                ++ " password is empty and has been generated") ;;
                   ret (set_Pass user pass)
              else ret user) s0 = (t, Ok u) /\
             device t = device s /\ faults t = faults s /\
             user_Login u = user_Login user /\ user_Group u = user_Group user /\
             user_Address u = user_Address user /\
             user_Comment u = user_Comment user /\
             (user_Pass user <> "" -> user_Pass u = user_Pass user)).
  { destruct (user_Pass user =? "")%string eqn:E.
    - eexists _, _. split; [reflexivity |]. cbn. repeat split.
      apply String.eqb_eq in E. intros N. contradiction.
    - eexists _, _. split; [reflexivity |]. cbn. repeat split. }
  destruct St as [t [u [Et (Dt & Ft & U1 & U2 & U3 & U4 & U5)]]].
  rewrite (bind_ok _ _ _ _ _ Et) in H.
  assert (Hct : calm t) by (intros k; rewrite Ft; apply Hc).
  destruct (calm_GetConnectionAPI host t Hct) as [t0 [h E0]].
  destruct (same_world_GetConnectionAPI host _ _ _ E0) as (D0 & _ & _ & F0).
  rewrite (bind_ok _ _ _ _ _ E0) in H. unfold bind in H.
  rewrite calm_api_Run in H by (intros k; rewrite F0; apply Hct).
  rewrite api_exec_user_add_exact, D0, Dt, U1, U2, U3, U4 in H.
  destruct (has_user (device s) (user_Login user)); cbn [fst snd] in H;
    [discriminate |].
  unfold ret in H. injection H as <-. split; [reflexivity |].
  split; [intros k; cbn; rewrite F0; apply Hct |].
  exists (user_Pass u). split; [exact U5 | reflexivity].
Qed.

(** X22. What is created is listed back, as far as the listing goes. In
    a world where no call fails for a reason of the environment, a group
    just created by [MakeGroup] is the last entry of the next [GetGroups],
    with the declared name, skin, comment and policy, after the groups
    that were there; a user created by [MakeUser] is the last entry of
    [GetUsers] with its login, group, address and comment, and no listed
    account ever carries a password, an alias or a key; a schedule created
    by [MakeSchedule] is the last entry of [GetSchedules] with its name,
    start, interval, policy, comment and script text, while the
    [disabled] flag that was sent is not read back. A creation returns nil
    only for a name that was not on the device. *)
Theorem created_entry_is_listed (host : THost) (s : State) :
  calm s ->
  (forall group s1 s2 r,
      MakeGroup host group s = (s1, Ok tt) -> GetGroups host s1 = (s2, r) ->
      ~ In (group_Name group) (live_group_names s) /\
      r = Ok (live_groups (device s) ++ [group])%list) /\
  (forall user s1 s2 r,
      MakeUser host user s = (s1, Ok tt) -> GetUsers host s1 = (s2, r) ->
      ~ In (user_Login user) (live_logins s) /\
      exists old,
        r = Ok (old ++ [mkUser (user_Login user) "" (user_Group user)
                               (user_Address user) (user_Comment user) "" ""])%list /\
        map user_Login old = live_logins s /\
        Forall (fun u => user_Pass u = "" /\ user_Alias u = "" /\ user_Key u = "") old) /\
  (forall schedule s1 s2 r,
      MakeSchedule host schedule s = (s1, Ok tt) -> GetSchedules host s1 = (s2, r) ->
      ~ In (sched_Name schedule) (live_schedule_names s) /\
      exists old,
        r = Ok (old ++ [mkSchedule (sched_Name schedule) ""
                                   (sched_StartDate schedule)
                                   (sched_StartTime schedule)
                                   (sched_Interval schedule) (sched_Policy schedule)
                                   (sched_Comment schedule) "" ""
                                   (sched_OnEvent schedule)])%list /\
        map sched_Name old = live_schedule_names s /\
        Forall (fun c => sched_Disabled c = "") old).
Proof.
  intros Hc. split; [| split].
  - intros group s1 s2 r H1 H2.
    destruct (MakeGroup_ok _ _ _ _ Hc H1) as (Hn & Hc1 & D1).
    split; [intros X; apply has_group_names in X; congruence |].
    rewrite (listed_groups _ _ _ _ Hc1 H2), D1. reflexivity.
  - intros user s1 s2 r H1 H2.
    destruct (MakeUser_ok _ _ _ _ Hc H1) as (Hn & Hc1 & pass & _ & D1).
    split; [intros X; apply has_user_names in X; congruence |].
    rewrite (listed_users _ _ _ _ Hc1 H2), D1.
    cbn [live_users with_live_users]. rewrite map_app. cbn [map user_Login user_Group
                                                             user_Address user_Comment].
    eexists. split; [reflexivity |]. split.
    + unfold live_logins. rewrite map_map. reflexivity.
    + apply Forall_forall. intros u Hu. apply in_map_iff in Hu.
      destruct Hu as [x [<- _]]. auto.
  - intros schedule s1 s2 r H1 H2.
    destruct (MakeSchedule_ok _ _ _ _ Hc H1) as (Hn & Hc1 & D1).
    split; [intros X; apply has_schedule_names in X; congruence |].
    rewrite (listed_schedules _ _ _ _ Hc1 H2), D1.
    cbn [live_schedules with_live_schedules]. rewrite map_app.
    cbn [map sched_Name sched_StartDate sched_StartTime sched_Interval sched_Policy
             sched_Comment sched_OnEvent].
    eexists. split; [reflexivity |]. split.
    + unfold live_schedule_names. rewrite map_map. reflexivity.
    + apply Forall_forall. intros c Hc'. apply in_map_iff in Hc'.
      destruct Hc' as [x [<- _]]. reflexivity.
Qed.

Lemma created_entry_is_listed_witness :
  ~ In (group_Name group_full) (live_group_names world_stale) /\
  snd (GetGroups host_full (fst (MakeGroup host_full group_full world_stale)))
  = Ok (live_groups (device world_stale) ++ [group_full])%list.
Proof.
  assert (Hc : calm world_stale) by (intros k; reflexivity).
  destruct (created_entry_is_listed host_full world_stale Hc) as [G _].
  apply (G group_full (fst (MakeGroup host_full group_full world_stale))
           (fst (GetGroups host_full (fst (MakeGroup host_full group_full
                                                     world_stale))))).
  - vm_compute. reflexivity.
  - apply surjective_pairing.
Defined.

(** ** The end of a cycle *)

(** X23. [Disconnect] closes what is cached and nothing else, in the
    order control plane, file transfer, shell: the file-transfer session
    is closed before the shell session it runs over. It always returns
    nil, leaves no handle cached and does not touch the device; called
    again, it does nothing at all. *)
Theorem Disconnect_closes_in_order (host : THost) (s : State) :
  snd (Disconnect host s) = Ok tt /\
  (exists evs,
      trace (fst (Disconnect host s)) = (trace s ++ evs)%list /\
      map ev_call (non_log evs)
      = (map CApiClose (opt_list (api (connections s)))
         ++ map CSftpClose (opt_list (sftp (connections s)))
         ++ map CSshClose (opt_list (ssh (connections s))))%list) /\
  connections (fst (Disconnect host s)) = mkConnections None None None /\
  device (fst (Disconnect host s)) = device s /\
  Disconnect host (fst (Disconnect host s)) = (fst (Disconnect host s), Ok tt).
Proof.
  unfold Disconnect.
  destruct (connections s) as [c1 c2 c3] eqn:E. cbn [ssh sftp api] in *.
  destruct c1, c2, c3; cbn [opt_list map app];
    run_call; rewrite ?E; run_call; rewrite ?E; run_call; rewrite ?E; run_call;
    rewrite ?E; cbn [ssh sftp api];
    (split; [reflexivity |]);
    (split; [eexists; split;
                    [first [ rewrite <- ?app_assoc; cbn [app]; reflexivity
                           | symmetry; apply app_nil_r ]
                    | reflexivity] |]);
    (split; [reflexivity |]); (split; [reflexivity |]);
    do 4 (rewrite ?E; run_call); reflexivity.
Qed.

(** ** The export and the backup on the device *)

Lemma commands_app evs1 evs2 :
  commands (evs1 ++ evs2) = (commands evs1 ++ commands evs2)%list.
Proof. unfold commands. apply flat_map_app. Qed.

Lemma no_command_ret {A} (a : A) : no_command (ret a).
Proof.
  intros s s' r H. injection H as <- _. exists []. rewrite app_nil_r. auto.
Qed.

Lemma no_command_bind {A B} (m : M A) (f : A -> M B) :
  no_command m -> (forall a, no_command (f a)) -> no_command (bind m f).
Proof.
  intros Hm Hf s s' r E. apply bind_inv in E.
  destruct E as [[s1 [a [E1 E2]]] | [[e [E1 _]] | [w [E1 _]]]].
  - destruct (Hm _ _ _ E1) as [evs1 [T1 C1]].
    destruct (Hf _ _ _ _ E2) as [evs2 [T2 C2]].
    exists (evs1 ++ evs2)%list. rewrite T2, T1, app_assoc, commands_app, C1, C2. auto.
  - exact (Hm _ _ _ E1).
  - exact (Hm _ _ _ E1).
Qed.

Lemma no_command_cached (f : State -> option nat) (m : M nat) :
  no_command m ->
  no_command (fun s => match f s with None => m s | Some h => (s, Ok h) end).
Proof.
  intros Hm s s' r E. destruct (f s).
  - injection E as <- _. exists []. rewrite app_nil_r. auto.
  - exact (Hm _ _ _ E).
Qed.

Lemma no_command_one_call {A} c (m : M A) :
  one_call c m -> commands [mkEvent c None] = [] -> no_command m.
Proof.
  intros H C s s' r E. destruct (H _ _ _ E) as [o [T _]].
  exists [mkEvent c o]. split; [exact T |].
  unfold commands in *. cbn in *. destruct c; try reflexivity. discriminate.
Qed.

Lemma no_command_set (f : State -> tConnections) :
  no_command (fun s => (with_connections (f s) s, Ok tt)).
Proof.
  intros s s' r E. injection E as <- _. exists []. rewrite app_nil_r. auto.
Qed.

Lemma no_command_GetConnectionSSH host : no_command (GetConnectionSSH host).
Proof.
  unfold GetConnectionSSH. apply (no_command_cached (fun s => ssh (connections s))).
  apply no_command_bind;
    [exact (no_command_one_call _ _ (one_call_log _) eq_refl) | intros _].
  apply no_command_bind;
    [exact (no_command_one_call _ _ (one_call_ssh_Dial _ _ _) eq_refl) | intros h].
  apply no_command_bind; [apply no_command_set | intros _; apply no_command_ret].
Qed.

Lemma no_command_GetConnectionSFTP host : no_command (GetConnectionSFTP host).
Proof.
  unfold GetConnectionSFTP. apply (no_command_cached (fun s => sftp (connections s))).
  apply no_command_bind; [apply no_command_GetConnectionSSH | intros c].
  apply no_command_bind;
    [exact (no_command_one_call _ _ (one_call_log _) eq_refl) | intros _].
  apply no_command_bind;
    [exact (no_command_one_call _ _ (one_call_sftp_NewClient _) eq_refl) | intros h].
  apply no_command_bind; [apply no_command_set | intros _; apply no_command_ret].
Qed.

Lemma no_command_GetConnectionAPI host : no_command (GetConnectionAPI host).
Proof.
  unfold GetConnectionAPI. apply (no_command_cached (fun s => api (connections s))).
  apply no_command_bind;
    [exact (no_command_one_call _ _ (one_call_log _) eq_refl) | intros _].
  apply no_command_bind;
    [exact (no_command_one_call _ _ (one_call_routeros_Dial _ _ _) eq_refl)
    | intros h].
  apply no_command_bind; [apply no_command_set | intros _; apply no_command_ret].
Qed.

Lemma no_command_MakeDir host dir : no_command (MakeDir host dir).
Proof.
  unfold MakeDir. apply no_command_bind; [apply no_command_GetConnectionSFTP |].
  intros h. exact (no_command_one_call _ _ (one_call_sftp_MkdirAll _ _) eq_refl).
Qed.

Lemma MakeDir_ok host dir s s' :
  MakeDir host dir s = (s', Ok tt) ->
  fs_is_dir (remote_fs (device s')) (resolve dir) = true.
Proof.
  intros H. unfold MakeDir in H. next H E0 t0; try discriminate.
  apply sftp_MkdirAll_ok in H. destruct H as [_ M].
  exact (fs_mkdir_all_dir _ _ [] _ eq_refl M).
Qed.

(** What the device does with a file it is told to write. *)
Lemma device_write_inv p data d d' x :
  device_write p data d = (d', x) ->
  (exists e, x = inl e /\ d' = d) \/
  (x = inr [] /\ fs_is_dir (remote_fs d) (resolve p) = false /\
   d' = with_remote_fs (fs_put (remote_fs d) (resolve p) (NFile data)) d).
Proof.
  unfold device_write. intros H.
  destruct (fs_is_dir (remote_fs d) (resolve p)) eqn:D.
  - injection H as <- <-. left. eauto.
  - destruct (fs_is_dir (remote_fs d) (removelast (resolve p))).
    + injection H as <- <-. right. auto.
    + injection H as <- <-. left. eauto.
Qed.

Lemma fs_is_dir_put_file fs k data k' :
  fs_is_dir fs k = false -> fs_is_dir fs k' = true ->
  fs_is_dir (fs_put fs k (NFile data)) k' = true.
Proof.
  intros Hk Hk'. destruct k' as [| x k']; [reflexivity |].
  unfold fs_is_dir in *. rewrite fs_lookup_put_other; [exact Hk' |].
  intros E. rewrite E in Hk'. destruct k; congruence.
Qed.

(** [MkdirAll] adds directories on the way down and nothing below. *)
Lemma fs_mkdir_all_below todo :
  forall fs done fs' k,
    fs_mkdir_all fs done todo = Some fs' ->
    (List.length (done ++ todo) < List.length k)%nat ->
    fs_lookup fs' k = fs_lookup fs k.
Proof.
  induction todo as [| d todo IH]; intros fs done fs' k H L; cbn in H.
  - injection H as <-. reflexivity.
  - assert (L' : (List.length ((done ++ [d]) ++ todo) < List.length k)%nat).
    { rewrite <- app_assoc. exact L. }
    destruct (fs_lookup fs (done ++ [d])%list) as [[| data] |] eqn:E;
      try discriminate.
    + exact (IH _ _ _ _ H L').
    + rewrite (IH _ _ _ _ H L'), fs_lookup_app.
      destruct (fs_lookup fs k); [reflexivity |]. cbn.
      rewrite fpath_eqb_neq; [reflexivity |].
      intros X. subst k. rewrite !length_app in L. cbn in L. lia.
Qed.

Lemma MakeDir_effect host dir s s' r :
  MakeDir host dir s = (s', r) ->
  live_users (device s') = live_users (device s) /\
  live_groups (device s') = live_groups (device s) /\
  live_schedules (device s') = live_schedules (device s) /\
  (forall k n, fs_lookup (remote_fs (device s)) k = Some n ->
               fs_lookup (remote_fs (device s')) k = Some n).
Proof.
  intros H. unfold MakeDir in H. next H E0 t0.
  - destruct (same_world_GetConnectionSFTP host _ _ _ E0) as (D0 & _).
    rewrite <- D0. unfold sftp_MkdirAll in H. destruct r as [u | e | w].
    + file_call H. unfold tree_MkdirAll in H.
      destruct (fs_mkdir_all _ _ _) as [fs' |] eqn:M; injection H as <-;
        try discriminate.
      cbn. repeat split. intros k n L. exact (fs_mkdir_all_keeps _ _ _ _ _ _ M L).
    + file_call H; [repeat split; auto |]. unfold tree_MkdirAll in H.
      destruct (fs_mkdir_all _ _ _) as [fs' |]; injection H as <-; try discriminate.
      rewrite with_remote_fs_same. repeat split; auto.
    + destruct (extern_abort _ _ _ _ _ H).
  - destruct (same_world_GetConnectionSFTP host _ _ _ E0) as (D0 & _).
    rewrite D0. repeat split; auto.
  - destruct (returns_GetConnectionSFTP host _ _ _ E0).
Qed.

Lemma calm_MakeDir host dir s fs' :
  calm s ->
  fs_mkdir_all (remote_fs (device s)) [] (resolve dir) = Some fs' ->
  exists s', MakeDir host dir s = (s', Ok tt) /\ calm s' /\
             remote_fs (device s') = fs' /\
             live_users (device s') = live_users (device s) /\
             live_groups (device s') = live_groups (device s) /\
             live_schedules (device s') = live_schedules (device s).
Proof.
  intros Hc M. destruct (calm_GetConnectionSFTP host s Hc) as [s1 [h E]].
  destruct (same_world_GetConnectionSFTP host _ _ _ E) as (D & _ & _ & F).
  assert (Hc1 : calm s1) by (intros k; rewrite F; apply Hc).
  unfold MakeDir. rewrite (bind_ok _ _ _ _ _ E).
  unfold sftp_MkdirAll. rewrite (calm_extern _ _ _ Hc1).
  unfold on_remote, tree_MkdirAll. rewrite D, M.
  eexists. split; [reflexivity |]. split; [intros k; apply Hc1 |].
  cbn. repeat split.
Qed.

(** The shape [MakeExport] and [MakeBackup] share: the directory, the
    session, the command whose answer is the file written. *)
Lemma file_after_directory host dir name (content : Device -> string) sen
      s s' (r : res string) :
  (forall dv, api_exec sen dv = device_write name (content dv) dv) ->
  (forall dv1 dv2,
      live_users dv1 = live_users dv2 -> live_groups dv1 = live_groups dv2 ->
      live_schedules dv1 = live_schedules dv2 -> content dv1 = content dv2) ->
  (MakeDir host dir ;;
   connApi <- GetConnectionAPI host ;;
   api_Run connApi sen ;;
   ret name) s = (s', r) ->
  writes_file sen dir name (content (device s)) s s' r.
Proof.
  intros Hx Hc H. unfold writes_file. next H E0 t0.
  - units. destruct (no_command_MakeDir host dir _ _ _ E0) as [evs0 [T0 C0]].
    pose proof (MakeDir_ok _ _ _ _ E0) as D.
    destruct (MakeDir_effect _ _ _ _ _ E0) as (U0 & G0 & S0 & K0).
    nextv H E1 t1 h.
    + destruct (same_world_GetConnectionAPI host _ _ _ E1) as (D1 & _).
      destruct (no_command_GetConnectionAPI host _ _ _ E1) as [evs1 [T1 C1]].
      assert (T : forall o d,
                 trace (record (CApiRun sen) o (with_device d t1))
                 = (trace s ++ (evs0 ++ evs1 ++ [mkEvent (CApiRun sen) o]))%list).
      { intros o d. rewrite trace_record. cbn [with_device trace].
        rewrite T1, T0, <- !app_assoc. reflexivity. }
      assert (C : forall o,
                 commands (evs0 ++ evs1 ++ [mkEvent (CApiRun sen) o]) = [sen]).
      { intros o. rewrite !commands_app, C0, C1. reflexivity. }
      nextv H E2 t2 reply.
      * unfold ret in H. injection H as <- <-.
        apply api_Run_inv in E2. destruct E2 as [d [o [-> R]]].
        destruct R as [[_ [_ [_ R]]] | [_ [[e [_ [_ R]]] | [b [R _]]]]];
          try discriminate.
        rewrite Hx in R. apply device_write_inv in R.
        destruct R as [[e [R _]] | [_ [Nd ->]]]; [discriminate |].
        rewrite D1 in *. split.
        -- exists (evs0 ++ evs1 ++ [mkEvent (CApiRun sen) o])%list.
           split; [apply T |]. split; [| intros p _; apply C].
           right. split; [apply C |]. cbn.
           apply fs_is_dir_put_file; assumption.
        -- intros p Ep. injection Ep as <-. cbn. split; [reflexivity |].
           split.
           ++ rewrite fs_lookup_put_same. f_equal. f_equal.
              apply Hc; assumption.
           ++ intros k n Nk L. rewrite fs_lookup_put_other by exact Nk.
              apply K0. exact L.
      * subst r.
        apply api_Run_inv in E2. destruct E2 as [d [o [-> R]]].
        assert (d = device t1).
        { destruct R as [[_ [-> _]] | [_ [[e' [R _]] | [b [_ [_ R]]]]]];
            [reflexivity | | discriminate].
          rewrite Hx in R. apply device_write_inv in R.
          destruct R as [[e2 [_ ->]] | [R _]]; [reflexivity | discriminate]. }
        subst d. split; [| discriminate].
        exists (evs0 ++ evs1 ++ [mkEvent (CApiRun sen) o])%list.
        split; [apply T |]. split; [| discriminate].
        right. split; [apply C |]. cbn. rewrite D1. exact D.
      * apply api_Run_inv in E2. destruct E2 as [d [o [_ R]]].
        destruct R as [[_ [_ [_ R]]] | [_ [[e [_ [_ R]]] | [b [_ [_ R]]]]]];
          discriminate.
    + subst r. split; [| discriminate].
      destruct (no_command_GetConnectionAPI host _ _ _ E1) as [evs1 [T1 C1]].
      exists (evs0 ++ evs1)%list. rewrite T1, T0, app_assoc, commands_app, C0, C1.
      split; [reflexivity |]. split; [left; reflexivity | discriminate].
    + destruct (returns_GetConnectionAPI host _ _ _ E1).
  - subst r. split; [| discriminate].
    destruct (no_command_MakeDir host dir _ _ _ E0) as [evs0 [T0 C0]].
    exists evs0. split; [exact T0 |]. split; [left; exact C0 | discriminate].
  - subst r. split; [| discriminate].
    destruct (no_command_MakeDir host dir _ _ _ E0) as [evs0 [T0 C0]].
    exists evs0. split; [exact T0 |]. split; [left; exact C0 | discriminate].
Qed.

(** With nothing failing around it, the file is written whenever its
    directory can be made and its name is not that of a directory. *)
Lemma file_after_directory_calm host dir name (content : Device -> string) sen
      g s :
  (forall dv, api_exec sen dv = device_write name (content dv) dv) ->
  calm s ->
  fs_mkdir_all (remote_fs (device s)) [] (resolve dir) <> None ->
  resolve name = (resolve dir ++ [g])%list ->
  fs_is_dir (remote_fs (device s)) (resolve name) = false ->
  snd ((MakeDir host dir ;;
        connApi <- GetConnectionAPI host ;;
        api_Run connApi sen ;;
        ret name) s) = Ok name.
Proof.
  intros Hx Hc M Rn Nd.
  destruct (fs_mkdir_all (remote_fs (device s)) [] (resolve dir)) as [fs' |] eqn:Mk;
    [clear M | congruence].
  destruct (calm_MakeDir host dir s fs' Hc Mk) as [t0 [E0 [Hc0 [F0 _]]]].
  rewrite (bind_ok _ _ _ _ _ E0).
  destruct (calm_GetConnectionAPI host t0 Hc0) as [t1 [h E1]].
  destruct (same_world_GetConnectionAPI host _ _ _ E1) as (D1 & _ & _ & F1).
  assert (Hc1 : calm t1) by (intros k; rewrite F1; apply Hc0).
  rewrite (bind_ok _ _ _ _ _ E1). unfold bind.
  rewrite (calm_api_Run _ _ _ Hc1), Hx, D1. unfold device_write. rewrite F0.
  assert (X1 : fs_is_dir fs' (resolve name) = false).
  { rewrite Rn in *. unfold fs_is_dir in *.
    destruct (resolve dir ++ [g])%list as [| x l] eqn:El;
      [destruct (resolve dir); discriminate |].
    rewrite <- El in *.
    rewrite (fs_mkdir_all_below _ _ _ _ _ Mk); [exact Nd |].
    cbn [app]. rewrite length_app. cbn. lia. }
  assert (X2 : fs_is_dir fs' (removelast (resolve name)) = true).
  { rewrite Rn, removelast_last.
    exact (fs_mkdir_all_dir _ _ [] _ eq_refl Mk). }
  rewrite X1, X2. reflexivity.
Qed.

Lemma plain_name_ext f ext :
  plain_name f = true -> no_slash ext = true -> (3 <= String.length ext)%nat ->
  plain_name (f ++ ext) = true.
Proof.
  intros Hf He Hl. destruct (plain_name_parts f Hf) as (_ & _ & _ & S).
  assert (L : (3 <= String.length (f ++ ext))%nat)
    by (rewrite string_length_app; lia).
  unfold plain_name.
  destruct (f ++ ext =? "")%string eqn:E1;
    [apply String.eqb_eq in E1; rewrite E1 in L; cbn in L; lia |].
  destruct (f ++ ext =? ".")%string eqn:E2;
    [apply String.eqb_eq in E2; rewrite E2 in L; cbn in L; lia |].
  destruct (f ++ ext =? "..")%string eqn:E3;
    [apply String.eqb_eq in E3; rewrite E3 in L; cbn in L; lia |].
  cbn [negb andb]. unfold no_slash in *. rewrite list_ascii_app, existsb_app.
  apply negb_true_iff in S, He. rewrite S, He. reflexivity.
Qed.

(** The file of [d/f] with the extension [ext], as the two functions name
    it. *)
Lemma resolve_file_ext d f ext :
  no_dotdot d = true -> plain_name f = true ->
  no_slash ext = true -> (3 <= String.length ext)%nat ->
  resolve ((ToSlash (Dir (d ++ "/" ++ f)) ++ "/" ++ Base (d ++ "/" ++ f)) ++ ext)
  = (resolve d ++ [(f ++ ext)%string])%list /\
  resolve (ToSlash (Dir (d ++ "/" ++ f))) = resolve d.
Proof.
  intros Hd Hf He Hl. destruct (plain_name_parts f Hf) as (_ & _ & _ & S).
  rewrite (Base_join d f Hf), (Dir_join d f S). unfold ToSlash.
  destruct (resolve_Clean_slash d Hd) as [E N]. split; [| exact E].
  rewrite !append_assoc.
  rewrite (resolve_join _ (f ++ ext) N (plain_name_ext f ext Hf He Hl)), E.
  reflexivity.
Qed.

Lemma content_export dv1 dv2 :
  live_users dv1 = live_users dv2 -> live_groups dv1 = live_groups dv2 ->
  live_schedules dv1 = live_schedules dv2 -> export_text dv1 = export_text dv2.
Proof. intros U G S. unfold export_text. rewrite U, G, S. reflexivity. Qed.

Lemma content_backup dv1 dv2 :
  live_users dv1 = live_users dv2 -> live_groups dv1 = live_groups dv2 ->
  live_schedules dv1 = live_schedules dv2 -> backup_data dv1 = backup_data dv2.
Proof.
  intros U G S. unfold backup_data. rewrite (content_export dv1 dv2 U G S).
  reflexivity.
Qed.

Lemma api_exec_export file dv :
  api_exec ["/export"; "=terse"; "=file=" ++ file] dv
  = device_write (file ++ ".rsc") (export_text dv) dv.
Proof.
  change (api_exec ["/export"; "=terse"; "=file=" ++ file] dv)
    with (device_write (word_arg "file" ["=terse"; "=file=" ++ file] ++ ".rsc")
                       (export_text dv) dv).
  words. reflexivity.
Qed.

Lemma api_exec_backup file dv :
  api_exec ["/system/backup/save"; "=name=" ++ file] dv
  = device_write (file ++ ".backup") (backup_data dv) dv.
Proof.
  change (api_exec ["/system/backup/save"; "=name=" ++ file] dv)
    with (device_write (word_arg "name" ["=name=" ++ file] ++ ".backup")
                       (backup_data dv) dv).
  words. reflexivity.
Qed.

(** X24. [MakeExport] and [MakeBackup] have the device write a file and
    return its name. The command, [/export =terse =file=<file>] or
    [/system/backup/save =name=<file>] with [<file>] the path
    [Dir(path) + "/" + Base(path)], is sent at most once and only once the
    directory [Dir(path)] exists on the device. When a name is returned it
    is [<file>.rsc] (or [<file>.backup]), the command has been sent, the
    device holds the export (or the backup) of its state under that name
    and has lost no other entry. With nothing failing around it, for a
    file [f] of a directory [d] (no element [..]) that can be made and has
    no directory of the name of the file, both functions return the name:
    the entry [f.rsc] (or [f.backup]) of [d]. *)
Theorem export_writes_the_file (host : THost) (path : string) (s : State) :
  let file := ToSlash (Dir path) ++ "/" ++ Base path in
  (forall s' r,
      MakeExport host path s = (s', r) ->
      writes_file ["/export"; "=terse"; "=file=" ++ file] (ToSlash (Dir path))
                  (file ++ ".rsc") (export_text (device s)) s s' r) /\
  (forall s' r,
      MakeBackup host path s = (s', r) ->
      writes_file ["/system/backup/save"; "=name=" ++ file] (ToSlash (Dir path))
                  (file ++ ".backup") (backup_data (device s)) s s' r) /\
  (forall d f,
      path = d ++ "/" ++ f -> no_dotdot d = true -> plain_name f = true ->
      calm s ->
      fs_mkdir_all (remote_fs (device s)) [] (resolve d) <> None ->
      fs_is_dir (remote_fs (device s)) (resolve d ++ [(f ++ ".rsc")%string])%list
      = false ->
      fs_is_dir (remote_fs (device s)) (resolve d ++ [(f ++ ".backup")%string])%list
      = false ->
      snd (MakeExport host path s) = Ok (file ++ ".rsc") /\
      resolve (file ++ ".rsc") = (resolve d ++ [(f ++ ".rsc")%string])%list /\
      snd (MakeBackup host path s) = Ok (file ++ ".backup") /\
      resolve (file ++ ".backup") = (resolve d ++ [(f ++ ".backup")%string])%list).
Proof.
  intros file. split; [| split].
  - intros s' r H.
    exact (file_after_directory host _ _ export_text _ s s' r
             (api_exec_export file) content_export H).
  - intros s' r H.
    exact (file_after_directory host _ _ backup_data _ s s' r
             (api_exec_backup file) content_backup H).
  - intros d f -> Hd Hf Hc M N1 N2. subst file.
    destruct (resolve_file_ext d f ".rsc" Hd Hf eq_refl ltac:(cbn; lia)) as [R1 Rd].
    destruct (resolve_file_ext d f ".backup" Hd Hf eq_refl ltac:(cbn; lia))
      as [R2 _].
    split; [| split; [exact R1 | split; [| exact R2]]].
    + apply (file_after_directory_calm host _ _ export_text _ (f ++ ".rsc") s
               (api_exec_export _) Hc).
      * rewrite Rd. exact M.
      * rewrite R1, Rd. reflexivity.
      * rewrite R1. exact N1.
    + apply (file_after_directory_calm host _ _ backup_data _ (f ++ ".backup") s
               (api_exec_backup _) Hc).
      * rewrite Rd. exact M.
      * rewrite R2, Rd. reflexivity.
      * rewrite R2. exact N2.
Qed.

(** The export and the backup of a host's state into a directory that is
    not there yet. *)
Lemma export_writes_the_file_witness :
  snd (MakeExport host_full ("/exports" ++ "/" ++ "r1") world_all_well)
  = Ok ((ToSlash (Dir ("/exports" ++ "/" ++ "r1")) ++ "/"
         ++ Base ("/exports" ++ "/" ++ "r1")) ++ ".rsc") /\
  resolve ((ToSlash (Dir ("/exports" ++ "/" ++ "r1")) ++ "/"
            ++ Base ("/exports" ++ "/" ++ "r1")) ++ ".rsc")
  = (resolve "/exports" ++ [("r1" ++ ".rsc")%string])%list /\
  snd (MakeBackup host_full ("/exports" ++ "/" ++ "r1") world_all_well)
  = Ok ((ToSlash (Dir ("/exports" ++ "/" ++ "r1")) ++ "/"
         ++ Base ("/exports" ++ "/" ++ "r1")) ++ ".backup") /\
  resolve ((ToSlash (Dir ("/exports" ++ "/" ++ "r1")) ++ "/"
            ++ Base ("/exports" ++ "/" ++ "r1")) ++ ".backup")
  = (resolve "/exports" ++ [("r1" ++ ".backup")%string])%list.
Proof.
  apply (proj2 (proj2 (export_writes_the_file host_full
                         ("/exports" ++ "/" ++ "r1") world_all_well))
           "/exports" "r1").
  - reflexivity.
  - reflexivity.
  - reflexivity.
  - intros k. reflexivity.
  - vm_compute. discriminate.
  - reflexivity.
  - reflexivity.
Defined.

Example MakeExport_makes_the_directory_first :
  MakeExport host_full "/exports/r1" world_all_well
  = (fst (MakeExport host_full "/exports/r1" world_all_well), Ok "/exports/r1.rsc") /\
  commands (trace (fst (MakeExport host_full "/exports/r1" world_all_well)))
  = [["/export"; "=terse"; "=file=/exports/r1"]] /\
  remote_fs (device (fst (MakeExport host_full "/exports/r1" world_all_well)))
  = [(["exports"], NDir);
     (["exports"; "r1.rsc"], NFile "/user add name=admin")].
Proof. vm_compute. repeat split; reflexivity. Qed.

Example MakeBackup_after_a_failed_directory :
  snd (MakeBackup host_full "/exports/r1"
         (quiet_world (mkDevice [admin] [] [] [] [(["exports"], NFile "x")]) []
                      (fun _ => false)))
  = Err "not a directory" /\
  commands (trace (fst (MakeBackup host_full "/exports/r1"
         (quiet_world (mkDevice [admin] [] [] [] [(["exports"], NFile "x")]) []
                      (fun _ => false))))) = [].
Proof. vm_compute. split; reflexivity. Qed.
